(* ===== verification/_CoqProject ===== *)
-Q . S2P
Prelude.v
GoJson.v
Types.v
Config.v
Bolt.v
RaftLog.v
LogCorrect.v
LeaderState.v
Storage.v
EngineCorrect.v
RaftNode.v
RaftNodeSpec.v
Frames.v
Sample.v
RaftNodeProps.v
RaftNodeCorrect.v
Replication.v
Lifecycle.v
Snapshots.v
StateMachine.v
Membership.v
Transaction.v
Api.v
Wire.v
ClientWrite.v
Metrics.v
Main.v
System.v
Exec.v
Scenarios.v
ElectionSafety.v
