(* ===== verification/Prelude.v ===== *)
(** * RaftrixDB: a verification development

    RaftrixDB (under src/) is a replicated key/value store in Go.  A node loads a
    configuration, opens a storage engine and a persistent Raft log, runs the Raft
    protocol against its peers over HTTP/JSON, and serves clients on the same HTTP
    server.  This library translates that code into executable definitions and
    proves what it does.

    ** The program and the files

    Data and third-party code.
    - [Prelude]: machine integers ([uint64] as [N] with wrapping operators, [int] as
      [Z]), byte strings, the state-and-panic monad [M] of critical sections with
      its rules [wp] (it ends in), [wlp] (if it does not panic) and [wpe] (it ends in,
      or panics with), and the tactics and lemmas the other files share.
    - [GoJson]: encoding/json and encoding/base64 as far as the program uses them: a
      printer, a parser with Go's replacement of invalid UTF-8, and their round
      trip.
    - [Types]: src/pkg/types/types.go, the messages with their JSON codecs (classes
      [JsonCodec], [JsonLaws], [JsonRange]) and the program's error values.
    - [Bolt]: bbolt is a parameter, the class [Bolt] with the documented behaviour in
      [BoltLaws].  The laws say nothing of a cursor that is moved after a deletion
      under it, which the log does and the documentation warns of; the theorems on
      truncation and compaction allow whatever it then returns.  [BoltReliable]
      (commits do not fail) is separate, and a theorem that needs it says so.
      [MapBolt] is a model of all of them.

    Components.
    - [Config]: src/config/config.go.
    - [RaftLog]: src/internal/consensus/log.go; operations that write, and the reads
      as the node calls them ([log_Get], [log_LastIndex], ...), return an outcome,
      since a missing bucket or a short key panics.  [LeaderState]: state.go there.
    - [Storage]: src/internal/storage, the class [Engine] with [EngineLaws], the
      in-memory engine (whose map can be nil) and the bbolt engine.
    - [RaftNode]: src/internal/consensus/raft.go and snapshot.go.  The record
      [RaftNode] is the struct guarded by [n.mu]; each critical section is one
      computation; goroutines the code starts are recorded as tasks, channels as
      buffers; an RPC is split into the section that prepares it and the section
      that handles its reply ([startElection_begin], [_reply], [_end];
      [replicateToPeer_prepare], [_append_reply], [_snapshot_reply];
      [Propose_begin], [_end]; [takeSnapshot_data], [_commit]).
    - [Membership]: src/internal/cluster; the members are cells of a heap that the
      transport and the tracker share.
    - [Transaction]: src/internal/transaction, against the interface [Proposer].
    - [Api]: src/pkg/api/v1/kvstore.go, the handlers, the routes as [http.ServeMux]
      matches them (escaped path, redirect when it is not clean) and the life of the
      server.  [Metrics]: src/internal/metrics, against the interface [Registry].
      [Main]: src/cmd/keystore/main.go, with its deferred calls as a trace.
    - [System]: the cluster, a step relation over processes and a network that loses,
      repeats and reorders messages, with crashes and restarts.  A process is a node,
      its event loop and its goroutines; a goroutine that was started runs once, a
      reply goes to the call it answers, a tick needs a timer that runs.  [Exec]: an
      interpreter of schedules whose runs are executions of [System].

    ** What the theorems show

    - The log ([LogCorrect]): any sequence of log operations, any of them failing,
      refines an abstract log, whose truncations and compactions remove the first
      entry they meet and, depending on the cursor, others; range reads.
    - The engines ([EngineCorrect]): both engines give the same answers to the same
      calls, and snapshots round trip.
    - The handlers ([RaftNodeSpec], [RaftNodeProps], [RaftNodeCorrect]): the node's
      invariant is kept by every section; when a vote is given; what AppendEntries
      does on every branch; how the commit index moves; that back-off ends.
    - Their composition: a replication round copies the log ([Replication]); whole
      elections, timeouts, proposals, and when a handler can panic ([Lifecycle]);
      snapshots sent and installed ([Snapshots]); RPCs as calls of the other node's
      handler, and the key/value interface ([Wire]); a client's write from the HTTP
      request to the state machine and back ([ClientWrite]).
    - The state machine ([StateMachine]): applying the log runs exactly the committed
      commands and answers exactly their clients, also when writes of the engine
      fail; without such failures the result is that of the commands on a map, and
      the same on all replicas.
    - The cluster ([ElectionSafety]): in every execution of a cluster of odd size whose
      databases commit, one leader per term at most, and votes survive crashes.
    - The environment: health records, single RPCs, transactions, loading,
      registration of metrics, acquisition and release of resources in [run] and the
      one it can lose.
    - What goes wrong, also as theorems: an entry that conflicts is dropped
      ([AppendEntries_conflict_dropped]) and so a committed write can be lost
      ([lost_write]); two leaders of one term with four nodes ([split_brain]); a
      single node never leads; the compacted log forgets its end; a restarted leader
      has no snapshot to send; a null snapshot and a late snapshot reply panic.

    ** Bounds and fuel

    The loops of the Go code that are not structural take fuel: [conflict_loop] the
    index it starts from, [commit_loop] the distance from the last index to the
    commit index, [apply_loop] the number of entries to apply, [getRange_loop] two
    more than the width of the range, [delete_loop] one more than the number of keys
    of the bucket.  The first four are at least the number of iterations the Go loop
    can make, and the theorems on these loops are stated for the definitions with
    that fuel.  A deletion loop whose cursor does not come back to a key it left is
    also done by then; a longer one, which the laws do not exclude, is not followed
    and ends in the outcome [PanicCursor], which no theorem assumes away.  Integers
    wrap at 64 bits; theorems that need an index not to wrap say so, and
    [election_safety] bounds the number of steps by 2^64 because terms are counted
    in 64 bits.

    ** Not modelled

    - Log lines (slog), response headers, the link in the body of a redirect, JSON
      error texts, and wall-clock time: a
      timer is armed with a duration and may fire at any moment.
    - Data races between critical sections are the interleavings of [System]; the
      memory model of Go is not.  [handleStatus] reads one state although the Go code
      takes the lock once per field.
    - net/http, os, signals, YAML and Prometheus are parameters of the definitions
      that use them; TLS, connection pooling and the request for [*] are left out.
    - A critical section that panics is not a step of [System], and a crash happens
      between two sections: a panic in a handler, which net/http recovers from, and a
      crash inside a section are not followed there.
    - src/proto (a gRPC schema no code uses), the deployment files, and the
      integration test, which is a client of the HTTP interface. *)

From stdpp Require Export prelude gmap strings list sorting.
From Stdlib Require Export Strings.Byte.
From Stdlib Require Import Lia ZArith NArith.

Set Default Goal Selector "!".

(** [lia] on goals with quotients and remainders by constants. *)
Ltac divlia := zify; Z.to_euclidean_division_equations; lia.

(** ** Machine integers

    Go's [uint64] is an [N] below [two64]; the arithmetic operators wrap. *)

Definition two64 : N := 18446744073709551616.
Definition u64_ok (n : N) : Prop := (n < two64)%N.
Definition u64_add (a b : N) : N := ((a + b) mod two64)%N.
Definition u64_sub (a b : N) : N := ((a + two64 - b) mod two64)%N.

(** Go's [int] on the 64-bit targets of the build is a [Z] reduced to the
    signed range. *)
Definition two63 : Z := 9223372036854775808.
Definition i64_wrap (z : Z) : Z := ((z + two63) mod (2 * two63) - two63)%Z.
Definition i64_ok (z : Z) : Prop := (- two63 <= z < two63)%Z.

Declare Scope u64_scope.
Delimit Scope u64_scope with u64.
Notation "a + b" := (u64_add a b) : u64_scope.
Notation "a - b" := (u64_sub a b) : u64_scope.

Lemma u64_add_small a b : (a + b < two64)%N -> u64_add a b = (a + b)%N.
Proof. unfold u64_add. intros. by apply N.mod_small. Qed.

Lemma u64_sub_small a b : (b <= a)%N -> u64_ok a -> u64_sub a b = (a - b)%N.
Proof.
  unfold u64_sub, u64_ok. intros.
  replace (a + two64 - b)%N with ((a - b) + 1 * two64)%N by lia.
  rewrite N.Div0.mod_add. apply N.mod_small. lia.
Qed.

Lemma u64_add_ok a b : u64_ok (u64_add a b).
Proof. unfold u64_ok, u64_add. apply N.mod_lt. done. Qed.

Lemma u64_sub_lt a : (0 < a)%N -> (u64_sub a 1 < a)%N.
Proof.
  intros Ha. unfold u64_sub. replace (a + two64 - 1)%N with (a - 1 + 1 * two64)%N by (unfold two64; lia).
  rewrite N.Div0.mod_add. pose proof (N.Div0.mod_le (a - 1) two64). lia.
Qed.

Lemma u64_sub_ok a b : u64_ok (u64_sub a b).
Proof. unfold u64_ok, u64_sub. apply N.mod_lt. done. Qed.

Lemma i64_wrap_small z : i64_ok z -> i64_wrap z = z.
Proof.
  unfold i64_ok, i64_wrap. intros. rewrite Z.mod_small; unfold two63 in *; lia.
Qed.

Lemma i64_wrap_ok z : i64_ok (i64_wrap z).
Proof.
  unfold i64_ok, i64_wrap.
  pose proof (Z.mod_pos_bound (z + two63) (2 * two63)). unfold two63 in *. lia.
Qed.

Create HintDb u64.
#[export] Hint Resolve u64_add_ok u64_sub_ok : u64.

(** ** Bytes

    A Go [[]byte] is a [list byte]; a nil slice and an empty one are the same
    list (the program never tells them apart after a read). *)

Abbreviation bytes := (list byte).

#[export] Instance byte_eq_dec : EqDecision byte := Byte.byte_eq_dec.

#[export] Instance byte_countable : Countable byte :=
  inj_countable Byte.to_N Byte.of_N Byte.of_to_N.

(** The byte of a number, reduced modulo 256 as Go's [byte(x)] conversion. *)
Definition byte_of (n : N) : byte := default x00 (Byte.of_N (n mod 256)).

Lemma byte_of_to_N n : (n < 256)%N -> Byte.to_N (byte_of n) = n.
Proof.
  intros Hn. unfold byte_of. rewrite (N.mod_small _ _ Hn).
  destruct (Byte.of_N n) as [b|] eqn:E; simpl.
  - by apply Byte.to_of_N.
  - apply Byte.of_N_None_iff in E. lia.
Qed.

Lemma byte_to_N_inj b c : Byte.to_N b = Byte.to_N c -> b = c.
Proof.
  intros H. apply (f_equal Byte.of_N) in H. rewrite !Byte.of_to_N in H. by injection H.
Qed.

Lemma byte_to_N_lt b : (Byte.to_N b < 256)%N.
Proof. pose proof (Byte.to_N_bounded b). lia. Qed.

(** [bytes.Compare(a, b) < 0]: the order in which bbolt keeps its keys. *)
Fixpoint bytes_ltb (a b : bytes) : bool :=
  match a, b with
  | [], [] => false
  | [], _ :: _ => true
  | _ :: _, [] => false
  | x :: a', y :: b' =>
      (Byte.to_N x <? Byte.to_N y)%N ||
      ((Byte.to_N x =? Byte.to_N y)%N && bytes_ltb a' b')
  end.

Definition bytes_lt (a b : bytes) : Prop := bytes_ltb a b = true.

#[export] Instance bytes_lt_dec a b : Decision (bytes_lt a b).
Proof. unfold bytes_lt. apply _. Defined.

Lemma bytes_lt_irrefl a : ~ bytes_lt a a.
Proof.
  unfold bytes_lt. induction a as [|x a IH]; simpl; [done|].
  rewrite N.ltb_irrefl, N.eqb_refl. done.
Qed.

Lemma bytes_lt_trans a b c : bytes_lt a b -> bytes_lt b c -> bytes_lt a c.
Proof.
  unfold bytes_lt. revert b c.
  induction a as [|x a IH]; intros [|y b] [|z c]; simpl; try done.
  rewrite !orb_true_iff, !andb_true_iff, !N.ltb_lt, !N.eqb_eq.
  intros [?|[? ?]] [?|[? ?]]; [left; lia.. | right; split; [lia|eauto]].
Qed.

Lemma bytes_lt_total a b : bytes_lt a b \/ a = b \/ bytes_lt b a.
Proof.
  unfold bytes_lt. revert b.
  induction a as [|x a IH]; intros [|y b]; simpl; auto.
  rewrite !orb_true_iff, !andb_true_iff, !N.ltb_lt, !N.eqb_eq.
  destruct (N.lt_trichotomy (Byte.to_N x) (Byte.to_N y)) as [?|[E|?]]; auto.
  apply byte_to_N_inj in E. subst y.
  destruct (IH b) as [?|[->|?]]; auto.
Qed.

(** ** Big-endian encoding of 64-bit integers ([encoding/binary])

    [BigEndian.PutUint64] writes the most significant byte first. *)
Fixpoint be_split (n : nat) (w : N) : bytes :=
  match n with
  | O => []
  | S n => be_split n (w / 256)%N ++ [byte_of (w mod 256)%N]
  end.

Definition be_step (acc : N) (b : byte) : N := (acc * 256 + Byte.to_N b)%N.
Definition be_combine (l : bytes) : N := foldl be_step 0%N l.

Lemma be_split_length n w : length (be_split n w) = n.
Proof. revert w. induction n; intros w; simpl; [done|]. rewrite length_app, IHn. simpl. lia. Qed.

Lemma be_combine_app l b : be_combine (l ++ [b]) = (be_combine l * 256 + Byte.to_N b)%N.
Proof. unfold be_combine. by rewrite foldl_app. Qed.

Lemma be_combine_split n w : (w < 256 ^ N.of_nat n)%N -> be_combine (be_split n w) = w.
Proof.
  revert w. induction n as [|n IH]; intros w Hw.
  - change (256 ^ N.of_nat 0)%N with 1%N in Hw. unfold be_combine. simpl. lia.
  - simpl. rewrite be_combine_app, byte_of_to_N by (apply N.mod_lt; done).
    rewrite IH.
    + pose proof (N.Div0.div_mod w 256). lia.
    + apply N.Div0.div_lt_upper_bound.
      rewrite Nat2N.inj_succ, N.pow_succ_r' in Hw. lia.
Qed.

Lemma bytes_ltb_snoc a b x y :
  length a = length b ->
  bytes_ltb (a ++ [x]) (b ++ [y]) =
  bytes_ltb a b || (bool_decide (a = b) && (Byte.to_N x <? Byte.to_N y)%N).
Proof.
  revert b. induction a as [|u a IH]; intros [|v b] Hlen; simpl in *; try lia.
  - rewrite andb_false_r, orb_false_r. done.
  - rewrite IH by lia.
    destruct (N.ltb_spec (Byte.to_N u) (Byte.to_N v)) as [?|?]; simpl; [done|].
    destruct (N.eqb_spec (Byte.to_N u) (Byte.to_N v)) as [E|E]; simpl.
    + apply byte_to_N_inj in E. subst v. f_equal.
      destruct (decide (a = b)) as [->|Hne].
      * rewrite !bool_decide_eq_true_2; done.
      * rewrite !bool_decide_eq_false_2; [done|congruence|done].
    + rewrite bool_decide_eq_false_2; [done|congruence].
Qed.

(** Byte order of the encodings is numeric order of the integers. *)
Lemma be_split_lt n v w :
  (v < 256 ^ N.of_nat n)%N -> (w < 256 ^ N.of_nat n)%N ->
  bytes_lt (be_split n v) (be_split n w) <-> (v < w)%N.
Proof.
  revert v w. induction n as [|n IH]; intros v w Hv Hw.
  - change (256 ^ N.of_nat 0)%N with 1%N in *. unfold bytes_lt. simpl. split; [done|lia].
  - unfold bytes_lt in *. simpl. rewrite bytes_ltb_snoc by (by rewrite !be_split_length).
    rewrite Nat2N.inj_succ, N.pow_succ_r' in Hv, Hw.
    assert (v / 256 < 256 ^ N.of_nat n)%N by (apply N.Div0.div_lt_upper_bound; lia).
    assert (w / 256 < 256 ^ N.of_nat n)%N by (apply N.Div0.div_lt_upper_bound; lia).
    rewrite orb_true_iff, andb_true_iff, bool_decide_eq_true, N.ltb_lt, IH by done.
    rewrite !byte_of_to_N by (apply N.mod_lt; done).
    assert (be_split n (v / 256) = be_split n (w / 256) -> v / 256 = w / 256)%N as Hinj.
    { intros E. apply (f_equal be_combine) in E. by rewrite !be_combine_split in E. }
    clear IH Hv Hw. generalize dependent (256 ^ N.of_nat n)%N. intros _ _ _. split.
    + intros [?|[E%Hinj ?]]; divlia.
    + intros ?. destruct (decide (v / 256 < w / 256)%N); [by left|right].
      assert (v / 256 = w / 256)%N as -> by divlia. split; [done|divlia].
Qed.

(** ** The state-and-panic monad of the handlers

    A critical section of the Go code is a function from the state it holds the
    lock of to either a result with the new state, or a run-time panic. *)

Inductive panic :=
| PanicIntn            (* rand.Intn called with a non-positive bound *)
| PanicNilDeref        (* nil pointer dereference *)
| PanicClosedChan      (* close of a closed channel *)
| PanicBlocked         (* a send that blocks while the lock is held *)
| PanicNilMap          (* assignment to an entry of a nil map *)
| PanicRegister        (* a metric the registry refuses *)
| PanicIndex           (* index out of range *)
| PanicCursor.         (* no Go panic: a loop over a cursor that comes back to keys
                          it has left, which is not followed to its end *)

Inductive outcome (A : Type) :=
| Done (a : A)
| Panic (p : panic).
Arguments Done {A} a.
Arguments Panic {A} p.

Definition M (S A : Type) : Type := S -> outcome (A * S).

Section monad.
Context {S : Type}.

Definition ret {A} (a : A) : M S A := fun s => Done (a, s).
Definition bind {A B} (m : M S A) (k : A -> M S B) : M S B := fun s =>
  match m s with
  | Done (a, s') => k a s'
  | Panic p => Panic p
  end.
Definition get : M S S := fun s => Done (s, s).
Definition gets {A} (f : S -> A) : M S A := fun s => Done (f s, s).
Definition modify (f : S -> S) : M S unit := fun s => Done (tt, f s).
Definition throw {A} (p : panic) : M S A := fun _ => Panic p.
Definition when (b : bool) (m : M S unit) : M S unit := if b then m else ret tt.

(** [wp m Q s]: run on [s], [m] does not panic and ends in [Q]. *)
Definition wp {A} (m : M S A) (Q : A -> S -> Prop) (s : S) : Prop :=
  match m s with
  | Done (a, s') => Q a s'
  | Panic _ => False
  end.

Lemma wp_ret {A} (a : A) Q s : Q a s -> wp (ret a) Q s.
Proof. done. Qed.

Lemma wp_bind {A B} (m : M S A) (k : A -> M S B) Q s :
  wp m (fun a s' => wp (k a) Q s') s -> wp (bind m k) Q s.
Proof. unfold wp, bind. by destruct (m s) as [[a s']|]. Qed.

Lemma wp_get Q s : Q s s -> wp get Q s.
Proof. done. Qed.

Lemma wp_gets {A} (f : S -> A) Q s : Q (f s) s -> wp (gets f) Q s.
Proof. done. Qed.

Lemma wp_modify f Q s : Q tt (f s) -> wp (modify f) Q s.
Proof. done. Qed.

Lemma wp_when b m Q s :
  (b = true -> wp m Q s) -> (b = false -> Q tt s) -> wp (when b m) Q s.
Proof. destruct b; intros H1 H2; [by apply H1|by apply H2]. Qed.

Lemma wp_mono {A} (m : M S A) (Q Q' : A -> S -> Prop) s :
  wp m Q s -> (forall a s', Q a s' -> Q' a s') -> wp m Q' s.
Proof. unfold wp. destruct (m s) as [[a s']|]; auto. Qed.

Lemma wp_and {A} (m : M S A) (P Q : A -> S -> Prop) s :
  wp m P s -> wp m Q s -> wp m (fun a s' => P a s' /\ Q a s') s.
Proof. unfold wp. by destruct (m s) as [[a s']|]. Qed.

Lemma wp_run {A} (m : M S A) Q s : wp m Q s <-> exists a s', m s = Done (a, s') /\ Q a s'.
Proof.
  unfold wp. destruct (m s) as [[a s']|]; split; try done; [by eauto|..].
  - intros (? & ? & [= <- <-] & ?). done.
  - intros (? & ? & ? & ?). done.
Qed.

Lemma bind_done {A B} (m : M S A) (k : A -> M S B) s a s' : m s = Done (a, s') -> bind m k s = k a s'.
Proof. unfold bind. by intros ->. Qed.

(** [wlp m Q s]: if [m] does not panic on [s], it ends in [Q]. *)
Definition wlp {A} (m : M S A) (Q : A -> S -> Prop) (s : S) : Prop :=
  match m s with
  | Done (a, s') => Q a s'
  | Panic _ => True
  end.

Lemma wlp_bind {A B} (m : M S A) (k : A -> M S B) Q s :
  wlp m (fun a s' => wlp (k a) Q s') s -> wlp (bind m k) Q s.
Proof. unfold wlp, bind. by destruct (m s) as [[a s']|]. Qed.

Lemma wlp_wp {A} (m : M S A) Q s : wp m Q s -> wlp m Q s.
Proof. unfold wp, wlp. by destruct (m s) as [[a s']|]. Qed.

Lemma wlp_mono {A} (m : M S A) (Q Q' : A -> S -> Prop) s :
  wlp m Q s -> (forall a s', Q a s' -> Q' a s') -> wlp m Q' s.
Proof. unfold wlp. destruct (m s) as [[a s']|]; auto. Qed.

Lemma wlp_elim {A} (m : M S A) Q s a s' : wlp m Q s -> m s = Done (a, s') -> Q a s'.
Proof. unfold wlp. intros H E. by rewrite E in H. Qed.

(** [wpe m Q R s]: run on [s], [m] ends in [Q], or panics with [R]. *)
Definition wpe {A} (m : M S A) (Q : A -> S -> Prop) (R : panic -> Prop) (s : S) : Prop :=
  match m s with
  | Done (a, s') => Q a s'
  | Panic p => R p
  end.

Lemma wpe_bind {A B} (m : M S A) (k : A -> M S B) Q R s :
  wpe m (fun a s' => wpe (k a) Q R s') R s -> wpe (bind m k) Q R s.
Proof. unfold wpe, bind. by destruct (m s) as [[a s']|]. Qed.

Lemma wpe_wp {A} (m : M S A) Q R s : wp m Q s -> wpe m Q R s.
Proof. unfold wp, wpe. by destruct (m s) as [[a s']|]. Qed.

Lemma wpe_mono {A} (m : M S A) (Q Q' : A -> S -> Prop) R s :
  wpe m Q R s -> (forall a s', Q a s' -> Q' a s') -> wpe m Q' R s.
Proof. unfold wpe. destruct (m s) as [[a s']|]; auto. Qed.

Lemma wpe_elim {A} (m : M S A) Q R s a s' : wpe m Q R s -> m s = Done (a, s') -> Q a s'.
Proof. unfold wpe. intros H E. by rewrite E in H. Qed.

Lemma wpe_panic {A} (m : M S A) Q R s p : wpe m Q R s -> m s = Panic p -> R p.
Proof. unfold wpe. intros H E. by rewrite E in H. Qed.

Lemma wpe_wlp {A} (m : M S A) Q R s : wpe m Q R s -> wlp m Q s.
Proof. unfold wpe, wlp. by destruct (m s) as [[a s']|]. Qed.

Lemma wp_wlp {A} (m : M S A) (P Q : A -> S -> Prop) s :
  wp m P s -> wlp m Q s -> wp m (fun a s' => P a s' /\ Q a s') s.
Proof. unfold wp, wlp. by destruct (m s) as [[a s']|]. Qed.

Lemma wp_elim {A} (m : M S A) Q s a s' : wp m Q s -> m s = Done (a, s') -> Q a s'.
Proof. unfold wp. intros H E. by rewrite E in H. Qed.

End monad.

Declare Scope go_scope.
Delimit Scope go_scope with go.
Notation "x <- m ;; k" := (bind m (fun x => k))
  (at level 100, m at next level, right associativity) : go_scope.
Notation "m ;; k" := (bind m (fun _ => k))
  (at level 100, right associativity) : go_scope.

(** One symbolic-execution step of a [wp] goal. *)
Ltac wp_step :=
  lazymatch goal with
  | |- wp (bind _ _) _ _ => apply wp_bind
  | |- wp (ret _) _ _ => apply wp_ret
  | |- wp get _ _ => apply wp_get
  | |- wp (gets _) _ _ => apply wp_gets
  | |- wp (modify _) _ _ => apply wp_modify
  | |- wp (when _ _) _ _ => apply wp_when; intros ?
  | |- wp (if ?b then _ else _) _ _ => destruct b eqn:?
  | |- wp (match ?x with _ => _ end) _ _ => destruct x eqn:?
  | |- wp (let x := _ in _) _ _ => intro
  | |- wlp (bind _ _) _ _ => apply wlp_bind
  | |- wlp (if ?b then _ else _) _ _ => destruct b eqn:?
  | |- wlp (match ?x with _ => _ end) _ _ => destruct x eqn:?
  | |- wlp (when _ _) _ _ => apply wlp_wp
  | |- wlp (ret _) _ _ => apply wlp_wp, wp_ret
  | |- wlp get _ _ => apply wlp_wp, wp_get
  | |- wlp (gets _) _ _ => apply wlp_wp, wp_gets
  | |- wlp (modify _) _ _ => apply wlp_wp, wp_modify
  | |- wpe (bind _ _) _ _ _ => apply wpe_bind
  | |- wpe (if ?b then _ else _) _ _ _ => destruct b eqn:?
  | |- wpe (match ?x with _ => _ end) _ _ _ => destruct x eqn:?
  | |- wpe (when _ _) _ _ _ => apply wpe_wp
  | |- wpe (ret _) _ _ _ => apply wpe_wp, wp_ret
  | |- wpe get _ _ _ => apply wpe_wp, wp_get
  | |- wpe (gets _) _ _ _ => apply wpe_wp, wp_gets
  | |- wpe (modify _) _ _ _ => apply wpe_wp, wp_modify
  end.
Ltac wp_steps := repeat (wp_step; simpl).

(** Boolean comparisons on [N] and [Z] as propositions. *)
Ltac bool_props :=
  repeat match goal with
  | H : (_ <? _)%N = true |- _ => apply N.ltb_lt in H
  | H : (_ <? _)%N = false |- _ => apply N.ltb_ge in H
  | H : (_ <=? _)%N = true |- _ => apply N.leb_le in H
  | H : (_ <=? _)%N = false |- _ => apply N.leb_gt in H
  | H : (_ =? _)%N = true |- _ => apply N.eqb_eq in H
  | H : (_ =? _)%N = false |- _ => apply N.eqb_neq in H
  | H : (_ <? _)%Z = true |- _ => apply Z.ltb_lt in H
  | H : (_ <? _)%Z = false |- _ => apply Z.ltb_ge in H
  | H : (_ <=? _)%Z = true |- _ => apply Z.leb_le in H
  | H : (_ <=? _)%Z = false |- _ => apply Z.leb_gt in H
  | H : (_ =? _)%Z = true |- _ => apply Z.eqb_eq in H
  | H : (_ =? _)%Z = false |- _ => apply Z.eqb_neq in H
  | H : negb _ = true |- _ => apply negb_true_iff in H
  | H : negb _ = false |- _ => apply negb_false_iff in H
  | H : _ && _ = true |- _ => apply andb_true_iff in H as [? ?]
  | H : _ || _ = false |- _ => apply orb_false_iff in H as [? ?]
  | H : bool_decide _ = true |- _ => apply bool_decide_eq_true in H
  | H : bool_decide _ = false |- _ => apply bool_decide_eq_false in H
  end.
