(* ===== verification/GoJson.v ===== *)
(** * The part of Go's [encoding/json] and [encoding/base64] the program uses

    The program stores log entries, metadata and snapshots as JSON text in
    bbolt and sends its RPCs as JSON bodies.  This file models the standard
    library's encoder and decoder at the level of bytes: string quoting with
    the replacement of invalid UTF-8, unsigned numbers, arrays, objects,
    base64 for byte slices, and the decoding of object members into struct
    fields.  The main results are [parse_print] (decoding an encoded value
    gives the value back, with its strings sanitised) and
    [base64_roundtrip]. *)

From S2P Require Import Prelude.
From Stdlib Require Import Lia ZArith NArith.

Local Open Scope byte_scope.

(** ** UTF-8 (package [unicode/utf8]) *)

Module Utf8.

Definition in_range (lo hi : N) (b : byte) : bool :=
  ((lo <=? Byte.to_N b) && (Byte.to_N b <=? hi))%N.

Definition cont (b : byte) : bool := in_range 0x80 0xBF b.

Definition seq2 (b0 b1 : byte) : bool := in_range 0xC2 0xDF b0 && cont b1.

Definition seq3 (b0 b1 b2 : byte) : bool :=
  ((in_range 0xE0 0xE0 b0 && in_range 0xA0 0xBF b1)
   || (in_range 0xE1 0xEC b0 && cont b1)
   || (in_range 0xED 0xED b0 && in_range 0x80 0x9F b1)
   || (in_range 0xEE 0xEF b0 && cont b1)) && cont b2.

Definition seq4 (b0 b1 b2 b3 : byte) : bool :=
  ((in_range 0xF0 0xF0 b0 && in_range 0x90 0xBF b1)
   || (in_range 0xF1 0xF3 b0 && cont b1)
   || (in_range 0xF4 0xF4 b0 && in_range 0x80 0x8F b1)) && cont b2 && cont b3.

(** One decoded rune: its bytes, or a byte that starts no valid sequence. *)
Inductive chunk :=
| Good (bs : bytes)
| Bad.

(** [utf8.DecodeRune] on [b0 :: s]. *)
Definition next_chunk (b0 : byte) (s : bytes) : chunk * bytes :=
  if in_range 0 0x7F b0 then (Good [b0], s) else
  match s with
  | b1 :: s1 =>
      if seq2 b0 b1 then (Good [b0; b1], s1) else
      match s1 with
      | b2 :: s2 =>
          if seq3 b0 b1 b2 then (Good [b0; b1; b2], s2) else
          match s2 with
          | b3 :: s3 => if seq4 b0 b1 b2 b3 then (Good [b0; b1; b2; b3], s3) else (Bad, s)
          | [] => (Bad, s)
          end
      | [] => (Bad, s)
      end
  | [] => (Bad, s)
  end.

Fixpoint chunks_fuel (fuel : nat) (s : bytes) : list chunk :=
  match fuel, s with
  | S f, b :: r => let '(c, r') := next_chunk b r in c :: chunks_fuel f r'
  | _, _ => []
  end.

Definition chunks (s : bytes) : list chunk := chunks_fuel (length s) s.

(** U+FFFD, which replaces every byte that is not valid UTF-8. *)
Definition replacement : bytes := [xef; xbf; xbd].

Definition chunk_bytes (c : chunk) : bytes :=
  match c with Good bs => bs | Bad => replacement end.

Definition sanitize (s : bytes) : bytes := concat (chunk_bytes <$> chunks s).

Definition is_good (c : chunk) : bool := match c with Good _ => true | Bad => false end.

(** [utf8.Valid]. *)
Definition valid (s : bytes) : bool := forallb is_good (chunks s).

(** [utf8.EncodeRune]. *)
Definition encode_rune (r : N) : bytes :=
  (if (r <? 0x80)%N then [byte_of r]
   else if (r <? 0x800)%N then
     [byte_of (0xC0 + r / 64); byte_of (0x80 + r mod 64)]
   else if ((0xD800 <=? r) && (r <=? 0xDFFF) || (0x10FFFF <? r))%N then replacement
   else if (r <? 0x10000)%N then
     [byte_of (0xE0 + r / 4096); byte_of (0x80 + (r / 64) mod 64); byte_of (0x80 + r mod 64)]
   else
     [byte_of (0xF0 + r / 262144); byte_of (0x80 + (r / 4096) mod 64);
      byte_of (0x80 + (r / 64) mod 64); byte_of (0x80 + r mod 64)])%N.

Lemma next_chunk_shrinks b s : (length (next_chunk b s).2 <= length s)%nat.
Proof. unfold next_chunk. repeat (case_match; simpl in *; try lia). Qed.

(** What [next_chunk] recognised it recognises again in any other context. *)
Lemma next_chunk_good b s bs r tail :
  next_chunk b s = (Good bs, r) ->
  exists t, bs = b :: t /\ s = t ++ r /\ next_chunk b (t ++ tail) = (Good bs, tail).
Proof.
  unfold next_chunk. intros H.
  repeat (case_match; simplify_eq);
    (eexists; split; [reflexivity|]; split; [reflexivity|]);
    simpl; repeat (case_match; simplify_eq; try done; try congruence); done.
Qed.

Lemma next_chunk_bad b s r : next_chunk b s = (Bad, r) -> r = s /\ in_range 0 0x7F b = false.
Proof. unfold next_chunk. intros. repeat (case_match; simplify_eq); done. Qed.

Lemma chunks_fuel_enough n s :
  (length s <= n)%nat -> chunks_fuel n s = chunks s.
Proof.
  unfold chunks. revert s. induction n as [n IH] using lt_wf_ind. intros s Hs.
  destruct n as [|n], s as [|b r]; simpl in *; try done; try lia.
  destruct (next_chunk b r) as [c r'] eqn:E. f_equal.
  pose proof (next_chunk_shrinks b r) as Hr. rewrite E in Hr. simpl in Hr.
  destruct (decide (length r = n)) as [->|]; [done|].
  rewrite IH by lia. symmetry. apply IH; lia.
Qed.

Lemma chunks_cons b r :
  chunks (b :: r) = (next_chunk b r).1 :: chunks (next_chunk b r).2.
Proof.
  unfold chunks at 1. simpl. destruct (next_chunk b r) as [c r'] eqn:E. simpl. f_equal.
  apply chunks_fuel_enough. pose proof (next_chunk_shrinks b r) as Hr. by rewrite E in Hr.
Qed.

(** Valid UTF-8 is left alone. *)
Lemma sanitize_valid s : valid s = true -> sanitize s = s.
Proof.
  unfold sanitize, valid.
  induction s as [s IH] using (well_founded_induction (well_founded_ltof _ (@length byte))).
  destruct s as [|b r]; [done|]. rewrite chunks_cons.
  destruct (next_chunk b r) as [c r'] eqn:E. simpl.
  rewrite andb_true_iff. intros [Hg Hv].
  pose proof (next_chunk_shrinks b r) as Hr. rewrite E in Hr. simpl in Hr.
  destruct c as [bs|]; [|done]. simpl.
  destruct (next_chunk_good b r bs r' [] E) as (t & -> & -> & _).
  rewrite IH; [done| |done]. unfold ltof. simpl. lia.
Qed.

End Utf8.

(** ** JSON values, the encoder and the decoder *)

Module Json.
Import Utf8.

Definition str (s : string) : bytes := String.list_byte_of_string s.

Lemma str_inj s t : str s = str t -> s = t.
Proof.
  intros H. apply (f_equal String.string_of_list_byte) in H.
  by rewrite !String.string_of_list_byte_of_string in H.
Qed.

Unset Elimination Schemes.
Inductive json :=
| JNull
| JBool (b : bool)
| JNum (lit : bytes)
| JStr (s : bytes)
| JArr (l : list json)
| JObj (ms : list (bytes * json)).
Set Elimination Schemes.

Definition json_ind (P : json -> Prop)
  (Hnull : P JNull) (Hbool : forall b, P (JBool b)) (Hnum : forall l, P (JNum l))
  (Hstr : forall s, P (JStr s))
  (Harr : forall l, Forall P l -> P (JArr l))
  (Hobj : forall ms, Forall (fun m => P m.2) ms -> P (JObj ms)) : forall j, P j :=
  fix go j :=
    match j with
    | JNull => Hnull
    | JBool b => Hbool b
    | JNum l => Hnum l
    | JStr s => Hstr s
    | JArr l => Harr l ((fix gos l : Forall P l :=
        match l with
        | [] => Forall_nil_2 _
        | x :: l => Forall_cons_2 _ _ _ (go x) (gos l)
        end) l)
    | JObj ms => Hobj ms ((fix gos ms : Forall (fun m => P m.2) ms :=
        match ms with
        | [] => Forall_nil_2 _
        | x :: ms => Forall_cons_2 _ _ _ (go x.2) (gos ms)
        end) ms)
    end.

(** *** Strings *)

Definition hex_digit (n : N) : byte :=
  if (n <? 10)%N then byte_of (48 + n) else byte_of (87 + n).

Definition hex_val (b : byte) : option N :=
  let n := Byte.to_N b in
  if in_range 48 57 b then Some (n - 48)%N
  else if in_range 97 102 b then Some (n - 87)%N
  else if in_range 65 70 b then Some (n - 55)%N
  else None.

(** One ASCII byte inside a quoted string ([appendString] with HTML escaping,
    as [json.Marshal] does). *)
Definition esc_ascii (b : byte) : bytes :=
  if Byte.eqb b x22 || Byte.eqb b x5c then [x5c; b]
  else if Byte.eqb b x08 then [x5c; "b"]
  else if Byte.eqb b x0c then [x5c; "f"]
  else if Byte.eqb b x0a then [x5c; "n"]
  else if Byte.eqb b x0d then [x5c; "r"]
  else if Byte.eqb b x09 then [x5c; "t"]
  else if in_range 0 31 b || Byte.eqb b x3c || Byte.eqb b x3e || Byte.eqb b x26 then
    x5c :: str "u00" ++ [hex_digit (Byte.to_N b / 16); hex_digit (Byte.to_N b mod 16)]
  else [b].

Definition esc_chunk (c : chunk) : bytes :=
  match c with
  | Bad => x5c :: str "ufffd"
  | Good [b] => esc_ascii b
  | Good bs =>
      if bool_decide (bs = [xe2; x80; xa8]) then x5c :: str "u2028"
      else if bool_decide (bs = [xe2; x80; xa9]) then x5c :: str "u2029"
      else bs
  end.

Definition escape (s : bytes) : bytes := concat (esc_chunk <$> chunks s).
Definition quote (s : bytes) : bytes := x22 :: escape s ++ [x22].

Definition hex4 (s : bytes) : option (N * bytes) :=
  match s with
  | a :: b :: c :: d :: r =>
      match hex_val a, hex_val b, hex_val c, hex_val d with
      | Some a, Some b, Some c, Some d => Some (((a * 16 + b) * 16 + c) * 16 + d, r)%N
      | _, _, _, _ => None
      end
  | _ => None
  end.

Definition is_surrogate (r : N) : bool := ((0xD800 <=? r) && (r <=? 0xDFFF))%N.

(** [utf16.DecodeRune]. *)
Definition pair_rune (hi lo : N) : option N :=
  if ((0xD800 <=? hi) && (hi <=? 0xDBFF) && (0xDC00 <=? lo) && (lo <=? 0xDFFF))%N
  then Some ((hi - 0xD800) * 1024 + (lo - 0xDC00) + 0x10000)%N else None.

(** What follows a backslash. *)
Definition unescape (s : bytes) : option (bytes * bytes) :=
  match s with
  | [] => None
  | c :: r =>
      if Byte.eqb c x22 || Byte.eqb c x5c || Byte.eqb c x2f then Some ([c], r)
      else if Byte.eqb c "b" then Some ([x08], r)
      else if Byte.eqb c "f" then Some ([x0c], r)
      else if Byte.eqb c "n" then Some ([x0a], r)
      else if Byte.eqb c "r" then Some ([x0d], r)
      else if Byte.eqb c "t" then Some ([x09], r)
      else if Byte.eqb c "u" then
        match hex4 r with
        | None => None
        | Some (u, r1) =>
            if is_surrogate u then
              match r1 with
              | x5c :: "u" :: r2 =>
                  match hex4 r2 with
                  | Some (v, r3) =>
                      match pair_rune u v with
                      | Some w => Some (encode_rune w, r3)
                      | None => Some (replacement, r1)
                      end
                  | None => Some (replacement, r1)
                  end
              | _ => Some (replacement, r1)
              end
            else Some (encode_rune u, r1)
        end
      else None
  end.

(** A string literal after its opening quote: its value and the rest. *)
Fixpoint unquote (fuel : nat) (s : bytes) : option (bytes * bytes) :=
  match fuel, s with
  | O, _ | _, [] => None
  | S f, b :: r =>
      if Byte.eqb b x22 then Some ([], r)
      else if Byte.eqb b x5c then
        match unescape r with
        | Some (bs, r') => prod_map (app bs) id <$> unquote f r'
        | None => None
        end
      else if in_range 0 31 b then None
      else let '(c, r') := next_chunk b r in
           prod_map (app (chunk_bytes c)) id <$> unquote f r'
  end.

(** *** Numbers *)

Definition is_digit (b : byte) : bool := in_range 48 57 b.
Definition digit (n : N) : byte := byte_of (48 + n).

Fixpoint dec_fuel (fuel : nat) (n : N) : bytes :=
  match fuel with
  | O => []
  | S f => if (n <? 10)%N then [digit n] else dec_fuel f (n / 10) ++ [digit (n mod 10)]
  end.

(** Decimal rendering of a [uint64] ([strconv.AppendUint]); twenty digits are
    enough for every 64-bit value. *)
Definition dec (n : N) : bytes := dec_fuel 20 n.

Definition dec_step (acc : N) (b : byte) : N := (acc * 10 + (Byte.to_N b - 48))%N.
Definition undec (l : bytes) : N := foldl dec_step 0%N l.

(** [strconv.ParseUint(lit, 10, 64)]. *)
Definition parse_uint64 (lit : bytes) : option N :=
  if negb (bool_decide (lit = [])) && forallb is_digit lit && (undec lit <? two64)%N
  then Some (undec lit) else None.

Definition is_num_char (b : byte) : bool :=
  is_digit b || Byte.eqb b "-" || Byte.eqb b "+" || Byte.eqb b "."
  || Byte.eqb b "e" || Byte.eqb b "E".

Fixpoint span (p : byte -> bool) (s : bytes) : bytes * bytes :=
  match s with
  | b :: r => if p b then let '(u, v) := span p r in (b :: u, v) else ([], s)
  | [] => ([], [])
  end.

Definition digits1 (s : bytes) : option bytes :=
  let '(u, v) := span is_digit s in if bool_decide (u = []) then None else Some v.

Definition valid_exp (s : bytes) : bool :=
  match s with
  | [] => true
  | b :: r =>
      if Byte.eqb b "e" || Byte.eqb b "E" then
        match match r with
              | c :: r' => if Byte.eqb c "+" || Byte.eqb c "-" then digits1 r' else digits1 r
              | [] => None
              end with
        | Some [] => true
        | _ => false
        end
      else false
  end.

Definition valid_frac (s : bytes) : bool :=
  match s with
  | b :: r =>
      if Byte.eqb b "." then match digits1 r with Some r' => valid_exp r' | None => false end
      else valid_exp s
  | [] => true
  end.

Definition valid_nat (s : bytes) : bool :=
  match s with
  | b :: r =>
      if Byte.eqb b "0" then valid_frac r
      else match digits1 s with Some r' => valid_frac r' | None => false end
  | [] => false
  end.

(** The JSON number grammar. *)
Definition valid_number (s : bytes) : bool :=
  match s with
  | b :: r => if Byte.eqb b "-" then valid_nat r else valid_nat s
  | [] => false
  end.

(** *** Values *)

Fixpoint join (l : list bytes) : bytes :=
  match l with
  | [] => []
  | [x] => x
  | x :: l' => x ++ "," :: join l'
  end.

(** [json.Marshal] of a value tree. *)
Fixpoint print (j : json) : bytes :=
  match j with
  | JNull => str "null"
  | JBool true => str "true"
  | JBool false => str "false"
  | JNum lit => lit
  | JStr s => quote s
  | JArr l => "[" :: join (map print l) ++ ["]"]
  | JObj ms => "{" :: join (map (fun m => quote m.1 ++ ":" :: print m.2) ms) ++ ["}"]
  end.

Definition is_ws (b : byte) : bool :=
  Byte.eqb b x20 || Byte.eqb b x09 || Byte.eqb b x0a || Byte.eqb b x0d.

Fixpoint skip_ws (s : bytes) : bytes :=
  match s with
  | b :: r => if is_ws b then skip_ws r else s
  | [] => []
  end.

Fixpoint strip_prefix (p s : bytes) : option bytes :=
  match p, s with
  | [], _ => Some s
  | x :: p', y :: s' => if Byte.eqb x y then strip_prefix p' s' else None
  | _ :: _, [] => None
  end.

Definition parse_word (s : bytes) : option (json * bytes) :=
  match strip_prefix (str "null") s with
  | Some r => Some (JNull, r)
  | None =>
      match strip_prefix (str "true") s with
      | Some r => Some (JBool true, r)
      | None =>
          match strip_prefix (str "false") s with
          | Some r => Some (JBool false, r)
          | None =>
              let '(lit, r) := span is_num_char s in
              if valid_number lit then Some (JNum lit, r) else None
          end
      end
  end.

Fixpoint parse_value (fuel : nat) (s : bytes) {struct fuel} : option (json * bytes) :=
  match fuel with
  | O => None
  | S f =>
      match skip_ws s with
      | [] => None
      | b :: r =>
          if Byte.eqb b x22 then
            match unquote (S (length r)) r with
            | Some (t, r') => Some (JStr t, r')
            | None => None
            end
          else if Byte.eqb b "[" then
            match skip_ws r with
            | c :: r1 =>
                if Byte.eqb c "]" then Some (JArr [], r1)
                else prod_map JArr id <$> parse_elems f r
            | [] => None
            end
          else if Byte.eqb b "{" then
            match skip_ws r with
            | c :: r1 =>
                if Byte.eqb c "}" then Some (JObj [], r1)
                else prod_map JObj id <$> parse_members f r
            | [] => None
            end
          else parse_word (b :: r)
      end
  end
with parse_elems (fuel : nat) (s : bytes) {struct fuel} : option (list json * bytes) :=
  match fuel with
  | O => None
  | S f =>
      match parse_value f s with
      | None => None
      | Some (v, r) =>
          match skip_ws r with
          | b :: r' =>
              if Byte.eqb b "," then prod_map (cons v) id <$> parse_elems f r'
              else if Byte.eqb b "]" then Some ([v], r')
              else None
          | [] => None
          end
      end
  end
with parse_members (fuel : nat) (s : bytes) {struct fuel} : option (list (bytes * json) * bytes) :=
  match fuel with
  | O => None
  | S f =>
      match skip_ws s with
      | b :: r =>
          if Byte.eqb b x22 then
            match unquote (S (length r)) r with
            | None => None
            | Some (k, r1) =>
                match skip_ws r1 with
                | c :: r2 =>
                    if Byte.eqb c ":" then
                      match parse_value f r2 with
                      | None => None
                      | Some (v, r3) =>
                          match skip_ws r3 with
                          | d :: r4 =>
                              if Byte.eqb d "," then
                                prod_map (cons (k, v)) id <$> parse_members f r4
                              else if Byte.eqb d "}" then Some ([(k, v)], r4)
                              else None
                          | [] => None
                          end
                      end
                    else None
                | [] => None
                end
            end
          else None
      | [] => None
      end
  end.

(** The first value of a stream ([Decoder.Decode]): trailing bytes are left. *)
Definition decode_stream (s : bytes) : option (json * bytes) :=
  parse_value (2 * length s + 2) s.

(** [json.Unmarshal]: the whole input is one value. *)
Definition parse (s : bytes) : option json :=
  match decode_stream s with
  | Some (j, r) => if bool_decide (skip_ws r = []) then Some j else None
  | None => None
  end.

(** What the decoder gives back for an encoded value. *)
Fixpoint norm (j : json) : json :=
  match j with
  | JStr s => JStr (sanitize s)
  | JArr l => JArr (map norm l)
  | JObj ms => JObj (map (fun m => (sanitize m.1, norm m.2)) ms)
  | _ => j
  end.

(** Numbers in the trees the program encodes are 64-bit unsigned. *)
Fixpoint json_ok (j : json) : Prop :=
  match j with
  | JNum lit => exists n, u64_ok n /\ lit = dec n
  | JArr l => foldr (fun x P => json_ok x /\ P) True l
  | JObj ms => foldr (fun m P => json_ok m.2 /\ P) True ms
  | _ => True
  end.

(** *** Decoding what was encoded *)

Definition wf_chunk (c : chunk) : Prop :=
  match c with
  | Bad => True
  | Good bs => exists b t, bs = b :: t /\ forall tail, next_chunk b (t ++ tail) = (c, tail)
  end.

Lemma chunks_wf s : Forall wf_chunk (chunks s).
Proof.
  induction s as [s IH] using (well_founded_induction (well_founded_ltof _ (@length byte))).
  destruct s as [|b r]; [constructor|]. rewrite chunks_cons.
  destruct (next_chunk b r) as [c r'] eqn:E. simpl.
  pose proof (next_chunk_shrinks b r) as Hr. rewrite E in Hr. simpl in Hr.
  constructor; [|apply IH; unfold ltof; simpl; lia].
  destruct c as [bs|]; [|done].
  destruct (next_chunk_good b r bs r' [] E) as (t & -> & -> & _).
  exists b, t. split; [done|]. intros tail.
  by destruct (next_chunk_good b _ _ _ tail E) as (? & [= <-] & _ & ?).
Qed.

Lemma esc_chunk_length b r : (length (esc_chunk (next_chunk b r).1) <= 6)%nat.
Proof.
  unfold next_chunk.
  repeat case_match; cbn [fst esc_chunk]; unfold esc_ascii; repeat case_match; simpl; lia.
Qed.

(** Escaping makes a string at most six times as long. *)
Lemma escape_length s : (length (escape s) <= 6 * length s)%nat.
Proof.
  induction s as [s IH] using (well_founded_induction (well_founded_ltof _ (@length byte))).
  destruct s as [|b r]; [done|]. unfold escape. rewrite chunks_cons.
  pose proof (esc_chunk_length b r) as Hc. pose proof (next_chunk_shrinks b r) as Hr.
  destruct (next_chunk b r) as [c r'] eqn:E. simpl in Hc, Hr.
  rewrite fmap_cons. cbn [concat snd fst length]. rewrite length_app.
  specialize (IH r' ltac:(unfold ltof; simpl; lia)). unfold escape in IH. lia.
Qed.

Lemma dec_length n : (length (dec n) <= 20)%nat.
Proof.
  unfold dec. generalize 20%nat. intros f. revert n.
  induction f as [|f IH]; intros n; simpl; [lia|]. case_match; simpl; [lia|].
  rewrite length_app. simpl. specialize (IH (n / 10)%N). lia.
Qed.

Lemma esc_chunk_nonempty c : wf_chunk c -> (1 <= length (esc_chunk c))%nat.
Proof.
  destruct c as [bs|]; simpl; [|lia]. intros (b & t & -> & _).
  destruct t as [|b' t].
  - unfold esc_ascii. repeat case_match; simpl; lia.
  - repeat case_match; simpl; lia.
Qed.

Lemma unquote_ascii f b tail :
  in_range 0 0x7F b = true ->
  unquote (S f) (esc_ascii b ++ tail) = prod_map (app [b]) id <$> unquote f tail.
Proof. intros H. destruct b; try discriminate H; reflexivity. Qed.

Lemma high_byte b :
  in_range 0 0x7F b = false ->
  Byte.eqb b x22 = false /\ Byte.eqb b x5c = false /\ in_range 0 31 b = false.
Proof. intros H. destruct b; try discriminate H; auto. Qed.

Lemma next_chunk_single b t r :
  next_chunk b t = (Good [b], r) -> in_range 0 0x7F b = true.
Proof. unfold next_chunk. intros. repeat (case_match; simplify_eq); done. Qed.

Lemma next_chunk_multi b b' t tail :
  next_chunk b ((b' :: t) ++ tail) = (Good (b :: b' :: t), tail) -> in_range 0 0x7F b = false.
Proof. unfold next_chunk. intros. by case_match; simplify_eq. Qed.

Lemma unquote_chunk f c tail :
  wf_chunk c ->
  unquote (S f) (esc_chunk c ++ tail) = prod_map (app (chunk_bytes c)) id <$> unquote f tail.
Proof.
  destruct c as [bs|]; [|reflexivity]. intros (b & t & -> & Hc).
  destruct t as [|b' t].
  - apply unquote_ascii. by eapply next_chunk_single, (Hc []).
  - pose proof (next_chunk_multi _ _ _ _ (Hc [])) as Hhi.
    destruct (high_byte _ Hhi) as (E1 & E2 & E3).
    unfold esc_chunk. case_bool_decide as Hs; [injection Hs as -> -> ->; reflexivity|].
    clear Hs. case_bool_decide as Hs; [injection Hs as -> -> ->; reflexivity|].
    change ((b :: b' :: t) ++ tail) with (b :: (b' :: t) ++ tail).
    simpl unquote. rewrite E1, E2, E3. change (b' :: t ++ tail) with ((b' :: t) ++ tail).
    by rewrite Hc.
Qed.

Lemma unquote_chunks cs fuel rest :
  Forall wf_chunk cs -> (length cs < fuel)%nat ->
  unquote fuel (concat (esc_chunk <$> cs) ++ x22 :: rest)
  = Some (concat (chunk_bytes <$> cs), rest).
Proof.
  intros Hwf. revert fuel. induction Hwf as [|c cs Hc _ IH]; intros fuel Hf.
  - destruct fuel; simpl in *; [lia|done].
  - destruct fuel as [|fuel]; simpl in *; [lia|]. rewrite <-app_assoc.
    change (unquote (S fuel) (esc_chunk c ++ concat (esc_chunk <$> cs) ++ x22 :: rest)
      = Some (chunk_bytes c ++ concat (chunk_bytes <$> cs), rest)).
    rewrite unquote_chunk by done. rewrite IH by lia. done.
Qed.

Lemma unquote_escape s rest :
  unquote (S (length (escape s ++ x22 :: rest))) (escape s ++ x22 :: rest)
  = Some (sanitize s, rest).
Proof.
  apply unquote_chunks; [apply chunks_wf|].
  rewrite length_app. unfold escape.
  assert (length (chunks s) <= length (concat (esc_chunk <$> chunks s)))%nat; [|simpl; lia].
  induction (chunks_wf s) as [|c cs Hc _ IH]; [done|].
  rewrite fmap_cons. cbn [concat length]. rewrite length_app. pose proof (esc_chunk_nonempty c Hc). lia.
Qed.

(** Decimal numbers. *)

Lemma digit_val n : (n < 10)%N -> Byte.to_N (digit n) = (48 + n)%N.
Proof. intros. unfold digit. apply byte_of_to_N. lia. Qed.

Lemma digit_is_digit n : (n < 10)%N -> is_digit (digit n) = true.
Proof.
  intros. unfold is_digit, in_range. rewrite digit_val by done.
  apply andb_true_iff. rewrite !N.leb_le. lia.
Qed.

Lemma dec_fuel_spec f n :
  (n < 10 ^ N.of_nat f)%N -> (0 < f)%nat ->
  undec (dec_fuel f n) = n /\ forallb is_digit (dec_fuel f n) = true /\
  exists d r, dec_fuel f n = d :: r /\ (d = "0" -> n = 0%N /\ r = []).
Proof.
  revert n. induction f as [|f IH]; intros n Hn Hf; [lia|]. simpl.
  destruct (N.ltb_spec n 10) as [Hlt|Hge].
  - split_and!; [|simpl; by rewrite digit_is_digit|].
    + unfold undec. simpl. unfold dec_step. rewrite digit_val by done. lia.
    + exists (digit n), []. split; [done|]. intros E.
      apply (f_equal Byte.to_N) in E. rewrite digit_val in E by done.
      change (Byte.to_N "0") with 48%N in E. split; [lia|done].
  - rewrite Nat2N.inj_succ, N.pow_succ_r' in Hn.
    assert (n / 10 < 10 ^ N.of_nat f)%N by (apply N.Div0.div_lt_upper_bound; lia).
    assert (0 < f)%nat.
    { destruct f; [|lia]. change (10 ^ N.of_nat 0)%N with 1%N in *. lia. }
    destruct (IH (n / 10)%N) as (Hu & Hd & d & r & Er & Hz); [done..|].
    assert (n mod 10 < 10)%N by (by apply N.mod_lt).
    split_and!.
    + unfold undec in *. rewrite foldl_app, Hu. simpl. unfold dec_step.
      rewrite digit_val by done. clear. divlia.
    + rewrite forallb_app, Hd. simpl. by rewrite digit_is_digit.
    + exists d, (r ++ [digit (n mod 10)%N]). rewrite Er. split; [done|].
      intros E. destruct (Hz E) as [E0 _]. clear - E0 Hge. divlia.
Qed.

Lemma dec_spec n : u64_ok n ->
  undec (dec n) = n /\ forallb is_digit (dec n) = true /\
  exists d r, dec n = d :: r /\ (d = "0" -> n = 0%N /\ r = []).
Proof.
  intros H. apply dec_fuel_spec; [|lia]. unfold u64_ok in H.
  eapply N.lt_trans; [exact H|]. by vm_compute.
Qed.

Lemma parse_uint64_dec n : u64_ok n -> parse_uint64 (dec n) = Some n.
Proof.
  intros H. destruct (dec_spec n H) as (Hu & Hd & d & r & Er & _).
  unfold parse_uint64. rewrite Hu, Hd, Er. simpl.
  destruct (N.ltb_spec n two64); [done|]. unfold u64_ok in H. lia.
Qed.

Lemma span_all p u rest :
  forallb p u = true ->
  match rest with b :: _ => p b = false | [] => True end ->
  span p (u ++ rest) = (u, rest).
Proof.
  intros Hu Hr. induction u as [|b u IH]; simpl in *.
  - destruct rest as [|b r]; simpl; [done|]. by rewrite Hr.
  - apply andb_true_iff in Hu as [Hb Hu]. rewrite Hb, IH; done.
Qed.

Lemma valid_number_dec n : u64_ok n -> valid_number (dec n) = true.
Proof.
  intros H. destruct (dec_spec n H) as (_ & Hd & d & r & Er & H0). rewrite Er in *.
  simpl in Hd. apply andb_true_iff in Hd as [Hd Hr].
  unfold valid_number, valid_nat. destruct (Byte.eqb d "-") eqn:E1.
  { apply Byte.byte_dec_bl in E1. subst. discriminate Hd. }
  destruct (Byte.eqb d "0") eqn:E2.
  { apply Byte.byte_dec_bl in E2. destruct (H0 E2) as [_ ->]. done. }
  unfold digits1.
  pose proof (span_all is_digit (d :: r) []) as Hs. rewrite app_nil_r in Hs.
  rewrite Hs; [done| |done]. simpl. by rewrite Hd, Hr.
Qed.

(** Values.  [need j] bounds the recursion depth of the decoder on [print j]. *)

Fixpoint need (j : json) : nat :=
  match j with
  | JArr l => S (foldr (fun x n => S (need x + n)) 0 l)
  | JObj ms => S (foldr (fun m n => S (need m.2 + n)) 0 ms)
  | _ => 1
  end.

Definition ends (rest : bytes) : Prop :=
  match rest with b :: _ => is_num_char b = false | [] => True end.

Definition start_byte (b : byte) : Prop :=
  is_ws b = false /\ Byte.eqb b "]" = false /\ Byte.eqb b "}" = false.

Lemma digit_start b : is_digit b = true -> start_byte b.
Proof. intros H. destruct b; try discriminate H; repeat split. Qed.

Lemma digit_plain b :
  is_digit b = true ->
  is_ws b = false /\ Byte.eqb b x22 = false /\ Byte.eqb b "[" = false /\ Byte.eqb b "{" = false
  /\ Byte.eqb "n" b = false /\ Byte.eqb "t" b = false /\ Byte.eqb "f" b = false.
Proof. intros H. destruct b; try discriminate H; repeat split. Qed.

Lemma digit_num_char b : is_digit b = true -> is_num_char b = true.
Proof. unfold is_num_char. by intros ->. Qed.

Lemma print_start j : json_ok j -> exists b r, print j = b :: r /\ start_byte b.
Proof.
  destruct j as [|[]|lit|s|l|ms]; simpl; intros Hok;
    try (eexists _, _; split; [reflexivity|]; repeat split).
  destruct Hok as (n & Hn & ->). destruct (dec_spec n Hn) as (_ & Hd & d & r & Er & _).
  exists d, r. split; [done|]. rewrite Er in Hd. simpl in Hd.
  apply andb_true_iff in Hd as [Hd _]. by apply digit_start.
Qed.

Lemma skip_ws_start b r : start_byte b -> skip_ws (b :: r) = b :: r.
Proof. intros (H & _). simpl. by rewrite H. Qed.

Lemma parse_word_dec n rest :
  u64_ok n -> ends rest -> parse_word (dec n ++ rest) = Some (JNum (dec n), rest).
Proof.
  intros Hn Hr. pose proof (valid_number_dec n Hn) as Hv.
  destruct (dec_spec n Hn) as (_ & Hd & d & r & Er & _). rewrite Er in *.
  assert (forallb is_num_char (d :: r) = true) as Hnum.
  { apply forallb_forall. intros x Hx. apply digit_num_char.
    rewrite forallb_forall in Hd. by apply Hd. }
  simpl in Hd. apply andb_true_iff in Hd as [Hd0 _].
  destruct (digit_plain d Hd0) as (_ & _ & _ & _ & En & Et & Ef).
  unfold parse_word. change (str "null") with ["n"; "u"; "l"; "l"].
  change (str "true") with ["t"; "r"; "u"; "e"].
  change (str "false") with ["f"; "a"; "l"; "s"; "e"].
  cbn [app strip_prefix]. rewrite En, Et, Ef.
  change (d :: r ++ rest) with ((d :: r) ++ rest).
  rewrite (span_all is_num_char) by done. by rewrite Hv.
Qed.

Lemma join_cons x l : l <> [] -> join (x :: l) = x ++ "," :: join l.
Proof. by destruct l. Qed.

Definition parses (j : json) : Prop :=
  forall fuel rest, (need j <= fuel)%nat -> ends rest ->
  parse_value fuel (print j ++ rest) = Some (norm j, rest).

Lemma parse_elems_print l fuel rest :
  l <> [] -> Forall parses l -> Forall json_ok l ->
  (foldr (fun x n => S (need x + n)) 0 l <= fuel)%nat ->
  parse_elems fuel (join (map print l) ++ "]" :: rest) = Some (map norm l, rest).
Proof.
  revert fuel. induction l as [|x l IH]; intros fuel Hne Hp Hok Hf; [done|].
  apply Forall_cons in Hp as [Hx Hp]. apply Forall_cons in Hok as [Hxo Hok].
  destruct fuel as [|fuel]; simpl in Hf; [lia|].
  destruct l as [|y l].
  - simpl. rewrite Hx; [done|lia|done].
  - rewrite !map_cons, join_cons, <-app_assoc, <-!map_cons by done. cbn [app parse_elems].
    rewrite Hx; [|lia|done]. simpl skip_ws. cbn beta iota.
    change (Byte.eqb "," ",") with true. cbn iota.
    rewrite IH; [done|done|done|done|lia].
Qed.

Lemma parse_members_print ms fuel rest :
  ms <> [] -> Forall (fun m => parses m.2) ms ->
  (foldr (fun m n => S (need m.2 + n)) 0 ms <= fuel)%nat ->
  parse_members fuel
    (join (map (fun m => quote m.1 ++ ":" :: print m.2) ms) ++ "}" :: rest)
  = Some (map (fun m => (sanitize m.1, norm m.2)) ms, rest).
Proof.
  revert fuel. induction ms as [|[k v] ms IH]; intros fuel Hne Hp Hf; [done|].
  apply Forall_cons in Hp as [Hx Hp].
  destruct fuel as [|fuel]; simpl in Hf; [lia|].
  assert (forall tail, skip_ws (quote k ++ ":" :: tail) = quote k ++ ":" :: tail) as Hq by done.
  destruct ms as [|m ms].
  - cbn [map join fst snd]. rewrite <-app_assoc. cbn [app parse_members]. rewrite Hq.
    unfold quote. cbn [app]. change (Byte.eqb x22 x22) with true. cbn iota.
    rewrite <-app_assoc. cbn [app]. rewrite unquote_escape. cbn [skip_ws]. 
    change (is_ws ":") with false. change (Byte.eqb ":" ":") with true. cbn iota.
    rewrite Hx; [done|simpl; lia|done].
  - rewrite map_cons, join_cons, <-!app_assoc by done. cbn [app parse_members fst snd]. rewrite Hq.
    unfold quote at 1 2. cbn [app]. change (Byte.eqb x22 x22) with true. cbn iota.
    rewrite <-!app_assoc. cbn [app]. rewrite unquote_escape. cbn [skip_ws].
    change (is_ws ":") with false. change (Byte.eqb ":" ":") with true. cbn iota.
    rewrite Hx; [|simpl; lia|done]. cbn [skip_ws].
    change (is_ws ",") with false. change (Byte.eqb "," ",") with true. cbn iota.
    rewrite IH; [done|done|done|lia].
Qed.

Lemma json_ok_arr l : json_ok (JArr l) <-> Forall json_ok l.
Proof. simpl. induction l; simpl; rewrite ?Forall_cons, ?IHl; split; intuition. Qed.

Lemma json_ok_obj ms : json_ok (JObj ms) <-> Forall (fun m => json_ok m.2) ms.
Proof. simpl. induction ms; simpl; rewrite ?Forall_cons, ?IHms; split; intuition. Qed.

Lemma parse_value_print j : json_ok j -> parses j.
Proof.
  unfold parses. induction j as [|[]|lit|s|l IH|ms IH] using json_ind; intros Hok fuel rest Hf Hr;
    (destruct fuel as [|fuel]; [simpl in Hf; lia|]); try reflexivity.
  - destruct Hok as (n & Hn & ->). cbn [print norm parse_value].
    pose proof (parse_word_dec n rest Hn Hr) as Hw.
    destruct (dec_spec n Hn) as (_ & Hd & d & r & Er & _). rewrite Er in *.
    simpl in Hd. apply andb_true_iff in Hd as [Hd0 _].
    destruct (digit_plain d Hd0) as (E0 & E1 & E2 & E3 & _).
    cbn [app skip_ws]. rewrite E0, E1, E2, E3. done.
  - cbn [print norm parse_value]. unfold quote. cbn [app skip_ws].
    change (is_ws x22) with false. change (Byte.eqb x22 x22) with true. cbn iota.
    rewrite <-app_assoc. cbn [app]. by rewrite unquote_escape.
  - apply json_ok_arr in Hok. destruct l as [|x l]; [done|].
    cbn [print norm parse_value app]. rewrite <-app_assoc. cbn [app skip_ws].
    change (is_ws "[") with false. change (Byte.eqb "[" x22) with false.
    change (Byte.eqb "[" "[") with true. cbn iota.
    rewrite parse_elems_print; [|done| |done|simpl in *; lia].
    2:{ rewrite Forall_forall in IH, Hok |- *. intros y Hy. red. auto. }
    apply Forall_cons in Hok as [Hx _]. destruct (print_start x Hx) as (b & r & Eb & Hb).
    destruct (skip_ws _) as [|c r1] eqn:Es.
    + destruct l; simpl in Es; rewrite Eb in Es; simpl in Es; destruct Hb as (Hw & _);
        by rewrite Hw in Es.
    + assert (c = b) as ->.
      { destruct l; simpl in Es; rewrite Eb in Es; simpl in Es; destruct Hb as (Hw & _);
          rewrite Hw in Es; by injection Es. }
      destruct Hb as (_ & -> & _). done.
  - apply json_ok_obj in Hok. destruct ms as [|[k v] ms]; [done|].
    cbn [print norm parse_value app]. rewrite <-app_assoc. cbn [app skip_ws].
    change (is_ws "{") with false. change (Byte.eqb "{" x22) with false.
    change (Byte.eqb "{" "[") with false. change (Byte.eqb "{" "{") with true. cbn iota.
    rewrite parse_members_print; [|done| |simpl in *; lia].
    2:{ rewrite Forall_forall in IH, Hok |- *. intros y Hy. red. auto. }
    destruct ms; reflexivity.
Qed.

Lemma print_length j : json_ok j -> (need j <= 2 * length (print j))%nat.
Proof.
  induction j as [|[]|lit|s|l IH|ms IH] using json_ind; intros Hok; try (simpl; lia).
  - destruct Hok as (n & Hn & ->). destruct (dec_spec n Hn) as (_ & _ & d & r & Er & _).
    simpl. rewrite Er. simpl. lia.
  - apply json_ok_arr in Hok. cbn [print need]. cbn [length]. rewrite length_app. cbn [length].
    assert (foldr (fun x n => S (need x + n)) 0 l <= 2 * length (join (map print l)) + 1)%nat; [|lia].
    induction l as [|x l IHl]; [simpl; lia|].
    apply Forall_cons in IH as [Hx IH]. apply Forall_cons in Hok as [Ho Hok].
    specialize (IHl IH Hok). specialize (Hx Ho). cbn [foldr map].
    destruct l as [|y l]; [simpl in *; lia|].
    rewrite join_cons, length_app by done. cbn [length]. lia.
  - apply json_ok_obj in Hok. cbn [print need]. cbn [length]. rewrite length_app. cbn [length].
    assert (foldr (fun m n => S (need m.2 + n)) 0 ms
      <= 2 * length (join (map (fun m => quote m.1 ++ ":" :: print m.2) ms)) + 1)%nat; [|lia].
    induction ms as [|[k v] ms IHl]; [simpl; lia|].
    apply Forall_cons in IH as [Hx IH]. apply Forall_cons in Hok as [Ho Hok].
    specialize (IHl IH Hok). specialize (Hx Ho). cbn [foldr map snd] in *.
    assert (length (quote k ++ ":" :: print v) > length (print v))%nat.
    { rewrite length_app. simpl. lia. }
    destruct ms as [|y ms]; [simpl in *; lia|].
    rewrite join_cons, length_app by done. cbn [length fst snd] in *. lia.
Qed.

(** Decoding the first value of a stream that starts with an encoded value. *)
Lemma decode_stream_print j rest :
  json_ok j -> ends rest -> decode_stream (print j ++ rest) = Some (norm j, rest).
Proof.
  intros Hok Hr. unfold decode_stream. apply parse_value_print; [done| |done].
  pose proof (print_length j Hok). rewrite length_app. lia.
Qed.

(** [json.Unmarshal(json.Marshal(v))] is [v] with its strings sanitised. *)
Lemma parse_print j : json_ok j -> parse (print j) = Some (norm j).
Proof.
  intros Hok. unfold parse. rewrite <-(app_nil_r (print j)).
  rewrite decode_stream_print by done. done.
Qed.

(** *** Struct fields

    [json.Unmarshal] into a struct visits the members of the object in order,
    matches each name to a field up to case folding, ignores unknown names, and
    lets a later member overwrite an earlier one. *)

Fixpoint fold_name (s : bytes) : bytes :=
  match s with
  | xc5 :: xbf :: r => "S" :: fold_name r
  | xe2 :: x84 :: xaa :: r => "K" :: fold_name r
  | b :: r => (if in_range 97 122 b then byte_of (Byte.to_N b - 32) else b) :: fold_name r
  | [] => []
  end.

Definition field_is (name : string) (key : bytes) : bool :=
  bool_decide (fold_name key = fold_name (str name)).

Definition decode_struct {S} (set : bytes -> json -> S -> option S) (j : json) (zero : S) : option S :=
  match j with
  | JNull => Some zero
  | JObj ms => foldl (fun acc m => acc ≫= set m.1 m.2) (Some zero) ms
  | _ => None
  end.

Definition decode_u64 (j : json) (old : N) : option N :=
  match j with
  | JNull => Some old
  | JNum lit => parse_uint64 lit
  | _ => None
  end.

Definition decode_bool (j : json) (old : bool) : option bool :=
  match j with
  | JNull => Some old
  | JBool b => Some b
  | _ => None
  end.

Definition decode_string (j : json) (old : string) : option string :=
  match j with
  | JNull => Some old
  | JStr s => Some (String.string_of_list_byte s)
  | _ => None
  end.

Definition decode_slice {A} (elem : json -> option A) (j : json) : option (list A) :=
  match j with
  | JNull => Some []
  | JArr l => mapM elem l
  | _ => None
  end.

Definition decode_u8 (j : json) : option byte :=
  match j with
  | JNull => Some x00
  | JNum lit => parse_uint64 lit ≫= Byte.of_N
  | _ => None
  end.

(** *** Base64 ([base64.StdEncoding], used for byte slices) *)

Definition b64_char (n : N) : byte :=
  (if n <? 26 then byte_of (65 + n)
   else if n <? 52 then byte_of (71 + n)
   else if n <? 62 then byte_of (n - 4)
   else if n =? 62 then "+" else "/")%N.

Definition b64_val (b : byte) : option N :=
  let n := Byte.to_N b in
  if in_range 65 90 b then Some (n - 65)%N
  else if in_range 97 122 b then Some (n - 71)%N
  else if in_range 48 57 b then Some (n + 4)%N
  else if Byte.eqb b "+" then Some 62%N
  else if Byte.eqb b "/" then Some 63%N
  else None.

Definition n_of (b : byte) : N := Byte.to_N b.

Fixpoint b64_encode (s : bytes) : bytes :=
  match s with
  | a :: b :: c :: r =>
      [b64_char (n_of a / 4); b64_char (n_of a mod 4 * 16 + n_of b / 16);
       b64_char (n_of b mod 16 * 4 + n_of c / 64); b64_char (n_of c mod 64)]%N
      ++ b64_encode r
  | [a; b] =>
      [b64_char (n_of a / 4); b64_char (n_of a mod 4 * 16 + n_of b / 16);
       b64_char (n_of b mod 16 * 4); "="]%N
  | [a] => [b64_char (n_of a / 4); b64_char (n_of a mod 4 * 16); "="; "="]%N
  | [] => []
  end.

Fixpoint b64_quads (s : bytes) : option bytes :=
  match s with
  | [] => Some []
  | a :: b :: c :: d :: r =>
      match b64_val a, b64_val b with
      | Some va, Some vb =>
          let b0 := byte_of (va * 4 + vb / 16) in
          if Byte.eqb c "=" then
            if Byte.eqb d "=" && bool_decide (r = []) then Some [b0] else None
          else
            match b64_val c with
            | None => None
            | Some vc =>
                let b1 := byte_of (vb mod 16 * 16 + vc / 4) in
                if Byte.eqb d "=" then
                  if bool_decide (r = []) then Some [b0; b1] else None
                else
                  match b64_val d with
                  | None => None
                  | Some vd =>
                      let b2 := byte_of (vc mod 4 * 64 + vd) in
                      app [b0; b1; b2] <$> b64_quads r
                  end
            end
      | _, _ => None
      end
  | _ => None
  end%N.

Definition b64_decode (s : bytes) : option bytes :=
  b64_quads (List.filter (fun b => negb (Byte.eqb b x0a || Byte.eqb b x0d)) s).

Definition decode_bytes (j : json) : option bytes :=
  match j with
  | JNull => Some []
  | JStr s => b64_decode s
  | JArr l => mapM decode_u8 l
  | _ => None
  end.

Definition encode_bytes (b : bytes) : json := JStr (b64_encode b).

Definition b64_char_ok (n : N) : bool :=
  let c := b64_char n in
  bool_decide (b64_val c = Some n) && negb (Byte.eqb c "=")
  && negb (Byte.eqb c x0a || Byte.eqb c x0d) && in_range 0 0x7F c.

Lemma b64_char_spec n : (n < 64)%N -> b64_char_ok n = true.
Proof.
  intros Hn.
  assert (forallb b64_char_ok (N.of_nat <$> seq 0 64) = true) as H by by vm_compute.
  rewrite forallb_forall in H. apply H. apply list_elem_of_In, list_elem_of_fmap.
  exists (N.to_nat n). split; [lia|]. apply elem_of_seq. lia.
Qed.

Lemma b64_char_facts n : (n < 64)%N ->
  b64_val (b64_char n) = Some n /\ Byte.eqb (b64_char n) "=" = false /\
  negb (Byte.eqb (b64_char n) x0a || Byte.eqb (b64_char n) x0d) = true /\
  in_range 0 0x7F (b64_char n) = true.
Proof.
  intros Hn. pose proof (b64_char_spec n Hn) as H. unfold b64_char_ok in H.
  rewrite !andb_true_iff, bool_decide_eq_true in H. destruct H as [[[? H2] ?] ?].
  by apply negb_true_iff in H2.
Qed.

Lemma byte_of_n_of x b : x = n_of b -> byte_of x = b.
Proof. intros ->. apply byte_to_N_inj, byte_of_to_N, byte_to_N_lt. Qed.

Lemma b64_quad a b c d r :
  (a < 64)%N -> (b < 64)%N -> (c < 64)%N -> (d < 64)%N ->
  b64_quads (b64_char a :: b64_char b :: b64_char c :: b64_char d :: r)
  = app [byte_of (a * 4 + b / 16); byte_of (b mod 16 * 16 + c / 4); byte_of (c mod 4 * 64 + d)]%N
    <$> b64_quads r.
Proof.
  intros Ha Hb Hc Hd.
  destruct (b64_char_facts a Ha) as (Ea & _), (b64_char_facts b Hb) as (Eb & _),
    (b64_char_facts c Hc) as (Ec & Ec' & _), (b64_char_facts d Hd) as (Ed & Ed' & _).
  cbn [b64_quads]. by rewrite Ea, Eb, Ec, Ec', Ed, Ed'.
Qed.

Lemma b64_quads_encode s : b64_quads (b64_encode s) = Some s.
Proof.
  induction s as [s IH] using (well_founded_induction (well_founded_ltof _ (@length byte))).
  destruct s as [|a [|b [|c r]]]; [done|..].
  - pose proof (byte_to_N_lt a). fold (n_of a) in *. cbn [b64_encode b64_quads].
    destruct (b64_char_facts (n_of a / 4)) as (-> & _); [divlia|].
    destruct (b64_char_facts (n_of a mod 4 * 16)) as (-> & _); [divlia|].
    simpl. do 2 f_equal. apply byte_of_n_of. divlia.
  - pose proof (byte_to_N_lt a). pose proof (byte_to_N_lt b). fold (n_of a) (n_of b) in *.
    cbn [b64_encode b64_quads].
    destruct (b64_char_facts (n_of a / 4)) as (-> & _); [divlia|].
    destruct (b64_char_facts (n_of a mod 4 * 16 + n_of b / 16)) as (-> & _); [divlia|].
    destruct (b64_char_facts (n_of b mod 16 * 4)) as (-> & -> & _); [divlia|].
    simpl. f_equal. f_equal; [|f_equal]; apply byte_of_n_of; divlia.
  - pose proof (byte_to_N_lt a). pose proof (byte_to_N_lt b). pose proof (byte_to_N_lt c).
    fold (n_of a) (n_of b) (n_of c) in *. cbn [b64_encode app].
    rewrite b64_quad by divlia. rewrite IH by (unfold ltof; simpl; lia). simpl. f_equal.
    f_equal; [|f_equal; [|f_equal]]; try (apply byte_of_n_of; divlia).
Qed.

Definition b64_plain (b : byte) : Prop :=
  negb (Byte.eqb b x0a || Byte.eqb b x0d) = true /\ in_range 0 0x7F b = true.

Lemma b64_char_plain n : (n < 64)%N -> b64_plain (b64_char n).
Proof. intros H. by destruct (b64_char_facts n H) as (_ & _ & ? & ?). Qed.

Lemma b64_encode_plain s : Forall b64_plain (b64_encode s).
Proof.
  induction s as [s IH] using (well_founded_induction (well_founded_ltof _ (@length byte))).
  destruct s as [|a [|b [|c r]]]; [done|..].
  - pose proof (byte_to_N_lt a). fold (n_of a) in *. cbn [b64_encode].
    repeat constructor; apply b64_char_plain; divlia.
  - pose proof (byte_to_N_lt a). pose proof (byte_to_N_lt b). fold (n_of a) (n_of b) in *.
    cbn [b64_encode]. repeat constructor; apply b64_char_plain; divlia.
  - pose proof (byte_to_N_lt a). pose proof (byte_to_N_lt b). pose proof (byte_to_N_lt c).
    fold (n_of a) (n_of b) (n_of c) in *. cbn [b64_encode app].
    do 4 (constructor; [apply b64_char_plain; divlia|]). apply IH. unfold ltof; simpl; lia.
Qed.

(** Decoding the base64 text of a byte slice gives the slice back. *)
Lemma base64_roundtrip s : b64_decode (b64_encode s) = Some s.
Proof.
  unfold b64_decode. etrans; [|apply b64_quads_encode]. f_equal.
  induction (b64_encode_plain s) as [|b l [Hb _] _ IH]; [done|].
  simpl. by rewrite Hb, IH.
Qed.

(** ASCII text is valid UTF-8. *)
Lemma sanitize_ascii s : Forall (fun b => in_range 0 0x7F b = true) s -> sanitize s = s.
Proof.
  intros H. apply sanitize_valid. unfold valid.
  induction H as [|b l Hb _ IH]; [done|]. rewrite chunks_cons.
  unfold next_chunk. rewrite Hb. simpl. done.
Qed.

Lemma sanitize_b64 s : sanitize (b64_encode s) = b64_encode s.
Proof.
  apply sanitize_ascii. eapply Forall_impl; [apply b64_encode_plain|]. by intros ? [].
Qed.

Lemma decode_bytes_norm b : decode_bytes (norm (encode_bytes b)) = Some b.
Proof. simpl. rewrite sanitize_b64. apply base64_roundtrip. Qed.

End Json.
