(* ===== verification/Types.v ===== *)
(** * Shared types (src/pkg/types/types.go) and the program's error values

    The data every component exchanges: identifiers, the log entry with its
    command, the three RPC request/response pairs.  Each record has the JSON
    codec its struct tags prescribe, as an instance of [JsonCodec]; the class
    [JsonLaws] states the round trip once and [Unmarshal_Marshal] derives it
    for every instance. *)

From S2P Require Import Prelude GoJson.
Import Utf8 Json.

Local Open Scope string_scope.

(** ** Data *)

Abbreviation NodeID := string (only parsing).
Abbreviation Term := N (only parsing).
Abbreviation LogIndex := N (only parsing).
Abbreviation OpType := string (only parsing).

Inductive NodeState := Follower | Candidate | Leader.

#[export] Instance NodeState_eq_dec : EqDecision NodeState.
Proof. solve_decision. Defined.

Definition NodeState_String (s : NodeState) : string :=
  match s with
  | Follower => "Follower"
  | Candidate => "Candidate"
  | Leader => "Leader"
  end.

Definition OpPut : OpType := "PUT".
Definition OpDelete : OpType := "DELETE".
Definition OpCAS : OpType := "CAS".
Definition OpNoop : OpType := "NOOP".

Record Command := mkCommand {
  cmd_Op : OpType;
  cmd_Key : string;
  cmd_Value : bytes;
  cmd_PrevValue : bytes
}.

Record LogEntry := mkLogEntry {
  le_Index : LogIndex;
  le_Term : Term;
  le_Command : Command
}.

Record Peer := mkPeer {
  peer_ID : NodeID;
  peer_Addr : string
}.

Record AppendEntriesRequest := mkAEReq {
  ae_Term : Term;
  ae_LeaderID : NodeID;
  ae_PrevLogIndex : LogIndex;
  ae_PrevLogTerm : Term;
  ae_Entries : list LogEntry;
  ae_LeaderCommit : LogIndex
}.

Record AppendEntriesResponse := mkAEResp {
  aer_Term : Term;
  aer_Success : bool;
  aer_FollowerID : NodeID;
  aer_MatchIndex : LogIndex;
  aer_ConflictIndex : LogIndex;
  aer_ConflictTerm : Term
}.

Record RequestVoteRequest := mkRVReq {
  rv_Term : Term;
  rv_CandidateID : NodeID;
  rv_LastLogIndex : LogIndex;
  rv_LastLogTerm : Term
}.

Record RequestVoteResponse := mkRVResp {
  rvr_Term : Term;
  rvr_VoteGranted : bool;
  rvr_VoterID : NodeID
}.

Record InstallSnapshotRequest := mkISReq {
  is_Term : Term;
  is_LeaderID : NodeID;
  is_LastIncludedIndex : LogIndex;
  is_LastIncludedTerm : Term;
  is_Data : bytes
}.

Record InstallSnapshotResponse := mkISResp {
  isr_Term : Term;
  isr_FollowerID : NodeID;
  isr_Success : bool
}.

#[export] Instance Command_eq_dec : EqDecision Command.
Proof. solve_decision. Defined.
#[export] Instance LogEntry_eq_dec : EqDecision LogEntry.
Proof. solve_decision. Defined.
#[export] Instance Peer_eq_dec : EqDecision Peer.
Proof. solve_decision. Defined.
#[export] Instance RequestVoteRequest_eq_dec : EqDecision RequestVoteRequest.
Proof. solve_decision. Defined.
#[export] Instance RequestVoteResponse_eq_dec : EqDecision RequestVoteResponse.
Proof. solve_decision. Defined.
#[export] Instance AppendEntriesRequest_eq_dec : EqDecision AppendEntriesRequest.
Proof. solve_decision. Defined.
#[export] Instance AppendEntriesResponse_eq_dec : EqDecision AppendEntriesResponse.
Proof. solve_decision. Defined.

(** ** Errors

    Go's [error] values, as far as the program distinguishes them: the two
    sentinels it compares by identity, the typed [NotLeaderError] it looks for
    with [errors.As], wrapped errors ([fmt.Errorf] with [%w]) and plain ones. *)

Inductive error :=
| ErrKeyNotFound                       (* storage.ErrKeyNotFound *)
| ErrLogEntryNotFound                  (* consensus.ErrLogEntryNotFound *)
| NotLeaderError (LeaderID : NodeID)   (* *consensus.NotLeaderError *)
| ErrBucketNotFound                    (* bolt.ErrBucketNotFound *)
| ErrBolt (msg : string)               (* any other error of bbolt *)
| ErrJSON                              (* an error of encoding/json *)
| ErrContext (msg : string)            (* ctx.Err() *)
| ErrServerClosed                      (* http.ErrServerClosed *)
| Errorf (msg : string)                (* fmt.Errorf without a wrapped error *)
| Wrapf (msg : string) (err : error).  (* fmt.Errorf("msg: %w", err) *)

#[export] Instance error_eq_dec : EqDecision error.
Proof. solve_decision. Defined.

Definition NotLeaderError_Error (LeaderID : NodeID) : string :=
  if bool_decide (LeaderID = "") then "not leader (leader unknown)"
  else "not leader, redirect to " ++ LeaderID.

(** [err.Error()].  The texts of JSON errors depend on the offending input and
    are not rendered. *)
Fixpoint error_Error (e : error) : string :=
  match e with
  | ErrKeyNotFound => "key not found"
  | ErrLogEntryNotFound => "log entry not found"
  | NotLeaderError l => NotLeaderError_Error l
  | ErrBucketNotFound => "bucket not found"
  | ErrBolt m => m
  | ErrJSON => "invalid JSON"
  | ErrContext m => m
  | ErrServerClosed => "http: Server closed"
  | Errorf m => m
  | Wrapf m e => m ++ ": " ++ error_Error e
  end.

(** [errors.As(err, &nle)] for [*NotLeaderError]. *)
Fixpoint as_not_leader (e : error) : option NodeID :=
  match e with
  | NotLeaderError l => Some l
  | Wrapf _ e => as_not_leader e
  | _ => None
  end.

(** [errors.Is(err, target)] for a sentinel [target]. *)
Fixpoint errors_Is (e target : error) : bool :=
  bool_decide (e = target) ||
  match e with Wrapf _ e => errors_Is e target | _ => false end.

(** ** JSON codecs *)

(** [of_json j old] decodes [j] into a variable that holds [old]; [j_zero] is
    the zero value a fresh variable holds. *)
Class JsonCodec (A : Type) := {
  to_json : A -> json;
  of_json : json -> A -> option A;
  j_zero : A
}.

Definition Marshal `{JsonCodec A} (a : A) : bytes := print (to_json a).
Definition Unmarshal `{JsonCodec A} (data : bytes) : option A :=
  parse data ≫= fun j => of_json j j_zero.

(** A Go string after a round trip through JSON text. *)
Definition san (s : string) : string := String.string_of_list_byte (sanitize (str s)).
Definition utf8_string (s : string) : Prop := Utf8.valid (str s) = true.

Lemma san_utf8 s : utf8_string s -> san s = s.
Proof.
  intros H. unfold san. rewrite sanitize_valid by done.
  apply String.string_of_list_byte_of_string.
Qed.

(** [j_ok a]: the integers of [a] are 64-bit; [j_san a]: [a] with its strings
    sanitised. *)
Class JsonLaws (A : Type) `{JsonCodec A} := {
  j_ok : A -> Prop;
  j_san : A -> A;
  to_json_ok a : j_ok a -> json_ok (to_json a);
  of_to_json a : j_ok a -> of_json (norm (to_json a)) j_zero = Some (j_san a)
}.

Lemma Unmarshal_Marshal `{JsonLaws A} (a : A) :
  j_ok a -> Unmarshal (Marshal a) = Some (j_san a).
Proof.
  intros Hok. unfold Unmarshal, Marshal.
  rewrite parse_print by (by apply to_json_ok). simpl. by apply of_to_json.
Qed.

(** [json.NewDecoder(r).Decode(&v)]: the first value of the stream. *)
Definition Decode `{JsonCodec A} (data : bytes) : option A :=
  decode_stream data ≫= fun '(j, _) => of_json j j_zero.
(** [json.NewEncoder(w).Encode(v)]. *)
Definition Encode `{JsonCodec A} (a : A) : bytes := Marshal a ++ [x0a].

Lemma Decode_Marshal `{JsonLaws A} (a : A) rest :
  j_ok a -> ends rest -> Decode (Marshal a ++ rest) = Some (j_san a).
Proof.
  intros Hok Hr. unfold Decode, Marshal.
  rewrite decode_stream_print by (try apply to_json_ok; done). simpl. by apply of_to_json.
Qed.

(** The server decodes what the client wrote. *)
Lemma Decode_body `{JsonLaws A} (a : A) : j_ok a -> Decode (Marshal a) = Some (j_san a).
Proof. intros Hok. rewrite <-(app_nil_r (Marshal a)). by apply Decode_Marshal. Qed.

Definition jnum (n : N) : json := JNum (dec n).
Definition jstr (s : string) : json := JStr (str s).
Definition jfield (k : string) (j : json) : bytes * json := (str k, j).
(** The [omitempty] option. *)
Definition jfield_opt (k : string) (empty : bool) (j : json) : list (bytes * json) :=
  if empty then [] else [jfield k j].

#[export] Instance Command_codec : JsonCodec Command := {|
  to_json c := JObj ([jfield "op" (jstr (cmd_Op c)); jfield "key" (jstr (cmd_Key c))]
    ++ jfield_opt "value" (bool_decide (cmd_Value c = [])) (encode_bytes (cmd_Value c))
    ++ jfield_opt "prev_value" (bool_decide (cmd_PrevValue c = [])) (encode_bytes (cmd_PrevValue c)));
  of_json := decode_struct (fun k v c =>
    if field_is "op" k then
      (fun x => mkCommand x (cmd_Key c) (cmd_Value c) (cmd_PrevValue c)) <$> decode_string v (cmd_Op c)
    else if field_is "key" k then
      (fun x => mkCommand (cmd_Op c) x (cmd_Value c) (cmd_PrevValue c)) <$> decode_string v (cmd_Key c)
    else if field_is "value" k then
      (fun x => mkCommand (cmd_Op c) (cmd_Key c) x (cmd_PrevValue c)) <$> decode_bytes v
    else if field_is "prev_value" k then
      (fun x => mkCommand (cmd_Op c) (cmd_Key c) (cmd_Value c) x) <$> decode_bytes v
    else Some c);
  j_zero := mkCommand "" "" [] []
|}.

#[export] Instance LogEntry_codec : JsonCodec LogEntry := {|
  to_json e := JObj [jfield "index" (jnum (le_Index e)); jfield "term" (jnum (le_Term e));
    jfield "command" (to_json (le_Command e))];
  of_json := decode_struct (fun k v e =>
    if field_is "index" k then
      (fun x => mkLogEntry x (le_Term e) (le_Command e)) <$> decode_u64 v (le_Index e)
    else if field_is "term" k then
      (fun x => mkLogEntry (le_Index e) x (le_Command e)) <$> decode_u64 v (le_Term e)
    else if field_is "command" k then
      (fun x => mkLogEntry (le_Index e) (le_Term e) x) <$> of_json v (le_Command e)
    else Some e);
  j_zero := mkLogEntry 0 0 j_zero
|}.

(** A nil slice is encoded as [null]. *)
Definition jlist `{JsonCodec A} (l : list A) : json :=
  if bool_decide (length l = 0%nat) then JNull else JArr (to_json <$> l).

Definition jbytes (b : bytes) : json :=
  if bool_decide (b = []) then JNull else encode_bytes b.

#[export] Instance AEReq_codec : JsonCodec AppendEntriesRequest := {|
  to_json r := JObj [jfield "term" (jnum (ae_Term r)); jfield "leader_id" (jstr (ae_LeaderID r));
    jfield "prev_log_index" (jnum (ae_PrevLogIndex r)); jfield "prev_log_term" (jnum (ae_PrevLogTerm r));
    jfield "entries" (jlist (ae_Entries r)); jfield "leader_commit" (jnum (ae_LeaderCommit r))];
  of_json := decode_struct (fun k v r =>
    let '(mkAEReq t l pi pt es lc) := r in
    if field_is "term" k then (fun x => mkAEReq x l pi pt es lc) <$> decode_u64 v t
    else if field_is "leader_id" k then (fun x => mkAEReq t x pi pt es lc) <$> decode_string v l
    else if field_is "prev_log_index" k then (fun x => mkAEReq t l x pt es lc) <$> decode_u64 v pi
    else if field_is "prev_log_term" k then (fun x => mkAEReq t l pi x es lc) <$> decode_u64 v pt
    else if field_is "entries" k then
      (fun x => mkAEReq t l pi pt x lc) <$> decode_slice (fun j => of_json j j_zero) v
    else if field_is "leader_commit" k then (fun x => mkAEReq t l pi pt es x) <$> decode_u64 v lc
    else Some r);
  j_zero := mkAEReq 0 "" 0 0 [] 0
|}.

#[export] Instance AEResp_codec : JsonCodec AppendEntriesResponse := {|
  to_json r := JObj ([jfield "term" (jnum (aer_Term r)); jfield "success" (JBool (aer_Success r));
    jfield "follower_id" (jstr (aer_FollowerID r)); jfield "match_index" (jnum (aer_MatchIndex r))]
    ++ jfield_opt "conflict_index" (aer_ConflictIndex r =? 0)%N (jnum (aer_ConflictIndex r))
    ++ jfield_opt "conflict_term" (aer_ConflictTerm r =? 0)%N (jnum (aer_ConflictTerm r)));
  of_json := decode_struct (fun k v r =>
    let '(mkAEResp t s f m ci ct) := r in
    if field_is "term" k then (fun x => mkAEResp x s f m ci ct) <$> decode_u64 v t
    else if field_is "success" k then (fun x => mkAEResp t x f m ci ct) <$> decode_bool v s
    else if field_is "follower_id" k then (fun x => mkAEResp t s x m ci ct) <$> decode_string v f
    else if field_is "match_index" k then (fun x => mkAEResp t s f x ci ct) <$> decode_u64 v m
    else if field_is "conflict_index" k then (fun x => mkAEResp t s f m x ct) <$> decode_u64 v ci
    else if field_is "conflict_term" k then (fun x => mkAEResp t s f m ci x) <$> decode_u64 v ct
    else Some r);
  j_zero := mkAEResp 0 false "" 0 0 0
|}.

#[export] Instance RVReq_codec : JsonCodec RequestVoteRequest := {|
  to_json r := JObj [jfield "term" (jnum (rv_Term r)); jfield "candidate_id" (jstr (rv_CandidateID r));
    jfield "last_log_index" (jnum (rv_LastLogIndex r)); jfield "last_log_term" (jnum (rv_LastLogTerm r))];
  of_json := decode_struct (fun k v r =>
    let '(mkRVReq t c li lt) := r in
    if field_is "term" k then (fun x => mkRVReq x c li lt) <$> decode_u64 v t
    else if field_is "candidate_id" k then (fun x => mkRVReq t x li lt) <$> decode_string v c
    else if field_is "last_log_index" k then (fun x => mkRVReq t c x lt) <$> decode_u64 v li
    else if field_is "last_log_term" k then (fun x => mkRVReq t c li x) <$> decode_u64 v lt
    else Some r);
  j_zero := mkRVReq 0 "" 0 0
|}.

#[export] Instance RVResp_codec : JsonCodec RequestVoteResponse := {|
  to_json r := JObj [jfield "term" (jnum (rvr_Term r)); jfield "vote_granted" (JBool (rvr_VoteGranted r));
    jfield "voter_id" (jstr (rvr_VoterID r))];
  of_json := decode_struct (fun k v r =>
    let '(mkRVResp t g i) := r in
    if field_is "term" k then (fun x => mkRVResp x g i) <$> decode_u64 v t
    else if field_is "vote_granted" k then (fun x => mkRVResp t x i) <$> decode_bool v g
    else if field_is "voter_id" k then (fun x => mkRVResp t g x) <$> decode_string v i
    else Some r);
  j_zero := mkRVResp 0 false ""
|}.

#[export] Instance ISReq_codec : JsonCodec InstallSnapshotRequest := {|
  to_json r := JObj [jfield "term" (jnum (is_Term r)); jfield "leader_id" (jstr (is_LeaderID r));
    jfield "last_included_index" (jnum (is_LastIncludedIndex r));
    jfield "last_included_term" (jnum (is_LastIncludedTerm r)); jfield "data" (jbytes (is_Data r))];
  of_json := decode_struct (fun k v r =>
    let '(mkISReq t l li lt d) := r in
    if field_is "term" k then (fun x => mkISReq x l li lt d) <$> decode_u64 v t
    else if field_is "leader_id" k then (fun x => mkISReq t x li lt d) <$> decode_string v l
    else if field_is "last_included_index" k then (fun x => mkISReq t l x lt d) <$> decode_u64 v li
    else if field_is "last_included_term" k then (fun x => mkISReq t l li x d) <$> decode_u64 v lt
    else if field_is "data" k then (fun x => mkISReq t l li lt x) <$> decode_bytes v
    else Some r);
  j_zero := mkISReq 0 "" 0 0 []
|}.

#[export] Instance ISResp_codec : JsonCodec InstallSnapshotResponse := {|
  to_json r := JObj [jfield "term" (jnum (isr_Term r)); jfield "follower_id" (jstr (isr_FollowerID r));
    jfield "success" (JBool (isr_Success r))];
  of_json := decode_struct (fun k v r =>
    let '(mkISResp t f s) := r in
    if field_is "term" k then (fun x => mkISResp x f s) <$> decode_u64 v t
    else if field_is "follower_id" k then (fun x => mkISResp t x s) <$> decode_string v f
    else if field_is "success" k then (fun x => mkISResp t f x) <$> decode_bool v s
    else Some r);
  j_zero := mkISResp 0 "" false
|}.

(** ** The codecs are round trips *)

Lemma decode_u64_jnum n old : u64_ok n -> decode_u64 (norm (jnum n)) old = Some n.
Proof. apply parse_uint64_dec. Qed.

Lemma decode_string_jstr s old : decode_string (norm (jstr s)) old = Some (san s).
Proof. done. Qed.

Lemma jnum_ok n : u64_ok n -> json_ok (jnum n).
Proof. intros H. simpl. eauto. Qed.

Lemma decode_bool_norm b old : decode_bool (JBool b) old = Some b.
Proof. done. Qed.

(** Evaluate the decoder on an object with known member names. *)
Ltac struct_step :=
  match goal with
  | |- context [sanitize (str ?k)] =>
      replace (sanitize (str k)) with (str k) by (vm_compute; reflexivity)
  | |- context [field_is ?n (str ?k)] =>
      let b := eval vm_compute in (field_is n (str k)) in
      replace (field_is n (str k)) with b by (vm_compute; reflexivity)
  | |- context [decode_u64 (norm (jnum _)) _] => rewrite decode_u64_jnum by done
  | |- context [decode_string (norm (jstr _)) _] => rewrite decode_string_jstr
  | |- context [decode_bool (JBool _) _] => rewrite decode_bool_norm
  | |- context [decode_bytes (norm (encode_bytes _))] => rewrite decode_bytes_norm
  end.
Ltac struct_eval :=
  cbn [norm map jfield jfield_opt app fst snd foldl decode_struct
    mbind option_bind fmap option_fmap option_map];
  repeat (struct_step;
    cbn [mbind option_bind fmap option_fmap option_map
      cmd_Op cmd_Key cmd_Value cmd_PrevValue le_Index le_Term le_Command]).

(** Integers of an object are in range. *)
Ltac obj_ok := apply json_ok_obj;
  repeat (apply Forall_nil_2 || (apply Forall_cons_2; [first [by apply jnum_ok | exact I | idtac]|])).

#[local] Arguments jnum : simpl never.
#[local] Arguments jstr : simpl never.
#[local] Arguments encode_bytes : simpl never.

#[export] Program Instance Command_laws : JsonLaws Command := {|
  j_ok c := True;
  j_san c := mkCommand (san (cmd_Op c)) (san (cmd_Key c)) (cmd_Value c) (cmd_PrevValue c)
|}.
Next Obligation.
  intros [op k v pv] _. simpl. repeat case_bool_decide; simpl; auto.
Qed.
Next Obligation.
  intros [op k v pv] _. cbn [to_json of_json j_zero Command_codec cmd_Op cmd_Key cmd_Value cmd_PrevValue].
  repeat case_bool_decide; subst; struct_eval; done.
Qed.

#[export] Program Instance LogEntry_laws : JsonLaws LogEntry := {|
  j_ok e := u64_ok (le_Index e) /\ u64_ok (le_Term e);
  j_san e := mkLogEntry (le_Index e) (le_Term e) (j_san (le_Command e))
|}.
Next Obligation.
  intros [i t c] [Hi Ht]. obj_ok. exact (to_json_ok (A := Command) c I).
Qed.
Next Obligation.
  intros [i t c] [Hi Ht]. pose proof (of_to_json c I) as Hc. simpl in Hi, Ht.
  cbn [to_json of_json j_zero LogEntry_codec le_Command]. set (jc := to_json c) in *. clearbody jc.
  struct_eval. by rewrite Hc.
Qed.

Lemma of_json_entries l :
  Forall (fun e => j_ok e) l ->
  decode_slice (fun j => of_json j j_zero) (norm (jlist l)) = Some (j_san <$> l).
Proof.
  intros H. unfold jlist. case_bool_decide as E; [by destruct l|]. clear E.
  cbn [norm decode_slice]. induction H as [|e l He _ IH]; [done|].
  rewrite fmap_cons, map_cons. cbn [mapM]. rewrite of_to_json by done.
  cbn [mbind option_bind]. by rewrite IH.
Qed.

Lemma jlist_ok (l : list LogEntry) : Forall (fun e => j_ok e) l -> json_ok (jlist l).
Proof.
  intros H. unfold jlist. case_bool_decide; [done|]. apply json_ok_arr.
  apply Forall_fmap. eapply Forall_impl; [exact H|]. intros e He. by apply to_json_ok.
Qed.

Lemma decode_bytes_jbytes b : decode_bytes (norm (jbytes b)) = Some b.
Proof. unfold jbytes. case_bool_decide; [by subst|]. apply decode_bytes_norm. Qed.

#[export] Program Instance AEReq_laws : JsonLaws AppendEntriesRequest := {|
  j_ok r := u64_ok (ae_Term r) /\ u64_ok (ae_PrevLogIndex r) /\ u64_ok (ae_PrevLogTerm r)
    /\ u64_ok (ae_LeaderCommit r) /\ Forall (fun e => j_ok e) (ae_Entries r);
  j_san r := mkAEReq (ae_Term r) (san (ae_LeaderID r)) (ae_PrevLogIndex r) (ae_PrevLogTerm r)
    (j_san <$> ae_Entries r) (ae_LeaderCommit r)
|}.
Next Obligation.
  intros [t l pi pt es lc] (? & ? & ? & ? & ?). obj_ok. by apply jlist_ok.
Qed.
Next Obligation.
  intros [t l pi pt es lc] Hok. simpl in Hok. destruct Hok as (? & ? & ? & ? & Hes). apply of_json_entries in Hes.
  cbn [to_json of_json j_zero AEReq_codec ae_Entries]. set (je := jlist es) in *. clearbody je.
  cbn [ae_Term ae_LeaderID ae_PrevLogIndex ae_PrevLogTerm ae_LeaderCommit].
  struct_eval. rewrite Hes. struct_eval. done.
Qed.

#[export] Program Instance AEResp_laws : JsonLaws AppendEntriesResponse := {|
  j_ok r := u64_ok (aer_Term r) /\ u64_ok (aer_MatchIndex r) /\ u64_ok (aer_ConflictIndex r)
    /\ u64_ok (aer_ConflictTerm r);
  j_san r := mkAEResp (aer_Term r) (aer_Success r) (san (aer_FollowerID r)) (aer_MatchIndex r)
    (aer_ConflictIndex r) (aer_ConflictTerm r)
|}.
Next Obligation.
  intros [t s f m ci ct] Hok. simpl in Hok. destruct Hok as (? & ? & ? & ?).
  cbn [to_json AEResp_codec aer_ConflictIndex aer_ConflictTerm].
  destruct (ci =? 0)%N, (ct =? 0)%N; cbn [jfield_opt app]; obj_ok.
Qed.
Next Obligation.
  intros [t s f m ci ct] Hok. simpl in Hok. destruct Hok as (? & ? & ? & ?).
  cbn [to_json of_json j_zero AEResp_codec aer_Term aer_Success aer_FollowerID aer_MatchIndex aer_ConflictIndex aer_ConflictTerm].
  destruct (N.eqb_spec ci 0), (N.eqb_spec ct 0); subst; struct_eval; done.
Qed.

#[export] Program Instance RVReq_laws : JsonLaws RequestVoteRequest := {|
  j_ok r := u64_ok (rv_Term r) /\ u64_ok (rv_LastLogIndex r) /\ u64_ok (rv_LastLogTerm r);
  j_san r := mkRVReq (rv_Term r) (san (rv_CandidateID r)) (rv_LastLogIndex r) (rv_LastLogTerm r)
|}.
Next Obligation. intros [t c li lt] (? & ? & ?). obj_ok. Qed.
Next Obligation.
  intros [t c li lt] Hok. simpl in Hok. destruct Hok as (? & ? & ?).
  cbn [to_json of_json j_zero RVReq_codec rv_Term rv_CandidateID rv_LastLogIndex rv_LastLogTerm].
  struct_eval. done.
Qed.

#[export] Program Instance RVResp_laws : JsonLaws RequestVoteResponse := {|
  j_ok r := u64_ok (rvr_Term r);
  j_san r := mkRVResp (rvr_Term r) (rvr_VoteGranted r) (san (rvr_VoterID r))
|}.
Next Obligation. intros [t g i] ?. obj_ok. Qed.
Next Obligation.
  intros [t g i] Hok. simpl in Hok.
  cbn [to_json of_json j_zero RVResp_codec rvr_Term rvr_VoteGranted rvr_VoterID]. struct_eval. done.
Qed.

#[export] Program Instance ISReq_laws : JsonLaws InstallSnapshotRequest := {|
  j_ok r := u64_ok (is_Term r) /\ u64_ok (is_LastIncludedIndex r) /\ u64_ok (is_LastIncludedTerm r);
  j_san r := mkISReq (is_Term r) (san (is_LeaderID r)) (is_LastIncludedIndex r)
    (is_LastIncludedTerm r) (is_Data r)
|}.
Next Obligation.
  intros [t l li lt d] (? & ? & ?). obj_ok. simpl. unfold jbytes. by case_bool_decide.
Qed.
Next Obligation.
  intros [t l li lt d] Hok. simpl in Hok. destruct Hok as (? & ? & ?). pose proof (decode_bytes_jbytes d) as Hd.
  cbn [to_json of_json j_zero ISReq_codec is_Data]. set (jd := jbytes d) in *. clearbody jd.
  cbn [is_Term is_LeaderID is_LastIncludedIndex is_LastIncludedTerm]. struct_eval.
  by rewrite Hd.
Qed.

#[export] Program Instance ISResp_laws : JsonLaws InstallSnapshotResponse := {|
  j_ok r := u64_ok (isr_Term r);
  j_san r := mkISResp (isr_Term r) (san (isr_FollowerID r)) (isr_Success r)
|}.
Next Obligation. intros [t f s] ?. obj_ok. Qed.
Next Obligation.
  intros [t f s] Hok. simpl in Hok.
  cbn [to_json of_json j_zero ISResp_codec isr_Term isr_FollowerID isr_Success]. struct_eval. done.
Qed.

(** ** Whatever is decoded is in range *)

Class JsonRange (A : Type) `{JsonLaws A} := {
  j_zero_ok : j_ok j_zero;
  of_json_ok j old a : j_ok old -> of_json j old = Some a -> j_ok a
}.

Lemma Unmarshal_ok `{JsonRange A} data (a : A) : Unmarshal data = Some a -> j_ok a.
Proof.
  unfold Unmarshal. destruct (parse data); simpl; [|done]. apply of_json_ok, j_zero_ok.
Qed.

Lemma Decode_ok `{JsonRange A} data (a : A) : Decode data = Some a -> j_ok a.
Proof.
  unfold Decode. destruct (decode_stream data) as [[j r]|]; simpl; [|done].
  apply of_json_ok, j_zero_ok.
Qed.

Lemma decode_struct_inv {S} (P : S -> Prop) set j (zero a : S) :
  (forall k v s s', P s -> set k v s = Some s' -> P s') -> P zero ->
  decode_struct set j zero = Some a -> P a.
Proof.
  intros Hset Hz. destruct j; simpl; try done; [by intros [= <-]|].
  revert zero Hz. induction ms as [|[k v] ms IH]; simpl; intros zero Hz; [by intros [= <-]|].
  destruct (set k v zero) eqn:E.
  - apply IH. by eapply Hset.
  - intros Hf. exfalso. clear -Hf. by induction ms.
Qed.

Lemma decode_u64_ok j old n : u64_ok old -> decode_u64 j old = Some n -> u64_ok n.
Proof.
  intros Ho. destruct j; simpl; try done; [by intros [= <-]|]. unfold parse_uint64.
  case_match eqn:E; [|done]. intros [= <-]. bool_props. done.
Qed.

Lemma decode_slice_ok `{JsonRange A} j (l : list A) :
  decode_slice (fun j => of_json j j_zero) j = Some l -> Forall (fun a => j_ok a) l.
Proof.
  destruct j; simpl; try done; [intros [= <-]; constructor|].
  intros Hl. apply mapM_Some in Hl. eapply Forall2_Forall_r; [exact Hl|].
  apply Forall_true. intros x y Hy. eapply of_json_ok; [apply j_zero_ok|done].
Qed.

(** The decoder of a struct assigns one field after the other. *)
Ltac range_fields :=
  repeat match goal with
  | H : (if ?b then _ else _) = Some _ |- _ => destruct b
  | H : _ <$> ?o = Some _ |- _ => destruct o eqn:?; simpl in H
  | H : None = Some _ |- _ => discriminate H
  | H : Some _ = Some _ |- _ => injection H as <-
  | H : decode_u64 _ ?o = Some _, Ho : u64_ok ?o |- _ => apply (decode_u64_ok _ _ _ Ho) in H
  | H : decode_slice _ _ = Some _ |- _ => apply decode_slice_ok in H
  | H : _ /\ _ |- _ => destruct H
  end.
Ltac range_ok :=
  intros j old a Hold; apply (decode_struct_inv (fun x => j_ok x)); [clear|exact Hold];
  intros k v s s' Hs Hset; destruct s; cbn in Hs; cbv beta iota in Hset;
  cbn [le_Index le_Term le_Command] in Hset; range_fields; cbn; split_and?; assumption.

#[export] Instance Command_range : JsonRange Command.
Proof. split; [exact I|intros; exact I]. Qed.
#[export] Instance LogEntry_range : JsonRange LogEntry.
Proof. split; [cbn; split_and?; done|range_ok]. Qed.
#[export] Instance AEReq_range : JsonRange AppendEntriesRequest.
Proof. split; [cbn; split_and?; done|range_ok]. Qed.
#[export] Instance AEResp_range : JsonRange AppendEntriesResponse.
Proof. split; [cbn; split_and?; done|range_ok]. Qed.
#[export] Instance RVReq_range : JsonRange RequestVoteRequest.
Proof. split; [cbn; split_and?; done|range_ok]. Qed.
#[export] Instance RVResp_range : JsonRange RequestVoteResponse.
Proof. split; [cbn; split_and?; done|range_ok]. Qed.
#[export] Instance ISReq_range : JsonRange InstallSnapshotRequest.
Proof. split; [cbn; split_and?; done|range_ok]. Qed.
#[export] Instance ISResp_range : JsonRange InstallSnapshotResponse.
Proof. split; [cbn; split_and?; done|range_ok]. Qed.
