(* ===== verification/Config.v ===== *)
(** * Configuration (src/config/config.go)

    Loading, defaulting and validating a node's configuration, and what a
    validated configuration guarantees to the timer code. *)

From S2P Require Import Prelude Types.

Local Open Scope string_scope.

Record NodeConfig := mkNodeConfig {
  nc_ID : string;
  nc_Addr : string
}.

Record RaftConfig := mkRaftConfig {
  ElectionTimeoutMinMs : Z;
  ElectionTimeoutMaxMs : Z;
  HeartbeatIntervalMs : Z;
  SnapshotThreshold : Z
}.

Record StorageConfig := mkStorageConfig {
  sc_Type : string;
  sc_DataDir : string
}.

Record ServerConfig := mkServerConfig { srv_Addr : string }.

Record Config := mkConfig {
  cfg_Node : NodeConfig;
  cfg_Peers : list NodeConfig;
  cfg_Raft : RaftConfig;
  cfg_Storage : StorageConfig;
  cfg_Server : ServerConfig
}.

Definition default_int (v d : Z) : Z := if (v =? 0)%Z then d else v.
Definition default_str (v d : string) : string := if bool_decide (v = "") then d else v.

Definition applyDefaults (cfg : Config) : Config :=
  let r := cfg_Raft cfg in
  mkConfig (cfg_Node cfg) (cfg_Peers cfg)
    (mkRaftConfig
      (default_int (ElectionTimeoutMinMs r) 150)
      (default_int (ElectionTimeoutMaxMs r) 300)
      (default_int (HeartbeatIntervalMs r) 50)
      (default_int (SnapshotThreshold r) 10000))
    (mkStorageConfig
      (default_str (sc_Type (cfg_Storage cfg)) "persistent")
      (default_str (sc_DataDir (cfg_Storage cfg)) "./data"))
    (mkServerConfig (default_str (srv_Addr (cfg_Server cfg)) ":8080")).

Definition validate (cfg : Config) : option error :=
  if bool_decide (nc_ID (cfg_Node cfg) = "") then Some (Errorf "node.id is required")
  else if bool_decide (nc_Addr (cfg_Node cfg) = "") then Some (Errorf "node.addr is required")
  else if (ElectionTimeoutMaxMs (cfg_Raft cfg) <=? ElectionTimeoutMinMs (cfg_Raft cfg))%Z then
    Some (Errorf "election_timeout_min_ms must be < election_timeout_max_ms")
  else if (ElectionTimeoutMinMs (cfg_Raft cfg) <=? HeartbeatIntervalMs (cfg_Raft cfg))%Z then
    Some (Errorf "heartbeat_interval_ms must be < election_timeout_min_ms")
  else None.

(** [Load path]: [ReadFile] stands for [os.ReadFile], [yaml] for [yaml.Unmarshal]
    into a zero [Config], and [quote] for [strconv.Quote], which %q applies. *)
Definition Load (quote : string -> string) (ReadFile : string -> error + bytes)
    (yaml : bytes -> error + Config) (path : string) : error + Config :=
  match ReadFile path with
  | inl err => inl (Wrapf ("reading config " ++ quote path) err)
  | inr data =>
      match yaml data with
      | inl err => inl (Wrapf "parsing config" err)
      | inr cfg =>
          let cfg := applyDefaults cfg in
          match validate cfg with
          | Some err => inl err
          | None => inr cfg
          end
      end
  end.

(** What [validate] checks. *)
Definition config_valid (cfg : Config) : Prop :=
  nc_ID (cfg_Node cfg) <> "" /\ nc_Addr (cfg_Node cfg) <> "" /\
  (HeartbeatIntervalMs (cfg_Raft cfg) < ElectionTimeoutMinMs (cfg_Raft cfg)
    < ElectionTimeoutMaxMs (cfg_Raft cfg))%Z.

(** The configurations the timer code can use: the bound it passes to
    [rand.Intn] is positive, also after the wrap-around of [int]. *)
Definition timers_ok (cfg : Config) : Prop :=
  (0 < i64_wrap (ElectionTimeoutMaxMs (cfg_Raft cfg) - ElectionTimeoutMinMs (cfg_Raft cfg)))%Z.

Lemma validate_spec cfg : validate cfg = None <-> config_valid cfg.
Proof.
  unfold validate, config_valid.
  repeat case_bool_decide; try (split; [done|tauto]).
  destruct (Z.leb_spec (ElectionTimeoutMaxMs (cfg_Raft cfg)) (ElectionTimeoutMinMs (cfg_Raft cfg)));
    [split; [done|lia]|].
  destruct (Z.leb_spec (ElectionTimeoutMinMs (cfg_Raft cfg)) (HeartbeatIntervalMs (cfg_Raft cfg)));
    [split; [done|lia]|].
  split; [|done]. intros _. split_and!; try done; lia.
Qed.

Lemma applyDefaults_raft cfg :
  let r := cfg_Raft (applyDefaults cfg) in
  ElectionTimeoutMinMs r <> 0%Z /\ ElectionTimeoutMaxMs r <> 0%Z /\
  HeartbeatIntervalMs r <> 0%Z /\ SnapshotThreshold r <> 0%Z.
Proof.
  simpl. unfold default_int.
  split_and!; by match goal with |- context [(?v =? 0)%Z] => destruct (Z.eqb_spec v 0) end.
Qed.

Lemma valid_timers_ok cfg :
  config_valid cfg -> i64_ok (ElectionTimeoutMaxMs (cfg_Raft cfg)) ->
  (0 <= ElectionTimeoutMinMs (cfg_Raft cfg))%Z -> timers_ok cfg.
Proof.
  intros (_ & _ & H) [_ Hmax] Hmin. unfold timers_ok.
  rewrite i64_wrap_small; [lia|]. unfold i64_ok, two63 in *. lia.
Qed.

(** ** Properties *)

(** C31: loading.  [Load] succeeds exactly when the file is read, parsed, and the
    defaulted configuration has an id and an address and its timeouts satisfy
    heartbeat < minimum < maximum; every configuration it returns has no zero
    Raft parameter and loading is idempotent on it. *)
Theorem Load_correct quote ReadFile yaml path cfg :
  Load quote ReadFile yaml path = inr cfg <->
  exists data cfg0, ReadFile path = inr data /\ yaml data = inr cfg0 /\ cfg = applyDefaults cfg0 /\
    config_valid cfg /\ SnapshotThreshold (cfg_Raft cfg) <> 0%Z /\ applyDefaults cfg = cfg.
Proof.
  unfold Load. split.
  - destruct (ReadFile path) as [err|data]; [done|]. destruct (yaml data) as [err|cfg0] eqn:Ey; [done|].
    destruct (validate (applyDefaults cfg0)) eqn:Ev; [done|]. intros [= <-].
    apply validate_spec in Ev. exists data, cfg0. split_and!; try done.
    + apply (applyDefaults_raft cfg0).
    + destruct (applyDefaults_raft cfg0) as (H1 & H2 & H3 & H4). unfold applyDefaults at 1.
      assert (forall v d, v <> 0%Z -> default_int v d = v) as Hd.
      { intros v d Hv. unfold default_int. by destruct (Z.eqb_spec v 0). }
      rewrite !Hd by done.
      assert (forall v d, d <> "" -> default_str (default_str v d) d = default_str v d) as Hs.
      { intros v d Hne. unfold default_str. by repeat case_bool_decide. }
      unfold applyDefaults. simpl. by rewrite !Hs.
  - intros (data & cfg0 & -> & -> & -> & Hv & _). apply validate_spec in Hv. by rewrite Hv.
Qed.
