(* ===== verification/Bolt.v ===== *)
(** * The interface of bbolt (go.etcd.io/bbolt), the embedded database

    bbolt is a dependency whose source is not in the repository, so it is a
    parameter of the development: the class [Bolt] lists the operations the
    program calls and [BoltLaws] the documented behaviour it relies on, stated
    through the contents of a transaction (a map from bucket names to key/value
    maps).  The laws say nothing of a cursor that is moved after a key was
    deleted under it: bbolt's documentation asks for the cursor to be repositioned
    first.  [BoltReliable] says that commits do not fail; of the properties only
    the theorems on whole executions of a cluster take it, and [log_refines] for
    its last conclusion.
    [MapBolt] is a model of all the laws, used by the witnesses. *)

From S2P Require Import Prelude Types.

Class Bolt := {
  bolt_DB : Type;
  bolt_Tx : Type;
  bolt_Cursor : Type;
  (* the transactions DB.View and DB.Update run their closure on *)
  view_tx : bolt_DB -> bolt_Tx;
  write_tx : bolt_DB -> bolt_Tx;
  db_Update : bolt_DB -> (bolt_Tx -> option error * bolt_Tx) -> option error * bolt_DB;
  db_Close : bolt_DB -> option error;
  (* Tx.CreateBucketIfNotExists, Tx.CreateBucket, Tx.DeleteBucket *)
  tx_CreateBucketIfNotExists : bolt_Tx -> bytes -> option error * bolt_Tx;
  tx_CreateBucket : bolt_Tx -> bytes -> option error * bolt_Tx;
  tx_DeleteBucket : bolt_Tx -> bytes -> option error * bolt_Tx;
  (* tx.Bucket(b) is not nil *)
  tx_Bucket : bolt_Tx -> bytes -> bool;
  (* tx.Bucket(b).Get / Put / Delete / ForEach *)
  bkt_Get : bolt_Tx -> bytes -> bytes -> option bytes;
  bkt_Put : bolt_Tx -> bytes -> bytes -> bytes -> option error * bolt_Tx;
  bkt_Delete : bolt_Tx -> bytes -> bytes -> option error * bolt_Tx;
  bkt_ForEach : bolt_Tx -> bytes -> list (bytes * bytes);
  (* tx.Bucket(b).Cursor() and its First / Last / Seek / Next *)
  bkt_Cursor : bolt_Tx -> bytes -> bolt_Cursor;
  cur_First : bolt_Tx -> bolt_Cursor -> bolt_Cursor * option bytes;
  cur_Last : bolt_Tx -> bolt_Cursor -> bolt_Cursor * option bytes;
  cur_Seek : bolt_Tx -> bolt_Cursor -> bytes -> bolt_Cursor * option bytes;
  cur_Next : bolt_Tx -> bolt_Cursor -> bolt_Cursor * option bytes
}.

(** [Bucket.Put] rejects a blank or too long key and a too long value. *)
Definition MaxKeySize : N := 32768.
Definition MaxValueSize : N := 2147483646.
Definition put_ok (k v : bytes) : Prop :=
  k <> [] /\ (N.of_nat (length k) <= MaxKeySize)%N /\ (N.of_nat (length v) <= MaxValueSize)%N.

#[export] Instance put_ok_dec k v : Decision (put_ok k v).
Proof. unfold put_ok. apply _. Defined.

(** [key_first m P k]: [k] is the first key of [m], in byte order, with [P]. *)
Definition key_first (m : gmap bytes bytes) (P : bytes -> Prop) (o : option bytes) : Prop :=
  match o with
  | Some k => is_Some (m !! k) /\ P k /\
      forall k', is_Some (m !! k') -> P k' -> k' = k \/ bytes_lt k k'
  | None => forall k', is_Some (m !! k') -> ~ P k'
  end.

Definition key_last (m : gmap bytes bytes) (o : option bytes) : Prop :=
  match o with
  | Some k => is_Some (m !! k) /\ forall k', is_Some (m !! k') -> k' = k \/ bytes_lt k' k
  | None => m = ∅
  end.

Class BoltLaws (B : Bolt) := {
  buckets : bolt_Tx -> gmap bytes (gmap bytes bytes);
  (* [cur_on t c b k]: in [t] the cursor [c] of bucket [b] is on key [k] *)
  cur_on : bolt_Tx -> bolt_Cursor -> bytes -> bytes -> Prop;
  write_tx_view d : buckets (write_tx d) = buckets (view_tx d);
  (* an error of the closure rolls the transaction back; otherwise it is
     committed, which either takes effect as a whole or fails and changes
     nothing *)
  db_Update_spec d f :
    match db_Update d f with
    | (None, d') => (f (write_tx d)).1 = None /\ buckets (view_tx d') = buckets (f (write_tx d)).2
    | (Some e, d') => buckets (view_tx d') = buckets (view_tx d)
        /\ forall e', (f (write_tx d)).1 = Some e' -> e = e'
    end;
  tx_CreateBucketIfNotExists_spec t b : b <> [] ->
    exists t', tx_CreateBucketIfNotExists t b = (None, t') /\
      buckets t' = <[b := default ∅ (buckets t !! b)]> (buckets t);
  tx_CreateBucket_spec t b : b <> [] -> buckets t !! b = None ->
    exists t', tx_CreateBucket t b = (None, t') /\ buckets t' = <[b := ∅]> (buckets t);
  tx_DeleteBucket_spec t b : is_Some (buckets t !! b) ->
    exists t', tx_DeleteBucket t b = (None, t') /\ buckets t' = delete b (buckets t);
  tx_DeleteBucket_missing t b : buckets t !! b = None ->
    tx_DeleteBucket t b = (Some ErrBucketNotFound, t);
  tx_Bucket_spec t b : tx_Bucket t b = bool_decide (is_Some (buckets t !! b));
  bkt_Get_spec t b m k : buckets t !! b = Some m -> bkt_Get t b k = m !! k;
  bkt_Put_spec t b m k v : buckets t !! b = Some m -> put_ok k v ->
    exists t', bkt_Put t b k v = (None, t') /\ buckets t' = <[b := <[k := v]> m]> (buckets t);
  bkt_Put_err t b m k v : buckets t !! b = Some m -> ~ put_ok k v ->
    exists e, bkt_Put t b k v = (Some (ErrBolt e), t);
  bkt_Delete_spec t b m k : buckets t !! b = Some m ->
    exists t', bkt_Delete t b k = (None, t') /\ buckets t' = <[b := delete k m]> (buckets t);
  bkt_ForEach_spec t b m : buckets t !! b = Some m ->
    NoDup (bkt_ForEach t b).*1 /\ list_to_map (bkt_ForEach t b) = m;
  cur_First_spec t b m : buckets t !! b = Some m ->
    exists c o, cur_First t (bkt_Cursor t b) = (c, o) /\ key_first m (fun _ => True) o
      /\ forall k, o = Some k -> cur_on t c b k;
  cur_Last_spec t b m : buckets t !! b = Some m ->
    key_last m (cur_Last t (bkt_Cursor t b)).2;
  cur_Seek_spec t b m s : buckets t !! b = Some m ->
    exists c o, cur_Seek t (bkt_Cursor t b) s = (c, o)
      /\ key_first m (fun k => ~ bytes_lt k s) o
      /\ forall k, o = Some k -> cur_on t c b k;
  cur_Next_spec t c b m k : buckets t !! b = Some m -> cur_on t c b k ->
    exists c' o, cur_Next t c = (c', o) /\ key_first m (bytes_lt k) o
      /\ forall k', o = Some k' -> cur_on t c' b k'
}.

(** No [Update] fails whose closure returns nil. *)
Class BoltReliable (B : Bolt) := {
  db_Update_ok d f : (f (write_tx d)).1 = None -> (db_Update d f).1 = None
}.

(** ** A model of the laws

    A database kept in a finite map.  [fails n] says whether the [n]-th commit
    fails, so that the same model serves the executions with I/O errors. *)

Module MapBolt.
Section map_bolt.
Context (fails : nat -> bool).

Record db := mkdb { db_map : gmap bytes (gmap bytes bytes); db_commits : nat }.

Definition pick (p : bytes -> bool) (better : bytes -> bytes -> bool) (k : bytes)
    (acc : option bytes) : option bytes :=
  if p k then
    match acc with
    | None => Some k
    | Some k' => if better k k' then Some k else Some k'
    end
  else acc.

Definition scan (p : bytes -> bool) (better : bytes -> bytes -> bool) (m : gmap bytes bytes)
    : option bytes :=
  foldr (pick p better) None (map_to_list m).*1.

Definition first_key (p : bytes -> bool) := scan p bytes_ltb.
Definition last_key := scan (fun _ => true) (fun a b => bytes_ltb b a).

Lemma pick_spec p better l :
  (forall a b, a = b \/ better a b = true \/ better b a = true) ->
  (forall a b c, better a b = true -> better b c = true -> better a c = true) ->
  match foldr (pick p better) None l with
  | Some k => k ∈ l /\ p k = true /\
      forall k', k' ∈ l -> p k' = true -> k' = k \/ better k k' = true
  | None => forall k', k' ∈ l -> p k' <> true
  end.
Proof.
  intros Htot Htr. induction l as [|k l IH]; simpl.
  { intros k'. by rewrite elem_of_nil. }
  unfold pick at 1. destruct (p k) eqn:Ek.
  - destruct (foldr _ _ l) as [k'|] eqn:El.
    + destruct IH as (Hin & Hp & Hmin). destruct (better k k') eqn:Eb.
      * split_and!; [set_solver|done|]. intros x Hx Hpx.
        apply elem_of_cons in Hx as [->|Hx]; [by left|].
        destruct (Hmin x Hx Hpx) as [->|?]; [by right|right; eauto].
      * split_and!; [set_solver|done|]. intros x Hx Hpx.
        apply elem_of_cons in Hx as [->|Hx]; [|by auto].
        destruct (Htot k k') as [?|[?|?]]; [by left|congruence|by right].
    + split_and!; [set_solver|done|]. intros x Hx Hpx.
      apply elem_of_cons in Hx as [->|Hx]; [by left|]. by destruct (IH x Hx).
  - destruct (foldr _ _ l) as [k'|] eqn:El.
    + destruct IH as (Hin & Hp & Hmin). split_and!; [set_solver|done|].
      intros x Hx Hpx. apply elem_of_cons in Hx as [->|Hx]; [congruence|by auto].
    + intros x Hx. apply elem_of_cons in Hx as [->|Hx]; [congruence|by auto].
Qed.

Lemma elem_of_keys (m : gmap bytes bytes) k : k ∈ (map_to_list m).*1 <-> is_Some (m !! k).
Proof.
  rewrite list_elem_of_fmap. split.
  - intros ([k' v] & -> & Hv). apply elem_of_map_to_list in Hv. by exists v.
  - intros [v Hv]. exists (k, v). split; [done|]. by apply elem_of_map_to_list.
Qed.

Lemma scan_spec p better m :
  (forall a b, a = b \/ better a b = true \/ better b a = true) ->
  (forall a b c, better a b = true -> better b c = true -> better a c = true) ->
  match scan p better m with
  | Some k => is_Some (m !! k) /\ p k = true /\
      forall k', is_Some (m !! k') -> p k' = true -> k' = k \/ better k k' = true
  | None => forall k', is_Some (m !! k') -> p k' <> true
  end.
Proof.
  intros Htot Htr. pose proof (pick_spec p better (map_to_list m).*1 Htot Htr) as H.
  unfold scan. destruct (foldr _ _ _) as [k|].
  - rewrite elem_of_keys in H. destruct H as (? & ? & H). split_and!; [done..|].
    intros k' Hk'. apply H. by apply elem_of_keys.
  - intros k' Hk'. apply H. by apply elem_of_keys.
Qed.

Lemma first_key_spec p m : key_first m (fun k => p k = true) (first_key p m).
Proof.
  apply (scan_spec p bytes_ltb m).
  - intros a b. destruct (bytes_lt_total a b) as [?|[?|?]]; auto.
  - intros a b c. apply bytes_lt_trans.
Qed.

Lemma last_key_spec m : key_last m (last_key m).
Proof.
  unfold last_key.
  assert (H := scan_spec (fun _ => true) (fun a b => bytes_ltb b a) m
    ltac:(intros a b; destruct (bytes_lt_total a b) as [?|[?|?]]; auto)
    ltac:(intros a b c Hab Hbc; exact (bytes_lt_trans c b a Hbc Hab))).
  destruct (scan _ _ m) as [k|]; simpl in *.
  - destruct H as (? & _ & H). split; [done|]. intros k' Hk'. by apply H.
  - apply map_eq. intros k. rewrite lookup_empty. destruct (m !! k) eqn:E; [|done].
    by destruct (H k).
Qed.

Definition bucket_of (t : gmap bytes (gmap bytes bytes)) (b : bytes) : gmap bytes bytes :=
  default ∅ (t !! b).

Instance map_bolt : Bolt := {|
  bolt_DB := db;
  bolt_Tx := gmap bytes (gmap bytes bytes);
  bolt_Cursor := bytes * option bytes;
  view_tx d := db_map d;
  write_tx d := db_map d;
  db_Update d f :=
    match f (db_map d) with
    | (Some e, _) => (Some e, d)
    | (None, t) =>
        if fails (db_commits d)
        then (Some (ErrBolt "commit failed"), mkdb (db_map d) (S (db_commits d)))
        else (None, mkdb t (S (db_commits d)))
    end;
  tx_CreateBucketIfNotExists t b := (None, <[b := bucket_of t b]> t);
  tx_CreateBucket t b :=
    match t !! b with
    | Some _ => (Some (ErrBolt "bucket already exists"), t)
    | None => (None, <[b := ∅]> t)
    end;
  tx_DeleteBucket t b :=
    match t !! b with
    | Some _ => (None, delete b t)
    | None => (Some ErrBucketNotFound, t)
    end;
  tx_Bucket t b := bool_decide (is_Some (t !! b));
  bkt_Get t b k := bucket_of t b !! k;
  bkt_Put t b k v :=
    if decide (put_ok k v) then (None, <[b := <[k := v]> (bucket_of t b)]> t)
    else (Some (ErrBolt "key or value rejected"), t);
  bkt_Delete t b k := (None, <[b := delete k (bucket_of t b)]> t);
  db_Close _ := None;
  bkt_ForEach t b := map_to_list (bucket_of t b);
  bkt_Cursor t b := (b, None);
  cur_First t c := let o := first_key (fun _ => true) (bucket_of t c.1) in ((c.1, o), o);
  cur_Last t c := let o := last_key (bucket_of t c.1) in ((c.1, o), o);
  cur_Seek t c s :=
    let o := first_key (fun k => negb (bytes_ltb k s)) (bucket_of t c.1) in ((c.1, o), o);
  cur_Next t c :=
    match c.2 with
    | Some k => let o := first_key (bytes_ltb k) (bucket_of t c.1) in ((c.1, o), o)
    | None => (c, None)
    end
|}.

Lemma key_first_iff m (P Q : bytes -> Prop) o :
  (forall k, P k <-> Q k) -> key_first m P o -> key_first m Q o.
Proof. intros H. destruct o; simpl; naive_solver. Qed.

#[refine] Instance map_bolt_laws : BoltLaws map_bolt := {|
  buckets t := t;
  cur_on t c b k := c = (b, Some k)
|}.
Proof.
  - done.
  - intros d f. simpl. destruct (f (db_map d)) as [[e|] t] eqn:E; simpl.
    + split; [done|]. by intros ? [= ->].
    + destruct (fails _); simpl; [by split|done].
  - intros t b _. simpl. eauto.
  - intros t b _ H. simpl. rewrite H. eauto.
  - intros t b [m H]. simpl. rewrite H. eauto.
  - intros t b H. simpl. by rewrite H.
  - done.
  - intros t b m k H. simpl. unfold bucket_of. by rewrite H.
  - intros t b m k v H Hok. simpl. rewrite decide_True by done. unfold bucket_of. rewrite H. eauto.
  - intros t b m k v H Hok. simpl. rewrite decide_False by done. eauto.
  - intros t b m k H. simpl. unfold bucket_of. rewrite H. eauto.
  - intros t b m H. simpl. unfold bucket_of. rewrite H. simpl.
    split; [apply NoDup_fst_map_to_list|apply list_to_map_to_list].
  - intros t b m H. simpl. unfold bucket_of. rewrite H. simpl. do 2 eexists. split; [done|].
    split; [|by intros ? ->]. eapply key_first_iff; [|apply first_key_spec]. done.
  - intros t b m H. simpl. unfold bucket_of. rewrite H. apply last_key_spec.
  - intros t b m s H. simpl. unfold bucket_of. rewrite H. simpl. do 2 eexists. split; [done|].
    split; [|by intros ? ->]. eapply key_first_iff; [|apply first_key_spec].
    intros k. unfold bytes_lt. simpl. rewrite negb_true_iff, not_true_iff_false. done.
  - intros t c b m k H ->. simpl. unfold bucket_of. rewrite H. simpl. do 2 eexists.
    split; [done|]. split; [|by intros ? ->]. apply first_key_spec.
Defined.

End map_bolt.

(** No commit ever fails. *)
Definition never : nat -> bool := fun _ => false.

#[export] Instance reliable_bolt : Bolt := map_bolt never.
#[export] Instance reliable_bolt_laws : BoltLaws reliable_bolt := map_bolt_laws never.
#[export] Instance reliable_bolt_reliable : BoltReliable reliable_bolt.
Proof. constructor. intros d f. simpl. destruct (f _) as [[e|] t]; done. Qed.

End MapBolt.
