(* ===== verification/RaftLog.v ===== *)
(** * The persistent Raft log (src/internal/consensus/log.go)

    [RaftLog] keeps log entries as JSON values under big-endian index keys in
    one bbolt bucket, and the node's metadata and the snapshot boundary in
    another.  The operations are translated over the [Bolt] interface; the
    lemmas describe them through three observations of a log: [log_at] (the
    entry stored at an index), [LoadMeta] and [snap_on_disk]. *)

From S2P Require Import Prelude GoJson Types Bolt.
Import Utf8 Json.

Local Open Scope string_scope.

(** ** Keys *)

Definition logBucket : bytes := str "raft_log".
Definition metaBucket : bytes := str "raft_meta".
Definition metaKey : bytes := str "state".
Definition snapshotKey : bytes := str "snapshot".

Definition indexKey (idx : LogIndex) : bytes := be_split 8 idx.

(** [binary.BigEndian.Uint64] reads the first eight bytes, and panics when there
    are fewer. *)
Definition key_index (b : bytes) : LogIndex := be_combine (take 8 b).

Definition bytesToIndex (b : bytes) : outcome LogIndex :=
  if (length b <? 8)%nat then Panic PanicIndex else Done (key_index b).

(** The loop of [extractDir], from the last byte down. *)
Fixpoint extractDir_loop (path : bytes) (i : nat) : bytes :=
  match i with
  | O => str "."
  | S i' =>
      match path !! i' with
      | Some c => if Byte.eqb c "/" || Byte.eqb c x5c then take i' path else extractDir_loop path i'
      | None => extractDir_loop path i'
      end
  end.

Definition extractDir (path : bytes) : bytes := extractDir_loop path (length path).

(** ** Metadata records *)

(** The anonymous struct of [SaveMeta] and [LoadMeta]. *)
Record MetaState := mkMeta { ms_Term : Term; ms_VotedFor : NodeID }.

(** The anonymous struct of [Compact] and [newRaftLog]. *)
Record SnapMeta := mkSnapMeta { sm_Index : LogIndex; sm_Term : Term }.

#[export] Instance MetaState_codec : JsonCodec MetaState := {|
  to_json s := JObj [jfield "term" (jnum (ms_Term s)); jfield "voted_for" (jstr (ms_VotedFor s))];
  of_json := decode_struct (fun k v s =>
    let '(mkMeta t f) := s in
    if field_is "term" k then (fun x => mkMeta x f) <$> decode_u64 v t
    else if field_is "voted_for" k then (fun x => mkMeta t x) <$> decode_string v f
    else Some s);
  j_zero := mkMeta 0 ""
|}.

#[export] Instance SnapMeta_codec : JsonCodec SnapMeta := {|
  to_json s := JObj [jfield "index" (jnum (sm_Index s)); jfield "term" (jnum (sm_Term s))];
  of_json := decode_struct (fun k v s =>
    let '(mkSnapMeta i t) := s in
    if field_is "index" k then (fun x => mkSnapMeta x t) <$> decode_u64 v i
    else if field_is "term" k then (fun x => mkSnapMeta i x) <$> decode_u64 v t
    else Some s);
  j_zero := mkSnapMeta 0 0
|}.

#[export] Program Instance MetaState_laws : JsonLaws MetaState := {|
  j_ok s := u64_ok (ms_Term s);
  j_san s := mkMeta (ms_Term s) (san (ms_VotedFor s))
|}.
Next Obligation. intros [t f] ?. obj_ok. Qed.
Next Obligation.
  intros [t f] Hok. simpl in Hok.
  cbn [to_json of_json j_zero MetaState_codec ms_Term ms_VotedFor]. struct_eval. done.
Qed.

#[export] Program Instance SnapMeta_laws : JsonLaws SnapMeta := {|
  j_ok s := u64_ok (sm_Index s) /\ u64_ok (sm_Term s);
  j_san s := s
|}.
Next Obligation. intros [i t] [? ?]. obj_ok. Qed.
Next Obligation.
  intros [i t] Hok. simpl in Hok. destruct Hok as [? ?].
  cbn [to_json of_json j_zero SnapMeta_codec sm_Index sm_Term]. struct_eval. done.
Qed.

#[export] Instance MetaState_range : JsonRange MetaState.
Proof. split; [cbn; done|range_ok]. Qed.
#[export] Instance SnapMeta_range : JsonRange SnapMeta.
Proof. split; [cbn; split_and?; done|range_ok]. Qed.

(** ** Operations *)

Section raft_log.
Context `{B : Bolt}.

Record RaftLog := mkRaftLog {
  rl_db : bolt_DB;
  rl_snapshotIndex : LogIndex;
  rl_snapshotTerm : Term
}.

Definition with_db (rl : RaftLog) (d : bolt_DB) : RaftLog :=
  mkRaftLog d (rl_snapshotIndex rl) (rl_snapshotTerm rl).

(** [rl.db.Update(f)], with the receiver's handle kept.  The closure runs on the
    transaction of the update; a panic of it is one of the caller. *)
Definition rl_update (rl : RaftLog) (f : bolt_Tx -> outcome (option error * bolt_Tx))
    : outcome (option error * RaftLog) :=
  match f (write_tx (rl_db rl)) with
  | Panic p => Panic p
  | Done r => let '(err, d) := db_Update (rl_db rl) (fun _ => r) in Done (err, with_db rl d)
  end.

(** [tx.Bucket(b).op(...)] with [x] the result of the operation: a nil bucket is
    dereferenced. *)
Definition in_bucket {A} (tx : bolt_Tx) (b : bytes) (x : A) : outcome A :=
  if tx_Bucket tx b then Done x else Panic PanicNilDeref.

(** The closure that creates the two buckets. *)
Definition create_buckets (tx : bolt_Tx) : option error * bolt_Tx :=
  match tx_CreateBucketIfNotExists tx logBucket with
  | (Some err, tx) => (Some err, tx)
  | (None, tx) => tx_CreateBucketIfNotExists tx metaBucket
  end.

(** [newRaftLog path], over the file system: the results of [os.MkdirAll] on a
    directory and of [bolt.Open] on a path.  The quoted path is left out of the
    error's text. *)
Definition newRaftLog (mkdirAll : bytes -> option error) (bolt_Open : bytes -> error + bolt_DB)
    (path : bytes) : error + RaftLog :=
  match mkdirAll (extractDir path) with
  | Some err => inl (Wrapf "creating log dir" err)
  | None =>
      match bolt_Open path with
      | inl err => inl (Wrapf "opening raft log" err)
      | inr db =>
          match db_Update db create_buckets with
          | (Some err, _) => inl err
          | (None, db) =>
              match bkt_Get (view_tx db) metaBucket snapshotKey with
              | None => inr (mkRaftLog db 0 0)
              | Some data =>
                  match (Unmarshal data : option SnapMeta) with
                  | Some snap => inr (mkRaftLog db (sm_Index snap) (sm_Term snap))
                  | None => inr (mkRaftLog db 0 0)
                  end
              end
          end
      end
  end.

Definition SaveMeta (rl : RaftLog) (term : Term) (votedFor : NodeID)
    : outcome (option error * RaftLog) :=
  rl_update rl (fun tx =>
    in_bucket tx metaBucket (bkt_Put tx metaBucket metaKey (Marshal (mkMeta term votedFor)))).

Definition LoadMeta (rl : RaftLog) : error + (Term * NodeID) :=
  match bkt_Get (view_tx (rl_db rl)) metaBucket metaKey with
  | None => inr (0%N, "")
  | Some data =>
      match (Unmarshal data : option MetaState) with
      | None => inl ErrJSON
      | Some s => inr (ms_Term s, ms_VotedFor s)
      end
  end.

Definition Append (rl : RaftLog) (entry : LogEntry) : outcome (option error * RaftLog) :=
  let data := Marshal entry in
  rl_update rl (fun tx =>
    in_bucket tx logBucket (bkt_Put tx logBucket (indexKey (le_Index entry)) data)).

Fixpoint put_all (tx : bolt_Tx) (entries : list LogEntry) : option error * bolt_Tx :=
  match entries with
  | [] => (None, tx)
  | e :: entries' =>
      match bkt_Put tx logBucket (indexKey (le_Index e)) (Marshal e) with
      | (Some err, tx) => (Some err, tx)
      | (None, tx) => put_all tx entries'
      end
  end.

Definition AppendBatch (rl : RaftLog) (entries : list LogEntry) : outcome (option error * RaftLog) :=
  if bool_decide (length entries = 0%nat) then Done (None, rl)
  else rl_update rl (fun tx => in_bucket tx logBucket (put_all tx entries)).

(** What the reads return from a database that has its buckets and whose keys are
    those of indices; [log_Get] and the others below add the panics. *)

Definition Get (rl : RaftLog) (index : LogIndex) : error + LogEntry :=
  match bkt_Get (view_tx (rl_db rl)) logBucket (indexKey index) with
  | None => inl ErrLogEntryNotFound
  | Some data =>
      match Unmarshal data with
      | Some e => inr e
      | None => inl ErrJSON
      end
  end.

(** [for i := from; i <= to; i++]. *)
Fixpoint getRange_loop (fuel : nat) (tx : bolt_Tx) (i to : LogIndex) : error + list LogEntry :=
  match fuel with
  | O => inr []
  | S f =>
      if (i <=? to)%N then
        match bkt_Get tx logBucket (indexKey i) with
        | None => inr []
        | Some data =>
            match Unmarshal data with
            | None => inl ErrJSON
            | Some e =>
                match getRange_loop f tx (i + 1)%u64 to with
                | inl err => inl err
                | inr l => inr (e :: l)
                end
            end
        end
      else inr []
  end.

Definition GetRange (rl : RaftLog) (from to : LogIndex) : error + list LogEntry :=
  getRange_loop (N.to_nat (to - from) + 2) (view_tx (rl_db rl)) from to.

(** [for k := ...; k != nil; k = c.Next()] with a [break] when [stop k] and a
    [Delete] of every other key.  The fuel is one more than the number of keys the
    loop starts with: a cursor that never comes back to a key it has left is done
    by then.  A longer run is not followed and counts as a panic. *)
Fixpoint delete_loop (fuel : nat) (stop : bytes -> outcome bool) (tx : bolt_Tx) (c : bolt_Cursor)
    (k : option bytes) : outcome (option error * bolt_Tx) :=
  match k, fuel with
  | None, _ => Done (None, tx)
  | Some _, O => Panic PanicCursor
  | Some k, S f =>
      match stop k with
      | Panic p => Panic p
      | Done true => Done (None, tx)
      | Done false =>
          match bkt_Delete tx logBucket k with
          | (Some err, tx) => Done (Some err, tx)
          | (None, tx) => let '(c, k) := cur_Next tx c in delete_loop f stop tx c k
          end
      end
  end.

Definition delete_fuel (tx : bolt_Tx) : nat := S (length (bkt_ForEach tx logBucket)).

Definition TruncateFrom (rl : RaftLog) (from : LogIndex) : outcome (option error * RaftLog) :=
  rl_update rl (fun tx =>
    if tx_Bucket tx logBucket then
      let '(c, k) := cur_Seek tx (bkt_Cursor tx logBucket) (indexKey from) in
      delete_loop (delete_fuel tx) (fun _ => Done false) tx c k
    else Panic PanicNilDeref).

Definition LastIndex (rl : RaftLog) : LogIndex :=
  let tx := view_tx (rl_db rl) in
  match (cur_Last tx (bkt_Cursor tx logBucket)).2 with
  | Some k => key_index k
  | None => rl_snapshotIndex rl
  end.

Definition LastTerm (rl : RaftLog) : Term :=
  let lastIdx := LastIndex rl in
  if (lastIdx =? 0)%N then 0%N
  else if (lastIdx =? rl_snapshotIndex rl)%N then rl_snapshotTerm rl
  else match Get rl lastIdx with
       | inl _ => rl_snapshotTerm rl
       | inr e => le_Term e
       end.

Definition TermAt (rl : RaftLog) (index : LogIndex) : Term :=
  if (index =? 0)%N then 0%N
  else if (index =? rl_snapshotIndex rl)%N then rl_snapshotTerm rl
  else match Get rl index with
       | inl _ => 0%N
       | inr e => le_Term e
       end.

(** The reads with their panics: a nil bucket, and a key of fewer than eight
    bytes under the cursor of [LastIndex]. *)
Definition log_Get (rl : RaftLog) (index : LogIndex) : outcome (error + LogEntry) :=
  in_bucket (view_tx (rl_db rl)) logBucket (Get rl index).

Definition log_GetRange (rl : RaftLog) (from to : LogIndex) : outcome (error + list LogEntry) :=
  if (from <=? to)%N then in_bucket (view_tx (rl_db rl)) logBucket (GetRange rl from to)
  else Done (GetRange rl from to).

Definition log_LastIndex (rl : RaftLog) : outcome LogIndex :=
  let tx := view_tx (rl_db rl) in
  if tx_Bucket tx logBucket then
    match (cur_Last tx (bkt_Cursor tx logBucket)).2 with
    | Some k => bytesToIndex k
    | None => Done (rl_snapshotIndex rl)
    end
  else Panic PanicNilDeref.

Definition log_LastTerm (rl : RaftLog) : outcome Term :=
  match log_LastIndex rl with
  | Panic p => Panic p
  | Done lastIdx =>
      if (lastIdx =? 0)%N then Done 0%N
      else if (lastIdx =? rl_snapshotIndex rl)%N then Done (rl_snapshotTerm rl)
      else match log_Get rl lastIdx with
           | Panic p => Panic p
           | Done (inl _) => Done (rl_snapshotTerm rl)
           | Done (inr e) => Done (le_Term e)
           end
  end.

Definition log_TermAt (rl : RaftLog) (index : LogIndex) : outcome Term :=
  if (index =? 0)%N then Done 0%N
  else if (index =? rl_snapshotIndex rl)%N then Done (rl_snapshotTerm rl)
  else match log_Get rl index with
       | Panic p => Panic p
       | Done (inl _) => Done 0%N
       | Done (inr e) => Done (le_Term e)
       end.

Definition Compact (rl : RaftLog) (snapshotIndex : LogIndex) (snapshotTerm : Term)
    : outcome (option error * RaftLog) :=
  rl_update rl (fun tx =>
    if tx_Bucket tx logBucket then
      let '(c, k) := cur_First tx (bkt_Cursor tx logBucket) in
      match delete_loop (delete_fuel tx) (fun k =>
          match bytesToIndex k with
          | Done idx => Done (snapshotIndex <? idx)%N
          | Panic p => Panic p
          end) tx c k with
      | Done (None, tx) =>
          in_bucket tx metaBucket
            (bkt_Put tx metaBucket snapshotKey (Marshal (mkSnapMeta snapshotIndex snapshotTerm)))
      | r => r
      end
    else Panic PanicNilDeref).

Definition SnapshotIndex (rl : RaftLog) : LogIndex := rl_snapshotIndex rl.
Definition SnapshotTerm (rl : RaftLog) : Term := rl_snapshotTerm rl.

Definition Close (rl : RaftLog) : option error := db_Close (rl_db rl).

End raft_log.

Arguments RaftLog : clear implicits.
Arguments RaftLog B : rename.

(** ** Keys are ordered as indices *)

Lemma indexKey_bound i : u64_ok i -> (i < 256 ^ N.of_nat 8)%N.
Proof. done. Qed.

Lemma indexKey_length i : length (indexKey i) = 8.
Proof. apply be_split_length. Qed.

Lemma key_index_indexKey i : u64_ok i -> key_index (indexKey i) = i.
Proof.
  intros Hi. unfold key_index. rewrite take_ge by (by rewrite indexKey_length).
  by apply be_combine_split.
Qed.

Lemma bytesToIndex_indexKey i : u64_ok i -> bytesToIndex (indexKey i) = Done i.
Proof. intros Hi. unfold bytesToIndex. by rewrite indexKey_length, key_index_indexKey. Qed.

Lemma indexKey_inj i j : u64_ok i -> u64_ok j -> indexKey i = indexKey j -> i = j.
Proof.
  intros Hi Hj E. apply (f_equal key_index) in E. by rewrite !key_index_indexKey in E.
Qed.

Lemma indexKey_lt i j : u64_ok i -> u64_ok j -> bytes_lt (indexKey i) (indexKey j) <-> (i < j)%N.
Proof. intros. by apply be_split_lt. Qed.

Lemma indexKey_not_blank i : indexKey i <> [].
Proof. intros E. apply (f_equal length) in E. by rewrite indexKey_length in E. Qed.

(** An identifier short enough for the metadata record to fit in a bbolt value. *)
Definition short_id (v : string) : Prop := (N.of_nat (length (str v)) <= 268435456)%N.

Lemma Marshal_meta_length t v : short_id v ->
  (N.of_nat (length (Marshal (mkMeta t v))) <= MaxValueSize)%N.
Proof.
  unfold short_id, MaxValueSize. intros Hv. unfold Marshal.
  cbn [to_json MetaState_codec print map ms_Term ms_VotedFor jfield fst snd jnum jstr join].
  unfold quote. pose proof (dec_length t). pose proof (escape_length (str v)).
  repeat (rewrite length_app || cbn [length]).
  assert (length (escape (str "term")) = 4%nat) as -> by (vm_compute; reflexivity).
  assert (length (escape (str "voted_for")) = 9%nat) as -> by (vm_compute; reflexivity).
  cbn [length].
  lia.
Qed.

(** ** What a log holds *)

Section raft_log_spec.
Context {B : Bolt} {L : BoltLaws B}.
Implicit Types (rl : RaftLog B) (i : N).

Definition log_bkt rl : gmap bytes bytes := default ∅ (buckets (view_tx (rl_db rl)) !! logBucket).
Definition meta_bkt rl : gmap bytes bytes := default ∅ (buckets (view_tx (rl_db rl)) !! metaBucket).

(** The entry stored at an index, if any. *)
Definition log_at rl i : option LogEntry := log_bkt rl !! indexKey i ≫= Unmarshal.

(** The snapshot boundary on disk. *)
Definition snap_on_disk rl : option SnapMeta := meta_bkt rl !! snapshotKey ≫= Unmarshal.

(** Well-formed database: both buckets exist, every key of the log bucket is
    the key of an index and holds the JSON of an entry with that index, and the
    metadata decodes. *)
Record log_wf rl : Prop := {
  wf_log_bucket : buckets (view_tx (rl_db rl)) !! logBucket = Some (log_bkt rl);
  wf_meta_bucket : buckets (view_tx (rl_db rl)) !! metaBucket = Some (meta_bkt rl);
  wf_entries k v : log_bkt rl !! k = Some v ->
    exists i e, u64_ok i /\ k = indexKey i /\
      Unmarshal v = Some e /\ le_Index e = i /\ u64_ok (le_Term e);
  wf_meta d : meta_bkt rl !! metaKey = Some d -> is_Some (Unmarshal d : option MetaState)
}.

(** Two logs with the same database contents and boundary. *)
Record same_log rl rl' : Prop := {
  same_buckets : buckets (view_tx (rl_db rl')) = buckets (view_tx (rl_db rl));
  same_snapshotIndex : rl_snapshotIndex rl' = rl_snapshotIndex rl;
  same_snapshotTerm : rl_snapshotTerm rl' = rl_snapshotTerm rl
}.

Lemma same_log_bkt rl rl' : same_log rl rl' -> log_bkt rl' = log_bkt rl.
Proof. intros [H _ _]. unfold log_bkt. by rewrite H. Qed.

Lemma same_meta_bkt rl rl' : same_log rl rl' -> meta_bkt rl' = meta_bkt rl.
Proof. intros [H _ _]. unfold meta_bkt. by rewrite H. Qed.

Lemma same_log_wf rl rl' : same_log rl rl' -> log_wf rl -> log_wf rl'.
Proof.
  intros Hs [H1 H2 H3 H4]. pose proof (same_log_bkt _ _ Hs) as E1.
  pose proof (same_meta_bkt _ _ Hs) as E2. destruct Hs as [Hb _ _].
  constructor; rewrite ?E1, ?E2, ?Hb; done.
Qed.

(** *** Reads *)

Lemma Get_spec rl i : log_wf rl ->
  Get rl i = match log_at rl i with Some e => inr e | None => inl ErrLogEntryNotFound end.
Proof.
  intros Hwf. unfold Get, log_at. erewrite bkt_Get_spec by (by apply wf_log_bucket).
  destruct (log_bkt rl !! indexKey i) as [v|] eqn:E; simpl; [|done].
  destruct (wf_entries _ Hwf _ _ E) as (j & e & _ & _ & -> & _). done.
Qed.

Lemma log_at_index rl i e : log_wf rl -> u64_ok i -> log_at rl i = Some e -> le_Index e = i.
Proof.
  intros Hwf Hi. unfold log_at. destruct (log_bkt rl !! indexKey i) as [v|] eqn:E; simpl; [|done].
  destruct (wf_entries _ Hwf _ _ E) as (j & e' & Hj & Ek & -> & He & _). intros [= ->].
  rewrite He. by apply indexKey_inj.
Qed.

Lemma log_at_term rl i e : log_wf rl -> log_at rl i = Some e -> u64_ok (le_Term e).
Proof.
  intros Hwf. unfold log_at. destruct (log_bkt rl !! indexKey i) as [v|] eqn:E; simpl; [|done].
  destruct (wf_entries _ Hwf _ _ E) as (j & e' & Hj & Ek & -> & He & ?). by intros [= ->].
Qed.

Lemma log_at_present rl i : log_wf rl -> is_Some (log_at rl i) <-> is_Some (log_bkt rl !! indexKey i).
Proof.
  intros Hwf. unfold log_at. destruct (log_bkt rl !! indexKey i) as [v|] eqn:E; simpl.
  - destruct (wf_entries _ Hwf _ _ E) as (j & e & _ & _ & -> & _). split; eauto.
  - split; intros []; done.
Qed.

Lemma LoadMeta_spec rl : log_wf rl ->
  LoadMeta rl = match meta_bkt rl !! metaKey ≫= Unmarshal with
                | Some s => inr (ms_Term s, ms_VotedFor s)
                | None => inr (0%N, "")
                end.
Proof.
  intros Hwf. unfold LoadMeta. erewrite bkt_Get_spec by (by apply wf_meta_bucket).
  destruct (meta_bkt rl !! metaKey) as [d|] eqn:E; simpl; [|done].
  destruct (wf_meta _ Hwf _ E) as [s Hs]. by rewrite Hs.
Qed.

(** [LastIndex] is the greatest index with an entry, or the boundary the log
    holds in memory when there is none. *)
Lemma LastIndex_spec rl : log_wf rl ->
  (is_Some (log_at rl (LastIndex rl)) /\ u64_ok (LastIndex rl) /\
    forall i, u64_ok i -> is_Some (log_at rl i) -> (i <= LastIndex rl)%N)
  \/ (LastIndex rl = rl_snapshotIndex rl /\ forall i, log_at rl i = None).
Proof.
  intros Hwf. pose proof (cur_Last_spec _ _ _ (wf_log_bucket _ Hwf)) as H.
  unfold LastIndex. destruct (cur_Last _ _).2 as [k|]; simpl in *.
  - left. destruct H as [[v Hv] Hmax].
    destruct (wf_entries _ Hwf _ _ Hv) as (i & e & Hi & -> & Hu & He & _).
    rewrite key_index_indexKey by done. split_and!; [|done|].
    + rewrite log_at_present by done. eauto.
    + intros j Hj Hs. rewrite log_at_present in Hs by done.
      destruct (Hmax _ Hs) as [E|Hlt]; [apply indexKey_inj in E; [lia|done..]|].
      apply indexKey_lt in Hlt; [lia|done..].
  - right. split; [done|]. intros i. unfold log_at. by rewrite H, lookup_empty.
Qed.

(** On a well-formed database the reads do not panic. *)
Lemma log_bucket_there rl : log_wf rl -> tx_Bucket (view_tx (rl_db rl)) logBucket = true.
Proof. intros Hwf. rewrite tx_Bucket_spec, (wf_log_bucket _ Hwf). by apply bool_decide_eq_true. Qed.

Lemma log_Get_done rl i : log_wf rl -> log_Get rl i = Done (Get rl i).
Proof. intros Hwf. unfold log_Get, in_bucket. by rewrite log_bucket_there. Qed.

Lemma log_GetRange_done rl from to : log_wf rl -> log_GetRange rl from to = Done (GetRange rl from to).
Proof. intros Hwf. unfold log_GetRange, in_bucket. rewrite log_bucket_there by done. by case_match. Qed.

Lemma log_LastIndex_done rl : log_wf rl -> log_LastIndex rl = Done (LastIndex rl).
Proof.
  intros Hwf. pose proof (cur_Last_spec _ _ _ (wf_log_bucket _ Hwf)) as H.
  unfold log_LastIndex, LastIndex. rewrite log_bucket_there by done.
  destruct (cur_Last _ _).2 as [k|]; [|done]. destruct H as [[v Hv] _].
  destruct (wf_entries _ Hwf _ _ Hv) as (i & _ & Hi & -> & _).
  by rewrite bytesToIndex_indexKey, key_index_indexKey.
Qed.

Lemma log_LastTerm_done rl : log_wf rl -> log_LastTerm rl = Done (LastTerm rl).
Proof.
  intros Hwf. unfold log_LastTerm, LastTerm. rewrite log_LastIndex_done, log_Get_done by done.
  by repeat case_match.
Qed.

Lemma log_TermAt_done rl i : log_wf rl -> log_TermAt rl i = Done (TermAt rl i).
Proof. intros Hwf. unfold log_TermAt, TermAt. rewrite log_Get_done by done. by repeat case_match. Qed.

Lemma same_log_reads rl rl' : same_log rl rl' -> log_wf rl ->
  LastIndex rl' = LastIndex rl /\ (forall i, log_at rl' i = log_at rl i)
  /\ LoadMeta rl' = LoadMeta rl.
Proof.
  intros Hs Hwf. pose proof (same_log_wf _ _ Hs Hwf) as Hwf'.
  assert (forall i, log_at rl' i = log_at rl i) as Ha.
  { intros i. unfold log_at. by rewrite (same_log_bkt _ _ Hs). }
  split_and!; [|done|].
  - destruct (LastIndex_spec rl Hwf) as [(H1 & H2 & H3)|[H1 H2]],
      (LastIndex_spec rl' Hwf') as [(H1' & H2' & H3')|[H1' H2']].
    + rewrite Ha in H1'. specialize (H3 _ H2' H1').
      setoid_rewrite Ha in H3'. specialize (H3' _ H2 H1). lia.
    + rewrite <-Ha, H2' in H1. by destruct H1.
    + rewrite Ha, H2 in H1'. by destruct H1'.
    + rewrite H1, H1'. apply Hs.
  - rewrite !LoadMeta_spec by done. by rewrite (same_meta_bkt _ _ Hs).
Qed.

(** *** Writes *)

Lemma rl_update_spec rl f :
  match rl_update rl f with
  | Panic p => f (write_tx (rl_db rl)) = Panic p
  | Done (None, rl') => exists t, f (write_tx (rl_db rl)) = Done (None, t)
      /\ buckets (view_tx (rl_db rl')) = buckets t
      /\ rl_snapshotIndex rl' = rl_snapshotIndex rl /\ rl_snapshotTerm rl' = rl_snapshotTerm rl
  | Done (Some e, rl') => same_log rl rl' /\ exists r, f (write_tx (rl_db rl)) = Done r
      /\ forall e', r.1 = Some e' -> e = e'
  end.
Proof.
  unfold rl_update. destruct (f (write_tx (rl_db rl))) as [[err t]|p]; [|done].
  pose proof (db_Update_spec (rl_db rl) (fun _ => (err, t))) as H.
  destruct (db_Update _ _) as [[e|] d]; simpl in *; destruct H as [H1 H2].
  - split; [by repeat split|]. by eexists.
  - subst err. by eexists.
Qed.

(** The update of a bucket that exists. *)
Lemma in_bucket_write {A} rl b m (x : A) : buckets (view_tx (rl_db rl)) !! b = Some m ->
  in_bucket (write_tx (rl_db rl)) b x = Done x.
Proof.
  intros Hb. unfold in_bucket. rewrite tx_Bucket_spec, write_tx_view, Hb.
  by rewrite bool_decide_eq_true_2.
Qed.

(** What an operation that succeeds leaves of the metadata. *)
Record meta_kept rl rl' : Prop := {
  kept_meta_bkt : meta_bkt rl' = meta_bkt rl;
  kept_snapshotIndex : rl_snapshotIndex rl' = rl_snapshotIndex rl;
  kept_snapshotTerm : rl_snapshotTerm rl' = rl_snapshotTerm rl
}.

Lemma LoadMeta_kept rl rl' : log_wf rl -> log_wf rl' -> meta_kept rl rl' -> LoadMeta rl' = LoadMeta rl.
Proof. intros ? ? [Hk _ _]. rewrite !LoadMeta_spec by done. by rewrite Hk. Qed.

Lemma same_log_kept rl rl' : same_log rl rl' -> meta_kept rl rl'.
Proof. intros H. constructor; [by apply same_meta_bkt|apply H..]. Qed.

(** A successful write of the log bucket. *)
Lemma log_bkt_written rl rl' m :
  log_wf rl ->
  buckets (view_tx (rl_db rl')) = <[logBucket := m]> (buckets (view_tx (rl_db rl))) ->
  rl_snapshotIndex rl' = rl_snapshotIndex rl -> rl_snapshotTerm rl' = rl_snapshotTerm rl ->
  (forall k v, m !! k = Some v ->
    exists i e, u64_ok i /\ k = indexKey i /\
      Unmarshal v = Some e /\ le_Index e = i /\ u64_ok (le_Term e)) ->
  log_wf rl' /\ meta_kept rl rl' /\ log_bkt rl' = m.
Proof.
  intros Hwf Hb Hi Ht Hm.
  assert (log_bkt rl' = m) as Hl by (unfold log_bkt; by rewrite Hb, lookup_insert_eq).
  assert (meta_bkt rl' = meta_bkt rl) as Hme.
  { unfold meta_bkt. by rewrite Hb, lookup_insert_ne. }
  split_and!; [|by constructor|done].
  constructor; rewrite ?Hl, ?Hme; [by rewrite Hb, lookup_insert_eq| |done|apply Hwf].
  rewrite Hb, lookup_insert_ne by done. apply Hwf.
Qed.

(** A successful write of the metadata bucket. *)
Lemma meta_bkt_written rl rl' m :
  log_wf rl ->
  buckets (view_tx (rl_db rl')) = <[metaBucket := m]> (buckets (view_tx (rl_db rl))) ->
  (forall d, m !! metaKey = Some d -> is_Some (Unmarshal d : option MetaState)) ->
  log_wf rl' /\ log_bkt rl' = log_bkt rl /\ meta_bkt rl' = m.
Proof.
  intros Hwf Hb Hm.
  assert (meta_bkt rl' = m) as Hl by (unfold meta_bkt; by rewrite Hb, lookup_insert_eq).
  assert (log_bkt rl' = log_bkt rl) as Hme.
  { unfold log_bkt. by rewrite Hb, lookup_insert_ne. }
  split_and!; [|done|done].
  constructor; rewrite ?Hl, ?Hme; [|by rewrite Hb, lookup_insert_eq|apply Hwf|done].
  rewrite Hb, lookup_insert_ne by done. apply Hwf.
Qed.

Lemma entry_put_wf rl e :
  log_wf rl -> j_ok e ->
  forall k v, <[indexKey (le_Index e) := Marshal e]> (log_bkt rl) !! k = Some v ->
  exists i e, u64_ok i /\ k = indexKey i /\
      Unmarshal v = Some e /\ le_Index e = i /\ u64_ok (le_Term e).
Proof.
  intros Hwf Hok k v. rewrite lookup_insert. case_decide; [|apply Hwf].
  intros [= <-]. exists (le_Index e), (j_san e). split; [apply Hok|].
  split; [done|]. split; [by apply Unmarshal_Marshal|]. split; [done|apply Hok].
Qed.

(** [rl.db.Update] of one [Put]. *)
Lemma put_update_spec rl b m k v : buckets (view_tx (rl_db rl)) !! b = Some m ->
  match rl_update rl (fun tx => in_bucket tx b (bkt_Put tx b k v)) with
  | Panic _ => False
  | Done (None, rl') =>
      buckets (view_tx (rl_db rl')) = <[b := <[k := v]> m]> (buckets (view_tx (rl_db rl)))
      /\ rl_snapshotIndex rl' = rl_snapshotIndex rl /\ rl_snapshotTerm rl' = rl_snapshotTerm rl
  | Done (Some _, rl') => same_log rl rl'
  end.
Proof.
  intros Hb. match goal with |- context [rl_update rl ?f] => pose proof (rl_update_spec rl f) as H end.
  cbv beta in H. rewrite (in_bucket_write rl b m) in H by done.
  destruct (rl_update _ _) as [[[err|] rl']|p]; [apply H| |done].
  destruct H as (t & E & H & Hi & Ht). rewrite <-write_tx_view in Hb.
  destruct (decide (put_ok k v)) as [Hp|Hp].
  - destruct (bkt_Put_spec _ _ _ _ _ Hb Hp) as (t' & E' & Ht'). rewrite E' in E.
    injection E as <-. by rewrite H, Ht', write_tx_view.
  - destruct (bkt_Put_err _ _ _ _ _ Hb Hp) as [? E']. by rewrite E' in E.
Qed.

(** [Append] stores the entry at its own index and changes nothing else; when
    it fails the log is unchanged. *)
Lemma Append_spec rl e : log_wf rl -> j_ok e ->
  match Append rl e with
  | Panic _ => False
  | Done (None, rl') => log_wf rl' /\ meta_kept rl rl' /\
      forall i, u64_ok i ->
        log_at rl' i = if decide (i = le_Index e) then Some (j_san e) else log_at rl i
  | Done (Some _, rl') => same_log rl rl'
  end.
Proof.
  intros Hwf Hok. unfold Append.
  pose proof (put_update_spec rl _ _ (indexKey (le_Index e)) (Marshal e) (wf_log_bucket _ Hwf)) as H.
  destruct (rl_update _ _) as [[[err|] rl']|p]; [done| |done]. destruct H as (H & Hi & Ht).
  destruct (log_bkt_written _ _ _ Hwf H Hi Ht (entry_put_wf _ _ Hwf Hok)) as (? & ? & Hl).
  split_and!; [done..|]. intros i Hi'. unfold log_at. rewrite Hl, lookup_insert.
  destruct (decide (i = le_Index e)) as [->|Hne].
  - rewrite decide_True by done. by apply Unmarshal_Marshal.
  - rewrite decide_False; [done|]. intros E'. apply Hne. symmetry.
    apply indexKey_inj; [apply Hok|done|done].
Qed.

Lemma SaveMeta_spec rl t v : log_wf rl -> u64_ok t ->
  match SaveMeta rl t v with
  | Panic _ => False
  | Done (None, rl') => log_wf rl' /\ log_bkt rl' = log_bkt rl /\ LoadMeta rl' = inr (t, san v)
      /\ rl_snapshotIndex rl' = rl_snapshotIndex rl /\ rl_snapshotTerm rl' = rl_snapshotTerm rl
      /\ snap_on_disk rl' = snap_on_disk rl
  | Done (Some _, rl') => same_log rl rl'
  end.
Proof.
  intros Hwf Ht. unfold SaveMeta.
  pose proof (put_update_spec rl _ _ metaKey (Marshal (mkMeta t v)) (wf_meta_bucket _ Hwf)) as H.
  destruct (rl_update _ _) as [[[err|] rl']|p]; [done| |done]. destruct H as (H & Hi & Hst).
  assert (Hu : Unmarshal (Marshal (mkMeta t v)) = Some (mkMeta t (san v))).
  { exact (Unmarshal_Marshal (mkMeta t v) Ht). }
  destruct (meta_bkt_written _ _ _ Hwf H) as (Hwf' & Hl & Hm).
  { intros d. rewrite lookup_insert_eq. intros [= <-]. by eexists. }
  split_and!; [done..| |done|done|].
  - rewrite LoadMeta_spec, Hm, lookup_insert_eq by done. simpl. by rewrite Hu.
  - unfold snap_on_disk. rewrite Hm, lookup_insert_ne; [done|]. by vm_compute.
Qed.

(** *** Deletions through a cursor *)

(** The panics that moving a cursor after a deletion can lead to. *)
Definition cursor_panic (p : panic) : Prop := p = PanicIndex \/ p = PanicCursor.

(** Wherever the cursor goes after a deletion, the loop only deletes keys that do
    not stop it, and it deletes the first one it is given. *)
Lemma delete_loop_spec stop fuel t c o m :
  buckets t !! logBucket = Some m -> (forall k p, stop k = Panic p -> p = PanicIndex) ->
  match delete_loop fuel stop t c o with
  | Panic p => cursor_panic p
  | Done (Some _, _) => False
  | Done (None, t') => exists m', buckets t' = <[logBucket := m']> (buckets t)
      /\ (forall k, m' !! k = m !! k \/ (m' !! k = None /\ stop k = Done false))
      /\ (forall k, o = Some k -> stop k = Done false -> m' !! k = None)
      /\ (o = None \/ (exists k, o = Some k /\ stop k = Done true) -> m' = m)
  end.
Proof.
  intros Hb Hp. revert t c o m Hb. induction fuel as [|fuel IH]; intros t c [k|] m Hb; simpl.
  1: by right.
  1, 3: exists m; rewrite insert_id by done; split_and!; [done|by left|done|done].
  destruct (stop k) as [[]|p] eqn:Es; [| |left; eauto].
  { exists m. rewrite insert_id by done. split_and!; [done|by left| |done]. intros ? [= <-]. congruence. }
  destruct (bkt_Delete_spec t logBucket m k Hb) as (t1 & E1 & Hb1). rewrite E1.
  destruct (cur_Next t1 c) as [c' o'].
  specialize (IH t1 c' o' (delete k m) ltac:(by rewrite Hb1, lookup_insert_eq)).
  destruct (delete_loop fuel stop t1 c' o') as [[[err|] t']|p]; [done| |done].
  destruct IH as (m' & Hb' & Hm' & _). exists m'. split_and!.
  - by rewrite Hb', Hb1, insert_insert_eq.
  - intros x. destruct (Hm' x) as [->|?]; [|by right].
    rewrite lookup_delete. case_decide as Hd; [subst; by right|by left].
  - intros ? [= <-] _. destruct (Hm' k) as [->|[? _]]; [by rewrite lookup_delete_eq|done].
  - intros [?|(? & [= <-] & ?)]; congruence.
Qed.

(** Deleting keys keeps the log bucket well formed. *)
Lemma submap_entries rl (m : gmap bytes bytes) :
  log_wf rl -> (forall k v, m !! k = Some v -> log_bkt rl !! k = Some v) ->
  forall k v, m !! k = Some v ->
  exists i e, u64_ok i /\ k = indexKey i /\
      Unmarshal v = Some e /\ le_Index e = i /\ u64_ok (le_Term e).
Proof. intros Hwf H k v Hk. by apply Hwf, H. Qed.

(** [rl'] is [rl] with some entries removed, all of them at indices with [Q]. *)
Definition pruned (Q : N -> Prop) rl rl' : Prop :=
  forall i, u64_ok i -> log_at rl' i = log_at rl i \/ (log_at rl' i = None /\ Q i).

(** [i] is the first index from [from] on that has an entry. *)
Definition first_from rl (from i : N) : Prop :=
  u64_ok i /\ (from <= i)%N /\ is_Some (log_at rl i) /\
  forall j, u64_ok j -> (from <= j)%N -> is_Some (log_at rl j) -> (i <= j)%N.

(** The first key from a bound on, as an index. *)
Lemma seek_first rl from o i : log_wf rl -> u64_ok from ->
  key_first (log_bkt rl) (fun k => ~ bytes_lt k (indexKey from)) o ->
  first_from rl from i -> o = Some (indexKey i).
Proof.
  intros Hwf Hf Hfirst (Hi & Hle & Hs & Hmin). rewrite log_at_present in Hs by done.
  assert (~ bytes_lt (indexKey i) (indexKey from)) as Hn by (rewrite indexKey_lt by done; lia).
  destruct o as [k|]; simpl in Hfirst; [|by destruct (Hfirst _ Hs)].
  destruct Hfirst as ([v Hv] & Hk & Hall). destruct (Hall _ Hs Hn) as [->|Hlt]; [done|].
  destruct (wf_entries _ Hwf _ _ Hv) as (j & e & Hj & -> & _).
  apply indexKey_lt in Hlt; [|done..]. rewrite indexKey_lt in Hk by done.
  assert (i <= j)%N; [|lia]. apply Hmin; [done|lia|]. rewrite log_at_present by done. by eexists.
Qed.

(** [TruncateFrom], wherever the cursor goes after a deletion: entries are only
    removed, the first one at [from] or above is, and none is when there is none
    at [from] or above. *)
Lemma TruncateFrom_spec rl from : log_wf rl -> u64_ok from ->
  match TruncateFrom rl from with
  | Panic p => cursor_panic p
  | Done (None, rl') => log_wf rl' /\ meta_kept rl rl' /\
      pruned (fun _ => exists j, first_from rl from j) rl rl' /\
      (forall i, first_from rl from i -> log_at rl' i = None)
  | Done (Some _, rl') => same_log rl rl'
  end.
Proof.
  intros Hwf Hfrom. unfold TruncateFrom.
  match goal with |- context [rl_update rl ?f] => pose proof (rl_update_spec rl f) as H end.
  cbv beta in H. pose proof (wf_log_bucket _ Hwf) as Hb. rewrite <-write_tx_view in Hb.
  rewrite tx_Bucket_spec, Hb, bool_decide_eq_true_2 in H by done.
  destruct (cur_Seek_spec _ _ _ (indexKey from) Hb) as (c & o & E & Hf & _). rewrite E in H.
  pose proof (delete_loop_spec (fun _ => Done false) (delete_fuel (write_tx (rl_db rl))) _ c o _ Hb
    ltac:(done)) as Hd.
  destruct (rl_update _ _) as [[[err|] rl']|p]; [apply H| |by rewrite H in Hd].
  destruct H as (t & Et & H & Hi & Ht). rewrite Et in Hd. destruct Hd as (m' & Hb' & Hm' & Hfst & Hno).
  rewrite Hb', write_tx_view in H.
  destruct (log_bkt_written rl rl' m' Hwf H Hi Ht) as (? & ? & Hl).
  { apply (submap_entries rl); [done|]. intros k v. by destruct (Hm' k) as [->|[-> _]]. }
  split_and!; [done..| |].
  - intros i Hi'. unfold log_at. rewrite Hl. destruct o as [k|]; [|rewrite Hno by auto; by left].
    destruct (Hm' (indexKey i)) as [->|[-> _]]; [by left|right; split; [done|]].
    destruct Hf as ([v Hv] & Hk & Hall). destruct (wf_entries _ Hwf _ _ Hv) as (j & e & Hj & -> & _).
    rewrite indexKey_lt in Hk by done.
    exists j. split_and!; [done|lia|rewrite log_at_present by done; by eexists|].
    intros j' Hj' Hle Hs. rewrite log_at_present in Hs by done.
    destruct (Hall _ Hs) as [Ej|Hlt]; [rewrite indexKey_lt by done; lia| |].
    + apply indexKey_inj in Ej; [lia|done..].
    + apply indexKey_lt in Hlt; [lia|done..].
  - intros i Hfi. unfold log_at. rewrite Hl, (Hfst (indexKey i)); [done| |done].
    by apply (seek_first rl from).
Qed.

(** The loop of [Compact]: only keys up to the snapshot index are deleted, and the
    first key of the log is if it is one of them. *)
Lemma compact_delete rl si : log_wf rl ->
  let tx := write_tx (rl_db rl) in
  let '(c, o) := cur_First tx (bkt_Cursor tx logBucket) in
  match delete_loop (delete_fuel tx) (fun k =>
      match bytesToIndex k with Done idx => Done (si <? idx)%N | Panic p => Panic p end) tx c o with
  | Panic p => cursor_panic p
  | Done (Some _, _) => False
  | Done (None, t') => exists m', buckets t' = <[logBucket := m']> (buckets tx) /\
      (forall k v, m' !! k = Some v -> log_bkt rl !! k = Some v) /\
      (forall i, u64_ok i -> m' !! indexKey i = log_bkt rl !! indexKey i \/
        (m' !! indexKey i = None /\ (i <= si)%N)) /\
      (forall i, first_from rl 0 i -> (i <= si)%N -> m' !! indexKey i = None)
  end.
Proof.
  intros Hwf tx. pose proof (wf_log_bucket _ Hwf) as Hb. rewrite <-write_tx_view in Hb. fold tx in Hb.
  destruct (cur_First_spec _ _ _ Hb) as (c & o & -> & Hf & _).
  pose proof (delete_loop_spec (fun k =>
      match bytesToIndex k with Done idx => Done (si <? idx)%N | Panic p => Panic p end)
    (delete_fuel tx) tx c o _ Hb) as Hd.
  match type of Hd with ?P -> _ => assert P as Hp end.
  { intros k p. unfold bytesToIndex. destruct (_ <? _)%nat; [by intros [= <-]|done]. }
  specialize (Hd Hp).
  destruct (delete_loop _ _ _ _ _) as [[[err|] t']|p]; [done| |done].
  destruct Hd as (m' & Hb' & Hm' & Hfst & _). exists m'. split_and!; [done| | |].
  - intros k v. by destruct (Hm' k) as [->|[-> _]].
  - intros i Hi. destruct (Hm' (indexKey i)) as [->|[-> Hs]]; [by left|right; split; [done|]].
    rewrite bytesToIndex_indexKey in Hs by done. injection Hs as Hs. by apply N.ltb_ge.
  - intros i Hfi Hle. apply Hfst.
    + apply (seek_first rl 0); [done|done| |done].
      destruct o as [k|]; simpl in *; [|by intros k' Hk' ?; destruct (Hf k')].
      destruct Hf as (Hk & _ & Hall). split; [done|]. split.
      * intros Hlt. destruct Hk as [v Hv]. destruct (wf_entries _ Hwf _ _ Hv) as (j & _ & Hj & -> & _).
        apply indexKey_lt in Hlt; [lia|done..].
      * intros k' Hk' _. by apply Hall.
    + rewrite bytesToIndex_indexKey by apply Hfi. f_equal. by apply N.ltb_ge.
Qed.

(** The boundary is written in the same transaction. *)
Lemma compacted rl rl' t' t m' si st : log_wf rl -> u64_ok si -> u64_ok st ->
  buckets t' = <[logBucket := m']> (buckets (write_tx (rl_db rl))) ->
  buckets t' !! metaBucket = Some (meta_bkt rl) ->
  Done (bkt_Put t' metaBucket snapshotKey (Marshal (mkSnapMeta si st))) = Done (None, t) ->
  buckets (view_tx (rl_db rl')) = buckets t ->
  (forall k v, m' !! k = Some v -> log_bkt rl !! k = Some v) ->
  (forall i, u64_ok i -> m' !! indexKey i = log_bkt rl !! indexKey i \/
    (m' !! indexKey i = None /\ (i <= si)%N)) ->
  (forall i, first_from rl 0 i -> (i <= si)%N -> m' !! indexKey i = None) ->
  log_wf rl' /\ pruned (fun i => i <= si)%N rl rl' /\
  (forall i, first_from rl 0 i -> (i <= si)%N -> log_at rl' i = None) /\
  snap_on_disk rl' = Some (mkSnapMeta si st) /\ LoadMeta rl' = LoadMeta rl.
Proof.
  intros Hwf Hsi Hst Hb' Hbm E H Hsub Hm' Hfst.
  destruct (decide (put_ok snapshotKey (Marshal (mkSnapMeta si st)))) as [Hp|Hp].
  2:{ destruct (bkt_Put_err _ _ _ _ _ Hbm Hp) as [? E']. by rewrite E' in E. }
  destruct (bkt_Put_spec _ _ _ _ _ Hbm Hp) as (t2 & E2 & Ht2). rewrite E2 in E. injection E as <-.
  rewrite Ht2, Hb', write_tx_view in H.
  assert (log_bkt rl' = m') as Hl.
  { unfold log_bkt. rewrite H, lookup_insert_ne, lookup_insert_eq; done. }
  assert (meta_bkt rl' = <[snapshotKey := Marshal (mkSnapMeta si st)]> (meta_bkt rl)) as Hme.
  { unfold meta_bkt at 1. by rewrite H, lookup_insert_eq. }
  assert (metaKey <> snapshotKey) as Hk by by vm_compute.
  assert (log_wf rl') as Hwf'.
  { constructor; rewrite ?Hl, ?Hme.
    - by rewrite H, lookup_insert_ne, lookup_insert_eq.
    - by rewrite H, lookup_insert_eq.
    - by apply (submap_entries rl).
    - intros d. rewrite lookup_insert_ne by done. apply Hwf. }
  split_and!; [done| | | |].
  - intros i Hi. unfold log_at. rewrite Hl. destruct (Hm' i Hi) as [->|[-> ?]]; [by left|by right].
  - intros i Hfi Hle. unfold log_at. by rewrite Hl, Hfst.
  - unfold snap_on_disk. rewrite Hme, lookup_insert_eq. simpl.
    exact (Unmarshal_Marshal (mkSnapMeta si st) (conj Hsi Hst)).
  - rewrite !LoadMeta_spec by done. by rewrite Hme, lookup_insert_ne.
Qed.

(** [Compact], wherever the cursor goes after a deletion: entries are only removed,
    none of them above the snapshot index, and the first one is if the snapshot
    covers it; the boundary is written to disk, and the one the log holds in memory
    stays what it was. *)
Lemma Compact_spec rl si st : log_wf rl -> u64_ok si -> u64_ok st ->
  match Compact rl si st with
  | Panic p => cursor_panic p
  | Done (None, rl') => log_wf rl' /\ pruned (fun i => i <= si)%N rl rl'
      /\ (forall i, first_from rl 0 i -> (i <= si)%N -> log_at rl' i = None)
      /\ snap_on_disk rl' = Some (mkSnapMeta si st) /\ LoadMeta rl' = LoadMeta rl
      /\ rl_snapshotIndex rl' = rl_snapshotIndex rl /\ rl_snapshotTerm rl' = rl_snapshotTerm rl
  | Done (Some _, rl') => same_log rl rl'
  end.
Proof.
  intros Hwf Hsi Hst. unfold Compact.
  match goal with |- context [rl_update rl ?f] => pose proof (rl_update_spec rl f) as H end.
  cbv beta in H. pose proof (wf_log_bucket _ Hwf) as Hb. rewrite <-write_tx_view in Hb.
  rewrite tx_Bucket_spec, Hb, bool_decide_eq_true_2 in H by done.
  pose proof (compact_delete rl si Hwf) as Hd. cbv zeta in Hd.
  destruct (cur_First _ _) as [c o]. destruct (delete_loop _ _ _ _ _) as [[[err|] t']|p].
  - done.
  - destruct Hd as (m' & Hb' & Hsub & Hm' & Hfst).
    assert (buckets t' !! metaBucket = Some (meta_bkt rl)) as Hbm.
    { rewrite Hb', lookup_insert_ne, write_tx_view by done. apply Hwf. }
    unfold in_bucket in H. rewrite tx_Bucket_spec, Hbm, bool_decide_eq_true_2 in H by done.
    destruct (rl_update _ _) as [[[err|] rl']|p]; [apply H| |done].
    destruct H as (t & Et & H & Hi & Ht). 
    destruct (compacted rl rl' t' t m' si st) as (? & ? & ? & ? & ?); [done..|by split_and!].
  - destruct (rl_update _ _) as [[[err|] rl']|?]; [apply H|by destruct H as (? & [=] & _)|].
    by injection H as ->.
Qed.

(** *** Ranges *)

(** The entries of consecutive indices, up to the first missing one. *)
Definition is_run rl (from to : N) (l : list LogEntry) : Prop :=
  (forall j, (j < length l)%nat -> l !! j = log_at rl (from + N.of_nat j)) /\
  (N.of_nat (length l) = to + 1 - from \/
   (N.of_nat (length l) < to + 1 - from /\ log_at rl (from + N.of_nat (length l)) = None))%N.

Lemma getRange_loop_spec rl fuel i to : log_wf rl -> (to + 1 < two64)%N ->
  (i <= to + 1)%N -> (N.to_nat (to + 1 - i) < fuel)%nat ->
  exists l, getRange_loop fuel (view_tx (rl_db rl)) i to = inr l /\ is_run rl i to l.
Proof.
  intros Hwf Hto. revert i. induction fuel as [|fuel IH]; intros i Hi Hf; [lia|]. simpl.
  destruct (N.leb_spec i to) as [Hle|Hgt].
  2:{ exists []. split; [done|]. split; [simpl; lia|]. left. simpl. lia. }
  erewrite bkt_Get_spec by (by apply wf_log_bucket).
  destruct (log_bkt rl !! indexKey i) as [v|] eqn:E.
  2:{ exists []. split; [done|]. split; [simpl; lia|]. right. simpl. split; [lia|].
      unfold log_at. rewrite N.add_0_r. by rewrite E. }
  destruct (wf_entries _ Hwf _ _ E) as (j & e & _ & _ & Hu & _). rewrite Hu.
  rewrite u64_add_small by lia.
  destruct (IH (i + 1)%N) as (l & -> & Hl & Hend); [lia..|].
  exists (e :: l). split; [done|]. split.
  - intros [|j'] Hj'; simpl.
    + rewrite N.add_0_r. unfold log_at. by rewrite E.
    + simpl in Hj'. rewrite Hl by lia. f_equal. lia.
  - simpl length. replace (i + N.of_nat (S (length l)))%N with (i + 1 + N.of_nat (length l))%N by lia.
    destruct Hend as [?|[? ?]]; [left; lia|right; split; [lia|done]].
Qed.

Lemma GetRange_spec rl from to : log_wf rl -> (to + 1 < two64)%N -> (from <= to + 1)%N ->
  exists l, GetRange rl from to = inr l /\ is_run rl from to l.
Proof. intros. unfold GetRange. apply getRange_loop_spec; [done..|lia]. Qed.

(** *** Opening *)

Lemma create_buckets_spec t : exists t', create_buckets t = (None, t') /\
  buckets t' = <[metaBucket := default ∅ (buckets t !! metaBucket)]>
    (<[logBucket := default ∅ (buckets t !! logBucket)]> (buckets t)).
Proof.
  unfold create_buckets.
  destruct (tx_CreateBucketIfNotExists_spec t logBucket) as (t1 & -> & H1); [done|].
  destruct (tx_CreateBucketIfNotExists_spec t1 metaBucket) as (t2 & -> & H2); [done|].
  exists t2. split; [done|]. rewrite H2, H1. by rewrite lookup_insert_ne.
Qed.

(** Opening the database of a log gives back its entries and metadata, and the
    boundary that was on disk. *)
Lemma newRaftLog_spec path rl rl' : log_wf rl -> newRaftLog (fun _ => None) (fun _ => inr (rl_db rl)) path = inr rl' ->
  log_wf rl' /\ log_bkt rl' = log_bkt rl /\ meta_bkt rl' = meta_bkt rl /\
  mkSnapMeta (rl_snapshotIndex rl') (rl_snapshotTerm rl')
    = default (mkSnapMeta 0 0) (snap_on_disk rl).
Proof.
  intros Hwf. unfold newRaftLog.
  pose proof (db_Update_spec (rl_db rl) create_buckets) as H.
  destruct (create_buckets_spec (write_tx (rl_db rl))) as (t' & E & Ht'). rewrite E in H.
  destruct (db_Update _ _) as [[e|] d]; [done|]. destruct H as [_ H]. simpl in H.
  rewrite Ht', write_tx_view in H. clear E Ht'.
  rewrite (wf_log_bucket _ Hwf), (wf_meta_bucket _ Hwf) in H. simpl in H.
  rewrite (insert_id _ logBucket) in H by apply Hwf. rewrite insert_id in H by apply Hwf.
  erewrite bkt_Get_spec by (rewrite H; by apply wf_meta_bucket).
  assert (forall si st, log_wf (mkRaftLog d si st) /\ log_bkt (mkRaftLog d si st) = log_bkt rl /\
    meta_bkt (mkRaftLog d si st) = meta_bkt rl) as Hd.
  { intros si st. assert (log_bkt (mkRaftLog d si st) = log_bkt rl) as E1.
    { unfold log_bkt. simpl. by rewrite H. }
    assert (meta_bkt (mkRaftLog d si st) = meta_bkt rl) as E2.
    { unfold meta_bkt. simpl. by rewrite H. }
    split_and!; [|done|done]. destruct Hwf. constructor; rewrite ?E1, ?E2; simpl; rewrite ?H; done. }
  unfold snap_on_disk. destruct (meta_bkt rl !! snapshotKey) as [data|]; simpl.
  - destruct (Unmarshal data) as [[si st]|]; simpl; intros [= <-];
      (destruct (Hd si st) as (? & ? & ?) || destruct (Hd 0 0)%N as (? & ? & ?)); done.
  - intros [= <-]. by destruct (Hd 0 0)%N as (? & ? & ?).
Qed.

(** Opening a fresh database. *)
Lemma newRaftLog_fresh path d rl' : buckets (view_tx d) = ∅ -> newRaftLog (fun _ => None) (fun _ => inr d) path = inr rl' ->
  log_wf rl' /\ log_bkt rl' = ∅ /\ meta_bkt rl' = ∅ /\
  rl_snapshotIndex rl' = 0%N /\ rl_snapshotTerm rl' = 0%N.
Proof.
  intros Hd. unfold newRaftLog. pose proof (db_Update_spec d create_buckets) as H.
  destruct (create_buckets_spec (write_tx d)) as (t' & E & Ht'). rewrite E in H.
  destruct (db_Update _ _) as [[e|] d']; [done|]. destruct H as [_ H]. simpl in H.
  rewrite Ht', write_tx_view, Hd, !lookup_empty in H. simpl in H. clear E Ht'.
  erewrite bkt_Get_spec by (by rewrite H, lookup_insert_eq). rewrite lookup_empty.
  intros [= <-].
  assert (log_bkt (mkRaftLog d' 0 0) = ∅) as E1.
  { unfold log_bkt. simpl. by rewrite H, lookup_insert_ne, lookup_insert_eq. }
  assert (meta_bkt (mkRaftLog d' 0 0) = ∅) as E2.
  { unfold meta_bkt. simpl. by rewrite H, lookup_insert_eq. }
  split_and!; try done. constructor; rewrite ?E1, ?E2; simpl.
  - by rewrite H, lookup_insert_ne, lookup_insert_eq.
  - by rewrite H, lookup_insert_eq.
  - intros k v. by rewrite lookup_empty.
  - intros k. by rewrite lookup_empty.
Qed.

(** *** Without I/O errors *)

Section reliable.
Context `{!BoltReliable B}.

Lemma rl_update_ok rl f t : f (write_tx (rl_db rl)) = Done (None, t) ->
  exists rl', rl_update rl f = Done (None, rl').
Proof.
  intros H. unfold rl_update. rewrite H. pose proof (db_Update_ok (rl_db rl) (fun _ => (None, t)) eq_refl) as Hu.
  destruct (db_Update _ _) as [err d]. simpl in Hu. subst err. by eexists.
Qed.

Lemma put_update_ok rl b m k v : buckets (view_tx (rl_db rl)) !! b = Some m -> put_ok k v ->
  exists rl', rl_update rl (fun tx => in_bucket tx b (bkt_Put tx b k v)) = Done (None, rl').
Proof.
  intros Hb Hp. assert (buckets (write_tx (rl_db rl)) !! b = Some m) as Hb' by by rewrite write_tx_view.
  destruct (bkt_Put_spec _ _ _ _ _ Hb' Hp) as (t' & E & _).
  apply (rl_update_ok _ _ t'). by rewrite (in_bucket_write rl b m), E.
Qed.

Lemma SaveMeta_ok rl t v : log_wf rl ->
  (N.of_nat (length (Marshal (mkMeta t v))) <= MaxValueSize)%N ->
  exists rl', SaveMeta rl t v = Done (None, rl').
Proof.
  intros Hwf Hlen. eapply put_update_ok; [by apply Hwf|]. split_and!; [done|by vm_compute|done].
Qed.

(** [SaveMeta] makes the term and the vote durable. *)
Lemma SaveMeta_durable rl t v : log_wf rl -> u64_ok t -> short_id v -> utf8_string v ->
  exists rl', SaveMeta rl t v = Done (None, rl') /\ log_wf rl' /\ log_bkt rl' = log_bkt rl /\
    LoadMeta rl' = inr (t, v) /\ snap_on_disk rl' = snap_on_disk rl /\
    rl_snapshotIndex rl' = rl_snapshotIndex rl /\ rl_snapshotTerm rl' = rl_snapshotTerm rl.
Proof.
  intros Hwf Ht Hs Hu. pose proof (SaveMeta_spec rl t v Hwf Ht) as H.
  destruct (SaveMeta_ok rl t v Hwf (Marshal_meta_length t v Hs)) as [rl' E]. rewrite E in H. exists rl'.
  rewrite (san_utf8 v Hu) in H. naive_solver.
Qed.

Lemma Append_ok rl e : log_wf rl ->
  (N.of_nat (length (Marshal e)) <= MaxValueSize)%N -> exists rl', Append rl e = Done (None, rl').
Proof.
  intros Hwf Hlen. eapply put_update_ok; [by apply Hwf|].
  split_and!; [apply indexKey_not_blank|by rewrite indexKey_length|done].
Qed.

(** A deletion that does not panic succeeds. *)
Lemma TruncateFrom_ok rl from err rl' : log_wf rl -> TruncateFrom rl from = Done (err, rl') -> err = None.
Proof.
  intros Hwf. unfold TruncateFrom, rl_update. pose proof (wf_log_bucket _ Hwf) as Hb.
  rewrite <-write_tx_view in Hb. rewrite tx_Bucket_spec, Hb, bool_decide_eq_true_2 by done.
  destruct (cur_Seek _ _ _) as [c o].
  pose proof (delete_loop_spec (fun _ => Done false) (delete_fuel (write_tx (rl_db rl))) _ c o _ Hb
    ltac:(done)) as Hd.
  destruct (delete_loop _ _ _ _ _) as [[[e|] t]|p]; [done| |done].
  pose proof (db_Update_ok (rl_db rl) (fun _ => (None, t)) eq_refl) as Hu.
  destruct (db_Update _ _) as [e d]. simpl in Hu. subst e. by intros [= <- _].
Qed.

Lemma Marshal_snap_length i t : (N.of_nat (length (Marshal (mkSnapMeta i t))) <= MaxValueSize)%N.
Proof.
  unfold MaxValueSize, Marshal.
  cbn [to_json SnapMeta_codec print map sm_Index sm_Term jfield fst snd jnum join].
  pose proof (dec_length i). pose proof (dec_length t). unfold quote.
  repeat (rewrite length_app || cbn [length]).
  assert (length (escape (str "index")) = 5%nat) as -> by (vm_compute; reflexivity).
  assert (length (escape (str "term")) = 4%nat) as -> by (vm_compute; reflexivity).
  cbn [length]. lia.
Qed.

Lemma Compact_ok rl si st err rl' : log_wf rl -> Compact rl si st = Done (err, rl') -> err = None.
Proof.
  intros Hwf. unfold Compact, rl_update. pose proof (wf_log_bucket _ Hwf) as Hb.
  rewrite <-write_tx_view in Hb. rewrite tx_Bucket_spec, Hb, bool_decide_eq_true_2 by done.
  pose proof (compact_delete rl si Hwf) as Hd. cbv zeta in Hd. destruct (cur_First _ _) as [c o].
  destruct (delete_loop _ _ _ _ _) as [[[e|] t]|p]; [done| |done]. destruct Hd as (m' & Hb' & _).
  assert (buckets t !! metaBucket = Some (meta_bkt rl)) as Hbm.
  { rewrite Hb', lookup_insert_ne, write_tx_view by done. apply Hwf. }
  unfold in_bucket. rewrite tx_Bucket_spec, Hbm, bool_decide_eq_true_2 by done.
  destruct (bkt_Put_spec t metaBucket (meta_bkt rl) snapshotKey (Marshal (mkSnapMeta si st)) Hbm)
    as (t2 & -> & _); [split_and!; [done|by vm_compute|apply Marshal_snap_length]|].
  pose proof (db_Update_ok (rl_db rl) (fun _ => (None, t2)) eq_refl) as Hu.
  destruct (db_Update _ _) as [e d]. simpl in Hu. subst e. by intros [= <- _].
Qed.

(** A log that was open can be opened again. *)
Lemma newRaftLog_ok path rl :
  exists rl', newRaftLog (fun _ => None) (fun _ => inr (rl_db rl)) path = inr rl'.
Proof.
  unfold newRaftLog. destruct (create_buckets_spec (write_tx (rl_db rl))) as (t' & Ec & _).
  pose proof (db_Update_ok (rl_db rl) create_buckets) as Hu. rewrite Ec in Hu.
  specialize (Hu eq_refl). destruct (db_Update _ _) as [err d]. simpl in Hu. subst err.
  repeat case_match; eauto.
Qed.

End reliable.
End raft_log_spec.

(** ** [extractDir] *)

Definition is_sep (c : byte) : bool := Byte.eqb c "/" || Byte.eqb c x5c.

Lemma extractDir_loop_file d c f i :
  is_sep c = true -> forallb (fun x => negb (is_sep x)) f = true ->
  (length d < i)%nat -> (i <= length d + S (length f))%nat ->
  extractDir_loop (d ++ c :: f) i = d.
Proof.
  intros Hc Hf. induction i as [|i IH]; intros Hlo Hhi; [lia|]. simpl.
  destruct (decide (i = length d)) as [->|Hne].
  - rewrite list_lookup_middle by done. unfold is_sep in Hc. rewrite Hc. by rewrite take_app_length.
  - destruct ((d ++ c :: f)%list !! i) as [x|] eqn:E; [|apply IH; lia].
    rewrite lookup_app_r in E by lia.
    destruct (i - length d)%nat as [|n] eqn:En; [lia|]. simpl in E.
    rewrite forallb_forall in Hf. specialize (Hf x). rewrite negb_true_iff in Hf.
    unfold is_sep in Hf. rewrite Hf; [apply IH; lia|].
    apply list_elem_of_In, list_elem_of_lookup. eauto.
Qed.

(** The directory part of a path that has a separator. *)
Lemma extractDir_file d c f :
  is_sep c = true -> forallb (fun x => negb (is_sep x)) f = true ->
  extractDir (d ++ c :: f) = d.
Proof.
  intros. unfold extractDir. apply extractDir_loop_file; [done..| |]; rewrite length_app; simpl; lia.
Qed.

(** A path without a separator is in the current directory. *)
Lemma extractDir_plain f :
  forallb (fun x => negb (is_sep x)) f = true -> extractDir f = str ".".
Proof.
  intros Hf. unfold extractDir. induction (length f) as [|i IH]; [done|]. simpl.
  destruct (f !! i) as [x|] eqn:E; [|done].
  rewrite forallb_forall in Hf. specialize (Hf x). rewrite negb_true_iff in Hf.
  unfold is_sep in Hf. rewrite Hf; [done|]. apply list_elem_of_In, list_elem_of_lookup. eauto.
Qed.
