(* ===== verification/LogCorrect.v ===== *)
(** * The Raft log implements an abstract log

    The abstract log is a finite map from indices to entries with the term, the
    vote and the recorded snapshot boundary.  Every operation of log.go refines its
    counterpart on it, in any sequence and with any operation failing, and what the
    log reports is what the abstract log holds.  A truncation and a compaction are
    specified by what holds wherever bbolt's cursor goes after a deletion. *)

From S2P Require Import Prelude GoJson Types Bolt RaftLog.
Import Utf8 Json MapBolt.

Local Open Scope string_scope.

(** ** The abstract log *)

Record ALog := mkALog {
  a_entries : gmap N LogEntry;
  a_term : Term;
  a_vote : NodeID;
  a_disk : option SnapMeta;      (* the recorded boundary *)
  a_loaded : bool                (* the log was opened after it was recorded *)
}.

Inductive LogOp :=
| OAppend (e : LogEntry)
| OBatch (es : list LogEntry)
| OTruncate (from : LogIndex)
| OCompact (i : LogIndex) (t : Term)
| OSaveMeta (t : Term) (v : NodeID)
| OReopen (path : bytes).

Definition with_entries (a : ALog) (m : gmap N LogEntry) : ALog :=
  mkALog m (a_term a) (a_vote a) (a_disk a) (a_loaded a).

Definition put_entry (m : gmap N LogEntry) (e : LogEntry) : gmap N LogEntry :=
  <[le_Index e := j_san e]> m.

(** [i] is the first index from [from] on with an entry. *)
Definition a_first (m : gmap N LogEntry) (from i : N) : Prop :=
  (from <= i)%N /\ is_Some (m !! i) /\ forall j, (from <= j)%N -> is_Some (m !! j) -> (i <= j)%N.

(** Truncation and compaction remove entries, the first one they meet at least. *)
Definition op_spec (a : ALog) (o : LogOp) (a' : ALog) : Prop :=
  match o with
  | OAppend e => a' = with_entries a (put_entry (a_entries a) e)
  | OBatch es => a' = with_entries a (foldl put_entry (a_entries a) es)
  | OTruncate from =>
      exists m, a' = with_entries a m /\ m ⊆ a_entries a /\
        (forall i, a_first (a_entries a) from i -> m !! i = None) /\
        ((forall i, ~ a_first (a_entries a) from i) -> m = a_entries a)
  | OCompact i t =>
      exists m, a' = mkALog m (a_term a) (a_vote a) (Some (mkSnapMeta i t)) false /\ m ⊆ a_entries a /\
        (forall j, a_first (a_entries a) 0 j -> (j <= i)%N -> m !! j = None) /\
        (forall j, (i < j)%N -> m !! j = a_entries a !! j)
  | OSaveMeta t v => a' = mkALog (a_entries a) t (san v) (a_disk a) (a_loaded a)
  | OReopen _ => a' = mkALog (a_entries a) (a_term a) (a_vote a) (a_disk a) true
  end.

(** A run in which the operations that report an error do nothing. *)
Inductive spec_run : ALog -> list LogOp -> list (option error) -> ALog -> Prop :=
| run_nil a : spec_run a [] [] a
| run_op a o ops errs a1 a2 :
    op_spec a o a1 -> spec_run a1 ops errs a2 -> spec_run a (o :: ops) (None :: errs) a2
| run_err a o ops err errs a2 :
    spec_run a ops errs a2 -> spec_run a (o :: ops) (Some err :: errs) a2.

(** The recorded boundary, index 0 and term 0 when there is none. *)
Definition a_boundary (a : ALog) : SnapMeta := default (mkSnapMeta 0 0) (a_disk a).

(** The last index: the greatest one with an entry; without entries the recorded
    boundary, if the log was opened after it was recorded. *)
Definition is_last (a : ALog) (i : LogIndex) : Prop :=
  (is_Some (a_entries a !! i) /\ forall j, is_Some (a_entries a !! j) -> (j <= i)%N) \/
  (a_entries a = ∅ /\ (a_loaded a = true -> i = sm_Index (a_boundary a))).

Definition entry_term (a : ALog) (i : LogIndex) : Term :=
  match a_entries a !! i with Some e => le_Term e | None => 0%N end.

Definition a_termAt (a : ALog) (i : LogIndex) : Term :=
  if (i =? 0)%N then 0%N
  else if (i =? sm_Index (a_boundary a))%N then sm_Term (a_boundary a)
  else entry_term a i.

(** ** The operations of log.go *)

Section log_correct.
Context {B : Bolt} {L : BoltLaws B}.
Implicit Types rl : RaftLog B.

Definition op_run rl (o : LogOp) : outcome (option error * RaftLog B) :=
  match o with
  | OAppend e => Append rl e
  | OBatch es => AppendBatch rl es
  | OTruncate from => TruncateFrom rl from
  | OCompact i t => Compact rl i t
  | OSaveMeta t v => SaveMeta rl t v
  | OReopen path =>
      match newRaftLog (fun _ => None) (fun _ => inr (rl_db rl)) path with
      | inl err => Done (Some err, rl)
      | inr rl' => Done (None, rl')
      end
  end.

Fixpoint ops_run rl (ops : list LogOp) : outcome (list (option error) * RaftLog B) :=
  match ops with
  | [] => Done ([], rl)
  | o :: ops =>
      match op_run rl o with
      | Panic p => Panic p
      | Done (err, rl1) =>
          match ops_run rl1 ops with
          | Panic p => Panic p
          | Done (errs, rl2) => Done (err :: errs, rl2)
          end
      end
  end.

(** The operations that delete under a cursor. *)
Definition deletes (o : LogOp) : Prop :=
  match o with OTruncate _ | OCompact _ _ => True | _ => False end.

(** The integers of an operation are 64-bit. *)
Definition op_ok (o : LogOp) : Prop :=
  match o with
  | OAppend e => j_ok e
  | OBatch es => Forall (fun e => j_ok e) es
  | OTruncate from => u64_ok from
  | OCompact i t => u64_ok i /\ u64_ok t
  | OSaveMeta t _ => u64_ok t
  | OReopen _ => True
  end.

(** What it writes fits in a bbolt value. *)
Definition op_fits (o : LogOp) : Prop :=
  match o with
  | OAppend e => (N.of_nat (length (Marshal e)) <= MaxValueSize)%N
  | OBatch es => Forall (fun e => (N.of_nat (length (Marshal e)) <= MaxValueSize)%N) es
  | OSaveMeta _ v => short_id v
  | _ => True
  end.

(** ** The refinement *)

Record implements rl (a : ALog) : Prop := {
  im_wf : log_wf rl;
  im_entries i : u64_ok i -> log_at rl i = a_entries a !! i;
  im_range i : is_Some (a_entries a !! i) -> u64_ok i;
  im_meta : LoadMeta rl = inr (a_term a, a_vote a);
  im_disk : snap_on_disk rl = a_disk a;
  im_boundary : a_loaded a = true ->
    mkSnapMeta (rl_snapshotIndex rl) (rl_snapshotTerm rl) = a_boundary a
}.

(** A batch writes its entries one after the other, in one transaction. *)
Definition put_bytes (m : gmap bytes bytes) (e : LogEntry) : gmap bytes bytes :=
  <[indexKey (le_Index e) := Marshal e]> m.

Lemma put_all_spec es : forall t m, buckets t !! logBucket = Some m ->
  match put_all t es with
  | (None, t') => buckets t' = <[logBucket := foldl put_bytes m es]> (buckets t)
  | (Some _, _) => True
  end.
Proof.
  induction es as [|e es IH]; intros t m Hb; simpl; [by rewrite insert_id|].
  destruct (decide (put_ok (indexKey (le_Index e)) (Marshal e))) as [Hp|Hp].
  2:{ by destruct (bkt_Put_err _ _ _ _ _ Hb Hp) as [? ->]. }
  destruct (bkt_Put_spec _ _ _ _ _ Hb Hp) as (t1 & -> & Ht1).
  specialize (IH t1 (put_bytes m e) ltac:(by rewrite Ht1, lookup_insert_eq)).
  destruct (put_all t1 es) as [[]]; [done|]. by rewrite IH, Ht1, insert_insert_eq.
Qed.

Lemma put_all_ok es : Forall (fun e => (N.of_nat (length (Marshal e)) <= MaxValueSize)%N) es ->
  forall t m, buckets t !! logBucket = Some m -> (put_all t es).1 = None.
Proof.
  intros Hall. induction Hall as [|e es He _ IH]; intros t m Hb; simpl; [done|].
  destruct (bkt_Put_spec t logBucket m (indexKey (le_Index e)) (Marshal e) Hb) as (t1 & -> & Ht1).
  - split_and!; [apply indexKey_not_blank|by rewrite indexKey_length|done].
  - apply (IH t1 (put_bytes m e)). by rewrite Ht1, lookup_insert_eq.
Qed.

(** The byte map that holds an entry map. *)
Definition encodes (mb : gmap bytes bytes) (m : gmap N LogEntry) : Prop :=
  (forall k v, mb !! k = Some v -> exists i e, u64_ok i /\ k = indexKey i /\
    Unmarshal v = Some e /\ le_Index e = i /\ u64_ok (le_Term e)) /\
  (forall i, u64_ok i -> mb !! indexKey i ≫= Unmarshal = m !! i).

Lemma encodes_put mb m e : j_ok e -> encodes mb m -> encodes (put_bytes mb e) (put_entry m e).
Proof.
  intros Hok [Hwf Hm]. assert (Unmarshal (Marshal e) = Some (j_san e)) as Hu by by apply Unmarshal_Marshal.
  split.
  - intros k v. unfold put_bytes. rewrite lookup_insert. case_decide; [|apply Hwf].
    intros [= <-]. exists (le_Index e), (j_san e). split; [apply Hok|]. split; [done|].
    split; [done|]. split; [done|apply Hok].
  - intros i Hi. unfold put_bytes, put_entry. rewrite !lookup_insert.
    destruct (decide (le_Index e = i)) as [->|Hne]; [by rewrite decide_True|].
    rewrite decide_False; [by apply Hm|]. intros E. apply Hne, indexKey_inj; [apply Hok|done|done].
Qed.

Lemma encodes_batch es : Forall (fun e => j_ok e) es -> forall mb m, encodes mb m ->
  encodes (foldl put_bytes mb es) (foldl put_entry m es).
Proof.
  intros Hall. induction Hall as [|e es He _ IH]; intros mb m Hm; [done|]. simpl.
  by apply IH, encodes_put.
Qed.

Lemma AppendBatch_spec rl es m : log_wf rl -> Forall (fun e => j_ok e) es ->
  (forall i, u64_ok i -> log_at rl i = m !! i) ->
  match AppendBatch rl es with
  | Panic _ => False
  | Done (None, rl') => log_wf rl' /\ meta_kept rl rl' /\
      forall i, u64_ok i -> log_at rl' i = foldl put_entry m es !! i
  | Done (Some _, rl') => same_log rl rl'
  end.
Proof.
  intros Hwf Hall Hm. unfold AppendBatch. case_bool_decide as He.
  { by destruct es. }
  match goal with |- context [rl_update rl ?f] => pose proof (rl_update_spec rl f) as H end.
  cbv beta in H. rewrite (in_bucket_write rl logBucket (log_bkt rl)) in H by apply Hwf.
  destruct (rl_update _ _) as [[[err|] rl']|p]; [apply H| |done].
  pose proof (wf_log_bucket _ Hwf) as Hb. rewrite <-write_tx_view in Hb.
  pose proof (put_all_spec es _ _ Hb) as Hp. destruct H as (t & Et & H & Hi & Ht).
  injection Et as Et. rewrite Et in Hp. rewrite Hp, write_tx_view in H.
  destruct (encodes_batch es Hall (log_bkt rl) m (conj (wf_entries _ Hwf) Hm)) as [Hwf' Hm'].
  destruct (log_bkt_written _ _ _ Hwf H Hi Ht Hwf') as (? & ? & Hl).
  split_and!; [done..|]. intros i Hi'. unfold log_at. rewrite Hl. by apply Hm'.
Qed.

Lemma batch_range es (m : gmap N LogEntry) : Forall (fun e => j_ok e) es ->
  (forall i, is_Some (m !! i) -> u64_ok i) -> forall i, is_Some (foldl put_entry m es !! i) -> u64_ok i.
Proof.
  intros Hall. revert m. induction Hall as [|e es He _ IH]; intros m Hm; [done|]. simpl. apply IH.
  intros i. unfold put_entry. rewrite lookup_insert. case_decide as Hd; [|apply Hm].
  intros _. rewrite <-Hd. apply He.
Qed.

(** ** One operation *)

Lemma implements_same rl rl' a : same_log rl rl' -> implements rl a -> implements rl' a.
Proof.
  intros Hs [H1 H2 H3 H4 H5 H6]. destruct (same_log_reads _ _ Hs H1) as (_ & Ha & Hl).
  split; [by eapply same_log_wf| |done|by rewrite Hl| |].
  - intros i Hi. rewrite Ha. by apply H2.
  - unfold snap_on_disk. by rewrite (same_meta_bkt _ _ Hs).
  - by rewrite (same_snapshotIndex _ _ Hs), (same_snapshotTerm _ _ Hs).
Qed.

(** An operation that changes the entries only. *)
Lemma implements_entries rl rl' a m : implements rl a -> log_wf rl' -> meta_kept rl rl' ->
  (forall i, u64_ok i -> log_at rl' i = m !! i) -> (forall i, is_Some (m !! i) -> u64_ok i) ->
  implements rl' (with_entries a m).
Proof.
  intros [H1 H2 H3 H4 H5 H6] Hwf Hk Hm Hr. split; [done|done|done| | |].
  - by rewrite (LoadMeta_kept _ _ H1 Hwf Hk).
  - unfold snap_on_disk. by rewrite (kept_meta_bkt _ _ Hk).
  - by rewrite (kept_snapshotIndex _ _ Hk), (kept_snapshotTerm _ _ Hk).
Qed.

(** The entries that are left of an abstract log. *)
Definition left_of rl (m : gmap N LogEntry) : gmap N LogEntry :=
  map_imap (fun i _ => log_at rl i) m.

Lemma left_of_spec rl rl' a Q : implements rl a -> pruned Q rl rl' ->
  left_of rl' (a_entries a) ⊆ a_entries a /\
  (forall i, u64_ok i -> log_at rl' i = left_of rl' (a_entries a) !! i) /\
  (forall i, is_Some (left_of rl' (a_entries a) !! i) -> u64_ok i) /\
  (forall i, left_of rl' (a_entries a) !! i = a_entries a !! i \/ Q i).
Proof.
  intros Ha Hp. pose proof (im_entries _ _ Ha) as He. pose proof (im_range _ _ Ha) as Hr.
  assert (forall i, left_of rl' (a_entries a) !! i = a_entries a !! i ≫= fun _ => log_at rl' i) as Hl.
  { intros i. apply map_lookup_imap. }
  assert (forall i e, a_entries a !! i = Some e -> log_at rl' i = Some e \/ log_at rl' i = None /\ Q i) as Hc.
  { intros i e Ei. assert (u64_ok i) as Hi by (apply Hr; by eexists).
    destruct (Hp i Hi) as [E|?]; [left; by rewrite E, He|by right]. }
  split_and!.
  - apply map_subseteq_spec. intros i e. rewrite Hl. destruct (a_entries a !! i) as [e'|] eqn:Ei; [|done].
    simpl. destruct (Hc i e' Ei) as [->|[-> _]]; [by intros [= ->]|done].
  - intros i Hi. rewrite Hl. destruct (a_entries a !! i) as [e|] eqn:Ei; [done|]. simpl.
    destruct (Hp i Hi) as [E|[E _]]; [|done]. by rewrite E, He.
  - intros i. rewrite Hl. destruct (a_entries a !! i) eqn:Ei; [|by intros []]. intros _. apply Hr. by eexists.
  - intros i. rewrite Hl. destruct (a_entries a !! i) as [e|] eqn:Ei; [|by left]. simpl.
    destruct (Hc i e Ei) as [->|[_ ?]]; [by left|by right].
Qed.

Lemma a_first_iff rl a from i : implements rl a -> a_first (a_entries a) from i <-> first_from rl from i.
Proof.
  intros Ha. pose proof (im_entries _ _ Ha) as He. pose proof (im_range _ _ Ha) as Hr. split.
  - intros (Hle & Hs & Hmin). assert (u64_ok i) as Hi by by apply Hr. split_and!; [done|done|by rewrite He|].
    intros j Hj Hfj Hsj. apply Hmin; [done|]. by rewrite <-He.
  - intros (Hi & Hle & Hs & Hmin). split_and!; [done|by rewrite <-He|]. intros j Hfj Hsj.
    assert (u64_ok j) as Hj by by apply Hr. apply Hmin; [done|done|]. by rewrite He.
Qed.

Lemma implements_truncate rl a from : implements rl a -> u64_ok from ->
  match TruncateFrom rl from with
  | Panic p => cursor_panic p
  | Done (Some _, rl') => implements rl' a
  | Done (None, rl') => exists a', op_spec a (OTruncate from) a' /\ implements rl' a'
  end.
Proof.
  intros Ha Hf. pose proof (TruncateFrom_spec rl from (im_wf _ _ Ha) Hf) as H.
  destruct (TruncateFrom rl from) as [[[err|] rl']|p]; [by eapply implements_same| |done].
  destruct H as (Hwf & Hk & Hp & Hfst). destruct (left_of_spec rl rl' a _ Ha Hp) as (Hsub & Hl & Hr & Hq).
  exists (with_entries a (left_of rl' (a_entries a))). split; [|by eapply implements_entries].
  eexists. split_and!; [done|done| |].
  - intros i Hi. rewrite <-Hl by (by eapply im_range; [|apply Hi]). by apply Hfst, (a_first_iff rl a).
  - intros Hno. apply map_eq. intros i. destruct (Hq i) as [?|[j Hj]]; [done|].
    by destruct (Hno j); apply (a_first_iff rl a).
Qed.

Lemma implements_compact rl a i t : implements rl a -> u64_ok i -> u64_ok t ->
  match Compact rl i t with
  | Panic p => cursor_panic p
  | Done (Some _, rl') => implements rl' a
  | Done (None, rl') => exists a', op_spec a (OCompact i t) a' /\ implements rl' a'
  end.
Proof.
  intros Ha Hi Ht. pose proof (Compact_spec rl i t (im_wf _ _ Ha) Hi Ht) as H.
  destruct (Compact rl i t) as [[[err|] rl']|p]; [by eapply implements_same| |done].
  destruct H as (Hwf & Hp & Hfst & Hd & Hm & _). destruct (left_of_spec rl rl' a _ Ha Hp) as (Hsub & Hl & Hr & Hq).
  eexists. split.
  - exists (left_of rl' (a_entries a)). split_and!; [done|done| |].
    + intros j Hj Hle. rewrite <-Hl by (by eapply im_range; [|apply Hj]).
      apply Hfst; [by apply (a_first_iff rl a)|done].
    + intros j Hlt. destruct (Hq j) as [?|?]; [done|lia].
  - split; simpl; [done|done|done|rewrite Hm; apply Ha|done|done].
Qed.

Lemma implements_op rl a o : implements rl a -> op_ok o ->
  match op_run rl o with
  | Panic p => cursor_panic p /\ deletes o
  | Done (Some _, rl') => implements rl' a
  | Done (None, rl') => exists a', op_spec a o a' /\ implements rl' a'
  end.
Proof.
  intros Ha Hok. pose proof (im_wf _ _ Ha) as Hwf. pose proof (im_entries _ _ Ha) as He.
  destruct o as [e|es|from|i t|t v|path]; simpl op_run.
  - pose proof (Append_spec rl e Hwf Hok) as H. destruct (Append rl e) as [[[err|] rl']|p];
      [by eapply implements_same| |done]. destruct H as (? & ? & Hl).
    eexists. split; [done|]. eapply implements_entries; [done..| |].
    + intros i Hi. rewrite Hl by done. unfold put_entry. rewrite lookup_insert, He by done.
      by destruct (decide (i = le_Index e)) as [->|]; [rewrite decide_True|rewrite decide_False].
    + intros i. unfold put_entry. rewrite lookup_insert. case_decide as Hd; [|apply Ha].
      intros _. rewrite <-Hd. apply Hok.
  - pose proof (AppendBatch_spec rl es (a_entries a) Hwf Hok He) as H.
    destruct (AppendBatch rl es) as [[[err|] rl']|p]; [by eapply implements_same| |done].
    destruct H as (? & ? & Hl). eexists. split; [done|].
    eapply implements_entries; [done..|]. by apply batch_range; [|apply Ha].
  - pose proof (implements_truncate rl a from Ha Hok) as H. by destruct (TruncateFrom rl from) as [[[]]|].
  - destruct Hok as [Hi Ht]. pose proof (implements_compact rl a i t Ha Hi Ht) as H.
    by destruct (Compact rl i t) as [[[]]|].
  - pose proof (SaveMeta_spec rl t v Hwf Hok) as H.
    destruct (SaveMeta rl t v) as [[[err|] rl']|p]; [by eapply implements_same| |done].
    destruct H as (? & Hl & Hm & Hsi & Hst & Hd). eexists. split; [done|]. split; simpl; try done.
    + intros i Hi. unfold log_at. rewrite Hl. by apply He.
    + apply Ha.
    + rewrite Hd. apply Ha.
    + rewrite Hsi, Hst. apply Ha.
  - destruct (newRaftLog _ _ path) as [err|rl'] eqn:En; [done|].
    destruct (newRaftLog_spec path rl rl' Hwf En) as (Hwf' & Hl & Hm & Hs).
    eexists. split; [done|]. split; simpl; try done.
    + intros i Hi. unfold log_at. rewrite Hl. by apply He.
    + apply Ha.
    + rewrite LoadMeta_spec, Hm, <-LoadMeta_spec by done. apply Ha.
    + unfold snap_on_disk. rewrite Hm. apply Ha.
    + intros _. unfold a_boundary. simpl. by rewrite Hs, (im_disk _ _ Ha).
Qed.

Lemma implements_run ops : forall rl a, implements rl a -> Forall op_ok ops ->
  match ops_run rl ops with
  | Panic p => cursor_panic p /\ Exists deletes ops
  | Done (errs, rl') => exists a', spec_run a ops errs a' /\ implements rl' a'
  end.
Proof.
  induction ops as [|o ops IH]; intros rl a Ha Hall; [exists a; by split; [constructor|]|]. simpl.
  apply Forall_cons in Hall as [Ho Hall]. pose proof (implements_op rl a o Ha Ho) as H1.
  destruct (op_run rl o) as [[[err|] rl1]|p].
  - specialize (IH rl1 a H1 Hall). destruct (ops_run rl1 ops) as [[errs rl2]|p].
    + destruct IH as (a' & ? & ?). exists a'. by split; [constructor|].
    + split; [apply IH|right; apply IH].
  - destruct H1 as (a1 & Hs & Ha1). specialize (IH rl1 a1 Ha1 Hall).
    destruct (ops_run rl1 ops) as [[errs rl2]|p].
    + destruct IH as (a' & ? & ?). exists a'. by split; [econstructor|].
    + split; [apply IH|right; apply IH].
  - split; [apply H1|left; apply H1].
Qed.

(** ** What the log reports *)

Lemma implements_last rl a : implements rl a -> is_last a (LastIndex rl).
Proof.
  intros [H1 H2 H3 _ _ H6]. destruct (LastIndex_spec rl H1) as [(Hs & Hu & Hmax)|[Hs Hno]].
  - left. rewrite H2 in Hs by done. split; [done|]. intros j Hj. apply Hmax; [by apply H3|].
    rewrite H2; [done|by apply H3].
  - right. split; [|intros Hl; by rewrite <-H6]. apply map_empty. intros i.
    destruct (a_entries a !! i) as [e|] eqn:Ei; [|done].
    rewrite <-H2, Hno in Ei; [done|]. apply H3. by eexists.
Qed.

Lemma implements_entry rl a i : implements rl a -> u64_ok i -> i <> 0%N -> i <> SnapshotIndex rl ->
  TermAt rl i = entry_term a i.
Proof.
  intros [H1 H2 _ _ _ _] Hi Hi0 Hs. unfold TermAt, entry_term. rewrite Get_spec, H2 by done.
  apply N.eqb_neq in Hi0. apply N.eqb_neq in Hs. unfold SnapshotIndex in Hs. rewrite Hi0, Hs.
  by destruct (a_entries a !! i).
Qed.

Lemma implements_termAt rl a i : implements rl a -> a_loaded a = true -> u64_ok i ->
  TermAt rl i = a_termAt a i.
Proof.
  intros [H1 H2 _ _ _ H6] Hl Hi. unfold TermAt, a_termAt, entry_term. specialize (H6 Hl).
  rewrite Get_spec, H2, <-H6 by done. simpl. by destruct (a_entries a !! i).
Qed.

(** The term of the last entry, where the boundary in use is the recorded one. *)
Lemma implements_lastTerm rl a : implements rl a -> a_loaded a = true ->
  LastTerm rl = a_termAt a (LastIndex rl).
Proof.
  intros Ha Hl. destruct (LastIndex_spec rl (im_wf _ _ Ha)) as [(Hs & Hu & _)|[Hs _]].
  - rewrite <-(implements_termAt rl a) by done. unfold LastTerm, TermAt.
    rewrite Get_spec by apply Ha. destruct Hs as [e ->]. done.
  - unfold LastTerm, a_termAt. rewrite <-(im_boundary _ _ Ha Hl). simpl. rewrite Hs, N.eqb_refl.
    by destruct (_ =? _)%N.
Qed.

(** An operation of a database that does not fail reports no error. *)
Lemma op_run_ok `{!BoltReliable B} rl o err rl' : log_wf rl -> op_ok o -> op_fits o ->
  op_run rl o = Done (err, rl') -> err = None.
Proof.
  intros Hwf Hok Hf. destruct o as [e|es|from|i t|t v|path]; simpl in *.
  - destruct (Append_ok rl e Hwf Hf) as [? ->]. by intros [= <- _].
  - unfold AppendBatch. case_bool_decide; [by intros [= <- _]|].
    pose proof (put_all_ok es Hf (write_tx (rl_db rl)) (log_bkt rl)
      ltac:(rewrite write_tx_view; apply Hwf)) as Hp. destruct (put_all _ es) as [? t'] eqn:Ep. simpl in Hp. subst.
    destruct (rl_update_ok rl (fun tx => in_bucket tx logBucket (put_all tx es)) t') as [? ->];
      [|by intros [= <- _]]. cbv beta. by rewrite (in_bucket_write rl logBucket (log_bkt rl)), Ep by apply Hwf.
  - intros E. by eapply TruncateFrom_ok.
  - intros E. by eapply Compact_ok.
  - destruct (SaveMeta_ok rl t v Hwf (Marshal_meta_length t v Hf)) as [? ->]. by intros [= <- _].
  - destruct (newRaftLog_ok path rl) as [? ->]. by intros [= <- _].
Qed.

Lemma ops_run_ok `{!BoltReliable B} ops : forall rl a errs rl', implements rl a -> Forall op_ok ops ->
  Forall op_fits ops -> ops_run rl ops = Done (errs, rl') -> Forall (eq None) errs.
Proof.
  induction ops as [|o ops IH]; intros rl a errs rl' Ha Hall Hf; simpl; [by intros [= <- _]|].
  apply Forall_cons in Hall as [Ho Hall]. apply Forall_cons in Hf as [Hf1 Hf].
  pose proof (implements_op rl a o Ha Ho) as H1.
  destruct (op_run rl o) as [[err rl1]|p] eqn:Eo; [|done].
  assert (err = None) as -> by by eapply op_run_ok; [apply Ha|..].
  destruct H1 as (a1 & _ & H1). destruct (ops_run rl1 ops) as [[errs2 rl2]|p] eqn:Er; [|done].
  intros [= <- <-]. constructor; [done|]. by eapply IH.
Qed.
End log_correct.

(** ** Properties *)

(** C2: the log refines the abstract log.  Run any sequence of appends, batches,
    truncations, compactions, metadata writes and reopenings on a log that
    implements an abstract log.  Whatever fails on the way, the result implements
    an abstract log reached by carrying out exactly the operations that reported no
    error; reads do not panic and give the entries, the term and vote and the last
    index of that abstract log, the term of every entry whose index is not the
    boundary the log has in memory and, when the log was opened after the last
    compaction, the term at every index.  The truncations and compactions of the
    abstract log remove entries: all that bbolt's documentation promises for a
    cursor that deletes is that the first entry they meet goes, that nothing goes
    when there is none, and that a compaction leaves what is above its index.  Only
    such a deletion can panic, in the cursor.  With a database whose commits do not
    fail ([BoltReliable]) and values that fit no operation reports an error. *)
Theorem log_refines {B : Bolt} {L : BoltLaws B} (rl : RaftLog B) a ops :
  implements rl a -> Forall op_ok ops ->
  match ops_run rl ops with
  | Panic p => cursor_panic p /\ Exists deletes ops
  | Done (errs, rl') =>
      exists a', spec_run a ops errs a' /\ implements rl' a' /\
      (forall i, u64_ok i -> log_Get rl' i =
        Done (match a_entries a' !! i with Some e => inr e | None => inl ErrLogEntryNotFound end)) /\
      LoadMeta rl' = inr (a_term a', a_vote a') /\
      (exists last, log_LastIndex rl' = Done last /\ is_last a' last /\
        (a_loaded a' = true -> log_LastTerm rl' = Done (a_termAt a' last))) /\
      (forall i, u64_ok i -> i <> 0%N -> i <> SnapshotIndex rl' ->
        log_TermAt rl' i = Done (entry_term a' i)) /\
      (a_loaded a' = true -> forall i, u64_ok i -> log_TermAt rl' i = Done (a_termAt a' i)) /\
      (BoltReliable B -> Forall op_fits ops -> Forall (eq None) errs)
  end.
Proof.
  intros Ha Hall. pose proof (implements_run ops rl a Ha Hall) as H.
  destruct (ops_run rl ops) as [[errs rl']|p] eqn:E; [|done].
  destruct H as (a' & Hrun & H). pose proof (im_wf _ _ H) as Hwf. exists a'. split_and!; [done|done| | | | | |].
  - intros i Hi. rewrite log_Get_done, Get_spec by done. by rewrite (im_entries _ _ H) by done.
  - apply H.
  - exists (LastIndex rl'). rewrite log_LastIndex_done, log_LastTerm_done by done.
    split_and!; [done|by apply implements_last|]. intros Hl. by rewrite (implements_lastTerm rl' a').
  - intros i Hi Hi0 Hs. rewrite log_TermAt_done by done. by rewrite (implements_entry rl' a').
  - intros Hl i Hi. rewrite log_TermAt_done by done. by rewrite (implements_termAt rl' a').
  - intros Rel Hf. exact (ops_run_ok ops rl a errs rl' Ha Hall Hf E).
Qed.

(** A log on a fresh database. *)
Definition fresh_log : RaftLog reliable_bolt :=
  match newRaftLog (B := reliable_bolt) (fun _ => None) (fun _ => inr (mkdb ∅ 0)) (str "data/raft.db") with
  | inr rl => rl
  | inl _ => mkRaftLog (B := reliable_bolt) (mkdb ∅ 0) 0 0
  end.

Definition fresh_alog : ALog := mkALog ∅ 0 "" None true.

Lemma fresh_implements : implements fresh_log fresh_alog.
Proof.
  assert (exists rl, newRaftLog (B := reliable_bolt) (fun _ => None) (fun _ => inr (mkdb ∅ 0))
    (str "data/raft.db") = inr rl) as [rl Erl].
  { exact (newRaftLog_ok (str "data/raft.db") (mkRaftLog (B := reliable_bolt) (mkdb ∅ 0) 0 0)). }
  unfold fresh_log. rewrite Erl.
  destruct (newRaftLog_fresh (B := reliable_bolt) (str "data/raft.db") (mkdb ∅ 0) rl ltac:(done) Erl)
    as (Hwf & Hl & Hm & Hs & Ht).
  split; simpl.
  - exact Hwf.
  - intros i _. unfold log_at. by rewrite Hl, lookup_empty.
  - intros i. rewrite lookup_empty. by intros [? ?].
  - by rewrite LoadMeta_spec, Hm by done.
  - unfold snap_on_disk. by rewrite Hm.
  - by rewrite Hs, Ht.
Qed.

Definition entry (i : N) (k : string) : LogEntry := mkLogEntry i 1 (mkCommand OpPut k (str k) []).

(** One entry, a batch of two, the last one truncated, the database reopened. *)
Definition sample_ops : list LogOp :=
  [OAppend (entry 1 "x"); OBatch [entry 2 "y"; entry 3 "z"]; OTruncate 3; OReopen (str "data/raft.db")].

Lemma log_refines_witness :
  exists rl', ops_run fresh_log sample_ops = Done ([None; None; None; None], rl') /\
  log_LastIndex rl' = Done 2%N /\ log_TermAt rl' 2 = Done 1%N.
Proof.
  pose proof (log_refines fresh_log fresh_alog sample_ops fresh_implements
    ltac:(repeat (split || constructor); by vm_compute)) as H.
  assert (match ops_run fresh_log sample_ops with
    | Done (errs, rl') => bool_decide (errs = [None; None; None; None])
        && (LastIndex rl' =? 2)%N && (TermAt rl' 2 =? 1)%N
    | Panic _ => false end = true) as Eerr by (vm_compute; reflexivity).
  destruct (ops_run fresh_log sample_ops) as [[errs rl']|p]; [|done].
  bool_props. subst errs. destruct H as (a' & _ & Ha & _ & _ & (last & Hlast & _) & _).
  exists rl'. split; [reflexivity|].
  rewrite (log_LastIndex_done rl' (im_wf _ _ Ha)), (log_TermAt_done rl' 2 (im_wf _ _ Ha)).
  split; f_equal; assumption.
Defined.

(** C25: reading a range.  [GetRange] returns, without error, the entries of the
    indices from [from] on, in order and without a gap, up to [to] or up to the
    first index that has no entry. *)
Theorem GetRange_correct {B : Bolt} {L : BoltLaws B} (rl : RaftLog B) from to :
  log_wf rl -> (to + 1 < two64)%N -> (from <= to + 1)%N ->
  exists l, GetRange rl from to = inr l /\
    (forall k e, l !! k = Some e -> le_Index e = (from + N.of_nat k)%N /\
      Get rl (from + N.of_nat k) = inr e) /\
    let stop := (from + N.of_nat (length l))%N in
    (stop <= to + 1)%N /\ (stop = (to + 1)%N \/ Get rl stop = inl ErrLogEntryNotFound).
Proof.
  intros Hwf Hto Hle. destruct (GetRange_spec rl from to Hwf Hto Hle) as (l & Hl & Hrun & Hend).
  exists l. split; [done|]. split; [|split; [lia|]].
  - intros k e Hk. apply lookup_lt_Some in Hk as Hlt. rewrite (Hrun k Hlt) in Hk.
    split; [|by rewrite Get_spec, Hk by done]. apply (log_at_index rl); [done| |done].
    unfold u64_ok. lia.
  - destruct Hend as [?|[? Hnone]]; [left; lia|right]. by rewrite Get_spec, Hnone by done.
Qed.

Lemma GetRange_correct_witness : exists rl' l,
  ops_run fresh_log sample_ops = Done ([None; None; None; None], rl') /\
  GetRange rl' 1 5 = inr l /\ length l = 2%nat.
Proof.
  pose proof (implements_run sample_ops fresh_log fresh_alog fresh_implements
    ltac:(repeat (split || constructor); by vm_compute)) as H.
  assert (match ops_run fresh_log sample_ops with
    | Done (errs, rl') => bool_decide (errs = [None; None; None; None]) &&
        match GetRange rl' 1 5 with inr l => (length l =? 2)%nat | inl _ => false end
    | Panic _ => false end = true) as El by (vm_compute; reflexivity).
  destruct (ops_run fresh_log sample_ops) as [[errs rl']|p]; [|done].
  apply andb_true_iff in El as [Ee El]. bool_props. subst errs. destruct H as (a' & _ & H).
  destruct (GetRange_correct rl' 1 5 (im_wf _ _ H) ltac:(done) ltac:(done)) as (l & Hl & _).
  exists rl', l. rewrite Hl in El. split; [reflexivity|]. split; [exact Hl|by apply Nat.eqb_eq].
Defined.
