(* ===== verification/LeaderState.v ===== *)
(** * Leader bookkeeping (src/internal/consensus/state.go)

    The replication progress a leader keeps per peer, and the rule that
    advances the commit index. *)

From S2P Require Import Prelude Types.

Record leaderState := mkLeaderState {
  nextIndex : gmap NodeID LogIndex;
  matchIndex : gmap NodeID LogIndex
}.

(** [make(map...)] and the loop over the peers. *)
Definition newLeaderState (peers : list Peer) (lastIndex : LogIndex) : leaderState :=
  foldl (fun ls p =>
    mkLeaderState (<[peer_ID p := (lastIndex + 1)%u64]> (nextIndex ls))
                  (<[peer_ID p := 0%N]> (matchIndex ls)))
    (mkLeaderState ∅ ∅) peers.

(** How many of the match indices reach [n]. *)
Definition count_match (m : gmap NodeID LogIndex) (n : LogIndex) : nat :=
  length (filter (fun mi => (n <= mi)%N) (map_to_list m).*2).

Definition commit_majority (ls : leaderState) : nat := ((size (matchIndex ls) + 1) / 2 + 1)%nat.

(** [for n := lastIndex; n > currentCommit; n--]; the fuel is the number of
    candidates. *)
Fixpoint commit_loop (fuel : nat) (ls : leaderState) (currentCommit : LogIndex) (n : LogIndex)
    (currentTerm : Term) (termAt : LogIndex -> Term) : LogIndex :=
  match fuel with
  | O => 0%N
  | S f =>
      if (currentCommit <? n)%N then
        if negb (termAt n =? currentTerm)%N then
          commit_loop f ls currentCommit (n - 1)%u64 currentTerm termAt
        else if (commit_majority ls <=? 1 + count_match (matchIndex ls) n)%nat then n
        else commit_loop f ls currentCommit (n - 1)%u64 currentTerm termAt
      else 0%N
  end.

Definition commitCandidate (ls : leaderState) (currentCommit lastIndex : LogIndex)
    (currentTerm : Term) (termAt : LogIndex -> Term) : LogIndex :=
  commit_loop (N.to_nat (lastIndex - currentCommit)) ls currentCommit lastIndex currentTerm termAt.

(** ** The progress maps *)

Lemma newLeaderState_fold peers last ls id :
  let ls' := foldl (fun ls p =>
    mkLeaderState (<[peer_ID p := (last + 1)%u64]> (nextIndex ls))
                  (<[peer_ID p := 0%N]> (matchIndex ls))) ls peers in
  (nextIndex ls' !! id = if decide (id ∈ peer_ID <$> peers) then Some (last + 1)%u64
                         else nextIndex ls !! id) /\
  (matchIndex ls' !! id = if decide (id ∈ peer_ID <$> peers) then Some 0%N
                          else matchIndex ls !! id).
Proof.
  revert ls. induction peers as [|p peers IH]; intros ls.
  - rewrite !decide_False by (simpl; apply not_elem_of_nil). done.
  - cbv zeta in IH |- *. simpl foldl. destruct (IH (mkLeaderState
      (<[peer_ID p := (last + 1)%u64]> (nextIndex ls)) (<[peer_ID p := 0%N]> (matchIndex ls))))
      as [-> ->].
    simpl. destruct (decide (id ∈ peer_ID <$> peers)) as [Hin|Hnin].
    + rewrite !(decide_True (P := id ∈ _ :: _)) by by constructor. done.
    + rewrite !lookup_insert. destruct (decide (peer_ID p = id)) as [<-|Hne].
      * rewrite !(decide_True (P := _ ∈ _ :: _)) by constructor. done.
      * rewrite !(decide_False (P := id ∈ _ :: _)); [done|..];
          by intros [?|?]%elem_of_cons.
Qed.

(** A fresh leader will send every peer the entry after its last one and knows
    of no replicated entry. *)
Lemma newLeaderState_spec peers last id :
  (nextIndex (newLeaderState peers last) !! id
    = if decide (id ∈ peer_ID <$> peers) then Some (last + 1)%u64 else None) /\
  (matchIndex (newLeaderState peers last) !! id
    = if decide (id ∈ peer_ID <$> peers) then Some 0%N else None).
Proof.
  pose proof (newLeaderState_fold peers last (mkLeaderState ∅ ∅) id) as H.
  cbv zeta in H. simpl in H. by rewrite !lookup_empty in H.
Qed.

Lemma newLeaderState_size peers last :
  NoDup (peer_ID <$> peers) -> size (matchIndex (newLeaderState peers last)) = length peers.
Proof.
  intros Hnd. rewrite <-(length_fmap peer_ID), <-size_dom.
  rewrite <-(size_list_to_set (C := gset NodeID)) by done. f_equal.
  apply set_eq. intros id. rewrite elem_of_dom, elem_of_list_to_set.
  destruct (newLeaderState_spec peers last id) as [_ ->]. by case_decide; split.
Qed.

(** ** The commit rule *)

(** The conditions the comment on [commitCandidate] lists. *)
Definition committable (ls : leaderState) (currentCommit lastIndex : LogIndex)
    (currentTerm : Term) (termAt : LogIndex -> Term) (n : LogIndex) : Prop :=
  (currentCommit < n <= lastIndex)%N /\ termAt n = currentTerm /\
  (commit_majority ls <= 1 + count_match (matchIndex ls) n)%nat.

Lemma commit_loop_spec fuel ls cc n ct termAt :
  u64_ok n -> (N.to_nat (n - cc) <= fuel)%nat ->
  let r := commit_loop fuel ls cc n ct termAt in
  (r = 0%N /\ forall k, ~ committable ls cc n ct termAt k) \/
  (committable ls cc n ct termAt r /\ forall k, committable ls cc n ct termAt k -> (k <= r)%N).
Proof.
  revert n. induction fuel as [|fuel IH]; intros n Hn Hf; cbv zeta; cbn [commit_loop].
  { left. split; [done|]. intros k [? _]. lia. }
  destruct (N.ltb_spec cc n) as [Hlt|Hge].
  2:{ left. split; [done|]. intros k [? _]. lia. }
  assert (forall k, committable ls cc n ct termAt k -> k <> n ->
    committable ls cc (n - 1) ct termAt k) as Hdown.
  { intros k (? & ? & ?) ?. split_and!; try done; lia. }
  assert (forall k, committable ls cc (n - 1) ct termAt k -> committable ls cc n ct termAt k) as Hup.
  { intros k (? & ? & ?). split_and!; try done; lia. }
  assert ((~ committable ls cc n ct termAt n) ->
    (commit_loop fuel ls cc (n - 1)%u64 ct termAt = 0%N
      /\ forall k, ~ committable ls cc n ct termAt k) \/
    (committable ls cc n ct termAt (commit_loop fuel ls cc (n - 1)%u64 ct termAt)
      /\ forall k, committable ls cc n ct termAt k ->
        (k <= commit_loop fuel ls cc (n - 1)%u64 ct termAt)%N)) as Hskip.
  { intros Hno. rewrite u64_sub_small by (unfold u64_ok in *; lia).
    destruct (IH (n - 1)%N) as [[-> Hnone]|[Hr Hmax]]; [unfold u64_ok in *; lia|lia|..].
    - left. split; [done|]. intros k Hk. apply (Hnone k), Hdown; [done|]. by intros ->.
    - right. split; [by apply Hup|]. intros k Hk. apply Hmax, Hdown; [done|]. by intros ->. }
  destruct (N.eqb_spec (termAt n) ct) as [Et|Et]; cbn [negb].
  - destruct (Nat.leb_spec (commit_majority ls) (1 + count_match (matchIndex ls) n)) as [Hc|Hc].
    + right. split; [|intros k [? _]; lia]. split; [lia|]. split; [done|lia].
    + apply Hskip. intros (_ & _ & ?). lia.
  - apply Hskip. by intros (_ & ? & _).
Qed.

(** A quorum of a cluster of [n] nodes has more than half of them. *)
Definition is_majority (votes n : nat) : Prop := (n < 2 * votes)%nat.

(** The leader and the peers it counts in [commitCandidate] are more than half
    of the cluster. *)
Lemma commit_majority_is_majority ls votes :
  (commit_majority ls <= votes)%nat <-> is_majority votes (size (matchIndex ls) + 1).
Proof.
  unfold commit_majority, is_majority. set (n := (size (matchIndex ls) + 1)%nat).
  pose proof (Nat.div_mod_eq n 2). pose proof (Nat.mod_upper_bound n 2). lia.
Qed.

(** Two majorities of the same cluster share a member. *)
Lemma majorities_intersect {A} `{EqDecision A} (nodes q1 q2 : list A) :
  NoDup q1 -> NoDup q2 -> q1 ⊆ nodes -> q2 ⊆ nodes ->
  is_majority (length q1) (length nodes) -> is_majority (length q2) (length nodes) ->
  exists x, x ∈ q1 /\ x ∈ q2.
Proof.
  unfold is_majority. intros Hn1 Hn2 Hs1 Hs2 Hm1 Hm2.
  destruct (decide (Exists (fun x => x ∈ q2) q1)) as [He|He].
  { apply Exists_exists in He as (x & ? & ?). eauto. }
  assert (forall x, x ∈ q1 -> x ∉ q2) as Hdisj by (intros x ? ?; apply He, Exists_exists; eauto).
  assert (NoDup (q1 ++ q2)) as Hnd by by apply NoDup_app.
  assert (length (q1 ++ q2) <= length nodes)%nat.
  { apply submseteq_length, NoDup_submseteq; [done|]. intros x [?|?]%elem_of_app; auto. }
  rewrite length_app in *. lia.
Qed.

(** ** Properties *)

(** C21: the commit rule.  [commitCandidate] returns the highest index above the
    current commit index whose entry is of the current term and which the
    leader and enough peers to make a majority hold, and 0 exactly when there
    is none. *)
Theorem commitCandidate_correct ls cc last ct termAt :
  u64_ok last ->
  let r := commitCandidate ls cc last ct termAt in
  let ok n := (cc < n <= last)%N /\ termAt n = ct /\
    is_majority (1 + count_match (matchIndex ls) n) (size (matchIndex ls) + 1) in
  (r = 0%N <-> forall n, ~ ok n) /\
  (r <> 0%N -> ok r /\ forall n, ok n -> (n <= r)%N).
Proof.
  intros Hlast r ok.
  assert (forall n, ok n <-> committable ls cc last ct termAt n) as Hiff.
  { intros n. unfold ok, committable. by rewrite commit_majority_is_majority. }
  unfold r, commitCandidate.
  destruct (commit_loop_spec (N.to_nat (last - cc)) ls cc last ct termAt) as [[-> Hn]|[Hr Hmax]];
    [done|done|..].
  - split; [|done]. split; [|done]. intros _ n. by rewrite Hiff.
  - split.
    + split; [|intros Hno; destruct (Hno (commit_loop (N.to_nat (last - cc)) ls cc last ct termAt));
        by apply Hiff].
      intros E. rewrite E in Hr. destruct Hr as [? _]. lia.
    + intros _. split; [by apply Hiff|]. intros n Hn. by apply Hmax, Hiff.
Qed.

(** Three nodes, the peers at indices 3 and 1, the leader at 4: index 3 is the
    candidate. *)
Lemma commitCandidate_correct_witness :
  commitCandidate (mkLeaderState ∅ {["b" := 3%N; "c" := 1%N]}) 1 4 2 (fun _ => 2%N) = 3%N /\
  forall n, ((1 < n <= 4)%N /\ 2%N = 2%N /\
    is_majority (1 + count_match {["b" := 3%N; "c" := 1%N]} n)
      (size ({["b" := 3%N; "c" := 1%N]} : gmap NodeID LogIndex) + 1)) -> (n <= 3)%N.
Proof.
  split; [by vm_compute|].
  destruct (commitCandidate_correct (mkLeaderState ∅ {["b" := 3%N; "c" := 1%N]}) 1 4 2
    (fun _ => 2%N)) as [_ H]; [done|].
  destruct H as [_ H]; [by vm_compute|]. exact H.
Defined.
