(* ===== verification/Storage.v ===== *)
(** * Storage engines (src/internal/storage)

    [Engine] is the Go interface of the state machine Raft entries are applied
    to; [EngineLaws] states what its comments promise, through the key/value map
    an engine holds.  The in-memory engine and the bbolt engine are translated
    and shown to satisfy it, so that the consensus code can be verified against
    the interface. *)

From S2P Require Import Prelude GoJson Types Bolt.
Import Json.

Local Open Scope string_scope.

(** ** The interface (engine.go) *)

Class Engine (E : Type) := {
  eng_Get : E -> string -> error + bytes;
  eng_Put : E -> string -> bytes -> outcome (option error * E);
  eng_Delete : E -> string -> option error * E;
  eng_Scan : E -> string -> error + gmap string bytes;
  eng_Snapshot : E -> error + bytes;
  eng_RestoreSnapshot : E -> bytes -> option error * E;
  eng_Close : E -> option error
}.

(** ** JSON of a [map[string][]byte]

    [json.Marshal] writes the members of a map sorted by key. *)

Definition key_le (a b : string * bytes) : Prop := ~ bytes_lt (str b.1) (str a.1).

#[export] Instance key_le_dec a b : Decision (key_le a b).
Proof. unfold key_le. apply _. Defined.

Definition sorted_members (m : gmap string bytes) : list (string * bytes) :=
  merge_sort key_le (map_to_list m).

Definition set_member (acc : option (gmap string bytes)) (kv : bytes * json)
    : option (gmap string bytes) :=
  match acc, decode_bytes kv.2 with
  | Some m, Some v => Some (<[String.string_of_list_byte kv.1 := v]> m)
  | _, _ => None
  end.

#[export] Instance map_codec : JsonCodec (gmap string bytes) := {|
  to_json m := JObj ((fun kv => (str kv.1, encode_bytes kv.2)) <$> sorted_members m);
  of_json j old :=
    match j with
    | JNull => Some ∅
    | JObj ms => foldl set_member (Some old) ms
    | _ => None
    end;
  j_zero := ∅
|}.

(** What is left of a map after a round trip: keys sanitised, later ones of the
    same name winning. *)
Definition san_map (m : gmap string bytes) : gmap string bytes :=
  foldl (fun acc kv => <[san kv.1 := kv.2]> acc) ∅ (sorted_members m).

(** [json.Unmarshal] into a map variable: the JSON null sets it to the nil map. *)
Definition is_null (data : bytes) : bool :=
  match parse data with Some JNull => true | _ => false end.

Definition decode_map (data : bytes) : option (option (gmap string bytes)) :=
  match parse data with
  | None => None
  | Some JNull => Some None
  | Some j => Some <$> of_json j ∅
  end.

(** ** The in-memory engine (memory.go) *)

(** The map of an engine can be nil: [None]. *)
Record MemoryEngine := mkMemoryEngine { mem_data : option (gmap string bytes) }.

(** What reads see: a nil map reads as an empty one. *)
Definition mem_map (m : MemoryEngine) : gmap string bytes := default ∅ (mem_data m).

Definition NewMemoryEngine : MemoryEngine := mkMemoryEngine (Some ∅).

Definition mem_Get (m : MemoryEngine) (key : string) : error + bytes :=
  match mem_map m !! key with
  | None => inl ErrKeyNotFound
  | Some v => inr v
  end.

Definition mem_Put (m : MemoryEngine) (key : string) (value : bytes)
    : outcome (option error * MemoryEngine) :=
  match mem_data m with
  | None => Panic PanicNilMap
  | Some data => Done (None, mkMemoryEngine (Some (<[key := value]> data)))
  end.

Definition mem_Delete (m : MemoryEngine) (key : string) : option error * MemoryEngine :=
  (None, mkMemoryEngine (delete key <$> mem_data m)).

Definition has_prefix (prefix : string) (kv : string * bytes) : Prop :=
  String.prefix prefix kv.1 = true.

#[export] Instance has_prefix_dec p kv : Decision (has_prefix p kv).
Proof. unfold has_prefix. apply _. Defined.

Definition mem_Scan (m : MemoryEngine) (prefix : string) : error + gmap string bytes :=
  inr (map_fold (fun k v result =>
    if String.prefix prefix k then <[k := v]> result else result) ∅ (mem_map m)).

Definition mem_Snapshot (m : MemoryEngine) : error + bytes :=
  match mem_data m with
  | None => inr (str "null")
  | Some data => inr (Marshal data)
  end.

Definition mem_RestoreSnapshot (m : MemoryEngine) (data : bytes) : option error * MemoryEngine :=
  match decode_map data with
  | None => (Some ErrJSON, m)
  | Some newData => (None, mkMemoryEngine newData)
  end.

Definition mem_Close (e : MemoryEngine) : option error := None.

#[export] Instance MemoryEngine_engine : Engine MemoryEngine := {|
  eng_Get := mem_Get;
  eng_Put := mem_Put;
  eng_Delete := mem_Delete;
  eng_Scan := mem_Scan;
  eng_Snapshot := mem_Snapshot;
  eng_RestoreSnapshot := mem_RestoreSnapshot;
  eng_Close := mem_Close
|}.

(** ** The bbolt engine (persistent.go) *)

Definition kvBucket : bytes := str "kv".

(** [strings.LastIndexByte(path, '/')], as the byte position. *)
Fixpoint last_slash (path : bytes) : option nat :=
  match path with
  | [] => None
  | c :: r =>
      match last_slash r with
      | Some i => Some (S i)
      | None => if Byte.eqb c "/" then Some 0%nat else None
      end
  end.

Definition storage_extractDir (path : bytes) : bytes :=
  match last_slash path with
  | None => str "."
  | Some idx => take idx path
  end.

Section bolt_engine.
Context `{B : Bolt}.

Record BoltEngine := mkBoltEngine { be_db : bolt_DB }.

(** [NewBoltEngine path], over the file system: the results of [os.MkdirAll] on
    a directory and of [bolt.Open] on a path.  The quoted path is left out of the
    error's text. *)
Definition NewBoltEngine (mkdirAll : bytes -> option error) (bolt_Open : bytes -> error + bolt_DB)
    (path : bytes) : error + BoltEngine :=
  match mkdirAll (storage_extractDir path) with
  | Some err => inl (Wrapf "creating data dir" err)
  | None =>
      match bolt_Open path with
      | inl err => inl (Wrapf "opening bolt db" err)
      | inr db =>
          match db_Update db (fun tx => tx_CreateBucketIfNotExists tx kvBucket) with
          | (Some err, _) => inl err
          | (None, db) => inr (mkBoltEngine db)
          end
      end
  end.

Definition be_Get (b : BoltEngine) (key : string) : error + bytes :=
  match bkt_Get (view_tx (be_db b)) kvBucket (str key) with
  | None => inl ErrKeyNotFound
  | Some v => inr v
  end.

Definition be_update (b : BoltEngine) (f : bolt_Tx -> option error * bolt_Tx)
    : option error * BoltEngine :=
  let '(err, d) := db_Update (be_db b) f in (err, mkBoltEngine d).

Definition be_Put (b : BoltEngine) (key : string) (value : bytes)
    : outcome (option error * BoltEngine) :=
  Done (be_update b (fun tx => bkt_Put tx kvBucket (str key) value)).

Definition be_Delete (b : BoltEngine) (key : string) : option error * BoltEngine :=
  be_update b (fun tx => bkt_Delete tx kvBucket (str key)).

Definition be_Scan (b : BoltEngine) (prefix : string) : error + gmap string bytes :=
  inr (foldl (fun result kv =>
    let k := String.string_of_list_byte kv.1 in
    if String.prefix prefix k then <[k := kv.2]> result else result)
    ∅ (bkt_ForEach (view_tx (be_db b)) kvBucket)).

Definition be_Snapshot (b : BoltEngine) : error + bytes :=
  inr (Marshal (foldl (fun (data : gmap string bytes) kv =>
    <[String.string_of_list_byte kv.1 := kv.2]> data)
    ∅ (bkt_ForEach (view_tx (be_db b)) kvBucket))).

(** [for k, v := range m { bkt.Put([]byte(k), v) }], in some order. *)
Fixpoint be_put_all (tx : bolt_Tx) (l : list (string * bytes)) : option error * bolt_Tx :=
  match l with
  | [] => (None, tx)
  | (k, v) :: l =>
      match bkt_Put tx kvBucket (str k) v with
      | (Some err, tx) => (Some err, tx)
      | (None, tx) => be_put_all tx l
      end
  end.

Definition be_RestoreSnapshot (b : BoltEngine) (data : bytes) : option error * BoltEngine :=
  match (Unmarshal data : option (gmap string bytes)) with
  | None => (Some ErrJSON, b)
  | Some m =>
      be_update b (fun tx =>
        let '(err, tx) := tx_DeleteBucket tx kvBucket in
        if bool_decide (err <> None) && bool_decide (err <> Some ErrBucketNotFound) then (err, tx)
        else
          match tx_CreateBucket tx kvBucket with
          | (Some err, tx) => (Some err, tx)
          | (None, tx) => be_put_all tx (map_to_list m)
          end)
  end.

Definition be_Close (e : BoltEngine) : option error := db_Close (be_db e).

#[export] Instance BoltEngine_engine : Engine BoltEngine := {|
  eng_Get := be_Get;
  eng_Put := be_Put;
  eng_Delete := be_Delete;
  eng_Scan := be_Scan;
  eng_Snapshot := be_Snapshot;
  eng_RestoreSnapshot := be_RestoreSnapshot;
  eng_Close := be_Close
|}.

End bolt_engine.

Arguments BoltEngine B : rename, clear implicits.

(** ** What an engine promises *)

Class EngineLaws (E : Type) {X : Engine E} := {
  eng_wf : E -> Prop;
  (* the key/value pairs the engine holds *)
  eng_view : E -> gmap string bytes;
  Get_law s k : eng_wf s ->
    eng_Get s k = match eng_view s !! k with Some v => inr v | None => inl ErrKeyNotFound end;
  Put_law s k v : eng_wf s ->
    match eng_Put s k v with
    | Done (None, s') => eng_wf s' /\ eng_view s' = <[k := v]> (eng_view s)
    | Done (Some _, s') => eng_wf s' /\ eng_view s' = eng_view s
    | Panic _ => False
    end;
  Delete_law s k : eng_wf s ->
    match eng_Delete s k with
    | (None, s') => eng_wf s' /\ eng_view s' = delete k (eng_view s)
    | (Some _, s') => eng_wf s' /\ eng_view s' = eng_view s
    end;
  Scan_law s p : eng_wf s -> eng_Scan s p = inr (filter (has_prefix p) (eng_view s));
  Snapshot_law s : eng_wf s -> eng_Snapshot s = inr (Marshal (eng_view s));
  Restore_law s d : eng_wf s ->
    match eng_RestoreSnapshot s d with
    | (None, s') => (eng_wf s' \/ is_null d = true) /\ Unmarshal d = Some (eng_view s')
    | (Some _, s') => eng_wf s' /\ eng_view s' = eng_view s
    end
}.

(** ** Folds over key/value lists *)

Lemma str_of_bytes b : str (String.string_of_list_byte b) = b.
Proof. apply String.list_byte_of_string_of_list_byte. Qed.

Lemma bytes_of_str s : String.string_of_list_byte (str s) = s.
Proof. apply String.string_of_list_byte_of_string. Qed.

#[export] Instance string_of_list_byte_inj : Inj (=) (=) String.string_of_list_byte.
Proof. intros a b H. apply (f_equal str) in H. by rewrite !str_of_bytes in H. Qed.

Lemma foldl_insert_lookup (l : list (string * bytes)) (acc : gmap string bytes) k :
  NoDup l.*1 ->
  foldl (fun acc kv => <[kv.1 := kv.2]> acc) acc l !! k
  = match (list_to_map l : gmap string bytes) !! k with Some v => Some v | None => acc !! k end.
Proof.
  revert acc. induction l as [|[k0 v0] l IH]; intros acc Hnd; [done|].
  rewrite fmap_cons in Hnd. apply NoDup_cons in Hnd as [Hn Hnd]. simpl. rewrite IH by done.
  rewrite !lookup_insert. destruct (decide (k0 = k)) as [->|]; [|done].
  by rewrite (not_elem_of_list_to_map_1 _ _ Hn).
Qed.

(** A fold that copies the pairs with a given property into a map. *)
Lemma foldl_copy_lookup (p : string -> bool) (l : list (bytes * bytes)) (acc : gmap string bytes) k :
  NoDup l.*1 ->
  foldl (fun acc kv => let k := String.string_of_list_byte kv.1 in
    if p k then <[k := kv.2]> acc else acc) acc l !! k
  = if p k then match (list_to_map l : gmap bytes bytes) !! str k with
                | Some v => Some v | None => acc !! k end
    else acc !! k.
Proof.
  revert acc. induction l as [|[k0 v0] l IH]; intros acc Hnd.
  { simpl. by destruct (p k). }
  rewrite fmap_cons in Hnd. apply NoDup_cons in Hnd as [Hn Hnd]. cbn [foldl].
  rewrite IH by done. cbv zeta. cbn [fst snd list_to_map foldr].
  rewrite (lookup_insert (M := gmap bytes)).
  destruct (decide (k0 = str k)) as [->|Hne].
  - rewrite (not_elem_of_list_to_map_1 _ _ Hn), bytes_of_str.
    destruct (p k) eqn:Ep; [by rewrite lookup_insert_eq|done].
  - destruct (p (String.string_of_list_byte k0)) eqn:Ep0; [|done].
    rewrite lookup_insert_ne; [done|]. intros <-. by rewrite str_of_bytes in Hne.
Qed.

(** ** Round trip of a map through JSON *)

Lemma sorted_members_perm m : sorted_members m ≡ₚ map_to_list m.
Proof. apply merge_sort_Permutation. Qed.

Lemma sorted_members_NoDup m : NoDup (sorted_members m).*1.
Proof. rewrite sorted_members_perm. apply NoDup_fst_map_to_list. Qed.

Lemma set_member_fold l acc :
  foldl set_member (Some acc)
    (map (fun m => (Utf8.sanitize m.1, norm m.2)) ((fun kv => (str kv.1, encode_bytes kv.2)) <$> l))
  = Some (foldl (fun acc kv => <[san kv.1 := kv.2]> acc) acc l).
Proof.
  revert acc. induction l as [|[k v] l IH]; intros acc; [done|].
  rewrite fmap_cons, map_cons. cbn [foldl fst snd]. unfold set_member at 2. cbn [fst snd].
  rewrite decode_bytes_norm. apply IH.
Qed.

#[export] Program Instance map_laws : JsonLaws (gmap string bytes) := {|
  j_ok m := True;
  j_san := san_map
|}.
Next Obligation.
  intros m _. apply json_ok_obj. rewrite Forall_fmap. by apply Forall_true.
Qed.
Next Obligation.
  intros m _. cbn [to_json of_json j_zero map_codec norm]. apply set_member_fold.
Qed.

(** A snapshot decodes to the map it was made of, keys sanitised. *)
Lemma Unmarshal_map (m : gmap string bytes) : Unmarshal (Marshal m) = Some (san_map m).
Proof. exact (@Unmarshal_Marshal (gmap string bytes) map_codec map_laws m I). Qed.

Lemma san_map_utf8 (m : gmap string bytes) :
  (forall k, is_Some (m !! k) -> utf8_string k) -> san_map m = m.
Proof.
  intros Hutf. unfold san_map.
  assert (forall acc, foldl (fun acc kv => <[san kv.1 := kv.2]> acc) acc (sorted_members m)
    = foldl (fun (acc : gmap string bytes) kv => <[kv.1 := kv.2]> acc) acc (sorted_members m)) as ->.
  { assert (Forall (fun kv => utf8_string kv.1) (sorted_members m)) as Hall.
    { rewrite sorted_members_perm. apply Forall_forall. intros [k v] Hin.
      apply elem_of_map_to_list in Hin. apply Hutf. by eexists. }
    induction Hall as [|kv l Hkv _ IH]; intros acc; [done|]. simpl. by rewrite san_utf8. }
  apply map_eq. intros k. rewrite foldl_insert_lookup by apply sorted_members_NoDup.
  rewrite (list_to_map_proper _ (map_to_list m) (sorted_members_NoDup m) (sorted_members_perm m)).
  rewrite list_to_map_to_list, lookup_empty. by destruct (m !! k).
Qed.

(** ** The engines keep the promise *)

Lemma mem_Scan_spec m p : mem_Scan m p = inr (filter (has_prefix p) (mem_map m)).
Proof.
  unfold mem_Scan. f_equal. generalize (mem_map m). clear m. intros m.
  induction m as [|k v m Hk Hfst IH] using map_first_key_ind.
  { rewrite map_fold_empty. by rewrite map_filter_empty. }
  rewrite (map_fold_insert_first_key _ _ _ _ _ Hk Hfst), IH.
  destruct (String.prefix p k) eqn:E.
  - by rewrite map_filter_insert_True.
  - rewrite map_filter_insert_False by (unfold has_prefix; simpl; by rewrite E).
    by rewrite delete_id.
Qed.

Lemma decode_map_Unmarshal d : decode_map d = match Unmarshal d with
  | None => None
  | Some m => Some (if is_null d then None else Some m)
  end.
Proof.
  unfold decode_map, is_null, Unmarshal. destruct (parse d) as [j|]; [|done].
  destruct j; cbn [of_json map_codec mbind option_bind fmap option_fmap option_map];
    [done..|]. by destruct (foldl _ _ _).
Qed.

#[export] Program Instance MemoryEngine_laws : EngineLaws MemoryEngine := {|
  eng_wf m := is_Some (mem_data m);
  eng_view := mem_map
|}.
Next Obligation. intros s k _. simpl. unfold mem_Get. by destruct (mem_map s !! k). Qed.
Next Obligation. intros [[m|]] k v [? [=]]. simpl. split; [by eexists|done]. Qed.
Next Obligation. intros [[m|]] k [? [=]]. simpl. split; [by eexists|done]. Qed.
Next Obligation. intros s p _. apply mem_Scan_spec. Qed.
Next Obligation. intros [[m|]] [? [=]]. done. Qed.
Next Obligation.
  intros s d Hs. simpl. unfold mem_RestoreSnapshot. rewrite decode_map_Unmarshal.
  destruct (Unmarshal d) as [m|] eqn:Eu; [|done]. destruct (is_null d) eqn:Hn.
  - split; [by right|]. unfold is_null in Hn. unfold Unmarshal in Eu.
    destruct (parse d) as [[]|]; by try injection Eu as <-.
  - split; [left; by eexists|done].
Qed.

Section bolt_engine_laws.
Context {B : Bolt} {L : BoltLaws B}.
Implicit Types b : BoltEngine B.

Definition be_bkt b : gmap bytes bytes := default ∅ (buckets (view_tx (be_db b)) !! kvBucket).
Definition be_wf b : Prop := buckets (view_tx (be_db b)) !! kvBucket = Some (be_bkt b).
Definition be_view b : gmap string bytes := kmap String.string_of_list_byte (be_bkt b).

Lemma be_view_lookup b k : be_view b !! k = be_bkt b !! str k.
Proof. unfold be_view. rewrite <-(bytes_of_str k) at 1. apply lookup_kmap, _. Qed.

Lemma be_update_spec b f : be_wf b ->
  match be_update b f with
  | (None, b') => (f (write_tx (be_db b))).1 = None
      /\ buckets (view_tx (be_db b')) = buckets (f (write_tx (be_db b))).2
  | (Some _, b') => be_wf b' /\ be_view b' = be_view b
  end.
Proof.
  intros Hwf. unfold be_update. pose proof (db_Update_spec (be_db b) f) as H.
  destruct (db_Update _ _) as [[e|] d]; [|done]. destruct H as [H _].
  unfold be_wf, be_view, be_bkt in *. simpl. by rewrite !H.
Qed.

(** A successful write of the bucket. *)
Lemma be_written b b' m :
  buckets (view_tx (be_db b')) = <[kvBucket := m]> (buckets (view_tx (be_db b))) ->
  be_wf b' /\ be_bkt b' = m.
Proof. intros H. unfold be_wf, be_bkt. by rewrite H, lookup_insert_eq. Qed.

Lemma be_Put_spec b k v : be_wf b ->
  match be_Put b k v with
  | Done (None, b') => be_wf b' /\ be_view b' = <[k := v]> (be_view b)
  | Done (Some _, b') => be_wf b' /\ be_view b' = be_view b
  | Panic _ => False
  end.
Proof.
  intros Hwf. unfold be_Put.
  match goal with |- context [be_update b ?f] => pose proof (be_update_spec b f Hwf) as H end.
  destruct (be_update _ _) as [[err|] b']; [done|]. cbv beta in H.
  unfold be_wf in Hwf. rewrite <-write_tx_view in Hwf.
  destruct (decide (put_ok (str k) v)) as [Hp|Hp].
  2:{ destruct (bkt_Put_err _ _ _ _ _ Hwf Hp) as [? E]. rewrite E in H. by destruct H. }
  destruct (bkt_Put_spec _ _ _ _ _ Hwf Hp) as (t & E & Ht). rewrite E in H.
  destruct H as [_ H]. simpl in H. rewrite Ht, write_tx_view in H.
  destruct (be_written _ _ _ H) as [? Hb]. split; [done|]. apply map_eq. intros x.
  rewrite lookup_insert, !be_view_lookup, Hb, lookup_insert.
  destruct (decide (k = x)) as [->|Hne]; [by rewrite decide_True|].
  rewrite decide_False; [done|]. intros ?%str_inj. done.
Qed.

Lemma be_Delete_spec b k : be_wf b ->
  match be_Delete b k with
  | (None, b') => be_wf b' /\ be_view b' = delete k (be_view b)
  | (Some _, b') => be_wf b' /\ be_view b' = be_view b
  end.
Proof.
  intros Hwf. unfold be_Delete.
  match goal with |- context [be_update b ?f] => pose proof (be_update_spec b f Hwf) as H end.
  destruct (be_update _ _) as [[err|] b']; [done|]. cbv beta in H.
  unfold be_wf in Hwf. rewrite <-write_tx_view in Hwf.
  destruct (bkt_Delete_spec _ _ _ (str k) Hwf) as (t & E & Ht). rewrite E in H.
  destruct H as [_ H]. simpl in H. rewrite Ht, write_tx_view in H.
  destruct (be_written _ _ _ H) as [? Hb]. split; [done|]. apply map_eq. intros x.
  rewrite lookup_delete, !be_view_lookup, Hb, lookup_delete.
  destruct (decide (k = x)) as [->|Hne]; [by rewrite decide_True|].
  rewrite decide_False; [done|]. intros ?%str_inj. done.
Qed.

Lemma be_Scan_spec b p : be_wf b -> be_Scan b p = inr (filter (has_prefix p) (be_view b)).
Proof.
  intros Hwf. unfold be_Scan. f_equal.
  destruct (bkt_ForEach_spec _ _ _ Hwf) as [Hnd Hl]. apply map_eq. intros k.
  rewrite foldl_copy_lookup, Hl, lookup_empty by done.
  rewrite map_lookup_filter, be_view_lookup.
  destruct (String.prefix p k) eqn:Ep; destruct (be_bkt b !! str k); simpl; try done.
  - by rewrite option_guard_True.
  - rewrite option_guard_False; [done|]. unfold has_prefix. simpl. by rewrite Ep.
Qed.

Lemma be_Snapshot_spec b : be_wf b -> be_Snapshot b = inr (Marshal (be_view b)).
Proof.
  intros Hwf. unfold be_Snapshot. do 2 f_equal.
  destruct (bkt_ForEach_spec _ _ _ Hwf) as [Hnd Hl]. apply map_eq. intros k.
  rewrite (foldl_copy_lookup (fun _ => true)), Hl, lookup_empty, be_view_lookup by done.
  by destruct (be_bkt b !! str k).
Qed.

Lemma be_put_all_spec l t m : NoDup l.*1 -> buckets t !! kvBucket = Some m ->
  match be_put_all t l with
  | (None, t') => exists m', buckets t' = <[kvBucket := m']> (buckets t) /\
      forall k, m' !! str k = match (list_to_map l : gmap string bytes) !! k with
                              | Some v => Some v | None => m !! str k end
  | (Some _, _) => True
  end.
Proof.
  revert t m. induction l as [|[k0 v0] l IH]; intros t m Hnd Hb; simpl.
  { exists m. by rewrite insert_id. }
  apply NoDup_cons in Hnd as [Hn Hnd].
  destruct (decide (put_ok (str k0) v0)) as [Hp|Hp].
  2:{ by destruct (bkt_Put_err _ _ _ _ _ Hb Hp) as [? ->]. }
  destruct (bkt_Put_spec _ _ _ _ _ Hb Hp) as (t1 & -> & Ht1).
  specialize (IH t1 (<[str k0 := v0]> m) Hnd).
  destruct (be_put_all t1 l) as [[e|] t2]; [done|].
  destruct IH as (m' & Hb' & Hm'); [by rewrite Ht1, lookup_insert_eq|].
  exists m'. split; [by rewrite Hb', Ht1, insert_insert_eq|]. intros k. rewrite Hm'.
  rewrite (lookup_insert (M := gmap string)). destruct (decide (k0 = k)) as [->|Hne].
  - by rewrite (not_elem_of_list_to_map_1 _ _ Hn), lookup_insert_eq.
  - rewrite lookup_insert_ne; [done|]. by intros ?%str_inj.
Qed.

Lemma be_Restore_spec b d : be_wf b ->
  match be_RestoreSnapshot b d with
  | (None, b') => be_wf b' /\ Unmarshal d = Some (be_view b')
  | (Some _, b') => be_wf b' /\ be_view b' = be_view b
  end.
Proof.
  intros Hwf. unfold be_RestoreSnapshot. destruct (Unmarshal d) as [m|] eqn:Eu; [|done].
  match goal with |- context [be_update b ?f] => pose proof (be_update_spec b f Hwf) as H end.
  destruct (be_update _ _) as [[err|] b']; [done|]. cbv beta in H.
  unfold be_wf in Hwf. rewrite <-write_tx_view in Hwf.
  destruct (tx_DeleteBucket_spec (write_tx (be_db b)) kvBucket) as (t1 & E1 & Ht1); [by eexists|].
  rewrite E1 in H. simpl in H.
  destruct (tx_CreateBucket_spec t1 kvBucket) as (t2 & E2 & Ht2);
    [done|by rewrite Ht1, lookup_delete_eq|].
  rewrite E2 in H.
  pose proof (be_put_all_spec (map_to_list m) t2 ∅ (NoDup_fst_map_to_list m)) as Hall.
  destruct (be_put_all t2 _) as [[e|] t3]; [by destruct H|]. destruct H as [_ H]. simpl in H.
  destruct Hall as (m' & Hb' & Hm'); [by rewrite Ht2, lookup_insert_eq|].
  rewrite Hb', Ht2, insert_insert_eq, Ht1, insert_delete_eq, write_tx_view in H.
  destruct (be_written _ _ _ H) as [? Hb]. split; [done|]. f_equal. apply map_eq. intros k.
  rewrite be_view_lookup, Hb, Hm', list_to_map_to_list, lookup_empty. by destruct (m !! k).
Qed.

#[export] Program Instance BoltEngine_laws : EngineLaws (BoltEngine B) := {|
  eng_wf := be_wf;
  eng_view := be_view
|}.
Next Obligation.
  intros b k Hwf. simpl. unfold be_Get. rewrite (bkt_Get_spec _ _ _ _ Hwf), be_view_lookup.
  by destruct (be_bkt b !! str k).
Qed.
Next Obligation. intros b k v. apply be_Put_spec. Qed.
Next Obligation. intros b k. apply be_Delete_spec. Qed.
Next Obligation. intros b p. apply be_Scan_spec. Qed.
Next Obligation. intros b. apply be_Snapshot_spec. Qed.
Next Obligation.
  intros b d Hb. simpl. pose proof (be_Restore_spec b d Hb) as H.
  destruct (be_RestoreSnapshot b d) as [[?|] ?]; [done|]. destruct H. split; [by left|done].
Qed.

End bolt_engine_laws.
