(* ===== verification/EngineCorrect.v ===== *)
(** * The storage engines are interchangeable

    Programs of engine calls, run on any two engines that keep the interface's
    promise: as long as no write fails they give the same answers, so the
    in-memory engine can stand for the bbolt engine and a snapshot of one can be
    restored into the other. *)

From S2P Require Import Prelude GoJson Types Bolt Storage.
Import Utf8 Json MapBolt.

Local Open Scope string_scope.
Local Open Scope go_scope.

(** ** Programs *)

Inductive EngOp :=
| EGet (k : string)
| EPut (k : string) (v : bytes)
| EDelete (k : string)
| EScan (p : string)
| ESnapshot
| ERestore (d : bytes).

Inductive EngResult :=
| RGet (r : error + bytes)
| RWrite (r : option error)
| RScan (r : error + gmap string bytes)
| RSnapshot (r : error + bytes).

Section programs.
Context {E : Type} {X : Engine E}.

Definition eng_op (o : EngOp) : M E EngResult := fun s =>
  match o with
  | EGet k => Done (RGet (eng_Get s k), s)
  | EPut k v =>
      match eng_Put s k v with
      | Done (err, s') => Done (RWrite err, s')
      | Panic p => Panic p
      end
  | EDelete k => let '(err, s') := eng_Delete s k in Done (RWrite err, s')
  | EScan p => Done (RScan (eng_Scan s p), s)
  | ESnapshot => Done (RSnapshot (eng_Snapshot s), s)
  | ERestore d => let '(err, s') := eng_RestoreSnapshot s d in Done (RWrite err, s')
  end.

Fixpoint eng_run (ops : list EngOp) : M E (list EngResult) :=
  match ops with
  | [] => ret []
  | o :: ops => r <- eng_op o ;; rs <- eng_run ops ;; ret (r :: rs)
  end.
End programs.

Definition failed (r : EngResult) : Prop := exists err, r = RWrite (Some err).

(** A program that does not restore the JSON null. *)
Definition no_null (o : EngOp) : Prop :=
  match o with ERestore d => is_null d = false | _ => True end.

(** ** What a call returns and leaves, in terms of the map *)

Section meaning.
Context {E : Type} {X : Engine E} {EL : EngineLaws E}.

Definition kv_op (m : gmap string bytes) (o : EngOp) : EngResult * gmap string bytes :=
  match o with
  | EGet k => (RGet match m !! k with Some v => inr v | None => inl ErrKeyNotFound end, m)
  | EPut k v => (RWrite None, <[k := v]> m)
  | EDelete k => (RWrite None, delete k m)
  | EScan p => (RScan (inr (filter (has_prefix p) m)), m)
  | ESnapshot => (RSnapshot (inr (Marshal m)), m)
  | ERestore d => (RWrite None, default m (Unmarshal d))
  end.

Lemma eng_op_spec (s : E) o : eng_wf s -> no_null o ->
  exists r s', eng_op o s = Done (r, s') /\ eng_wf s' /\
    (failed r \/ (r, eng_view s') = kv_op (eng_view s) o).
Proof.
  intros Hwf Hn. destruct o as [k|k v|k|p| |d]; unfold eng_op; cbn [no_null] in Hn.
  - eexists _, s. split; [reflexivity|]. split; [done|]. right. by rewrite (Get_law _ _ Hwf).
  - pose proof (Put_law s k v Hwf) as H. destruct (eng_Put s k v) as [[[err|] s']|]; [..|done];
      destruct H as [Hwf' Hv]; eexists _, s'; (split; [reflexivity|]; split; [done|]); [left; by eexists|].
    right. simpl. by rewrite Hv.
  - pose proof (Delete_law s k Hwf) as H. destruct (eng_Delete s k) as [[err|] s'];
      destruct H as [Hwf' Hv]; eexists _, s'; (split; [reflexivity|]; split; [done|]); [left; by eexists|].
    right. simpl. by rewrite Hv.
  - eexists _, s. split; [reflexivity|]. split; [done|]. right. by rewrite (Scan_law _ _ Hwf).
  - eexists _, s. split; [reflexivity|]. split; [done|]. right. by rewrite (Snapshot_law _ Hwf).
  - pose proof (Restore_law s d Hwf) as H. destruct (eng_RestoreSnapshot s d) as [[err|] s'];
      destruct H as [Hwf' Hv]; eexists _, s'; (split; [reflexivity|]).
    + split; [done|]. left. by eexists.
    + split; [destruct Hwf'; [done|congruence]|]. right. simpl. by rewrite Hv.
Qed.

Fixpoint kv_ops (m : gmap string bytes) (ops : list EngOp) : list EngResult * gmap string bytes :=
  match ops with
  | [] => ([], m)
  | o :: ops => let '(r, m1) := kv_op m o in let '(rs, m2) := kv_ops m1 ops in (r :: rs, m2)
  end.

Lemma eng_run_spec ops : forall s : E, eng_wf s -> Forall no_null ops ->
  exists rs s', eng_run ops s = Done (rs, s') /\ eng_wf s' /\
    (Exists failed rs \/ (rs, eng_view s') = kv_ops (eng_view s) ops).
Proof.
  induction ops as [|o ops IH]; intros s Hwf Hall; cbn [eng_run].
  { exists [], s. split; [done|]. split; [done|]. by right. }
  apply Forall_cons in Hall as [Ho Hall]. destruct (eng_op_spec s o Hwf Ho) as (r & s1 & Hr & Hwf1 & H1).
  destruct (IH s1 Hwf1 Hall) as (rs & s2 & Hrs & Hwf2 & H2). exists (r :: rs), s2.
  split; [unfold bind, ret; by rewrite Hr, Hrs|]. split; [done|].
  destruct H1 as [H1|H1]; [left; by constructor|]. destruct H2 as [H2|H2]; [left; by constructor 2|].
  right. cbn [kv_ops]. rewrite <-H1, <-H2. done.
Qed.
End meaning.

Lemma Marshal_map_not_null (m : gmap string bytes) : is_null (Marshal m) = false.
Proof.
  unfold is_null, Marshal. rewrite parse_print by (exact (@to_json_ok _ map_codec map_laws m I)).
  by cbn [to_json map_codec norm].
Qed.

(** ** Properties *)

(** C17: the engines agree.  An in-memory and a bbolt engine that hold the same map
    run every program of engine calls (that does not restore the JSON null)
    without panic, and unless some write failed they give the same results, call
    by call, and hold the same map at the end: the one the calls describe. *)
Theorem engines_agree {B : Bolt} {L : BoltLaws B} (m : MemoryEngine) (b : BoltEngine B) ops :
  eng_wf m -> eng_wf b -> eng_view m = eng_view b -> Forall no_null ops ->
  exists rs1 m' rs2 b', eng_run ops m = Done (rs1, m') /\ eng_run ops b = Done (rs2, b') /\
    (Exists failed rs1 \/ Exists failed rs2 \/
     (rs1 = rs2 /\ eng_view m' = eng_view b' /\ (rs1, eng_view m') = kv_ops (eng_view m) ops)).
Proof.
  intros Hm Hb Hv Hall.
  destruct (eng_run_spec ops m Hm Hall) as (rs1 & m' & H1 & _ & K1).
  destruct (eng_run_spec ops b Hb Hall) as (rs2 & b' & H2 & _ & K2).
  exists rs1, m', rs2, b'. split; [done|]. split; [done|].
  destruct K1 as [?|K1]; [by left|]. destruct K2 as [?|K2]; [right; by left|].
  right. right. rewrite <-Hv, <-K1 in K2. split; [exact (f_equal fst (eq_sym K2))|].
  split; [exact (f_equal snd (eq_sym K2))|exact K1].
Qed.

Definition fresh_bolt_engine : BoltEngine reliable_bolt :=
  match NewBoltEngine (B := reliable_bolt) (fun _ => None) (fun _ => inr (mkdb ∅ 0)) (str "data/kv.db") with
  | inr b => b
  | inl _ => mkBoltEngine (B := reliable_bolt) (mkdb ∅ 0)
  end.

Definition sample_program : list EngOp :=
  [EPut "x" (str "1"); EPut "xy" (str "2"); EDelete "x"; EGet "x"; EScan "x"; ESnapshot].

Lemma engines_agree_witness :
  exists rs1 m' rs2 b', eng_run sample_program NewMemoryEngine = Done (rs1, m') /\
    eng_run sample_program fresh_bolt_engine = Done (rs2, b') /\ rs1 = rs2.
Proof.
  destruct (engines_agree NewMemoryEngine fresh_bolt_engine sample_program)
    as (rs1 & m' & rs2 & b' & H1 & H2 & H).
  - by eexists.
  - by vm_compute.
  - by vm_compute.
  - repeat constructor.
  - exists rs1, m', rs2, b'. split; [exact H1|]. split; [exact H2|].
    assert (forall rs, rs = [RWrite None; RWrite None; RWrite None; RGet (inl ErrKeyNotFound);
      RScan (inr (<["xy" := str "2"]> ∅)); RSnapshot (inr (Marshal (<["xy" := str "2"]> ∅ : gmap string bytes)))] ->
      ~ Exists failed rs) as Hno.
    { intros rs ->. rewrite !Exists_cons, Exists_nil. unfold failed.
      intros [[? [=]]|[[? [=]]|[[? [=]]|[[? [=]]|[[? [=]]|[[? [=]]|[]]]]]]]. }
    destruct H as [H|[H|[H _]]]; [destruct (Hno rs1)|destruct (Hno rs2)|exact H]; try exact H.
    + assert (match eng_run sample_program NewMemoryEngine with Done (rs, _) => rs | Panic _ => [] end = rs1)
        as <- by by rewrite H1. by vm_compute.
    + assert (match eng_run sample_program fresh_bolt_engine with Done (rs, _) => rs | Panic _ => [] end = rs2)
        as <- by by rewrite H2. by vm_compute.
Defined.

(** C18: snapshots round trip.  A snapshot of an engine with UTF-8 keys, restored
    into any engine that accepts it, gives that engine exactly the same map and
    leaves it usable; the in-memory engine always accepts it. *)
Theorem snapshot_roundtrip {E1} {X1 : Engine E1} {L1 : EngineLaws E1}
    {E2} {X2 : Engine E2} {L2 : EngineLaws E2} (s1 : E1) (s2 s2' : E2) (m : MemoryEngine) d :
  eng_wf s1 -> eng_wf s2 -> (forall k, is_Some (eng_view s1 !! k) -> utf8_string k) ->
  eng_Snapshot s1 = inr d ->
  (eng_RestoreSnapshot s2 d = (None, s2') -> eng_wf s2' /\ eng_view s2' = eng_view s1) /\
  eng_RestoreSnapshot m d = (None, mkMemoryEngine (Some (eng_view s1))).
Proof.
  intros Hs1 Hs2 Hutf Hd. rewrite (Snapshot_law _ Hs1) in Hd. injection Hd as <-.
  assert (Unmarshal (Marshal (eng_view s1)) = Some (eng_view s1)) as Hu.
  { by rewrite Unmarshal_map, san_map_utf8. }
  split.
  - intros Hr. pose proof (Restore_law s2 (Marshal (eng_view s1)) Hs2) as H. rewrite Hr in H.
    destruct H as [[Hwf|Hn] Hv]; [|by rewrite Marshal_map_not_null in Hn]. split; [done|].
    rewrite Hu in Hv. by injection Hv.
  - cbn [eng_RestoreSnapshot MemoryEngine_engine]. unfold mem_RestoreSnapshot.
    by rewrite decode_map_Unmarshal, Hu, Marshal_map_not_null.
Qed.

Lemma snapshot_roundtrip_witness :
  let m := mkMemoryEngine (Some (<["x" := str "1"]> ∅)) in
  eng_RestoreSnapshot NewMemoryEngine (Marshal (<["x" := str "1"]> ∅ : gmap string bytes)) = (None, m).
Proof.
  intros m.
  destruct (snapshot_roundtrip (L1 := MemoryEngine_laws) (L2 := MemoryEngine_laws) m NewMemoryEngine m NewMemoryEngine
    (Marshal (<["x" := str "1"]> ∅ : gmap string bytes))) as [_ H].
  - by eexists.
  - by eexists.
  - intros k [v Hv]. change (<["x" := str "1"]> (∅ : gmap string bytes) !! k = Some v) in Hv.
    apply lookup_insert_Some in Hv as [[<- _]|[_ Hv]]; [by vm_compute|].
    by rewrite lookup_empty in Hv.
  - reflexivity.
  - exact H.
Defined.
