(* ===== verification/RaftNode.v ===== *)
(** * The Raft node (src/internal/consensus/raft.go)

    [RaftNode] is the struct guarded by [n.mu]; every critical section of the
    Go code is one computation of the monad [M RaftNode].  Code between two
    critical sections (an RPC, a wait on a channel) splits a function in
    several: [Propose], [startElection], [replicateToPeer] and [takeSnapshot]
    are given as the sections they consist of, with what they keep in local
    variables passed from one to the next.  Goroutines started with [go] are
    recorded in the node's list of tasks and run later, in any order. *)

From S2P Require Import Prelude GoJson Types Config Bolt RaftLog LeaderState Storage.
Import Utf8 Json.

Local Open Scope string_scope.
Local Open Scope go_scope.

(** A goroutine waiting to run. *)
Inductive Task :=
| TApply                                          (* go n.applyCommitted() *)
| TSnapshot (index : LogIndex) (term : Term)      (* go n.takeSnapshot(index, term) *)
| TReplicate (peer : Peer).                       (* go n.replicateToPeer(peer) *)

(** A [time.Timer]: running or not, a tick waiting in its channel, the duration
    of its last [Reset]. *)
Record Timer := mkTimer {
  tm_armed : bool;
  tm_tick : bool;
  tm_duration : Z
}.

Section raft_node.
Context {B : Bolt} {E : Type} {X : Engine E}.

Record RaftNode := mkNode {
  n_id : NodeID;
  n_peers : list Peer;
  n_raftLog : RaftLog B;
  n_currentTerm : Term;
  n_votedFor : NodeID;
  n_state : NodeState;
  n_commitIndex : LogIndex;
  n_lastApplied : LogIndex;
  n_leaderID : NodeID;
  n_leader : option leaderState;
  n_storage : E;
  n_electionTimer : option Timer;
  n_heartbeatTimer : option Timer;
  n_cfg : Config;
  n_stopped : bool;                          (* stopCh is closed *)
  n_pending : gmap LogIndex nat;             (* index -> channel *)
  n_snapshotData : bytes;
  (* what is outside the struct: the buffers of the pending channels, the
     goroutines that were started, the values math/rand will return *)
  n_chans : gmap nat (list (option error));
  n_tasks : list Task;
  n_rand : list Z
}.

Definition set_raftLog (v : RaftLog B) (n : RaftNode) : RaftNode :=
  mkNode (n_id n) (n_peers n) v (n_currentTerm n) (n_votedFor n) (n_state n) (n_commitIndex n)
    (n_lastApplied n) (n_leaderID n) (n_leader n) (n_storage n) (n_electionTimer n)
    (n_heartbeatTimer n) (n_cfg n) (n_stopped n) (n_pending n) (n_snapshotData n) (n_chans n)
    (n_tasks n) (n_rand n).
Definition set_currentTerm (v : Term) (n : RaftNode) : RaftNode :=
  mkNode (n_id n) (n_peers n) (n_raftLog n) v (n_votedFor n) (n_state n) (n_commitIndex n)
    (n_lastApplied n) (n_leaderID n) (n_leader n) (n_storage n) (n_electionTimer n)
    (n_heartbeatTimer n) (n_cfg n) (n_stopped n) (n_pending n) (n_snapshotData n) (n_chans n)
    (n_tasks n) (n_rand n).
Definition set_votedFor (v : NodeID) (n : RaftNode) : RaftNode :=
  mkNode (n_id n) (n_peers n) (n_raftLog n) (n_currentTerm n) v (n_state n) (n_commitIndex n)
    (n_lastApplied n) (n_leaderID n) (n_leader n) (n_storage n) (n_electionTimer n)
    (n_heartbeatTimer n) (n_cfg n) (n_stopped n) (n_pending n) (n_snapshotData n) (n_chans n)
    (n_tasks n) (n_rand n).
Definition set_state (v : NodeState) (n : RaftNode) : RaftNode :=
  mkNode (n_id n) (n_peers n) (n_raftLog n) (n_currentTerm n) (n_votedFor n) v (n_commitIndex n)
    (n_lastApplied n) (n_leaderID n) (n_leader n) (n_storage n) (n_electionTimer n)
    (n_heartbeatTimer n) (n_cfg n) (n_stopped n) (n_pending n) (n_snapshotData n) (n_chans n)
    (n_tasks n) (n_rand n).
Definition set_commitIndex (v : LogIndex) (n : RaftNode) : RaftNode :=
  mkNode (n_id n) (n_peers n) (n_raftLog n) (n_currentTerm n) (n_votedFor n) (n_state n) v
    (n_lastApplied n) (n_leaderID n) (n_leader n) (n_storage n) (n_electionTimer n)
    (n_heartbeatTimer n) (n_cfg n) (n_stopped n) (n_pending n) (n_snapshotData n) (n_chans n)
    (n_tasks n) (n_rand n).
Definition set_lastApplied (v : LogIndex) (n : RaftNode) : RaftNode :=
  mkNode (n_id n) (n_peers n) (n_raftLog n) (n_currentTerm n) (n_votedFor n) (n_state n)
    (n_commitIndex n) v (n_leaderID n) (n_leader n) (n_storage n) (n_electionTimer n)
    (n_heartbeatTimer n) (n_cfg n) (n_stopped n) (n_pending n) (n_snapshotData n) (n_chans n)
    (n_tasks n) (n_rand n).
Definition set_leaderID (v : NodeID) (n : RaftNode) : RaftNode :=
  mkNode (n_id n) (n_peers n) (n_raftLog n) (n_currentTerm n) (n_votedFor n) (n_state n)
    (n_commitIndex n) (n_lastApplied n) v (n_leader n) (n_storage n) (n_electionTimer n)
    (n_heartbeatTimer n) (n_cfg n) (n_stopped n) (n_pending n) (n_snapshotData n) (n_chans n)
    (n_tasks n) (n_rand n).
Definition set_leader (v : option leaderState) (n : RaftNode) : RaftNode :=
  mkNode (n_id n) (n_peers n) (n_raftLog n) (n_currentTerm n) (n_votedFor n) (n_state n)
    (n_commitIndex n) (n_lastApplied n) (n_leaderID n) v (n_storage n) (n_electionTimer n)
    (n_heartbeatTimer n) (n_cfg n) (n_stopped n) (n_pending n) (n_snapshotData n) (n_chans n)
    (n_tasks n) (n_rand n).
Definition set_storage (v : E) (n : RaftNode) : RaftNode :=
  mkNode (n_id n) (n_peers n) (n_raftLog n) (n_currentTerm n) (n_votedFor n) (n_state n)
    (n_commitIndex n) (n_lastApplied n) (n_leaderID n) (n_leader n) v (n_electionTimer n)
    (n_heartbeatTimer n) (n_cfg n) (n_stopped n) (n_pending n) (n_snapshotData n) (n_chans n)
    (n_tasks n) (n_rand n).
Definition set_electionTimer (v : option Timer) (n : RaftNode) : RaftNode :=
  mkNode (n_id n) (n_peers n) (n_raftLog n) (n_currentTerm n) (n_votedFor n) (n_state n)
    (n_commitIndex n) (n_lastApplied n) (n_leaderID n) (n_leader n) (n_storage n) v
    (n_heartbeatTimer n) (n_cfg n) (n_stopped n) (n_pending n) (n_snapshotData n) (n_chans n)
    (n_tasks n) (n_rand n).
Definition set_heartbeatTimer (v : option Timer) (n : RaftNode) : RaftNode :=
  mkNode (n_id n) (n_peers n) (n_raftLog n) (n_currentTerm n) (n_votedFor n) (n_state n)
    (n_commitIndex n) (n_lastApplied n) (n_leaderID n) (n_leader n) (n_storage n) (n_electionTimer n)
    v (n_cfg n) (n_stopped n) (n_pending n) (n_snapshotData n) (n_chans n)
    (n_tasks n) (n_rand n).
Definition set_stopped (v : bool) (n : RaftNode) : RaftNode :=
  mkNode (n_id n) (n_peers n) (n_raftLog n) (n_currentTerm n) (n_votedFor n) (n_state n)
    (n_commitIndex n) (n_lastApplied n) (n_leaderID n) (n_leader n) (n_storage n) (n_electionTimer n)
    (n_heartbeatTimer n) (n_cfg n) v (n_pending n) (n_snapshotData n) (n_chans n)
    (n_tasks n) (n_rand n).
Definition set_pending (v : gmap LogIndex nat) (n : RaftNode) : RaftNode :=
  mkNode (n_id n) (n_peers n) (n_raftLog n) (n_currentTerm n) (n_votedFor n) (n_state n)
    (n_commitIndex n) (n_lastApplied n) (n_leaderID n) (n_leader n) (n_storage n) (n_electionTimer n)
    (n_heartbeatTimer n) (n_cfg n) (n_stopped n) v (n_snapshotData n) (n_chans n)
    (n_tasks n) (n_rand n).
Definition set_snapshotData (v : bytes) (n : RaftNode) : RaftNode :=
  mkNode (n_id n) (n_peers n) (n_raftLog n) (n_currentTerm n) (n_votedFor n) (n_state n)
    (n_commitIndex n) (n_lastApplied n) (n_leaderID n) (n_leader n) (n_storage n) (n_electionTimer n)
    (n_heartbeatTimer n) (n_cfg n) (n_stopped n) (n_pending n) v (n_chans n)
    (n_tasks n) (n_rand n).
Definition set_chans (v : gmap nat (list (option error))) (n : RaftNode) : RaftNode :=
  mkNode (n_id n) (n_peers n) (n_raftLog n) (n_currentTerm n) (n_votedFor n) (n_state n)
    (n_commitIndex n) (n_lastApplied n) (n_leaderID n) (n_leader n) (n_storage n) (n_electionTimer n)
    (n_heartbeatTimer n) (n_cfg n) (n_stopped n) (n_pending n) (n_snapshotData n) v
    (n_tasks n) (n_rand n).
Definition set_tasks (v : list Task) (n : RaftNode) : RaftNode :=
  mkNode (n_id n) (n_peers n) (n_raftLog n) (n_currentTerm n) (n_votedFor n) (n_state n)
    (n_commitIndex n) (n_lastApplied n) (n_leaderID n) (n_leader n) (n_storage n) (n_electionTimer n)
    (n_heartbeatTimer n) (n_cfg n) (n_stopped n) (n_pending n) (n_snapshotData n) (n_chans n)
    v (n_rand n).
Definition set_rand (v : list Z) (n : RaftNode) : RaftNode :=
  mkNode (n_id n) (n_peers n) (n_raftLog n) (n_currentTerm n) (n_votedFor n) (n_state n)
    (n_commitIndex n) (n_lastApplied n) (n_leaderID n) (n_leader n) (n_storage n) (n_electionTimer n)
    (n_heartbeatTimer n) (n_cfg n) (n_stopped n) (n_pending n) (n_snapshotData n) (n_chans n)
    (n_tasks n) v.

Abbreviation Node A := (M RaftNode A) (only parsing).

(** [go f]. *)
Definition spawn (t : Task) : Node unit := modify (fun n => set_tasks (n_tasks n ++ [t]) n).

(** ** Timers *)

(** [rand.Intn n]: some number below [n]; it panics when [n <= 0]. *)
Definition rand_Intn (bound : Z) : Node Z :=
  if (bound <=? 0)%Z then throw PanicIntn
  else
    r <- gets (fun n => hd 0%Z (n_rand n)) ;;
    modify (fun n => set_rand (tl (n_rand n)) n) ;;
    ret (r mod bound)%Z.

Definition Millisecond : Z := 1000000.

(** [if !t.Stop() { drain t.C }] and [t.Reset(d)]. *)
Definition timer_restart (t : Timer) (d : Z) : Timer :=
  mkTimer true (if tm_armed t then tm_tick t else false) d.

(** [t.Stop()]. *)
Definition timer_stop (t : Timer) : Timer := mkTimer false (tm_tick t) (tm_duration t).

Definition resetElectionTimer : Node unit :=
  cfg <- gets (fun n => cfg_Raft (n_cfg n)) ;;
  let min := ElectionTimeoutMinMs cfg in
  let max := ElectionTimeoutMaxMs cfg in
  r <- rand_Intn (i64_wrap (max - min)) ;;
  let timeout := i64_wrap (i64_wrap (min + r) * Millisecond) in
  modify (fun n => set_electionTimer (Some
    match n_electionTimer n with
    | None => mkTimer true false timeout
    | Some t => timer_restart t timeout
    end) n).

Definition resetHeartbeatTimer : Node unit :=
  cfg <- gets (fun n => cfg_Raft (n_cfg n)) ;;
  let interval := i64_wrap (HeartbeatIntervalMs cfg * Millisecond) in
  modify (fun n => set_heartbeatTimer (Some
    match n_heartbeatTimer n with
    | None => mkTimer true false interval
    | Some t => timer_restart t interval
    end) n).

(** ** Calls of the log, with the node's handle updated *)

Definition log_op (f : RaftLog B -> outcome (option error * RaftLog B)) : Node (option error) := fun n =>
  match f (n_raftLog n) with
  | Done (err, rl) => Done (err, set_raftLog rl n)
  | Panic p => Panic p
  end.

Definition log_read {A} (f : RaftLog B -> outcome A) : Node A := fun n =>
  match f (n_raftLog n) with
  | Done x => Done (x, n)
  | Panic p => Panic p
  end.

Definition node_SaveMeta (term : Term) (votedFor : NodeID) : Node (option error) :=
  log_op (fun rl => SaveMeta rl term votedFor).
Definition node_Append (e : LogEntry) : Node (option error) := log_op (fun rl => Append rl e).
Definition node_TruncateFrom (i : LogIndex) : Node (option error) :=
  log_op (fun rl => TruncateFrom rl i).
Definition node_Compact (i : LogIndex) (t : Term) : Node (option error) :=
  log_op (fun rl => Compact rl i t).
Definition node_LastIndex : Node LogIndex := log_read log_LastIndex.
Definition node_LastTerm : Node Term := log_read log_LastTerm.
Definition node_TermAt (i : LogIndex) : Node Term := log_read (fun rl => log_TermAt rl i).
Definition node_Get (i : LogIndex) : Node (error + LogEntry) := log_read (fun rl => log_Get rl i).
Definition node_GetRange (from to : LogIndex) : Node (error + list LogEntry) :=
  log_read (fun rl => log_GetRange rl from to).

(** ** State transitions *)

Definition becomeFollower (term : Term) : Node unit :=
  modify (set_state Follower) ;;
  modify (set_currentTerm term) ;;
  modify (set_votedFor "") ;;
  modify (set_leader None) ;;
  _ <- node_SaveMeta term "" ;;
  resetElectionTimer.

Definition becomeLeader : Node unit :=
  st <- gets n_state ;;
  if negb (bool_decide (st = Candidate)) then ret tt
  else
    modify (set_state Leader) ;;
    modify (fun n => set_leaderID (n_id n) n) ;;
    last <- node_LastIndex ;;
    modify (fun n => set_leader (Some (newLeaderState (n_peers n) last)) n) ;;
    et <- gets n_electionTimer ;;
    match et with
    | None => throw PanicNilDeref
    | Some t =>
        modify (set_electionTimer (Some (timer_stop t))) ;;
        resetHeartbeatTimer ;;
        last <- node_LastIndex ;;
        term <- gets n_currentTerm ;;
        _ <- node_Append (mkLogEntry (last + 1)%u64 term (mkCommand OpNoop "" [] [])) ;;
        ret tt
    end.

(** ** AppendEntries *)

(** The search for the first index of the conflicting term; the fuel is the
    index the search starts from.  It reads the bucket the handler has just read
    the last index from, so the reads of [TermAt] find it. *)
Fixpoint conflict_loop (fuel : nat) (rl : RaftLog B) (prevTerm : Term) (ci : LogIndex) : LogIndex :=
  match fuel with
  | O => ci
  | S f =>
      if ((SnapshotIndex rl + 1)%u64 <? ci)%N then
        if negb (TermAt rl (ci - 1)%u64 =? prevTerm)%N then ci
        else conflict_loop f rl prevTerm (ci - 1)%u64
      else ci
  end.

(** Rules 3 and 4: the loop over [req.Entries].  It returns [false] when the
    handler returns early because the log reported an error. *)
Fixpoint append_loop (idx : LogIndex) (entries : list LogEntry) : Node bool :=
  match entries with
  | [] => ret true
  | entry :: entries' =>
      existingTerm <- node_TermAt idx ;;
      ok <- (if negb (existingTerm =? 0)%N && negb (existingTerm =? le_Term entry)%N then
               err <- node_TruncateFrom idx ;;
               ret (bool_decide (err = None))
             else ret true) ;;
      if negb ok then ret false
      else
        ok <- (if (existingTerm =? 0)%N then
                 err <- node_Append entry ;;
                 ret (bool_decide (err = None))
               else ret true) ;;
        if negb ok then ret false
        else append_loop (idx + 1)%u64 entries'
  end.

(** Rule 5. *)
Definition advance_commit (req : AppendEntriesRequest) : Node unit :=
  commit <- gets n_commitIndex ;;
  if (commit <? ae_LeaderCommit req)%N then
    let lastNew := (ae_PrevLogIndex req + N.of_nat (length (ae_Entries req)))%u64 in
    let newCommit := if (lastNew <? ae_LeaderCommit req)%N then lastNew else ae_LeaderCommit req in
    if (commit <? newCommit)%N then
      modify (set_commitIndex newCommit) ;;
      spawn TApply
    else ret tt
  else ret tt.

(** Rules 3 to 5 and the successful reply. *)
Definition append_accept (req : AppendEntriesRequest) (term : Term) : Node AppendEntriesResponse :=
  id <- gets n_id ;;
  ok <- append_loop (ae_PrevLogIndex req + 1)%u64 (ae_Entries req) ;;
  if negb ok then ret (mkAEResp term false id 0 0 0)
  else
    advance_commit req ;;
    last <- node_LastIndex ;;
    ret (mkAEResp term true id last 0 0).

Definition HandleAppendEntries (req : AppendEntriesRequest) : Node AppendEntriesResponse :=
  id <- gets n_id ;;
  current <- gets n_currentTerm ;;
  if (ae_Term req <? current)%N then ret (mkAEResp current false id 0 0 0)
  else
    resetElectionTimer ;;
    when (current <? ae_Term req)%N (becomeFollower (ae_Term req)) ;;
    term <- gets n_currentTerm ;;
    modify (set_leaderID (ae_LeaderID req)) ;;
    if (0 <? ae_PrevLogIndex req)%N then
      lastIndex <- node_LastIndex ;;
      if (lastIndex <? ae_PrevLogIndex req)%N then
        ret (mkAEResp term false id 0 (lastIndex + 1)%u64 0)
      else
        prevTerm <- node_TermAt (ae_PrevLogIndex req) ;;
        if negb (prevTerm =? ae_PrevLogTerm req)%N then
          rl <- gets n_raftLog ;;
          let ci := conflict_loop (N.to_nat (ae_PrevLogIndex req)) rl prevTerm (ae_PrevLogIndex req) in
          ret (mkAEResp term false id 0 ci prevTerm)
        else append_accept req term
    else append_accept req term.

(** ** RequestVote *)

Definition HandleRequestVote (req : RequestVoteRequest) : Node RequestVoteResponse :=
  id <- gets n_id ;;
  current <- gets n_currentTerm ;;
  if (rv_Term req <? current)%N then ret (mkRVResp current false id)
  else
    when (current <? rv_Term req)%N (becomeFollower (rv_Term req)) ;;
    term <- gets n_currentTerm ;;
    votedFor <- gets n_votedFor ;;
    if bool_decide (votedFor <> "") && bool_decide (votedFor <> rv_CandidateID req)
    then ret (mkRVResp term false id)
    else
      myLastIndex <- node_LastIndex ;;
      myLastTerm <- node_LastTerm ;;
      let candidateUpToDate :=
        (myLastTerm <? rv_LastLogTerm req)%N ||
        ((rv_LastLogTerm req =? myLastTerm)%N && (myLastIndex <=? rv_LastLogIndex req)%N) in
      if negb candidateUpToDate then ret (mkRVResp term false id)
      else
        modify (set_votedFor (rv_CandidateID req)) ;;
        _ <- node_SaveMeta term (rv_CandidateID req) ;;
        resetElectionTimer ;;
        ret (mkRVResp term true id).

(** ** InstallSnapshot *)

Definition HandleInstallSnapshot (req : InstallSnapshotRequest) : Node InstallSnapshotResponse :=
  id <- gets n_id ;;
  current <- gets n_currentTerm ;;
  let fail := mkISResp current id false in
  if (is_Term req <? current)%N then ret fail
  else
    when (current <? is_Term req)%N (becomeFollower (is_Term req)) ;;
    resetElectionTimer ;;
    modify (set_leaderID (is_LeaderID req)) ;;
    st <- gets n_storage ;;
    let '(err, st) := eng_RestoreSnapshot st (is_Data req) in
    modify (set_storage st) ;;
    if bool_decide (err <> None) then ret fail
    else
      err <- node_Compact (is_LastIncludedIndex req) (is_LastIncludedTerm req) ;;
      if bool_decide (err <> None) then ret fail
      else
        modify (set_commitIndex (is_LastIncludedIndex req)) ;;
        modify (set_lastApplied (is_LastIncludedIndex req)) ;;
        modify (set_snapshotData (is_Data req)) ;;
        ret (mkISResp current id true).

(** ** Elections *)

(** The local variables of [startElection]: the request, the vote counter, the
    quorum, whether [wonCh] holds a value, and the goroutines still waiting for
    their reply. *)
Record Election := mkElection {
  el_req : RequestVoteRequest;
  el_votes : nat;
  el_quorum : nat;
  el_won : bool;
  el_waiting : list Peer
}.

(** [len(peers)/2 + 1]. *)
Definition election_quorum (peers : list Peer) : nat := (length peers / 2 + 1)%nat.

(** The first critical section, and the set-up of the vote collection. *)
Definition startElection_begin : Node Election :=
  modify (set_state Candidate) ;;
  modify (fun n => set_currentTerm (n_currentTerm n + 1)%u64 n) ;;
  modify (fun n => set_votedFor (n_id n) n) ;;
  term <- gets n_currentTerm ;;
  id <- gets n_id ;;
  _ <- node_SaveMeta term id ;;
  resetElectionTimer ;;
  lastIndex <- node_LastIndex ;;
  lastTerm <- node_LastTerm ;;
  peers <- gets n_peers ;;
  ret (mkElection (mkRVReq term id lastIndex lastTerm) 1 (election_quorum peers) false peers).

Fixpoint remove_one (p : Peer) (l : list Peer) : list Peer :=
  match l with
  | [] => []
  | q :: l => if bool_decide (q = p) then l else q :: remove_one p l
  end.

(** The goroutine of [peer] once its RPC has returned: the critical section on
    [n.mu], and then the one on [voteMu], which touches only local variables. *)
Definition startElection_reply (el : Election) (peer : Peer)
    (reply : error + RequestVoteResponse) : Node Election :=
  let waiting := remove_one peer (el_waiting el) in
  let el' := mkElection (el_req el) (el_votes el) (el_quorum el) (el_won el) waiting in
  match reply with
  | inl _ => ret el'
  | inr resp =>
      current <- gets n_currentTerm ;;
      if (current <? rvr_Term resp)%N then
        becomeFollower (rvr_Term resp) ;;
        ret el'
      else if negb (rvr_VoteGranted resp) then ret el'
      else
        let votes := S (el_votes el) in
        ret (mkElection (el_req el) votes (el_quorum el)
              (if (el_quorum el <=? votes)%nat then true else el_won el) waiting)
  end.

(** After [wg.Wait()]. *)
Definition startElection_end (el : Election) : Node unit :=
  if el_won el then becomeLeader else ret tt.

(** An election whose peers answer in the order of [n.peers]. *)
Fixpoint collect_votes (el : Election) (peers : list Peer)
    (reply : Peer -> error + RequestVoteResponse) : Node Election :=
  match peers with
  | [] => ret el
  | p :: ps => el <- startElection_reply el p (reply p) ;; collect_votes el ps reply
  end.

Definition startElection (reply : Peer -> error + RequestVoteResponse) : Node unit :=
  el <- startElection_begin ;;
  el <- collect_votes el (el_waiting el) reply ;;
  startElection_end el.

(** ** Replication *)

Definition broadcastAppendEntries : Node unit :=
  st <- gets n_state ;;
  if negb (bool_decide (st = Leader)) then ret tt
  else
    peers <- gets n_peers ;;
    modify (fun n => set_tasks (n_tasks n ++ (TReplicate <$> peers)) n).

(** What the first critical section of [replicateToPeer] decides to send. *)
Inductive Call :=
| CallSnapshot (snapshotIdx : LogIndex) (req : InstallSnapshotRequest)
| CallAppend (req : AppendEntriesRequest).

(** A map read with Go's zero value for a missing key. *)
Definition map_get (m : gmap NodeID LogIndex) (k : NodeID) : LogIndex := default 0%N (m !! k).

(** [n.leader], dereferenced. *)
Definition the_leader : Node leaderState :=
  l <- gets n_leader ;;
  match l with
  | None => throw PanicNilDeref
  | Some ls => ret ls
  end.

Definition replicateToPeer_prepare (peer : Peer) : Node (option Call) :=
  st <- gets n_state ;;
  if negb (bool_decide (st = Leader)) then ret None
  else
    ls <- the_leader ;;
    let nextIdx := map_get (nextIndex ls) (peer_ID peer) in
    rl <- gets n_raftLog ;;
    let snapshotIdx := SnapshotIndex rl in
    n <- get ;;
    if (nextIdx <=? snapshotIdx)%N then
      ret (Some (CallSnapshot snapshotIdx
        (mkISReq (n_currentTerm n) (n_id n) snapshotIdx (SnapshotTerm rl) (n_snapshotData n))))
    else
      let prevLogIndex := (nextIdx - 1)%u64 in
      prevLogTerm <- node_TermAt prevLogIndex ;;
      lastIndex <- node_LastIndex ;;
      entries <- (if (nextIdx <=? lastIndex)%N then node_GetRange nextIdx lastIndex else ret (inr [])) ;;
      match entries with
      | inl _ => ret None
      | inr entries =>
          ret (Some (CallAppend (mkAEReq (n_currentTerm n) (n_id n) prevLogIndex prevLogTerm
            entries (n_commitIndex n))))
      end.

(** The second critical section, after [InstallSnapshot]. *)
Definition replicateToPeer_snapshot_reply (peer : Peer) (snapshotIdx : LogIndex)
    (reply : error + InstallSnapshotResponse) : Node unit :=
  match reply with
  | inl _ => ret tt
  | inr resp =>
      current <- gets n_currentTerm ;;
      if (current <? isr_Term resp)%N then becomeFollower (isr_Term resp)
      else if isr_Success resp then
        ls <- the_leader ;;
        modify (set_leader (Some (mkLeaderState
          (<[peer_ID peer := (snapshotIdx + 1)%u64]> (nextIndex ls))
          (<[peer_ID peer := snapshotIdx]> (matchIndex ls)))))
      else ret tt
  end.

(** The second critical section, after [AppendEntries]. *)
Definition replicateToPeer_append_reply (peer : Peer) (reply : error + AppendEntriesResponse)
    : Node unit :=
  match reply with
  | inl _ => ret tt
  | inr resp =>
      st <- gets n_state ;;
      if negb (bool_decide (st = Leader)) then ret tt
      else
        current <- gets n_currentTerm ;;
        if (current <? aer_Term resp)%N then becomeFollower (aer_Term resp)
        else
          ls <- the_leader ;;
          if aer_Success resp then
            let old := map_get (matchIndex ls) (peer_ID peer) in
            let match' := if (old <? aer_MatchIndex resp)%N
                          then <[peer_ID peer := aer_MatchIndex resp]> (matchIndex ls)
                          else matchIndex ls in
            let ls' := mkLeaderState
              (<[peer_ID peer := (map_get match' (peer_ID peer) + 1)%u64]> (nextIndex ls)) match' in
            modify (set_leader (Some ls')) ;;
            last <- node_LastIndex ;;
            n <- get ;;
            let newCommit := commitCandidate ls' (n_commitIndex n) last
              (n_currentTerm n) (TermAt (n_raftLog n)) in
            if (0 <? newCommit)%N then
              modify (set_commitIndex newCommit) ;;
              spawn TApply
            else ret tt
          else
            let next := map_get (nextIndex ls) (peer_ID peer) in
            if (0 <? aer_ConflictIndex resp)%N then
              modify (set_leader (Some (mkLeaderState
                (<[peer_ID peer := aer_ConflictIndex resp]> (nextIndex ls)) (matchIndex ls))))
            else if (1 <? next)%N then
              modify (set_leader (Some (mkLeaderState
                (<[peer_ID peer := (next - 1)%u64]> (nextIndex ls)) (matchIndex ls))))
            else ret tt
  end.

(** ** Applying committed entries *)

(** A call of the storage engine, with the node's handle updated. *)
Definition storage_op (f : E -> outcome (option error * E)) : Node (option error) := fun n =>
  match f (n_storage n) with
  | Done (err, st) => Done (err, set_storage st n)
  | Panic p => Panic p
  end.

Definition applyCommand (cmd : Command) : Node (option error) :=
  if bool_decide (cmd_Op cmd = OpNoop) then ret None
  else if bool_decide (cmd_Op cmd = OpPut) then
    storage_op (fun st => eng_Put st (cmd_Key cmd) (cmd_Value cmd))
  else if bool_decide (cmd_Op cmd = OpDelete) then
    storage_op (fun st => Done (eng_Delete st (cmd_Key cmd)))
  else if bool_decide (cmd_Op cmd = OpCAS) then
    existing <- gets (fun n => eng_Get (n_storage n) (cmd_Key cmd)) ;;
    match (match existing with
           | inr v => inr v
           | inl err => if bool_decide (err = ErrKeyNotFound) then inr [] else inl err
           end) with
    | inl err => ret (Some err)
    | inr existing =>
        if negb (bool_decide (existing = cmd_PrevValue cmd)) then
          ret (Some (Errorf "CAS failed: value mismatch"))
        else storage_op (fun st => eng_Put st (cmd_Key cmd) (cmd_Value cmd))
    end
  else ret (Some (Errorf ("unknown op: " ++ cmd_Op cmd))).

(** [ch <- err] on a channel of capacity one: it blocks, with the lock held,
    when the buffer is full. *)
Definition chan_send (ch : nat) (err : option error) : Node unit :=
  chans <- gets n_chans ;;
  match default [] (chans !! ch) with
  | [] => modify (set_chans (<[ch := [err]]> chans))
  | _ => throw PanicBlocked
  end.

(** Unblock a waiting [Propose] if one registered for this index. *)
Definition notify_pending (index : LogIndex) (err : option error) : Node unit :=
  pending <- gets n_pending ;;
  match pending !! index with
  | None => ret tt
  | Some ch =>
      chan_send ch err ;;
      modify (fun n => set_pending (delete index (n_pending n)) n)
  end.

(** [int(x)] of a [uint64]. *)
Definition int_of_u64 (x : N) : Z := i64_wrap (Z.of_N x).

Fixpoint apply_loop (fuel : nat) : Node unit :=
  match fuel with
  | O => ret tt
  | S f =>
      n <- get ;;
      if (n_lastApplied n <? n_commitIndex n)%N then
        let index := (n_lastApplied n + 1)%u64 in
        modify (set_lastApplied index) ;;
        got <- node_Get index ;;
        match got with
        | inl _ => ret tt
        | inr entry =>
            applyErr <- applyCommand (le_Command entry) ;;
            notify_pending index applyErr ;;
            n <- get ;;
            when (SnapshotThreshold (cfg_Raft (n_cfg n))
                    <=? int_of_u64 (n_lastApplied n - SnapshotIndex (n_raftLog n))%u64)%Z
              (spawn (TSnapshot (n_lastApplied n) (le_Term entry))) ;;
            apply_loop f
        end
      else ret tt
  end.

(** The fuel is the number of entries to apply. *)
Definition applyCommitted : Node unit :=
  n <- get ;; apply_loop (N.to_nat (n_commitIndex n - n_lastApplied n)).

(** ** Snapshots *)

(** [n.storage.Snapshot()], which runs without the node's lock. *)
Definition takeSnapshot_data : Node (error + bytes) := gets (fun n => eng_Snapshot (n_storage n)).

(** The critical section that compacts the log. *)
Definition takeSnapshot_commit (index : LogIndex) (term : Term) (data : error + bytes) : Node unit :=
  match data with
  | inl _ => ret tt
  | inr data =>
      err <- node_Compact index term ;;
      if bool_decide (err <> None) then ret tt
      else modify (set_snapshotData data)
  end.

(** ** The client interface *)

(** Channel identifiers are never reused. *)
Definition fresh_chan (n : RaftNode) : nat := fresh (dom (n_chans n)).

(** The first critical section of [Propose]: the log index and the channel to
    wait on.  [broadcastAppendEntries] follows. *)
Definition Propose_begin (cmd : Command) : Node (error + (LogIndex * nat)) :=
  n <- get ;;
  if negb (bool_decide (n_state n = Leader)) then ret (inl (NotLeaderError (n_leaderID n)))
  else
    last <- node_LastIndex ;;
    let index := (last + 1)%u64 in
    err <- node_Append (mkLogEntry index (n_currentTerm n) cmd) ;;
    match err with
    | Some err => ret (inl (Wrapf "appending to log" err))
    | None =>
        let ch := fresh_chan n in
        modify (fun n => set_chans (<[ch := []]> (n_chans n)) n) ;;
        modify (fun n => set_pending (<[index := ch]> (n_pending n)) n) ;;
        ret (inr (index, ch))
    end.

(** The case of the [select] that fires. *)
Inductive Wakeup :=
| WDone                      (* a value on doneCh *)
| WCtx (err : error)         (* the context ended *)
| WStopped.                  (* stopCh was closed *)

Definition wakeup_enabled (n : RaftNode) (ch : nat) (w : Wakeup) : bool :=
  match w with
  | WDone => negb (bool_decide (default [] (n_chans n !! ch) = []))
  | WCtx _ => true
  | WStopped => n_stopped n
  end.

Definition Propose_end (index : LogIndex) (ch : nat) (w : Wakeup) : Node (option error) :=
  match w with
  | WDone =>
      chans <- gets n_chans ;;
      match default [] (chans !! ch) with
      | err :: buf => modify (set_chans (<[ch := buf]> chans)) ;; ret err
      | [] => throw PanicBlocked
      end
  | WCtx err =>
      modify (fun n => set_pending (delete index (n_pending n)) n) ;;
      ret (Some err)
  | WStopped => ret (Some (Errorf "node stopped"))
  end.

(** [Propose], with [others] standing for what the other goroutines do while it
    waits. *)
Definition Propose (cmd : Command) (others : Node unit) (w : Wakeup) : Node (option error) :=
  r <- Propose_begin cmd ;;
  match r with
  | inl err => ret (Some err)
  | inr (index, ch) =>
      broadcastAppendEntries ;;
      others ;;
      Propose_end index ch w
  end.

Definition IsLeader (n : RaftNode) : bool := bool_decide (n_state n = Leader).
Definition LeaderID (n : RaftNode) : NodeID := n_leaderID n.
Definition ID (n : RaftNode) : NodeID := n_id n.
Definition node_SnapshotData (n : RaftNode) : bytes := n_snapshotData n.
Definition node_SnapshotIndex (n : RaftNode) : N := SnapshotIndex (n_raftLog n).
Definition node_CommitIndex (n : RaftNode) : N := n_commitIndex n.
Definition node_LastApplied (n : RaftNode) : N := n_lastApplied n.

(** ** Life cycle *)

(** [NewRaftNode], over the file system; [rand] is what [math/rand] will
    return.  The transport is not a field: the RPCs' replies are arguments of
    the sections that follow them. *)
Definition NewRaftNode (mkdirAll : bytes -> option error) (bolt_Open : bytes -> error + bolt_DB)
    (cfg : Config) (store : E) (rand : list Z) : error + RaftNode :=
  let peers := (fun p => mkPeer (nc_ID p) (nc_Addr p)) <$> cfg_Peers cfg in
  let logPath := str (sc_DataDir (cfg_Storage cfg) ++ "/raft.db") in
  match newRaftLog mkdirAll bolt_Open logPath with
  | inl err => inl (Wrapf "opening raft log" err)
  | inr rl =>
      match LoadMeta rl with
      | inl err => inl (Wrapf "loading raft meta" err)
      | inr (term, votedFor) =>
          inr (mkNode (nc_ID (cfg_Node cfg)) peers rl term votedFor Follower 0 0 "" None store
            None None cfg false ∅ [] ∅ [] rand)
      end
  end.

Definition Start : Node unit := resetElectionTimer.

(** [Stop]; the wait for the event loop before the log is closed is not shown. *)
Definition Stop : Node unit :=
  stopped <- gets n_stopped ;;
  if stopped then throw PanicClosedChan
  else
    modify (set_stopped true) ;;
    modify (fun n => set_electionTimer (timer_stop <$> n_electionTimer n) n) ;;
    modify (fun n => set_heartbeatTimer (timer_stop <$> n_heartbeatTimer n) n) ;;
    _ <- gets (fun n => Close (n_raftLog n)) ;;
    ret tt.

(** ** The event loop: one turn of the [select] of [run] *)

(** The channel of a timer has a tick: one is waiting, or it runs and fires now. *)
Definition timer_ready (t : option Timer) : bool :=
  match t with Some t => tm_armed t || tm_tick t | None => false end.

(** A tick of the election timer, received; [true] means that [startElection] follows. *)
Definition run_election_tick : Node bool :=
  modify (fun n => set_electionTimer
    ((fun t => mkTimer false false (tm_duration t)) <$> n_electionTimer n) n) ;;
  st <- gets n_state ;;
  if negb (bool_decide (st = Leader)) then ret true
  else resetElectionTimer ;; ret false.

(** A tick of the heartbeat timer, received; [true] means that [broadcastAppendEntries]
    follows. *)
Definition run_heartbeat_tick : Node bool :=
  modify (fun n => set_heartbeatTimer
    ((fun t => mkTimer false false (tm_duration t)) <$> n_heartbeatTimer n) n) ;;
  st <- gets n_state ;;
  if bool_decide (st = Leader) then
    resetHeartbeatTimer ;;
    ret true
  else ret false.

End raft_node.

Arguments RaftNode B E : clear implicits.
