(* ===== verification/RaftNodeSpec.v ===== *)
(** * What the operations of a Raft node do to its persistent state

    The invariant [node_inv] of a running node and the effect of every critical
    section on the part of the state elections depend on: the term, the vote
    and the role, and their copy on disk.  The lemmas are weakest preconditions,
    so each one also says that the operation does not panic, or with what: [wpe]
    is used where the log deletes entries through a cursor. *)

From S2P Require Import Prelude GoJson Types Config Bolt RaftLog LeaderState Storage RaftNode.

Local Open Scope string_scope.

Section node_spec.
Context {B : Bolt} {L : BoltLaws B} {E : Type} {X : Engine E}.
Implicit Types n : RaftNode B E.

(** ** Timers *)

(** The election timer is restarted with a duration in [[min, max)]. *)
Lemma wp_resetElectionTimer n (Q : unit -> RaftNode B E -> Prop) :
  timers_ok (n_cfg n) ->
  (forall t r, tm_armed t = true -> Q tt (set_electionTimer (Some t) (set_rand r n))) ->
  wp resetElectionTimer Q n.
Proof.
  unfold timers_ok. intros Ht HQ. unfold resetElectionTimer, rand_Intn. wp_steps.
  - bool_props. lia.
  - apply HQ. by destruct (n_electionTimer n).
Qed.

Lemma wp_resetHeartbeatTimer n (Q : unit -> RaftNode B E -> Prop) :
  (forall t, Q tt (set_heartbeatTimer (Some t) n)) -> wp resetHeartbeatTimer Q n.
Proof. intros HQ. unfold resetHeartbeatTimer. wp_steps. apply HQ. Qed.

(** ** The invariant *)

Definition pv n : Term * NodeID * NodeState := (n_currentTerm n, n_votedFor n, n_state n).

(** The term and the vote are the ones on disk. *)
Definition durable n : Prop := LoadMeta (n_raftLog n) = inr (n_currentTerm n, n_votedFor n).

(** The metadata of [rl'] is what a call [SaveMeta t v] of a well-formed log left:
    the new record when it returned nil, the old one when it returned an error,
    which the node only logs. *)
Definition saved (t : Term) (v : NodeID) (rl' : RaftLog B) : Prop :=
  exists rl err rl1, log_wf rl /\ SaveMeta rl t v = Done (err, rl1) /\ LoadMeta rl' = LoadMeta rl1.

(** Every registered channel is empty, and no two indices share one. *)
Definition pending_ok (pending : gmap LogIndex nat) (chans : gmap nat (list (option error))) : Prop :=
  (forall i ch, pending !! i = Some ch -> chans !! ch = Some []) /\
  (forall i j ch, pending !! i = Some ch -> pending !! j = Some ch -> i = j).

Record node_inv n : Prop := {
  ni_log : log_wf (n_raftLog n);
  ni_timers : timers_ok (n_cfg n);
  ni_timer : is_Some (n_electionTimer n);
  ni_leader : n_state n = Leader -> is_Some (n_leader n);
  ni_term : u64_ok (n_currentTerm n);
  ni_commit : u64_ok (n_commitIndex n);
  ni_snapIndex : u64_ok (rl_snapshotIndex (n_raftLog n));
  ni_snapTerm : u64_ok (rl_snapshotTerm (n_raftLog n));
  ni_pending : pending_ok (n_pending n) (n_chans n)
}.

Record same_conf n n' : Prop := {
  sc_id : n_id n' = n_id n;
  sc_peers : n_peers n' = n_peers n;
  sc_cfg : n_cfg n' = n_cfg n
}.

(** Term, vote and role are left alone, on disk too. *)
Record quiet n n' : Prop := {
  q_conf : same_conf n n';
  q_pv : pv n' = pv n;
  q_meta : LoadMeta (n_raftLog n') = LoadMeta (n_raftLog n);
  q_inv : node_inv n'
}.

(** A step to [t] as a follower that has not voted. *)
Record stepped_down n (t : Term) n' : Prop := {
  sd_conf : same_conf n n';
  sd_pv : pv n' = (t, "", Follower);
  sd_meta : saved t "" (n_raftLog n');
  sd_inv : node_inv n'
}.

(** Either of them, the step only to a higher term. *)
Definition quiet_or_down n (t : Term) n' : Prop :=
  quiet n n' \/ ((n_currentTerm n < t)%N /\ stepped_down n t n').

Lemma same_conf_refl n : same_conf n n.
Proof. done. Qed.
Lemma same_conf_trans n1 n2 n3 : same_conf n1 n2 -> same_conf n2 n3 -> same_conf n1 n3.
Proof. intros [] []. split; congruence. Qed.
Lemma quiet_refl n : node_inv n -> quiet n n.
Proof. by split. Qed.
Lemma quiet_trans n1 n2 n3 : quiet n1 n2 -> quiet n2 n3 -> quiet n1 n3.
Proof. intros [] []. split; [by eapply same_conf_trans|congruence|congruence|done]. Qed.

Lemma saved_kept t v rl rl' : saved t v rl -> LoadMeta rl' = LoadMeta rl -> saved t v rl'.
Proof. intros (rl0 & err & rl1 & ? & ? & ?) Em. exists rl0, err, rl1. split_and!; [done|done|congruence]. Qed.

Lemma stepped_down_quiet n1 t n2 n3 : stepped_down n1 t n2 -> quiet n2 n3 -> stepped_down n1 t n3.
Proof.
  intros [] []. split; [by eapply same_conf_trans|congruence|by eapply saved_kept|done].
Qed.
Lemma quiet_stepped_down n1 t n2 n3 : quiet n1 n2 -> stepped_down n2 t n3 -> stepped_down n1 t n3.
Proof. intros [] []. split; [by eapply same_conf_trans|done..]. Qed.

Lemma quiet_quiet_or_down n1 t n2 n3 : quiet n1 n2 -> quiet_or_down n2 t n3 -> quiet_or_down n1 t n3.
Proof.
  intros Hq [H|[Hlt H]]; [left; by eapply quiet_trans|right].
  split; [|by eapply quiet_stepped_down]. by destruct Hq as [_ [= <- _ _] _ _].
Qed.

Lemma quiet_or_down_quiet n1 t n2 n3 : quiet_or_down n1 t n2 -> quiet n2 n3 -> quiet_or_down n1 t n3.
Proof.
  intros [H|[? H]] Hq; [left; by eapply quiet_trans|right; split; [done|]].
  by eapply stepped_down_quiet.
Qed.

Lemma quiet_or_down_inv n t n' : quiet_or_down n t n' -> node_inv n' /\ same_conf n n'.
Proof. intros [[]|[_ []]]; done. Qed.

(** An assignment to a field that no part of the invariant is about. *)
Ltac quiet_set := intros []; split; [done..|]; split; done.

Lemma quiet_timer n t r : node_inv n -> quiet n (set_electionTimer (Some t) (set_rand r n)).
Proof. quiet_set. Qed.
Lemma quiet_heartbeat n t : node_inv n -> quiet n (set_heartbeatTimer t n).
Proof. quiet_set. Qed.
Lemma quiet_leaderID n v : node_inv n -> quiet n (set_leaderID v n).
Proof. quiet_set. Qed.
Lemma quiet_tasks n v : node_inv n -> quiet n (set_tasks v n).
Proof. quiet_set. Qed.
Lemma quiet_storage n v : node_inv n -> quiet n (set_storage v n).
Proof. quiet_set. Qed.
Lemma quiet_commit n v : u64_ok v -> node_inv n -> quiet n (set_commitIndex v n).
Proof. intros ?. quiet_set. Qed.
Lemma quiet_applied n v : node_inv n -> quiet n (set_lastApplied v n).
Proof. quiet_set. Qed.
Lemma quiet_snapshotData n v : node_inv n -> quiet n (set_snapshotData v n).
Proof. quiet_set. Qed.
Lemma quiet_chans n c : pending_ok (n_pending n) c -> node_inv n -> quiet n (set_chans c n).
Proof. intros ?. quiet_set. Qed.
Lemma quiet_pending n p : pending_ok p (n_chans n) -> node_inv n -> quiet n (set_pending p n).
Proof. intros ?. quiet_set. Qed.
Lemma quiet_waiters n p c : pending_ok p c -> node_inv n ->
  quiet n (set_pending p (set_chans c n)).
Proof. intros ?. quiet_set. Qed.
Lemma quiet_leader n v : node_inv n -> quiet n (set_leader (Some v) n).
Proof. quiet_set. Qed.
Lemma quiet_stopped n v : node_inv n -> quiet n (set_stopped v n).
Proof. quiet_set. Qed.

(** ** Operations on the log *)

Lemma quiet_log n rl' : node_inv n -> log_wf rl' -> LoadMeta rl' = LoadMeta (n_raftLog n) ->
  rl_snapshotIndex rl' = rl_snapshotIndex (n_raftLog n) ->
  rl_snapshotTerm rl' = rl_snapshotTerm (n_raftLog n) -> quiet n (set_raftLog rl' n).
Proof.
  intros [] Hwf Hm Hi Ht. split; [done..|]. split; simpl; try done; congruence.
Qed.

Lemma quiet_same_log n rl' : node_inv n -> same_log (n_raftLog n) rl' -> quiet n (set_raftLog rl' n).
Proof.
  intros Hn Hs. pose proof (ni_log _ Hn) as Hwf. apply quiet_log; [done| | |apply Hs..].
  - by eapply same_log_wf.
  - by apply (same_log_reads _ _ Hs Hwf).
Qed.

Lemma quiet_kept n rl' : node_inv n -> log_wf rl' -> meta_kept (n_raftLog n) rl' ->
  quiet n (set_raftLog rl' n).
Proof.
  intros Hn Hwf Hk. apply quiet_log; [done..| |apply Hk|apply Hk].
  apply LoadMeta_kept; [apply Hn|done|done].
Qed.

Lemma wp_log_op f n (Q : option error -> RaftNode B E -> Prop) :
  match f (n_raftLog n) with Done (err, rl') => Q err (set_raftLog rl' n) | Panic _ => False end ->
  wp (log_op f) Q n.
Proof. unfold wp, log_op. by destruct (f (n_raftLog n)) as [[]|]. Qed.

Lemma wpe_log_op f n (Q : option error -> RaftNode B E -> Prop) R :
  match f (n_raftLog n) with Done (err, rl') => Q err (set_raftLog rl' n) | Panic p => R p end ->
  wpe (log_op f) Q R n.
Proof. unfold wpe, log_op. by destruct (f (n_raftLog n)) as [[]|]. Qed.

Lemma wp_Append n e (Q : option error -> RaftNode B E -> Prop) : node_inv n -> j_ok e ->
  (forall err rl', Append (n_raftLog n) e = Done (err, rl') -> quiet n (set_raftLog rl' n) ->
    Q err (set_raftLog rl' n)) ->
  wp (node_Append e) Q n.
Proof.
  intros Hn He HQ. apply wp_log_op. pose proof (Append_spec (n_raftLog n) e (ni_log _ Hn) He) as H.
  destruct (Append _ _) as [[[err|] rl']|p]; [| |done]; apply HQ; [done|by apply quiet_same_log|done|].
  destruct H as (? & ? & _). by apply quiet_kept.
Qed.

(** The panics of a truncation and of a compaction. *)
Definition truncate_panic (p : panic) : Prop :=
  exists (rl : RaftLog B) i, log_wf rl /\ u64_ok i /\ TruncateFrom rl i = Panic p.
Definition compact_panic (p : panic) : Prop :=
  exists (rl : RaftLog B) i t, log_wf rl /\ u64_ok i /\ u64_ok t /\ Compact rl i t = Panic p.

Lemma wpe_TruncateFrom n i (Q : option error -> RaftNode B E -> Prop) : node_inv n -> u64_ok i ->
  (forall err rl', TruncateFrom (n_raftLog n) i = Done (err, rl') -> quiet n (set_raftLog rl' n) ->
    Q err (set_raftLog rl' n)) ->
  wpe (node_TruncateFrom i) Q truncate_panic n.
Proof.
  intros Hn Hi HQ. apply wpe_log_op. pose proof (TruncateFrom_spec (n_raftLog n) i (ni_log _ Hn) Hi) as H.
  destruct (TruncateFrom _ _) as [[[err|] rl']|p] eqn:Et.
  - apply HQ; [done|]. by apply quiet_same_log.
  - apply HQ; [done|]. destruct H as (? & ? & _). by apply quiet_kept.
  - exists (n_raftLog n), i. split_and!; [apply Hn|done|done].
Qed.

Lemma wpe_Compact n i t (Q : option error -> RaftNode B E -> Prop) : node_inv n -> u64_ok i -> u64_ok t ->
  (forall err rl', Compact (n_raftLog n) i t = Done (err, rl') -> quiet n (set_raftLog rl' n) ->
    Q err (set_raftLog rl' n)) ->
  wpe (node_Compact i t) Q compact_panic n.
Proof.
  intros Hn Hi Ht HQ. apply wpe_log_op.
  pose proof (Compact_spec (n_raftLog n) i t (ni_log _ Hn) Hi Ht) as H.
  destruct (Compact _ _ _) as [[[err|] rl']|p] eqn:Et.
  - apply HQ; [done|]. by apply quiet_same_log.
  - apply HQ; [done|]. destruct H as (? & _ & _ & _ & ? & ? & ?). by apply quiet_log.
  - exists (n_raftLog n), i, t. split_and!; [apply Hn|done..].
Qed.

(** Reads of a well-formed log. *)
Lemma wp_log_read {A} (f : RaftLog B -> outcome A) x n (Q : A -> RaftNode B E -> Prop) :
  f (n_raftLog n) = Done x -> Q x n -> wp (log_read f) Q n.
Proof. unfold wp, log_read. by intros ->. Qed.

Lemma wp_LastIndex n (Q : LogIndex -> RaftNode B E -> Prop) : log_wf (n_raftLog n) ->
  Q (LastIndex (n_raftLog n)) n -> wp node_LastIndex Q n.
Proof. intros Hwf. apply wp_log_read. by apply log_LastIndex_done. Qed.

Lemma wp_LastTerm n (Q : Term -> RaftNode B E -> Prop) : log_wf (n_raftLog n) ->
  Q (LastTerm (n_raftLog n)) n -> wp node_LastTerm Q n.
Proof. intros Hwf. apply wp_log_read. by apply log_LastTerm_done. Qed.

Lemma wp_TermAt n i (Q : Term -> RaftNode B E -> Prop) : log_wf (n_raftLog n) ->
  Q (TermAt (n_raftLog n) i) n -> wp (node_TermAt i) Q n.
Proof. intros Hwf. apply wp_log_read. by apply log_TermAt_done. Qed.

Lemma wp_Get n i (Q : error + LogEntry -> RaftNode B E -> Prop) : log_wf (n_raftLog n) ->
  Q (Get (n_raftLog n) i) n -> wp (node_Get i) Q n.
Proof. intros Hwf. apply wp_log_read. by apply log_Get_done. Qed.

Lemma wp_GetRange n from to (Q : error + list LogEntry -> RaftNode B E -> Prop) : log_wf (n_raftLog n) ->
  Q (GetRange (n_raftLog n) from to) n -> wp (node_GetRange from to) Q n.
Proof. intros Hwf. apply wp_log_read. by apply log_GetRange_done. Qed.

Lemma LastIndex_ok n : node_inv n -> u64_ok (LastIndex (n_raftLog n)).
Proof.
  intros Hn. destruct (LastIndex_spec (n_raftLog n) (ni_log _ Hn)) as [(_ & ? & _)|[-> _]]; [done|].
  apply Hn.
Qed.

Lemma Get_ok rl i e : log_wf rl -> Get rl i = inr e -> j_ok e.
Proof.
  intros Hwf. rewrite Get_spec by done. unfold log_at.
  destruct (log_bkt rl !! indexKey i); simpl; [|done]. destruct (Unmarshal _) eqn:Eu; [|done].
  intros [= <-]. exact (Unmarshal_ok _ _ Eu).
Qed.

Lemma TermAt_ok n i : node_inv n -> u64_ok (TermAt (n_raftLog n) i).
Proof.
  intros Hn. unfold TermAt. repeat case_match; try done; [apply Hn|].
  match goal with H : Get _ _ = inr _ |- _ => by apply (Get_ok _ _ _ (ni_log _ Hn)) in H as [] end.
Qed.

Lemma LastTerm_ok n : node_inv n -> u64_ok (LastTerm (n_raftLog n)).
Proof.
  intros Hn. unfold LastTerm. repeat case_match; try done; try apply Hn.
  match goal with H : Get _ _ = inr _ |- _ => by apply (Get_ok _ _ _ (ni_log _ Hn)) in H as [] end.
Qed.

(** ** Operations that write the metadata

    The Go code only logs an error of [SaveMeta], so the lemmas say through [saved]
    what is on disk afterwards. *)

(** A node that can be voted for: its name survives the JSON of the metadata,
    fits in a bbolt value, and is not the empty string, which stands for no
    vote. *)
Definition id_ok (id : NodeID) : Prop := id <> "" /\ utf8_string id /\ short_id id.

Lemma wp_SaveMeta n t v (Q : option error -> RaftNode B E -> Prop) :
  log_wf (n_raftLog n) -> u64_ok t ->
  (forall err rl', SaveMeta (n_raftLog n) t v = Done (err, rl') -> log_wf rl' -> saved t v rl' ->
    log_bkt rl' = log_bkt (n_raftLog n) ->
    rl_snapshotIndex rl' = rl_snapshotIndex (n_raftLog n) ->
    rl_snapshotTerm rl' = rl_snapshotTerm (n_raftLog n) -> Q err (set_raftLog rl' n)) ->
  wp (node_SaveMeta t v) Q n.
Proof.
  intros Hwf Ht HQ. apply wp_log_op. pose proof (SaveMeta_spec (n_raftLog n) t v Hwf Ht) as H.
  assert (forall err rl', SaveMeta (n_raftLog n) t v = Done (err, rl') -> saved t v rl') as Hs.
  { intros err rl' E'. by exists (n_raftLog n), err, rl'. }
  destruct (SaveMeta _ _ _) as [[[err|] rl']|p]; [| |done]; apply HQ; try by eauto.
  - by eapply same_log_wf.
  - by apply same_log_bkt.
  - apply H.
  - apply H.
  - apply H.
  - apply H.
  - apply H.
  - apply H.
Qed.

(** Where commits do not fail, a saved record is on disk. *)
Lemma saved_durable `{!BoltReliable B} t v rl' : saved t v rl' -> u64_ok t -> short_id v ->
  utf8_string v -> LoadMeta rl' = inr (t, v).
Proof.
  intros (rl & err & rl1 & Hwf & Es & ->) Ht Hs Hu.
  destruct (SaveMeta_durable rl t v Hwf Ht Hs Hu) as (rl2 & E2 & _ & _ & Hl & _). congruence.
Qed.

(** The assignments of [becomeFollower] before it resets the timer. *)
Lemma wp_becomeFollower n t : node_inv n -> u64_ok t ->
  wp (becomeFollower t) (fun _ n' => stepped_down n t n' /\ n_leader n' = None) n.
Proof.
  intros Hn Ht. unfold becomeFollower. wp_steps.
  apply wp_SaveMeta; [apply Hn|done|]. simpl. intros err rl' _ ? ? _ ? ?.
  apply wp_resetElectionTimer; [apply Hn|]. intros tm r _. destruct Hn.
  split; [|done]. split; [done..|]. split; simpl; try done; congruence.
Qed.

Lemma wp_becomeFollower_when n (b : bool) t (Q : unit -> RaftNode B E -> Prop) :
  node_inv n -> u64_ok t -> (b = true -> n_currentTerm n < t)%N ->
  (forall n', quiet_or_down n t n' -> (b = false -> n' = n) -> (b = true -> stepped_down n t n') ->
    Q tt n') ->
  wp (when b (becomeFollower t)) Q n.
Proof.
  intros Hn Ht Hlt HQ. apply wp_when; intros ->.
  - eapply wp_mono; [by apply wp_becomeFollower|]. intros [] n' [Hd _]. apply HQ; [|done|done].
    right. auto.
  - apply HQ; [left; by apply quiet_refl|done|done].
Qed.

(** *** AppendEntries *)

(** One iteration, after the truncation. *)
Lemma wp_append_entry n e (b : bool) : node_inv n -> j_ok e ->
  wp (if b then err <- node_Append e ;; ret (bool_decide (err = None)) else ret true)%go
    (fun _ n' => quiet n n') n.
Proof.
  intros Hn He. destruct b; [|wp_step; by apply quiet_refl]. wp_step.
  apply wp_Append; [done..|]. intros err rl' _ Hq. by wp_step.
Qed.

Lemma wpe_append_loop entries : forall n idx, node_inv n -> u64_ok idx ->
  Forall (fun e => j_ok e) entries ->
  wpe (append_loop idx entries) (fun _ n' => quiet n n') truncate_panic n.
Proof.
  induction entries as [|e entries IH]; intros n idx Hn Hidx Hes; cbn [append_loop].
  { wp_step. by apply quiet_refl. }
  apply Forall_cons in Hes as [He Hes]. wp_step. apply wpe_wp, wp_TermAt; [apply Hn|].
  set (et := TermAt (n_raftLog n) idx). wp_step.
  assert (forall n1 ok, quiet n n1 -> wpe (
    if negb ok then ret false else
    ok <- (if (et =? 0)%N then
                 err <- node_Append e ;;
                 ret (bool_decide (err = None))
               else ret true) ;;
        if negb ok then ret false
        else append_loop (idx + 1)%u64 entries)%go (fun _ n' => quiet n n') truncate_panic n1) as Hrest.
  { intros n1 ok1 Hq1. wp_step; [by wp_step|]. wp_step.
    eapply wpe_mono; [apply wpe_wp, wp_append_entry; [apply Hq1|done]|]. intros ok n2 Hq2.
    pose proof (quiet_trans _ _ _ Hq1 Hq2) as Hq. cbv beta. wp_step; [by wp_step|].
    eapply wpe_mono; [apply IH; [apply Hq|apply u64_add_ok|done]|].
    intros ? n' ?. by eapply quiet_trans. }
  destruct (negb (et =? 0)%N && negb (et =? le_Term e)%N).
  - wp_step. apply wpe_TruncateFrom; [done..|]. intros err rl' _ Hq. wp_step. by apply Hrest.
  - wp_step. apply Hrest. by apply quiet_refl.
Qed.

Lemma wp_advance_commit n req : node_inv n -> j_ok req ->
  wp (advance_commit req) (fun _ n' => quiet n n') n.
Proof.
  intros Hn (? & ? & ? & ? & ?). unfold advance_commit, spawn. wp_steps; try by apply quiet_refl.
  eapply quiet_trans; [apply quiet_commit; [|done]|apply quiet_tasks].
  - case_match; [apply u64_add_ok|done].
  - apply quiet_commit; [|done]. case_match; [apply u64_add_ok|done].
Qed.

Lemma wpe_append_accept n req t : node_inv n -> j_ok req -> u64_ok t ->
  wpe (append_accept req t) (fun resp n' => quiet n n' /\ aer_Term resp = t /\ j_ok resp)
    truncate_panic n.
Proof.
  intros Hn Hreq Ht. unfold append_accept. wp_step. wp_step. wp_step.
  eapply wpe_mono.
  { apply (wpe_append_loop _ n); [done|apply u64_add_ok|apply Hreq]. }
  intros ok n1 Hq1. cbv beta. wp_step.
  { wp_step. split_and!; done. }
  wp_step. eapply wpe_mono; [apply wpe_wp, wp_advance_commit; [apply Hq1|done]|].
  intros [] n2 Hq2. cbv beta. wp_step. apply wpe_wp, wp_LastIndex; [apply Hq2|]. wp_step.
  split_and!; simpl; split_and?; try done; [exact (quiet_trans _ _ _ Hq1 Hq2)|]. apply LastIndex_ok, Hq2.
Qed.

Lemma conflict_loop_ok fuel rl t ci : u64_ok ci -> u64_ok (conflict_loop fuel rl t ci).
Proof.
  revert ci. induction fuel as [|f IH]; intros ci Hci; simpl; [done|].
  repeat case_match; try done. apply IH, u64_sub_ok.
Qed.

(** [HandleAppendEntries] panics only in a truncation; it keeps the term, vote and
    role, or steps down to a higher term; it answers with the term it ends in. *)
Lemma wpe_HandleAppendEntries n req : node_inv n -> j_ok req ->
  wpe (HandleAppendEntries req) (fun resp n' =>
    quiet_or_down n (ae_Term req) n' /\ aer_Term resp = n_currentTerm n' /\ j_ok resp)
    truncate_panic n.
Proof.
  intros Hn Hreq. unfold HandleAppendEntries. do 4 wp_step. wp_step.
  { wp_step. split; [left; by apply quiet_refl|]. split_and!; simpl; split_and?; try done. apply Hn. }
  wp_step. apply wpe_wp, wp_resetElectionTimer; [apply Hn|]. intros tm r _.
  pose proof (quiet_timer n tm r Hn) as Hq0. set (n0 := set_electionTimer _ _) in *.
  wp_step. apply wpe_wp, wp_becomeFollower_when; [apply Hq0|apply Hreq|by intros ?%N.ltb_lt|].
  intros n1 Hd _ _. pose proof (quiet_quiet_or_down _ _ _ _ Hq0 Hd) as Hd1.
  clear Hd Hq0. clearbody n0. do 4 wp_step.
  destruct (quiet_or_down_inv _ _ _ Hd1) as [Hn1 _].
  pose proof (quiet_leaderID n1 (ae_LeaderID req) Hn1) as Hq2.
  set (n2 := set_leaderID _ n1) in *.
  pose proof (quiet_or_down_quiet _ _ _ _ Hd1 Hq2) as Hd2.
  assert (n_currentTerm n1 = n_currentTerm n2) as -> by done. clearbody n2. clear n1 Hd1 Hn1 Hq2.
  destruct (quiet_or_down_inv _ _ _ Hd2) as [Hn2 _].
  assert (wpe (append_accept req (n_currentTerm n2)) (fun resp n' =>
    quiet_or_down n (ae_Term req) n' /\ aer_Term resp = n_currentTerm n' /\ j_ok resp)
    truncate_panic n2) as Hacc.
  { eapply wpe_mono; [apply wpe_append_accept; [done..|apply Hn2]|].
    intros resp n' (Hq & -> & ?). split_and!; [by eapply quiet_or_down_quiet| |done].
    by destruct Hq as [_ [= ? ? ?] _ _]. }
  pose proof (LastIndex_ok n2 Hn2). pose proof (ni_term _ Hn2). destruct Hreq as (? & ? & _).
  wp_step; [|exact Hacc]. wp_step. apply wpe_wp, wp_LastIndex; [apply Hn2|]. wp_step.
  { wp_step. split_and!; simpl; split_and?; try done. apply u64_add_ok. }
  wp_step. apply wpe_wp, wp_TermAt; [apply Hn2|]. wp_step; [|exact Hacc]. do 3 wp_step.
  split_and!; simpl; split_and?; try done; [by apply conflict_loop_ok|by apply TermAt_ok].
Qed.

(** *** RequestVote *)

(** The vote of [n'] was given to [cand] in term [t], from a state [n] that was
    free to give it. *)
Record voted_for n (t : Term) (cand : NodeID) n' : Prop := {
  vf_conf : same_conf n n';
  vf_inv : node_inv n';
  vf_term : n_currentTerm n' = t;
  vf_vote : n_votedFor n' = cand;
  vf_saved : exists rl err, SaveMeta rl t cand = Done (err, n_raftLog n');
  vf_meta : saved t cand (n_raftLog n');
  vf_free : ((n_currentTerm n < t)%N /\ n_state n' = Follower)
    \/ (n_currentTerm n = t /\ (n_votedFor n = "" \/ n_votedFor n = cand)
        /\ n_state n' = n_state n)
}.

Lemma wp_grant n cand : node_inv n ->
  wp (modify (set_votedFor cand) ;; _ <- node_SaveMeta (n_currentTerm n) cand ;;
      resetElectionTimer ;; ret (mkRVResp (n_currentTerm n) true (n_id n)))%go
    (fun resp n' => resp = mkRVResp (n_currentTerm n) true (n_id n) /\ same_conf n n' /\
      node_inv n' /\ pv n' = (n_currentTerm n, cand, n_state n) /\
      (exists err, SaveMeta (n_raftLog n) (n_currentTerm n) cand = Done (err, n_raftLog n'))) n.
Proof.
  intros Hn. wp_step. wp_step. wp_step.
  apply wp_SaveMeta; simpl; [apply Hn|apply Hn|]. intros err rl' Es ? _ _ ? ?.
  wp_step. apply wp_resetElectionTimer; [apply Hn|]. intros tm r _. wp_step.
  destruct Hn. split_and!; try done; [|by exists err]. split; simpl; try done; congruence.
Qed.

Lemma wp_HandleRequestVote n req : node_inv n -> j_ok req ->
  wp (HandleRequestVote req) (fun resp n' =>
    rvr_Term resp = n_currentTerm n' /\ node_inv n' /\
    (if rvr_VoteGranted resp then voted_for n (rv_Term req) (rv_CandidateID req) n'
     else quiet_or_down n (rv_Term req) n')) n.
Proof.
  intros Hn Hreq. unfold HandleRequestVote. do 4 wp_step. wp_step.
  { wp_step. split_and!; [done..|]. left. by apply quiet_refl. }
  wp_step. apply wp_becomeFollower_when; [done|apply Hreq|by intros ?%N.ltb_lt|].
  intros n1 Hd Hsame Hdown. destruct (quiet_or_down_inv _ _ _ Hd) as [Hn1 Hc1].
  do 4 wp_step. wp_step; [by wp_step|]. wp_step. apply wp_LastIndex; [apply Hn1|]. wp_step.
  apply wp_LastTerm; [apply Hn1|]. wp_step; [by wp_step|].
  rewrite <-(sc_id _ _ Hc1). eapply wp_mono; [by apply wp_grant|].
  intros resp n' (-> & Hc & Hn' & [= Ht Hv Hst] & err & Es). simpl. split_and!; [done..|].
  assert (n_currentTerm n1 = rv_Term req) as E1.
  { bool_props. destruct (N.ltb_spec (n_currentTerm n) (rv_Term req)).
    - by destruct (Hdown eq_refl) as [_ [= E1 _ _] _ _].
    - rewrite (Hsame eq_refl). lia. }
  rewrite E1 in Es. assert (saved (rv_Term req) (rv_CandidateID req) (n_raftLog n')).
  { exists (n_raftLog n1), err, (n_raftLog n'). split_and!; [apply Hn1|done|done]. }
  split; [by eapply same_conf_trans|done|congruence|done|by exists (n_raftLog n1), err|done|].
  bool_props. destruct (N.ltb_spec (n_currentTerm n) (rv_Term req)).
  - destruct (Hdown eq_refl) as [_ [= _ E2 E3] _ _]. left; split; [done|congruence].
  - rewrite (Hsame eq_refl) in *. right. split_and!; [done| |done].
    match goal with H : _ && _ = false |- _ => apply andb_false_iff in H as [?|?] end;
      bool_props; [left|right]; by apply dec_stable.
Qed.

(** *** InstallSnapshot *)

Lemma wpe_HandleInstallSnapshot n req : node_inv n -> j_ok req ->
  wpe (HandleInstallSnapshot req) (fun resp n' =>
    quiet_or_down n (is_Term req) n' /\ isr_Term resp = n_currentTerm n) compact_panic n.
Proof.
  intros Hn (? & ? & ?). unfold HandleInstallSnapshot. do 4 wp_step. wp_step.
  { wp_step. split; [left; by apply quiet_refl|done]. }
  wp_step. apply wpe_wp, wp_becomeFollower_when; [done..|by intros ?%N.ltb_lt|].
  intros n1 Hd _ _. destruct (quiet_or_down_inv _ _ _ Hd) as [Hn1 _].
  wp_step. apply wpe_wp, wp_resetElectionTimer; [apply Hn1|]. intros tm r _. do 4 wp_step.
  match goal with |- wpe _ _ _ ?m => assert (quiet n1 m) as Hq end.
  { eapply quiet_trans; [by apply quiet_timer|]. by apply quiet_leaderID, quiet_timer. }
  set (n2 := set_leaderID _ _) in *. clearbody n2.
  destruct (eng_RestoreSnapshot _ _) as [err st]. wp_step. wp_step.
  apply (fun H => quiet_trans _ _ _ H (quiet_storage n2 st (q_inv _ _ Hq))) in Hq.
  set (n3 := set_storage _ _) in *. clearbody n3.
  apply (quiet_or_down_quiet _ _ _ _ Hd) in Hq as Hd3.
  wp_step; [by wp_step|]. wp_step. apply wpe_Compact; [apply Hq|done|done|]. intros err' rl' _ Hq4.
  set (n4 := set_raftLog _ n3) in *. apply (quiet_or_down_quiet _ _ _ _ Hd3) in Hq4 as Hd4.
  clearbody n4. wp_step; [by wp_step|]. do 7 wp_step. split; [|done].
  eapply quiet_or_down_quiet; [exact Hd4|].
  destruct (q_inv _ _ Hq4). split; [done..|]. by split.
Qed.

(** *** Elections *)

Lemma wp_startElection_begin n :
  node_inv n -> (n_currentTerm n + 1 < two64)%N ->
  wp startElection_begin (fun el n' =>
    same_conf n n' /\ node_inv n' /\ pv n' = (n_currentTerm n + 1, n_id n, Candidate)%N /\
    saved (n_currentTerm n + 1)%N (n_id n) (n_raftLog n') /\
    j_ok (el_req el) /\ rv_Term (el_req el) = (n_currentTerm n + 1)%N /\
    rv_CandidateID (el_req el) = n_id n /\
    el_votes el = 1%nat /\ el_quorum el = election_quorum (n_peers n) /\ el_won el = false /\
    el_waiting el = n_peers n) n.
Proof.
  intros Hn Hlt. unfold startElection_begin.
  do 10 wp_step. cbn [set_state set_currentTerm set_votedFor n_id n_currentTerm].
  rewrite u64_add_small by done. wp_step.
  apply wp_SaveMeta; [apply Hn|done|]. intros err rl' _ Hwf Hm _ Hsi Hst.
  wp_step. apply wp_resetElectionTimer; [apply Hn|]. intros tm r _.
  set (n' := set_electionTimer _ _).
  assert (node_inv n') as Hn'.
  { destruct Hn. cbn in Hsi, Hst. split; simpl; try done; congruence. }
  wp_step. apply wp_LastIndex; [done|]. wp_step. apply wp_LastTerm; [done|]. do 3 wp_step.
  split_and!; try done; cbn; split_and?; try done; [apply (LastIndex_ok n' Hn')|apply (LastTerm_ok n' Hn')].
Qed.

(** What the goroutine of one peer does to the vote count. *)
Definition counts (el : Election) (peer : Peer) (reply : error + RequestVoteResponse) (el' : Election)
    : Prop :=
  el_req el' = el_req el /\ el_quorum el' = el_quorum el /\
  el_waiting el' = remove_one peer (el_waiting el) /\
  ((el_votes el' = el_votes el /\ el_won el' = el_won el) \/
   (exists resp, reply = inr resp /\ rvr_VoteGranted resp = true /\
      el_votes el' = S (el_votes el) /\
      (el_won el' = true -> el_won el = true \/ (el_quorum el <= el_votes el')%nat))).

Lemma wp_startElection_reply n el peer reply :
  node_inv n -> (forall resp, reply = inr resp -> j_ok resp) ->
  wp (startElection_reply el peer reply) (fun el' n' =>
    counts el peer reply el' /\
    match reply with
    | inl _ => quiet n n'
    | inr resp => quiet_or_down n (rvr_Term resp) n'
    end) n.
Proof.
  intros Hn Hok. unfold startElection_reply, counts. destruct reply as [err|resp].
  { wp_step. split_and!; simpl; try done; by left. }
  wp_step. wp_step. wp_step.
  - wp_step. eapply wp_mono; [apply wp_becomeFollower; [done|by apply Hok]|].
    intros [] n' [Hd _]. wp_step. bool_props. simpl. split_and!; try done; [by left|].
    right. done.
  - wp_step; wp_step; (split; [|left; by apply quiet_refl]); simpl; split_and!; try done; [by left|].
    right. exists resp. bool_props. split_and!; try done.
    destruct (Nat.leb_spec (el_quorum el) (S (el_votes el))); auto.
Qed.

Lemma wp_becomeLeader n : node_inv n ->
  wp becomeLeader (fun _ n' => same_conf n n' /\ node_inv n' /\
    LoadMeta (n_raftLog n') = LoadMeta (n_raftLog n) /\
    pv n' = (n_currentTerm n, n_votedFor n,
      if bool_decide (n_state n = Candidate) then Leader else n_state n)) n.
Proof.
  intros Hn. unfold becomeLeader. wp_step. wp_step.
  destruct (bool_decide (n_state n = Candidate)); cbn [negb]; [|by wp_step].
  do 5 wp_step. apply wp_LastIndex; [apply Hn|]. do 4 wp_step. destruct (ni_timer _ Hn) as [t Et].
  cbn [set_leader set_leaderID set_state n_electionTimer]. rewrite Et.
  wp_step. wp_step. wp_step. apply wp_resetHeartbeatTimer. intros t'.
  wp_step. apply wp_LastIndex; [apply Hn|]. wp_step. wp_step. wp_step.
  match goal with |- wp _ _ ?m => assert (node_inv m) as Hm; [|set (n1 := m) in *] end.
  { destruct Hn. by split. }
  apply wp_Append; [done|split; [apply u64_add_ok|apply Hn]|]. intros err rl' _ [[] ? ? ?]. by wp_step.
Qed.

Lemma wp_startElection_end n el : node_inv n ->
  wp (startElection_end el) (fun _ n' => same_conf n n' /\ node_inv n' /\
    LoadMeta (n_raftLog n') = LoadMeta (n_raftLog n) /\
    pv n' = (n_currentTerm n, n_votedFor n,
      if el_won el && bool_decide (n_state n = Candidate) then Leader else n_state n)) n.
Proof.
  intros Hn. unfold startElection_end. destruct (el_won el); simpl.
  - by apply wp_becomeLeader.
  - by wp_step.
Qed.

Lemma wp_run_election_tick n : node_inv n ->
  wp run_election_tick (fun b n' => quiet n n' /\ (b = true <-> n_state n <> Leader)) n.
Proof.
  intros Hn. unfold run_election_tick. do 4 wp_step. cbn [set_electionTimer n_state].
  destruct (ni_timer _ Hn) as [t Et]. rewrite Et.
  assert (quiet n (set_electionTimer ((fun t => mkTimer false false (tm_duration t)) <$> Some t) n))
    as Hq.
  { destruct Hn. split; [done..|]. split; done. }
  wp_step.
  - wp_step. bool_props. by split.
  - bool_props. wp_step. apply wp_resetElectionTimer; [apply Hn|]. intros tm r _. wp_step.
    split; [|by split]. eapply quiet_trans; [exact Hq|]. by apply quiet_timer, Hq.
Qed.

Lemma wp_run_heartbeat_tick n : node_inv n -> wp run_heartbeat_tick (fun _ n' => quiet n n') n.
Proof.
  intros Hn. unfold run_heartbeat_tick. do 4 wp_step. wp_step.
  - wp_step. apply wp_resetHeartbeatTimer. intros t. wp_step. destruct Hn. split; [done..|]. by split.
  - wp_step. by apply quiet_heartbeat.
Qed.

(** *** Replication *)

Lemma getRange_loop_ok fuel (tx : bolt_Tx) i to l :
  getRange_loop fuel tx i to = inr l -> Forall (fun e => j_ok e) l.
Proof.
  revert i l. induction fuel as [|f IH]; intros i l; cbn [getRange_loop]; [intros [= <-]; constructor|].
  destruct (i <=? to)%N; [|intros [= <-]; constructor].
  destruct (bkt_Get _ _ _) as [data|]; [|intros [= <-]; constructor].
  destruct (Unmarshal data) as [e|] eqn:Eu; [|done].
  destruct (getRange_loop _ _ _ _) as [|l'] eqn:Er; [done|]. intros [= <-].
  constructor; [exact (Unmarshal_ok _ _ Eu)|by eapply IH].
Qed.

(** A request carries the sender's term, and its integers are in range. *)
Definition call_ok n (c : Call) : Prop :=
  match c with
  | CallSnapshot _ req => is_Term req = n_currentTerm n /\ j_ok req
  | CallAppend req => ae_Term req = n_currentTerm n /\ j_ok req
  end.

Lemma wp_replicateToPeer_prepare n peer : node_inv n ->
  wp (replicateToPeer_prepare peer) (fun c n' =>
    n' = n /\ forall call, c = Some call -> n_state n = Leader /\ call_ok n call) n.
Proof.
  intros Hn. unfold replicateToPeer_prepare, the_leader. wp_step. wp_step. wp_step; [by wp_step|].
  bool_props. destruct (ni_leader _ Hn) as [ls El]; [done|]. do 3 wp_step. rewrite El. do 5 wp_step.
  pose proof (ni_term _ Hn). wp_step.
  { wp_step. split; [done|]. intros ? [= <-]. split_and!; try done; simpl; split_and!; try done; apply Hn. }
  wp_step. apply wp_TermAt; [apply Hn|]. wp_step. apply wp_LastIndex; [apply Hn|]. wp_step.
  assert (forall r : error + list LogEntry, (forall l, r = inr l -> Forall (fun e => j_ok e) l) ->
    wp (match r with
        | inl _ => ret None
        | inr entries => ret (Some (CallAppend (mkAEReq (n_currentTerm n) (n_id n)
            (map_get (nextIndex ls) (peer_ID peer) - 1)%u64
            (TermAt (n_raftLog n) (map_get (nextIndex ls) (peer_ID peer) - 1)%u64) entries (n_commitIndex n))))
        end) (fun c n' => n' = n /\ forall call, c = Some call -> n_state n = Leader /\ call_ok n call) n) as Hk.
  { intros [err|l] Hl; wp_step; [done|]. split; [done|]. intros ? [= <-]. split_and!; try done; simpl.
    split_and!; [done|done|apply u64_sub_ok|by apply TermAt_ok|apply Hn|by apply Hl]. }
  wp_step.
  - apply wp_GetRange; [apply Hn|]. apply Hk. intros l. apply getRange_loop_ok.
  - wp_step. apply (Hk (inr [])). intros l [= <-]. constructor.
Qed.

(** The handling of an InstallSnapshot reply panics when the node is no longer
    a leader; whenever it returns, the term, vote and role are kept or the node
    steps down. *)
Lemma replicateToPeer_snapshot_reply_spec n n' peer idx reply :
  node_inv n -> (forall resp, reply = inr resp -> j_ok resp) ->
  replicateToPeer_snapshot_reply peer idx reply n = Done (tt, n') ->
  match reply with
  | inl _ => quiet n n'
  | inr resp => quiet_or_down n (isr_Term resp) n'
  end.
Proof.
  intros Hn Hok. unfold replicateToPeer_snapshot_reply. destruct reply as [err|resp].
  { intros [= <-]. by apply quiet_refl. }
  cbn [bind gets]. destruct (N.ltb_spec (n_currentTerm n) (isr_Term resp)).
  - intros Hr. eapply wp_elim in Hr; [|apply wp_becomeFollower; [done|by apply Hok]].
    right. split; [done|apply Hr].
  - destruct (isr_Success resp); [|intros [= <-]; left; by apply quiet_refl].
    unfold bind, the_leader, gets, bind, throw, ret, modify. destruct (n_leader n); [|done].
    intros [= <-]. left. by apply quiet_leader.
Qed.

Lemma commitCandidate_ok ls cc last ct termAt : u64_ok last ->
  u64_ok (commitCandidate ls cc last ct termAt).
Proof.
  intros Hlast. unfold commitCandidate.
  destruct (commit_loop_spec (N.to_nat (last - cc)) ls cc last ct termAt) as [[-> _]|[[? _] _]];
    [done..|]. unfold u64_ok in *. lia.
Qed.

Lemma wp_replicateToPeer_append_reply n peer reply :
  node_inv n -> (forall resp, reply = inr resp -> j_ok resp) ->
  wp (replicateToPeer_append_reply peer reply) (fun _ n' =>
    match reply with
    | inl _ => quiet n n'
    | inr resp => quiet_or_down n (aer_Term resp) n'
    end) n.
Proof.
  intros Hn Hok. unfold replicateToPeer_append_reply, the_leader, spawn. destruct reply as [err|resp].
  { wp_step. by apply quiet_refl. }
  pose proof (quiet_refl n Hn) as Hq. wp_step. wp_step. wp_step; [wp_step; by left|].
  bool_props. wp_step. wp_step. wp_step.
  { bool_props. eapply wp_mono; [apply wp_becomeFollower; [done|by apply Hok]|].
    intros [] n' [? _]. by right. }
  destruct (ni_leader _ Hn) as [ls El]; [done|]. do 3 wp_step. rewrite El. wp_step.
  wp_step; [|repeat wp_step; left; first [done|by apply quiet_leader]].
  wp_step. wp_step. wp_step. apply wp_LastIndex; [apply Hn|]. wp_step. wp_step. wp_step.
  - do 3 wp_step. left.
    match goal with |- quiet _ (set_tasks _ (set_commitIndex ?c ?m)) =>
      assert (u64_ok c) by (apply commitCandidate_ok; exact (LastIndex_ok n Hn)) end.
    destruct Hn. split; [done..|]. by split.
  - wp_step. left. by apply quiet_leader.
Qed.

Lemma wp_broadcastAppendEntries n : node_inv n -> wp broadcastAppendEntries (fun _ n' => quiet n n') n.
Proof.
  intros Hn. unfold broadcastAppendEntries. wp_steps; [by apply quiet_refl|by apply quiet_tasks].
Qed.

(** *** Clients *)

Lemma pending_ok_delete p c i : pending_ok p c -> pending_ok (delete i p) c.
Proof.
  intros [H1 H2]. split.
  - intros j ch [_ Hj]%lookup_delete_Some. eauto.
  - intros j k ch [_ Hj]%lookup_delete_Some [_ Hk]%lookup_delete_Some. eauto.
Qed.

Lemma pending_ok_register p c i ch : pending_ok p c -> c !! ch = None ->
  pending_ok (<[i := ch]> p) (<[ch := []]> c).
Proof.
  intros [H1 H2] Hch.
  assert (forall j, p !! j <> Some ch) as Hne.
  { intros j Hj. apply H1 in Hj. congruence. }
  split.
  - intros j ch' [[<- <-]|[? Hj]]%lookup_insert_Some; [by rewrite lookup_insert_eq|].
    rewrite lookup_insert_ne; [by eapply H1|]. intros <-. by destruct (Hne j).
  - intros j k ch' [[<- <-]|[? Hj]]%lookup_insert_Some [[<- Ech]|[? Hk]]%lookup_insert_Some;
      [done| | |by eapply H2].
    + by destruct (Hne k).
    + subst. by destruct (Hne j).
Qed.

Lemma pending_ok_send p c i ch v : pending_ok p c -> p !! i = Some ch ->
  pending_ok (delete i p) (<[ch := v]> c).
Proof.
  intros [H1 H2] Hi. split.
  - intros j ch' [Hne Hj]%lookup_delete_Some. rewrite lookup_insert_ne; [by eapply H1|].
    intros <-. apply Hne. by eapply H2.
  - intros j k ch' [_ Hj]%lookup_delete_Some [_ Hk]%lookup_delete_Some. by eapply H2.
Qed.

Lemma fresh_chan_None n : n_chans n !! fresh_chan n = None.
Proof. apply not_elem_of_dom. apply is_fresh. Qed.

Lemma wp_Propose_begin n cmd : node_inv n -> wp (Propose_begin cmd) (fun _ n' => quiet n n') n.
Proof.
  intros Hn. unfold Propose_begin. wp_step. wp_step. wp_step; [wp_step; by apply quiet_refl|].
  wp_step. apply wp_LastIndex; [apply Hn|]. wp_step.
  apply wp_Append; [done|split; [apply u64_add_ok|apply Hn]|]. intros err rl' _ Hq.
  wp_step; [by wp_step|]. do 4 wp_step. wp_step.
  eapply quiet_trans; [exact Hq|]. apply quiet_waiters; [|apply Hq].
  apply pending_ok_register; [apply Hn|exact (fresh_chan_None n)].
Qed.

(** Reading from the channel needs a value in it. *)
Lemma wp_Propose_end n index ch w : node_inv n -> wakeup_enabled n ch w = true ->
  wp (Propose_end index ch w) (fun _ n' => quiet n n') n.
Proof.
  intros Hn He. unfold Propose_end. destruct w; simpl in He.
  - bool_props. wp_step. wp_step. destruct (default [] (n_chans n !! ch)) as [|err buf] eqn:Ec; [done|].
    do 2 wp_step. wp_step. apply quiet_chans; [|done].
    destruct (ni_pending _ Hn) as [H1 H2]. split; [|done].
    intros i ch' Hi. apply H1 in Hi as Hc. rewrite lookup_insert_ne; [done|].
    intros <-. by rewrite Hc in Ec.
  - do 2 wp_step. wp_step. apply quiet_pending; [|done].
    apply pending_ok_delete, Hn.
  - wp_step. by apply quiet_refl.
Qed.

(** *** Applying and snapshots *)

Lemma wlp_storage_op f n : node_inv n -> wlp (storage_op f) (fun _ n' => quiet n n') n.
Proof.
  intros Hn. unfold wlp, storage_op. destruct (f (n_storage n)) as [[err st]|]; [|done].
  by apply quiet_storage.
Qed.

Lemma wlp_applyCommand_quiet n cmd : node_inv n -> wlp (applyCommand cmd) (fun _ n' => quiet n n') n.
Proof.
  intros Hn. unfold applyCommand.
  repeat (wp_step || (apply wlp_storage_op)); first [by apply quiet_refl|done].
Qed.

Lemma wp_notify_pending n i err : node_inv n -> wp (notify_pending i err) (fun _ n' => quiet n n') n.
Proof.
  intros Hn. unfold notify_pending, chan_send. wp_step. wp_step.
  destruct (n_pending n !! i) as [ch|] eqn:Hi; [|wp_step; by apply quiet_refl].
  do 3 wp_step. destruct (ni_pending _ Hn) as [H1 _]. rewrite (H1 _ _ Hi). simpl.
  wp_step. wp_step. apply quiet_waiters; [|done]. by apply pending_ok_send; [apply Hn|].
Qed.

Lemma wlp_apply_loop fuel n : node_inv n -> wlp (apply_loop fuel) (fun _ n' => quiet n n') n.
Proof.
  revert n. induction fuel as [|f IH]; intros n Hn; cbn [apply_loop]; [wp_step; by apply quiet_refl|].
  wp_step. wp_step. wp_step; [|wp_step; by apply quiet_refl]. wp_step. wp_step.
  set (i := (n_lastApplied n + 1)%u64). pose proof (quiet_applied n i Hn) as Hq1.
  set (n1 := set_lastApplied i n) in *. clearbody n1.
  wp_step. apply wlp_wp, wp_Get; [apply Hq1|].
  destruct (Get (n_raftLog n1) i) as [err|e]; [by wp_step|]. wp_step.
  eapply wlp_mono; [apply wlp_applyCommand_quiet, Hq1|]. intros err n2 Hq2. wp_step.
  eapply wlp_mono; [apply wlp_wp, wp_notify_pending, Hq2|]. intros [] n3 Hq3. wp_step. wp_step. wp_step.
  pose proof (quiet_trans _ _ _ Hq1 (quiet_trans _ _ _ Hq2 Hq3)) as Hq.
  assert (forall n4, quiet n3 n4 -> wlp (apply_loop f) (fun _ n' => quiet n n') n4) as Hk.
  { intros n4 Hq4. eapply wlp_mono; [apply IH, Hq4|]. intros ? n' H.
    eapply quiet_trans; [exact Hq|]. by eapply quiet_trans. }
  wp_step. wp_step; [unfold spawn; wp_step|]; apply Hk; [apply quiet_tasks, Hq3|apply quiet_refl, Hq3].
Qed.

(** [applyCommitted] does not block on a client's channel; it panics only where
    the storage engine does. *)
Lemma wlp_applyCommitted_quiet n : node_inv n -> wlp applyCommitted (fun _ n' => quiet n n') n.
Proof. intros Hn. unfold applyCommitted. wp_step. wp_step. by apply wlp_apply_loop. Qed.

Lemma wpe_takeSnapshot_commit n i t data : node_inv n -> u64_ok i -> u64_ok t ->
  wpe (takeSnapshot_commit i t data) (fun _ n' => quiet n n') compact_panic n.
Proof.
  intros Hn Hi Ht. unfold takeSnapshot_commit. destruct data; [wp_step; by apply quiet_refl|].
  wp_step. apply wpe_Compact; [done..|]. intros err rl' _ Hq.
  wp_step; wp_step; [done|]. eapply quiet_trans; [exact Hq|]. apply quiet_snapshotData, Hq.
Qed.

(** *** Restart *)

Lemma LoadMeta_ok rl t v : log_wf rl -> LoadMeta rl = inr (t, v) -> u64_ok t.
Proof.
  intros Hwf. rewrite LoadMeta_spec by done.
  destruct (meta_bkt rl !! metaKey) as [d|]; simpl; [|by intros [= <- _]].
  destruct (Unmarshal d : option MetaState) as [s|] eqn:Eu; [|by intros [= <- _]].
  intros [= <- _]. exact (Unmarshal_ok _ _ Eu).
Qed.

Lemma snap_on_disk_ok rl s : snap_on_disk rl = Some s -> j_ok s.
Proof.
  unfold snap_on_disk. destruct (meta_bkt rl !! snapshotKey); simpl; [|done].
  intros Hs. exact (Unmarshal_ok _ _ Hs).
Qed.

(** The state [NewRaftNode] builds from the database of a node. *)
Lemma NewRaftNode_spec n n0 cfg store rand : node_inv n -> timers_ok cfg ->
  NewRaftNode (fun _ => None) (fun _ => inr (rl_db (n_raftLog n))) cfg store rand = inr n0 ->
  wp Start (fun _ n' => node_inv n' /\ n_state n' = Follower /\ durable n' /\
    LoadMeta (n_raftLog n') = LoadMeta (n_raftLog n) /\
    n_id n' = nc_ID (cfg_Node cfg) /\ n_cfg n' = cfg /\
    n_peers n' = (fun p => mkPeer (nc_ID p) (nc_Addr p)) <$> cfg_Peers cfg) n0.
Proof.
  intros Hn Hcfg. unfold NewRaftNode.
  match goal with |- context [newRaftLog _ _ ?p] => generalize p as path end. intros path.
  destruct (newRaftLog _ _ path) as [err|rl] eqn:El; [done|].
  destruct (newRaftLog_spec path (n_raftLog n) rl (ni_log _ Hn) El) as (Hwf & Hl & Hm & Hs).
  assert (LoadMeta rl = LoadMeta (n_raftLog n)) as Hload.
  { rewrite !LoadMeta_spec by (try apply Hn; done). by rewrite Hm. }
  destruct (LoadMeta rl) as [err|[term votedFor]] eqn:Em; [done|].
  intros [= <-]. apply wp_resetElectionTimer; [done|]. intros tm r _.
  split_and!; try done; [|simpl; congruence].
  assert (j_ok (mkSnapMeta (rl_snapshotIndex rl) (rl_snapshotTerm rl))) as [? ?].
  { rewrite Hs. destruct (snap_on_disk _) eqn:Ed; [by eapply snap_on_disk_ok|done]. }
  split; simpl; try done. by eapply LoadMeta_ok.
Qed.

(** The same on an empty database. *)
Lemma NewRaftNode_fresh db n0 cfg store rand : buckets (view_tx db) = ∅ -> timers_ok cfg ->
  NewRaftNode (fun _ => None) (fun _ => inr db) cfg store rand = inr n0 ->
  wp Start (fun _ n' => node_inv n' /\ pv n' = (0%N, "", Follower) /\ durable n' /\
    n_id n' = nc_ID (cfg_Node cfg) /\ n_cfg n' = cfg /\
    n_peers n' = (fun p => mkPeer (nc_ID p) (nc_Addr p)) <$> cfg_Peers cfg) n0.
Proof.
  intros Hdb Hcfg. unfold NewRaftNode.
  match goal with |- context [newRaftLog _ _ ?p] => generalize p as path end. intros path.
  destruct (newRaftLog _ _ path) as [err|rl] eqn:El; [done|].
  destruct (newRaftLog_fresh path db rl Hdb El) as (Hwf & Hl & Hm & Hs & Ht).
  assert (LoadMeta rl = inr (0%N, "")) as Hload by by rewrite LoadMeta_spec, Hm by done.
  rewrite Hload. intros [= <-]. apply wp_resetElectionTimer; [done|]. intros tm r _.
  split_and!; try done. by split; simpl; rewrite ?Hs, ?Ht.
Qed.

(** With a directory that can be made and commits that succeed, it does build
    one. *)
Lemma NewRaftNode_ok `{!BoltReliable B} n cfg store rand : node_inv n ->
  exists n0, NewRaftNode (fun _ => None) (fun _ => inr (rl_db (n_raftLog n))) cfg store rand = inr n0.
Proof.
  intros Hn. unfold NewRaftNode.
  match goal with |- context [newRaftLog _ _ ?p] => generalize p as path end. intros path.
  assert (exists rl, newRaftLog (fun _ => None) (fun _ => inr (rl_db (n_raftLog n))) path = inr rl)
    as [rl El] by apply newRaftLog_ok.
  destruct (newRaftLog_spec path _ rl (ni_log _ Hn) El) as (Hwf & _ & Hm & _).
  rewrite El. rewrite LoadMeta_spec by done. destruct (meta_bkt rl !! metaKey ≫= Unmarshal); eauto.
Qed.
End node_spec.
