(* ===== verification/Frames.v ===== *)
(** * Frames: what a critical section leaves alone

    [keeps f m]: whenever [m] returns, the part [f] of the node is what it was.
    The tactic [keeps] walks through a section; the hints are its leaves. *)

From S2P Require Import Prelude GoJson Types Config Bolt RaftLog LeaderState Storage RaftNode.

Section frames.
Context {B : Bolt} {E T : Type} (f : RaftNode B E -> T).
Abbreviation Node A := (M (RaftNode B E) A) (only parsing).

Definition keeps {A} (m : Node A) : Prop := forall n, wlp m (fun _ n' => f n' = f n) n.

Lemma keeps_bind {A C} (m : Node A) (k : A -> Node C) :
  keeps m -> (forall a, keeps (k a)) -> keeps (bind m k).
Proof.
  intros Hm Hk n. apply wlp_bind. eapply wlp_mono; [apply Hm|]. intros a n' E1. cbn beta in E1.
  rewrite <-E1. apply Hk.
Qed.

Lemma keeps_ret {A} (a : A) : keeps (ret a).
Proof. by intros n. Qed.
Lemma keeps_get : keeps get.
Proof. by intros n. Qed.
Lemma keeps_gets {A} (g : RaftNode B E -> A) : keeps (gets g).
Proof. by intros n. Qed.
Lemma keeps_throw {A} p : keeps (throw p : Node A).
Proof. by intros n. Qed.
Lemma keeps_modify g : (forall n, f (g n) = f n) -> keeps (modify g).
Proof. intros H n. apply H. Qed.
Lemma keeps_when b m : keeps m -> keeps (when b m).
Proof. intros H. destruct b; [exact H|apply keeps_ret]. Qed.

Lemma keeps_log_op g : (forall rl n, f (set_raftLog rl n) = f n) -> keeps (log_op g).
Proof. intros H n. unfold wlp, log_op. destruct (g (n_raftLog n)) as [[]|]; [apply H|done]. Qed.
Lemma keeps_log_read {A} (g : RaftLog B -> outcome A) : keeps (log_read g).
Proof. intros n. unfold wlp, log_read. by destruct (g (n_raftLog n)). Qed.
Lemma keeps_storage_op g : (forall st n, f (set_storage st n) = f n) -> keeps (storage_op g).
Proof. intros H n. unfold wlp, storage_op. destruct (g (n_storage n)) as [[]|]; [apply H|done]. Qed.
End frames.

Create HintDb keeps.
#[export] Hint Resolve keeps_ret keeps_get keeps_gets keeps_throw keeps_log_read : keeps.

Ltac keeps := repeat first
  [ solve [eauto with keeps]
  | progress cbn zeta
  | lazymatch goal with
    | |- keeps _ (bind _ _) => apply keeps_bind; [|intros ?]
    | |- keeps _ (when _ _) => apply keeps_when
    | |- keeps _ (modify _) => apply keeps_modify; intros ?; reflexivity
    | |- keeps _ (log_op _) => apply keeps_log_op; intros ? ?; reflexivity
    | |- keeps _ (storage_op _) => apply keeps_storage_op; intros ? ?; reflexivity
    | |- keeps _ (if ?b then _ else _) => destruct b
    | |- keeps _ (match ?x with _ => _ end) => destruct x
    | |- keeps _ (let '(_, _) := ?x in _) => destruct x
    end ].

(** ** Sections of the leader *)

Section leader.
Context {B : Bolt} {E : Type} {X : Engine E}.

Lemma keeps_Propose_begin cmd :
  keeps (fun n : RaftNode B E => (n_storage n, n_lastApplied n, n_leader n)) (Propose_begin cmd).
Proof. unfold Propose_begin, node_LastIndex, node_Append. keeps. Qed.

Lemma keeps_append_reply peer reply :
  keeps (fun n : RaftNode B E => (n_storage n, n_lastApplied n, n_pending n, n_chans n))
    (replicateToPeer_append_reply peer reply).
Proof.
  unfold replicateToPeer_append_reply, the_leader, spawn, becomeFollower, node_SaveMeta,
    node_LastIndex, resetElectionTimer, rand_Intn. keeps.
Qed.
End leader.
