(* ===== verification/Sample.v ===== *)
(** * Sample nodes

    Concrete nodes that satisfy the invariant, for the examples the theorems of
    the later files are evaluated on: a node "a" with peers "b" and "c" that has
    just started, the same node as a follower that accepted two entries, and as
    the leader of term 1. *)

From S2P Require Import Prelude GoJson Types Config Bolt RaftLog LeaderState Storage RaftNode.
From S2P Require Import RaftNodeSpec.
Import Utf8 Json MapBolt.

Local Open Scope string_scope.

Abbreviation sample_node := (RaftNode reliable_bolt MemoryEngine) (only parsing).

Definition sample_cfg : Config :=
  mkConfig (mkNodeConfig "a" "a:7001") [mkNodeConfig "b" "b:7001"; mkNodeConfig "c" "c:7001"]
    (mkRaftConfig 150 300 50 10000) (mkStorageConfig "memory" "./data") (mkServerConfig ":8080").

Definition sample_new : sample_node :=
  mkNode (B := reliable_bolt) "a" [mkPeer "b" "b:7001"; mkPeer "c" "c:7001"]
    (mkRaftLog (B := reliable_bolt) (mkdb {[logBucket := ∅; metaBucket := ∅]} 1) 0 0)
    0 "" Follower 0 0 "" None NewMemoryEngine None None sample_cfg false ∅ [] ∅ [] [].

(** The state after a critical section. *)
Definition after {A} (m : M sample_node A) (n : sample_node) : sample_node :=
  match m n with Done (_, n') => n' | Panic _ => n end.

Lemma after_wp {A} (m : M sample_node A) (P : sample_node -> Prop) n :
  wp m (fun _ n' => P n') n -> P (after m n).
Proof. unfold wp, after. by destruct (m n) as [[a n']|]. Qed.

Lemma after_wlp {A} (m : M sample_node A) (P : sample_node -> Prop) n :
  wlp m (fun _ n' => P n') n -> P n -> P (after m n).
Proof. unfold wlp, after. by destruct (m n) as [[a n']|]. Qed.

Lemma after_quiet {A} (m : M sample_node A) n : wp m (fun _ n' => quiet n n') n -> node_inv (after m n).
Proof. intros H. apply (after_wp m node_inv). eapply wp_mono; [exact H|]. intros ? ? Hq. apply Hq. Qed.

Lemma after_quiet_or_down {A} (m : M sample_node A) n t :
  wp m (fun _ n' => quiet_or_down n t n') n -> node_inv (after m n).
Proof.
  intros H. apply (after_wp m node_inv). eapply wp_mono; [exact H|].
  intros ? ? Hq. by apply quiet_or_down_inv in Hq as [? _].
Qed.

(** A node on an empty database, started. *)
Definition open_node (cfg : Config) : error + sample_node :=
  NewRaftNode (B := reliable_bolt) (fun _ => None) (fun _ => inr (mkdb ∅ 0)) cfg NewMemoryEngine [].

Definition start_node (cfg : Config) : sample_node :=
  match open_node cfg with
  | inr n => after Start n
  | inl _ => sample_new
  end.

Definition opens (cfg : Config) : bool :=
  match open_node cfg with inr _ => true | inl _ => false end.

Lemma start_node_inv cfg : opens cfg = true -> timers_ok cfg -> node_inv (start_node cfg).
Proof.
  unfold opens, start_node. destruct (open_node cfg) as [|n] eqn:En; [done|]. intros _ Hcfg.
  apply (after_wp _ node_inv). eapply wp_mono.
  { by apply (NewRaftNode_fresh (B := reliable_bolt) (mkdb ∅ 0) n cfg NewMemoryEngine []). }
  by intros ? ? [? _].
Qed.

Definition sample_started : sample_node := start_node sample_cfg.

Lemma sample_started_inv : node_inv sample_started.
Proof. apply start_node_inv; by vm_compute. Qed.

(** A node without peers. *)
Definition solo_cfg : Config :=
  mkConfig (mkNodeConfig "a" "a:7001") [] (mkRaftConfig 150 300 50 10000)
    (mkStorageConfig "memory" "./data") (mkServerConfig ":8080").

Definition sample_solo : sample_node := start_node solo_cfg.

Lemma sample_solo_inv : node_inv sample_solo.
Proof. apply start_node_inv; by vm_compute. Qed.

(** ** A follower *)

Definition put (k v : string) : Command := mkCommand OpPut k (str v) [].

Definition sample_append : AppendEntriesRequest :=
  mkAEReq 1 "b" 0 0 [mkLogEntry 1 1 (put "x" "1"); mkLogEntry 2 1 (put "y" "2")] 2.

Definition sample_follower : sample_node := after (HandleAppendEntries sample_append) sample_started.

Lemma sample_append_ok : j_ok sample_append.
Proof. repeat (split || constructor); by vm_compute. Qed.

Lemma sample_follower_inv : node_inv sample_follower.
Proof.
  apply (after_wlp _ node_inv); [|exact sample_started_inv]. eapply wlp_mono.
  { eapply wpe_wlp, wpe_HandleAppendEntries; [apply sample_started_inv|apply sample_append_ok]. }
  intros resp n' [Hq _]. by apply quiet_or_down_inv in Hq as [? _].
Qed.

(** Neither has applied anything: their engines hold an empty map. *)
Lemma sample_started_wf : eng_wf (EngineLaws := MemoryEngine_laws) (n_storage sample_started).
Proof. exists ∅. by vm_compute. Qed.
Lemma sample_follower_wf : eng_wf (EngineLaws := MemoryEngine_laws) (n_storage sample_follower).
Proof. exists ∅. by vm_compute. Qed.

(** ** A leader *)

Definition sample_vote : error + RequestVoteResponse := inr (mkRVResp 1 true "b").

Definition sample_leader : sample_node :=
  after (startElection (fun _ => sample_vote)) sample_started.

Lemma wp_collect_votes reply peers : forall (el : Election) (n : sample_node), node_inv n ->
  (forall p resp, reply p = inr resp -> j_ok resp) ->
  wp (collect_votes el peers reply) (fun _ n' => node_inv n') n.
Proof.
  induction peers as [|p peers IH]; intros el n Hn Hok; cbn [collect_votes]; [by wp_step|].
  wp_step. eapply wp_mono; [apply wp_startElection_reply; [done|apply Hok]|].
  intros el' n' [_ Hq]. apply IH; [|done].
  destruct (reply p); [apply Hq|by apply quiet_or_down_inv in Hq as [? _]].
Qed.

Lemma elected_inv (n : sample_node) : node_inv n -> (n_currentTerm n + 1 < two64)%N ->
  node_inv (after (startElection (fun _ => sample_vote)) n).
Proof.
  intros Hn Ht. apply (after_wp _ node_inv). unfold startElection. wp_step. eapply wp_mono.
  { by apply wp_startElection_begin. }
  intros el n1 (_ & Hn1 & _). wp_step.
  eapply wp_mono; [apply wp_collect_votes; [done|]|].
  - intros p resp [= <-]. by vm_compute.
  - intros el' n2 Hn2. eapply wp_mono; [by apply wp_startElection_end|]. by intros ? ? (_ & ? & _).
Qed.

Lemma sample_leader_inv : node_inv sample_leader.
Proof. apply elected_inv; [apply sample_started_inv|by vm_compute]. Qed.

Lemma sample_leader_is : n_state sample_leader = Leader.
Proof. by vm_compute. Qed.

(** The sample follower after it won an election of its own: its log holds the
    two entries of term 1 and the no-op of term 2. *)
Definition sample_leader2 : sample_node :=
  after (startElection (fun _ => sample_vote)) sample_follower.

Lemma sample_leader2_inv : node_inv sample_leader2.
Proof. apply elected_inv; [apply sample_follower_inv|by vm_compute]. Qed.

Definition sample_progress2 : leaderState :=
  newLeaderState [mkPeer "b" "b:7001"; mkPeer "c" "c:7001"] 2.

Lemma sample_leader2_is : n_state sample_leader2 = Leader /\ n_leader sample_leader2 = Some sample_progress2.
Proof. split; by vm_compute. Qed.

Definition prepared (n : sample_node) (peer : Peer) : option Call :=
  match replicateToPeer_prepare peer n with Done (c, _) => c | Panic _ => None end.

Lemma prepared_run n peer call : node_inv n -> prepared n peer = Some call ->
  replicateToPeer_prepare peer n = Done (Some call, n).
Proof.
  intros Hn. unfold prepared. pose proof (wp_replicateToPeer_prepare n peer Hn) as H.
  apply wp_run in H as (c & n' & Hr & -> & _). rewrite Hr. by intros ->.
Qed.

Lemma prepared_unique (n : sample_node) peer req req' :
  replicateToPeer_prepare peer n = Done (Some (CallAppend req), n) ->
  replicateToPeer_prepare peer n = Done (Some (CallAppend req'), n) -> req = req'.
Proof. intros ->. by intros [= ->]. Qed.

(** Whether the handler accepts a request. *)
Definition accepts (req : AppendEntriesRequest) (m : sample_node) : bool :=
  match HandleAppendEntries req m with Done (resp, _) => aer_Success resp | Panic _ => false end.

Lemma accepts_run req (m : sample_node) resp m' :
  HandleAppendEntries req m = Done (resp, m') -> accepts req m = true -> aer_Success resp = true.
Proof. unfold accepts. by intros ->. Qed.

Definition sample_send : AppendEntriesRequest :=
  mkAEReq 2 "a" 2 1 [mkLogEntry 3 2 (mkCommand OpNoop "" [] [])] 2.

Lemma sample_leader2_prepare :
  replicateToPeer_prepare (mkPeer "b" "b:7001") sample_leader2 = Done (Some (CallAppend sample_send), sample_leader2).
Proof. apply prepared_run; [exact sample_leader2_inv|by vm_compute]. Qed.
