(* ===== verification/RaftNodeProps.v ===== *)
(** * What the handlers of a Raft node do

    Functional lemmas on raft.go: what an AppendEntries request does to the log
    and to the commit index, what a leader sends and how it takes the answer,
    what a proposal leaves behind. *)

From S2P Require Import Prelude GoJson Types Config Bolt RaftLog LeaderState Storage RaftNode.
From S2P Require Import RaftNodeSpec Sample.
Import Json.

Local Open Scope string_scope.

Section props.
Context {B : Bolt} {L : BoltLaws B}.

(** ** Reading a log whose entries were not touched *)

Record entries_kept (rl rl' : RaftLog B) : Prop := {
  ek_bkt : log_bkt rl' = log_bkt rl;
  ek_index : rl_snapshotIndex rl' = rl_snapshotIndex rl;
  ek_term : rl_snapshotTerm rl' = rl_snapshotTerm rl
}.

Lemma entries_kept_refl rl : entries_kept rl rl.
Proof. done. Qed.

Lemma entries_kept_trans rl1 rl2 rl3 :
  entries_kept rl1 rl2 -> entries_kept rl2 rl3 -> entries_kept rl1 rl3.
Proof. intros [] []. split; congruence. Qed.

Lemma kept_log_at rl rl' i : entries_kept rl rl' -> log_at rl' i = log_at rl i.
Proof. intros [H _ _]. unfold log_at. by rewrite H. Qed.

Lemma kept_Get rl rl' i : log_wf rl -> log_wf rl' -> entries_kept rl rl' -> Get rl' i = Get rl i.
Proof. intros ? ? Hk. rewrite !Get_spec by done. by rewrite (kept_log_at _ _ _ Hk). Qed.

Lemma LastIndex_unique rl rl' : log_wf rl -> log_wf rl' -> entries_kept rl rl' ->
  LastIndex rl' = LastIndex rl.
Proof.
  intros Hwf Hwf' Hk. pose proof (fun i => kept_log_at _ _ i Hk) as Ha.
  destruct (LastIndex_spec rl Hwf) as [(H1 & H2 & H3)|[H1 H2]],
    (LastIndex_spec rl' Hwf') as [(H1' & H2' & H3')|[H1' H2']].
  - rewrite Ha in H1'. specialize (H3 _ H2' H1').
    assert (LastIndex rl <= LastIndex rl')%N by (apply H3'; [done|by rewrite Ha]). lia.
  - rewrite <-Ha, H2' in H1. by destruct H1.
  - rewrite Ha, H2 in H1'. by destruct H1'.
  - rewrite H1, H1'. apply Hk.
Qed.

Lemma kept_TermAt rl rl' i : log_wf rl -> log_wf rl' -> entries_kept rl rl' -> TermAt rl' i = TermAt rl i.
Proof.
  intros Hwf Hwf' Hk. unfold TermAt. rewrite (kept_Get _ _ _ Hwf Hwf' Hk).
  by rewrite (ek_index _ _ Hk), (ek_term _ _ Hk).
Qed.

Lemma kept_LastTerm rl rl' : log_wf rl -> log_wf rl' -> entries_kept rl rl' -> LastTerm rl' = LastTerm rl.
Proof.
  intros Hwf Hwf' Hk. unfold LastTerm. rewrite (LastIndex_unique _ _ Hwf Hwf' Hk).
  rewrite (kept_Get _ _ _ Hwf Hwf' Hk). by rewrite (ek_index _ _ Hk), (ek_term _ _ Hk).
Qed.

Context {E : Type} {X : Engine E}.
Implicit Types n : RaftNode B E.

Lemma wp_becomeFollower_log n t : node_inv n -> u64_ok t ->
  wp (becomeFollower t) (fun _ n' => stepped_down n t n' /\
    entries_kept (n_raftLog n) (n_raftLog n') /\ n_commitIndex n' = n_commitIndex n) n.
Proof.
  intros Hn Ht. unfold becomeFollower. wp_steps.
  apply wp_SaveMeta; [apply Hn|done|]. simpl. intros err rl' _ ? ? ? ? ?.
  apply wp_resetElectionTimer; [apply Hn|]. intros tm r _. destruct Hn.
  split; [|done]. split; [done..|]. split; simpl; try done; congruence.
Qed.

(** The state in which a handler goes on after it has compared the terms. *)
Record caught_up n (t : Term) n' : Prop := {
  cu_down : quiet_or_down n t n';
  cu_term : n_currentTerm n' = N.max (n_currentTerm n) t;
  cu_vote : n_votedFor n' = if (n_currentTerm n <? t)%N then "" else n_votedFor n;
  cu_log : entries_kept (n_raftLog n) (n_raftLog n');
  cu_commit : n_commitIndex n' = n_commitIndex n
}.

Lemma wp_catch_up n t (Q : unit -> RaftNode B E -> Prop) : node_inv n -> u64_ok t ->
  (n_currentTerm n <= t)%N -> (forall n', caught_up n t n' -> Q tt n') ->
  wp (when (n_currentTerm n <? t)%N (becomeFollower t)) Q n.
Proof.
  intros Hn Ht Hle HQ. destruct (n_currentTerm n <? t)%N eqn:Elt; cbn [when].
  - eapply wp_mono; [by apply wp_becomeFollower_log|]. intros [] n' (Hd & Hk & Hc). apply HQ.
    apply N.ltb_lt in Elt as Hlt. pose proof (sd_pv _ _ _ Hd) as [= E1 E2 E3].
    split; [by right|rewrite E1; lia|by rewrite Elt|done|done].
  - wp_step. apply HQ. apply N.ltb_ge in Elt as Hge.
    split; [left; by apply quiet_refl|lia|by rewrite Elt|done|done].
Qed.

(** ** Votes *)

(** The candidate's log is at least as up to date: last term first, then length. *)
Definition up_to_date n (req : RequestVoteRequest) : Prop :=
  (LastTerm (n_raftLog n) < rv_LastLogTerm req)%N \/
  (LastTerm (n_raftLog n) = rv_LastLogTerm req /\ LastIndex (n_raftLog n) <= rv_LastLogIndex req)%N.

Definition may_vote n (req : RequestVoteRequest) : Prop :=
  (n_currentTerm n <= rv_Term req)%N /\
  ((n_currentTerm n < rv_Term req)%N \/ n_votedFor n = "" \/ n_votedFor n = rv_CandidateID req) /\
  up_to_date n req.

Lemma wp_grant_log n cand : node_inv n ->
  wp (modify (set_votedFor cand) ;; _ <- node_SaveMeta (n_currentTerm n) cand ;;
      resetElectionTimer ;; ret (mkRVResp (n_currentTerm n) true (n_id n)))%go
    (fun resp n' => resp = mkRVResp (n_currentTerm n) true (n_id n) /\
      n_currentTerm n' = n_currentTerm n /\ n_votedFor n' = cand /\
      (exists err, SaveMeta (n_raftLog n) (n_currentTerm n) cand = Done (err, n_raftLog n')) /\
      entries_kept (n_raftLog n) (n_raftLog n')) n.
Proof.
  intros Hn. wp_step. wp_step. wp_step.
  apply wp_SaveMeta; simpl; [apply Hn|apply Hn|]. intros err rl' ? ? ? ? ? ?.
  wp_step. apply wp_resetElectionTimer; [apply Hn|]. intros tm r _. wp_step.
  split_and!; try done. by exists err.
Qed.

(** The last thing done to the log was a call of [SaveMeta]: the record is on disk
    if it returned nil, and the old one if it returned an error. *)
Definition last_saved (t : Term) (v : NodeID) (rl' : RaftLog B) : Prop :=
  exists rl err, SaveMeta rl t v = Done (err, rl') /\
    match err with
    | None => LoadMeta rl' = inr (t, san v)
    | Some _ => LoadMeta rl' = LoadMeta rl
    end.

Lemma last_saved_intro rl t v err rl' : log_wf rl -> u64_ok t -> SaveMeta rl t v = Done (err, rl') ->
  last_saved t v rl'.
Proof.
  intros Hwf Ht Es. exists rl, err. split; [done|]. pose proof (SaveMeta_spec rl t v Hwf Ht) as H.
  rewrite Es in H. destruct err; [by apply same_log_reads|apply H].
Qed.

Lemma wp_RequestVote n req : node_inv n -> j_ok req ->
  wp (HandleRequestVote req) (fun resp n' =>
    rvr_VoterID resp = n_id n /\ rvr_Term resp = N.max (n_currentTerm n) (rv_Term req) /\
    n_currentTerm n' = N.max (n_currentTerm n) (rv_Term req) /\
    (rvr_VoteGranted resp = true <-> may_vote n req) /\
    (if rvr_VoteGranted resp
     then n_votedFor n' = rv_CandidateID req /\
       last_saved (rv_Term req) (rv_CandidateID req) (n_raftLog n')
     else n_votedFor n' = if (n_currentTerm n <? rv_Term req)%N then "" else n_votedFor n) /\
    entries_kept (n_raftLog n) (n_raftLog n')) n.
Proof.
  intros Hn Hreq. unfold HandleRequestVote, may_vote, up_to_date.
  do 4 wp_step. destruct (N.ltb_spec (rv_Term req) (n_currentTerm n)) as [Hlt|Hge].
  { wp_step. simpl. do 3 (split; [lia || done|]). split; [split; [done|lia]|]. split; [|done].
    by rewrite (proj2 (N.ltb_ge _ _)) by lia. }
  wp_step. apply wp_catch_up; [done|apply Hreq|done|]. intros n1 [Hd Et Ev Hk _].
  destruct (quiet_or_down_inv _ _ _ Hd) as [Hn1 Hc1]. do 4 wp_step.
  assert (n_currentTerm n1 = rv_Term req) as Et' by lia.
  assert ((n_currentTerm n < rv_Term req)%N \/ n_votedFor n = "" \/ n_votedFor n = rv_CandidateID req <->
    n_votedFor n1 = "" \/ n_votedFor n1 = rv_CandidateID req) as Hfree.
  { rewrite Ev. destruct (N.ltb_spec (n_currentTerm n) (rv_Term req)); [tauto|].
    split; [intros [?|?]; [lia|done]|tauto]. }
  wp_step.
  { wp_step. simpl. do 3 (split; [lia || done|]). split; [|done]. bool_props.
    split; [done|]. intros (_ & Hf & _). apply Hfree in Hf. tauto. }
  assert (n_votedFor n1 = "" \/ n_votedFor n1 = rv_CandidateID req) as Hf.
  { match goal with H : _ && _ = false |- _ => apply andb_false_iff in H as [?|?] end;
      bool_props; [left|right]; by apply dec_stable. }
  wp_step. apply wp_LastIndex; [apply Hn1|]. wp_step. apply wp_LastTerm; [apply Hn1|].
  rewrite (kept_LastTerm _ _ (ni_log _ Hn) (ni_log _ Hn1) Hk).
  rewrite (LastIndex_unique _ _ (ni_log _ Hn) (ni_log _ Hn1) Hk).
  set (lt := LastTerm (n_raftLog n)). set (li := LastIndex (n_raftLog n)).
  assert (((lt <? rv_LastLogTerm req) || ((rv_LastLogTerm req =? lt) && (li <=? rv_LastLogIndex req)))%N = true
    <-> (lt < rv_LastLogTerm req \/ (lt = rv_LastLogTerm req /\ li <= rv_LastLogIndex req))%N) as Hup.
  { rewrite orb_true_iff, andb_true_iff, N.ltb_lt, N.eqb_eq, N.leb_le. intuition congruence. }
  destruct (_ || _)%bool eqn:Eup; cbn [negb].
  - rewrite <-(sc_id _ _ Hc1).
    eapply wp_mono; [by apply wp_grant_log|]. intros resp n' (-> & E1 & E2 & [err E3] & E4). simpl.
    do 3 (split; [lia || done|]). split; [|split; [|by eapply entries_kept_trans]].
    + split; [|done]. intros _. split; [lia|]. split; [by apply Hfree|by apply Hup].
    + split; [done|]. rewrite Et' in E3. eapply last_saved_intro; [apply Hn1|apply Hreq|exact E3].
  - wp_step. simpl. do 3 (split; [lia || done|]). split; [|done].
    split; [done|]. intros (_ & _ & Hu'). by apply Hup in Hu'.
Qed.

(** ** The consistency check of AppendEntries *)

(** The hint of a rejection: the first index, above the snapshot, of the run of
    entries with the conflicting term that ends at [prev]. *)
Definition first_of_term (rl : RaftLog B) (t : Term) (prev ci : LogIndex) : Prop :=
  (ci <= prev)%N /\ (forall j, (ci <= j < prev)%N -> TermAt rl j = t) /\
  (ci = prev \/ rl_snapshotIndex rl + 1 <= ci)%N /\
  ((ci <= rl_snapshotIndex rl + 1)%N \/ TermAt rl (ci - 1) <> t).

Lemma conflict_loop_spec rl t fuel ci : u64_ok ci -> (rl_snapshotIndex rl + 1 < two64)%N ->
  (N.to_nat ci <= fuel)%nat -> first_of_term rl t ci (conflict_loop fuel rl t ci).
Proof.
  intros Hci Hs. revert ci Hci. induction fuel as [|f IH]; intros ci Hci Hf; cbn [conflict_loop].
  { split_and!; [done|lia|by left|left; lia]. }
  unfold SnapshotIndex. rewrite (u64_add_small _ 1) by done.
  destruct (N.ltb_spec (rl_snapshotIndex rl + 1) ci) as [Hlt|Hge].
  2:{ split_and!; [done|lia|by left|by left]. }
  rewrite u64_sub_small by (unfold u64_ok in *; lia).
  destruct (N.eqb_spec (TermAt rl (ci - 1)) t) as [Et|Et]; cbn [negb].
  2:{ split_and!; [done|lia|by left|by right]. }
  destruct (IH (ci - 1)%N) as (H1 & H2 & H3 & H4); [unfold u64_ok in *; lia|lia|].
  split_and!; [lia| |right; lia|done].
  intros j Hj. destruct (decide (j = ci - 1)%N) as [->|]; [done|]. apply H2. lia.
Qed.

(** ** Appending entries that do not conflict *)

Lemma TermAt_log rl rl' i : log_wf rl -> log_wf rl' -> meta_kept rl rl' ->
  log_at rl' i = log_at rl i -> TermAt rl' i = TermAt rl i.
Proof.
  intros Hwf Hwf' [_ Hi Ht] Ha. unfold TermAt. rewrite !Get_spec by done. by rewrite Ha, Hi, Ht.
Qed.

Lemma TermAt_entry rl i e : log_wf rl -> (rl_snapshotIndex rl < i)%N -> log_at rl i = Some e ->
  TermAt rl i = le_Term e.
Proof.
  intros Hwf Hi He. unfold TermAt. rewrite Get_spec, He by done.
  rewrite (proj2 (N.eqb_neq i 0)) by lia. by rewrite (proj2 (N.eqb_neq i _)) by lia.
Qed.

(** Entries a leader can send after index [idx - 1] that agree with the log:
    consecutive, with a term, and at each index the log has nothing or
    an entry of the same term. *)
Record mergeable (rl : RaftLog B) (idx : N) (es : list LogEntry) : Prop := {
  mg_above : (rl_snapshotIndex rl < idx)%N;
  mg_bound : (idx + N.of_nat (length es) < two64)%N;
  mg_entry k e : es !! k = Some e -> le_Index e = (idx + N.of_nat k)%N /\ j_ok e /\ le_Term e <> 0%N /\
    (TermAt rl (idx + N.of_nat k) = 0 \/ TermAt rl (idx + N.of_nat k) = le_Term e)%N
}.

(** The log with [es] merged in from [idx] on. *)
Definition merged (rl : RaftLog B) (idx : N) (es : list LogEntry) (i : N) : option LogEntry :=
  if (i <? idx)%N then log_at rl i
  else match es !! N.to_nat (i - idx) with
       | Some e => if (TermAt rl i =? 0)%N then Some (j_san e) else log_at rl i
       | None => log_at rl i
       end.

Lemma merged_cons rl rl1 idx e es i :
  (forall i, u64_ok i -> i <> idx -> TermAt rl1 i = TermAt rl i) ->
  (forall i, u64_ok i -> log_at rl1 i =
    if decide (i = idx /\ TermAt rl idx = 0%N) then Some (j_san e) else log_at rl i) ->
  u64_ok i -> merged rl1 (idx + 1) es i = merged rl idx (e :: es) i.
Proof.
  intros HT Hl Hi. unfold merged. rewrite Hl by done.
  destruct (decide (i = idx)) as [->|Hne].
  - rewrite (proj2 (N.ltb_lt idx (idx + 1))), N.ltb_irrefl, N.sub_diag by lia. simpl.
    destruct (N.eqb_spec (TermAt rl idx) 0); [by rewrite decide_True|by rewrite decide_False by tauto].
  - rewrite HT by done. rewrite decide_False by tauto.
    destruct (N.ltb_spec i idx), (N.ltb_spec i (idx + 1)); try lia; [done|].
    replace (N.to_nat (i - idx)) with (S (N.to_nat (i - (idx + 1)))) by lia. done.
Qed.

(** The log [rl'] is what a call of [Append e] left that returned an error. *)
Definition append_failed (e : LogEntry) (rl' : RaftLog B) : Prop :=
  exists rl err, Append rl e = Done (Some err, rl').

(** What the loop does to the log [rl]: it merges the entries in, or those before
    the first one that cannot be appended. *)
Definition merges (rl : RaftLog B) (idx : N) (es : list LogEntry) (ok : bool) (rl' : RaftLog B) : Prop :=
  exists k, (k <= length es)%nat /\
    (forall i, u64_ok i -> log_at rl' i = merged rl idx (take k es) i) /\
    if ok then k = length es else exists e, es !! k = Some e /\ append_failed e rl'.

Lemma merges_nil rl idx : merges rl idx [] true rl.
Proof. exists 0%nat. split_and!; [done| |done]. intros i _. unfold merged. simpl take. rewrite lookup_nil. by case_match. Qed.

Lemma merges_cons rl rl1 rl' idx e es ok :
  (forall i, u64_ok i -> i <> idx -> TermAt rl1 i = TermAt rl i) ->
  (forall i, u64_ok i -> log_at rl1 i =
    if decide (i = idx /\ TermAt rl idx = 0%N) then Some (j_san e) else log_at rl i) ->
  merges rl1 (idx + 1) es ok rl' -> merges rl idx (e :: es) ok rl'.
Proof.
  intros HT Hl (k & Hk & Hm & Hok). exists (S k). split_and!; [simpl; lia| |].
  - intros i Hi. rewrite Hm by done. by apply merged_cons.
  - destruct ok; [simpl; lia|done].
Qed.

(** A failing first append. *)
Lemma merges_failed rl rl' idx e es : same_log rl rl' -> append_failed e rl' ->
  merges rl idx (e :: es) false rl'.
Proof.
  intros Hs Hf. exists 0%nat. split_and!; [simpl; lia| |by exists e]. intros i _. unfold merged.
  simpl take. rewrite lookup_nil. unfold log_at. rewrite (same_log_bkt _ _ Hs). by case_match.
Qed.

Lemma mergeable_tail rl rl1 idx e es : mergeable rl idx (e :: es) ->
  rl_snapshotIndex rl1 = rl_snapshotIndex rl ->
  (forall i, u64_ok i -> i <> idx -> TermAt rl1 i = TermAt rl i) -> mergeable rl1 (idx + 1) es.
Proof.
  intros [Ha Hb He] Hs HT. cbn [length] in Hb. split; [rewrite Hs; lia|lia|]. intros k e' Hk.
  destruct (He (S k) e' Hk) as (E1 & E2 & E3 & E4). apply lookup_lt_Some in Hk.
  rewrite HT; [|unfold u64_ok; lia|lia].
  replace (idx + 1 + N.of_nat k)%N with (idx + N.of_nat (S k))%N by lia. done.
Qed.

(** The rest of the loop, when the first entry was in the log or has been added. *)
Definition loop_post n idx es (ok : bool) n' : Prop :=
  quiet n n' /\ n_commitIndex n' = n_commitIndex n /\ meta_kept (n_raftLog n) (n_raftLog n') /\
  merges (n_raftLog n) idx es ok (n_raftLog n').

Lemma loop_post_cons n n1 idx e es ok n' :
  quiet n n1 -> n_commitIndex n1 = n_commitIndex n -> meta_kept (n_raftLog n) (n_raftLog n1) ->
  (forall i, u64_ok i -> i <> idx -> TermAt (n_raftLog n1) i = TermAt (n_raftLog n) i) ->
  (forall i, u64_ok i -> log_at (n_raftLog n1) i =
    if decide (i = idx /\ TermAt (n_raftLog n) idx = 0%N) then Some (j_san e) else log_at (n_raftLog n) i) ->
  loop_post n1 (idx + 1) es ok n' -> loop_post n idx (e :: es) ok n'.
Proof.
  intros Hq1 Hc1 Hk1 HT Hl1 (Hq2 & Hc2 & Hk2 & Hm). split_and!.
  - by eapply quiet_trans.
  - congruence.
  - destruct Hk1, Hk2. split; congruence.
  - by eapply merges_cons.
Qed.

Lemma wp_append_loop_merge es : forall n idx, node_inv n -> mergeable (n_raftLog n) idx es ->
  wp (append_loop idx es) (loop_post n idx es) n.
Proof.
  induction es as [|e es IH]; intros n idx Hn Hm; cbn [append_loop].
  { wp_step. split_and!; [by apply quiet_refl|done|done|apply merges_nil]. }
  destruct (mg_entry _ _ _ Hm 0%nat e eq_refl) as (Eidx & Hj & Hne & Ht).
  change (N.of_nat 0) with 0%N in *. rewrite N.add_0_r in *.
  pose proof (mg_bound _ _ _ Hm) as Hb. cbn [length] in Hb.
  wp_step. apply wp_TermAt; [apply Hn|]. wp_step. set (et := TermAt (n_raftLog n) idx) in *.
  assert (negb (et =? 0)%N && negb (et =? le_Term e)%N = false) as ->.
  { destruct Ht as [->| ->]; [done|]. rewrite N.eqb_refl. by rewrite andb_false_r. }
  wp_step. cbn [negb]. wp_step. rewrite u64_add_small by lia.
  assert (forall n1, quiet n n1 -> n_commitIndex n1 = n_commitIndex n ->
    meta_kept (n_raftLog n) (n_raftLog n1) ->
    (forall i, u64_ok i -> log_at (n_raftLog n1) i =
      if decide (i = idx /\ et = 0%N) then Some (j_san e) else log_at (n_raftLog n) i) ->
    wp (append_loop (idx + 1) es) (loop_post n idx (e :: es)) n1) as Hrest.
  { intros n1 Hq1 Hc1 Hk1 Hl1.
    assert (forall i, u64_ok i -> i <> idx -> TermAt (n_raftLog n1) i = TermAt (n_raftLog n) i) as HT.
    { intros i Hi Hne'. apply TermAt_log; [apply Hn|apply Hq1|done|]. rewrite Hl1 by done.
      by rewrite decide_False by tauto. }
    eapply wp_mono; [apply IH; [apply Hq1|]|].
    - by apply (mergeable_tail (n_raftLog n) _ idx e); [|apply Hk1|].
    - intros ok n'. by apply loop_post_cons. }
  destruct (N.eqb_spec et 0) as [Ez|Ez].
  - wp_step. apply wp_Append; [done..|]. intros err rl' Ea Hq.
    pose proof (Append_spec (n_raftLog n) e (ni_log _ Hn) Hj) as Hs. rewrite Ea in Hs. wp_step.
    destruct err as [err|].
    + rewrite bool_decide_eq_false_2 by done. cbn [negb]. wp_step.
      split_and!; [done|done|by apply same_log_kept|apply merges_failed; [done|by exists (n_raftLog n), err]].
    + destruct Hs as (_ & Hk & Hl). rewrite bool_decide_eq_true_2 by done. cbn [negb].
      apply Hrest; [done|done|done|]. intros i Hi. cbn [set_raftLog n_raftLog]. rewrite Hl, Eidx by done.
      destruct (decide (i = idx)) as [->|]; [by rewrite decide_True by done|by rewrite decide_False by tauto].
  - wp_step. cbn [negb]. apply Hrest; [by apply quiet_refl|done|done|].
    intros i _. by rewrite decide_False by tauto.
Qed.

(** ** The whole handler *)

(** The state after the term check of [HandleAppendEntries]. *)
Record entered n (req : AppendEntriesRequest) n' : Prop := {
  en_inv : node_inv n';
  en_id : n_id n' = n_id n;
  en_term : n_currentTerm n' = ae_Term req;
  en_log : entries_kept (n_raftLog n) (n_raftLog n');
  en_commit : n_commitIndex n' = n_commitIndex n;
  en_leader : n_leaderID n' = ae_LeaderID req
}.

(** What is left of the handler then. *)
Definition append_checked (req : AppendEntriesRequest) (id : NodeID) : M (RaftNode B E) AppendEntriesResponse :=
  (if (0 <? ae_PrevLogIndex req)%N then
      lastIndex <- node_LastIndex ;;
      if (lastIndex <? ae_PrevLogIndex req)%N then
        ret (mkAEResp (ae_Term req) false id 0 (lastIndex + 1)%u64 0)
      else
        prevTerm <- node_TermAt (ae_PrevLogIndex req) ;;
        if negb (prevTerm =? ae_PrevLogTerm req)%N then
          rl <- gets n_raftLog ;;
          ret (mkAEResp (ae_Term req) false id 0
            (conflict_loop (N.to_nat (ae_PrevLogIndex req)) rl prevTerm (ae_PrevLogIndex req)) prevTerm)
        else append_accept req (ae_Term req)
      else append_accept req (ae_Term req))%go.

Lemma AppendEntries_enter n req :
  node_inv n -> j_ok req -> (n_currentTerm n <= ae_Term req)%N ->
  exists n2, entered n req n2 /\ HandleAppendEntries req n = append_checked req (n_id n) n2.
Proof.
  intros Hn Hreq Hle.
  assert (wp resetElectionTimer (fun _ n0 => quiet n n0 /\ n_raftLog n0 = n_raftLog n /\
    n_commitIndex n0 = n_commitIndex n) n) as H0.
  { apply wp_resetElectionTimer; [apply Hn|]. intros tm r _. split; [by apply quiet_timer|done]. }
  apply wp_run in H0 as ([] & n0 & E0 & Hq0 & El0 & Ec0). pose proof (q_pv _ _ Hq0) as [= Et0 _ _].
  assert (wp (when (n_currentTerm n <? ae_Term req)%N (becomeFollower (ae_Term req)))
    (fun _ n1 => caught_up n0 (ae_Term req) n1) n0) as H1.
  { rewrite <-Et0 in *. by apply wp_catch_up; [apply Hq0|apply Hreq|done|]. }
  apply wp_run in H1 as ([] & n1 & E1 & [Hd Et Ev Hk Hc]).
  destruct (quiet_or_down_inv _ _ _ Hd) as [Hn1 Hc1].
  exists (set_leaderID (ae_LeaderID req) n1). split.
  - destruct (quiet_leaderID n1 (ae_LeaderID req) Hn1). split; simpl; try done.
    + rewrite (sc_id _ _ Hc1). apply Hq0.
    + rewrite Et. lia.
    + by rewrite <-El0.
    + congruence.
  - unfold HandleAppendEntries. do 2 erewrite bind_done by reflexivity.
    rewrite (proj2 (N.ltb_ge _ _) Hle). rewrite (bind_done _ _ _ _ _ E0), (bind_done _ _ _ _ _ E1).
    do 2 erewrite bind_done by reflexivity. rewrite Et, N.max_r by lia. done.
Qed.

Lemma kept_reads rl rl' : log_wf rl -> log_wf rl' -> entries_kept rl rl' ->
  LastIndex rl' = LastIndex rl /\ (forall i, TermAt rl' i = TermAt rl i) /\
  (forall i, log_at rl' i = log_at rl i).
Proof.
  intros Hwf Hwf' Hk. split; [by apply LastIndex_unique|].
  split; intros i; [by apply kept_TermAt|by apply kept_log_at].
Qed.

(** The request passes the consistency check. *)
Definition prev_matches n (req : AppendEntriesRequest) : Prop :=
  ae_PrevLogIndex req = 0%N \/
  ((ae_PrevLogIndex req <= LastIndex (n_raftLog n))%N /\
   TermAt (n_raftLog n) (ae_PrevLogIndex req) = ae_PrevLogTerm req).

Lemma AppendEntries_match n req :
  node_inv n -> j_ok req -> (n_currentTerm n <= ae_Term req)%N -> prev_matches n req ->
  exists n2, entered n req n2 /\ HandleAppendEntries req n = append_accept req (ae_Term req) n2.
Proof.
  intros Hn Hreq Hle Hprev. destruct (AppendEntries_enter n req Hn Hreq Hle) as (n2 & H2 & ->).
  exists n2. split; [done|]. pose proof (en_inv _ _ _ H2) as Hn2. pose proof (ni_log _ Hn2) as Hwf2.
  destruct (kept_reads _ _ (ni_log _ Hn) Hwf2 (en_log _ _ _ H2)) as (E1 & E2 & _).
  unfold append_checked. destruct (N.ltb_spec 0 (ae_PrevLogIndex req)); [|done].
  destruct Hprev as [?|[Hi Ht]]; [lia|].
  assert (node_LastIndex n2 = Done (LastIndex (n_raftLog n), n2)) as El.
  { unfold node_LastIndex, log_read. by rewrite log_LastIndex_done, E1. }
  assert (node_TermAt (ae_PrevLogIndex req) n2 = Done (ae_PrevLogTerm req, n2)) as Etm.
  { unfold node_TermAt, log_read. by rewrite log_TermAt_done, E2, Ht. }
  rewrite (bind_done _ _ _ _ _ El), (proj2 (N.ltb_ge _ _) Hi), (bind_done _ _ _ _ _ Etm).
  by rewrite N.eqb_refl.
Qed.

Lemma first_of_term_kept rl rl' t prev ci :
  log_wf rl -> log_wf rl' -> entries_kept rl rl' ->
  first_of_term rl' t prev ci -> first_of_term rl t prev ci.
Proof.
  intros Hwf Hwf' Hk (H1 & H2 & H3 & H4).
  destruct (kept_reads _ _ Hwf Hwf' Hk) as (_ & HT & _). rewrite (ek_index _ _ Hk) in *.
  split; [done|]. split; [intros j Hj; rewrite <-HT; auto|]. split; [done|]. by rewrite HT in H4.
Qed.

(** A current request that fails the check is refused, with its hint. *)
Lemma wp_AppendEntries_refuse n req :
  let rl := n_raftLog n in let prev := ae_PrevLogIndex req in
  node_inv n -> j_ok req -> (rl_snapshotIndex rl + 1 < two64)%N ->
  (n_currentTerm n <= ae_Term req)%N -> ~ prev_matches n req ->
  wp (HandleAppendEntries req) (fun resp n' => aer_Success resp = false /\
    aer_Term resp = ae_Term req /\ entries_kept rl (n_raftLog n') /\ n_commitIndex n' = n_commitIndex n /\
    (if (LastIndex rl <? prev)%N then
       aer_ConflictIndex resp = (LastIndex rl + 1)%u64 /\ aer_ConflictTerm resp = 0%N
     else aer_ConflictTerm resp = TermAt rl prev /\
       first_of_term rl (TermAt rl prev) prev (aer_ConflictIndex resp))) n.
Proof.
  intros rl prev Hn Hreq Hs Hge Hno.
  destruct (AppendEntries_enter n req Hn Hreq Hge) as (n2 & [Hn2 Eid Et Hk Hc _] & Eh).
    unfold wp. rewrite Eh. change (wp (append_checked req (n_id n)) (fun resp n' => aer_Success resp = false /\
      aer_Term resp = ae_Term req /\ entries_kept rl (n_raftLog n') /\ n_commitIndex n' = n_commitIndex n /\
      (if (LastIndex rl <? prev)%N then
         aer_ConflictIndex resp = (LastIndex rl + 1)%u64 /\ aer_ConflictTerm resp = 0%N
       else aer_ConflictTerm resp = TermAt rl prev /\
         first_of_term rl (TermAt rl prev) prev (aer_ConflictIndex resp))) n2).
    unfold append_checked.
    destruct (kept_reads _ _ (ni_log _ Hn) (ni_log _ Hn2) Hk) as (E1 & E2 & _).
    fold prev. assert (0 < prev)%N as Hpos.
    { destruct (decide (prev = 0)%N); [|lia]. destruct Hno. by left. }
    rewrite (proj2 (N.ltb_lt _ _) Hpos). wp_step. apply wp_LastIndex; [apply Hn2|]. rewrite E1.
    fold rl. destruct (LastIndex rl <? prev)%N eqn:Elast; [by wp_step|]. apply N.ltb_ge in Elast.
    wp_step. apply wp_TermAt; [apply Hn2|]. rewrite E2. fold rl. destruct (N.eqb_spec (TermAt rl prev) (ae_PrevLogTerm req)) as [Ep|Ep].
    { destruct Hno. by right. }
    cbn [negb]. wp_step. wp_step. wp_step. simpl. split_and!; try done.
    apply (first_of_term_kept rl (n_raftLog n2)); [apply Hn|apply Hn2|done|].
    apply conflict_loop_spec; [apply Hreq|by rewrite (ek_index _ _ Hk)|done].
Qed.

(** The commit index a follower moves to. *)
Definition follower_commit (commit leaderCommit lastNew : LogIndex) : LogIndex :=
  N.max commit (N.min leaderCommit lastNew).

Lemma wp_advance n req : node_inv n -> j_ok req ->
  (ae_PrevLogIndex req + N.of_nat (length (ae_Entries req)) < two64)%N ->
  wp (advance_commit req) (fun _ n' => quiet n n' /\ n_raftLog n' = n_raftLog n /\
    n_commitIndex n' = follower_commit (n_commitIndex n) (ae_LeaderCommit req)
      (ae_PrevLogIndex req + N.of_nat (length (ae_Entries req)))) n.
Proof.
  intros Hn Hreq Hb. apply wp_and; [by apply wp_advance_commit|].
  unfold advance_commit, follower_commit, spawn. rewrite u64_add_small by done.
  repeat (wp_step; bool_props); simpl; split; try done; repeat case_match; bool_props; lia.
Qed.

(** Entries that agree with the log are merged into it; the reply reports the
    last index, and the commit index follows the leader's up to the last entry
    sent.  An error of the log ends the merge: the reply is negative and the commit
    index stays. *)
Definition accept_post n req (resp : AppendEntriesResponse) n' : Prop :=
  n_currentTerm n' = ae_Term req /\ node_inv n' /\
  merges (n_raftLog n) (ae_PrevLogIndex req + 1) (ae_Entries req) (aer_Success resp) (n_raftLog n') /\
  if aer_Success resp then
    resp = mkAEResp (ae_Term req) true (n_id n) (LastIndex (n_raftLog n')) 0 0 /\
    n_commitIndex n' = follower_commit (n_commitIndex n) (ae_LeaderCommit req)
      (ae_PrevLogIndex req + N.of_nat (length (ae_Entries req)))
  else resp = mkAEResp (ae_Term req) false (n_id n) 0 0 0 /\ n_commitIndex n' = n_commitIndex n.

Lemma merges_kept rl rl2 idx es ok rl' : log_wf rl -> log_wf rl2 -> entries_kept rl rl2 ->
  merges rl2 idx es ok rl' -> merges rl idx es ok rl'.
Proof.
  intros Hwf Hwf2 Hk (k & Hle & Hm & Hok). exists k. split_and!; [done| |done].
  destruct (kept_reads _ _ Hwf Hwf2 Hk) as (_ & ET & El).
  intros i Hi. rewrite Hm by done. unfold merged. by rewrite El, ET.
Qed.

Lemma wp_AppendEntries_accept n req : node_inv n -> j_ok req ->
  (n_currentTerm n <= ae_Term req)%N -> prev_matches n req ->
  mergeable (n_raftLog n) (ae_PrevLogIndex req + 1) (ae_Entries req) ->
  wp (HandleAppendEntries req) (accept_post n req) n.
Proof.
  intros Hn Hreq Hle Hprev Hm.
  destruct (AppendEntries_match n req Hn Hreq Hle Hprev) as (n2 & [Hn2 Eid Et Hk Hc _] & Eh).
  unfold wp. rewrite Eh. change (wp (append_accept req (ae_Term req)) (accept_post n req) n2).
  pose proof (mg_bound _ _ _ Hm) as Hb.
  destruct (kept_reads _ _ (ni_log _ Hn) (ni_log _ Hn2) Hk) as (_ & ET & El).
  assert (mergeable (n_raftLog n2) (ae_PrevLogIndex req + 1) (ae_Entries req)) as Hm2.
  { destruct Hm as [M1 M2 M3]. split; [by rewrite (ek_index _ _ Hk)|done|].
    intros k e Hke. rewrite ET. by apply M3. }
  unfold append_accept. wp_step. wp_step. wp_step.
  rewrite u64_add_small by lia. eapply wp_mono; [by apply wp_append_loop_merge|].
  intros ok n3 (Hq3 & Hc3 & _ & Hl3). pose proof (q_pv _ _ Hq3) as [= P1 _ _].
  apply (merges_kept (n_raftLog n)) in Hl3; [|apply Hn|apply Hn2|done].
  destruct ok; cbn [negb].
  - wp_step. eapply wp_mono; [apply wp_advance; [apply Hq3|done|lia]|]. intros [] n4 (Hq4 & Hl4 & Hc4).
    wp_step. apply wp_LastIndex; [apply Hq4|]. wp_step. pose proof (q_pv _ _ Hq4) as [= P2 _ _].
    split; [congruence|]. split; [apply Hq4|]. split; [by rewrite Hl4|].
    split; [by rewrite Eid|]. by rewrite Hc4, Hc3, Hc.
  - wp_step. split; [congruence|]. split; [apply Hq3|]. split; [done|]. simpl. rewrite Eid.
    split; [done|congruence].
Qed.

(** ** A conflicting entry *)

(** Consecutive entries from [idx] on. *)
Definition consecutive (idx : N) (es : list LogEntry) : Prop :=
  forall k e, es !! k = Some e -> le_Index e = (idx + N.of_nat k)%N.

(** The loop never fills an index below the one it starts from. *)
Lemma append_loop_below i es : forall n idx, node_inv n -> u64_ok i -> (i < idx)%N ->
  (idx + N.of_nat (length es) < two64)%N -> Forall (fun e => j_ok e) es -> consecutive idx es ->
  log_at (n_raftLog n) i = None ->
  wlp (append_loop idx es) (fun _ n' => log_at (n_raftLog n') i = None) n.
Proof.
  induction es as [|e es IH]; intros n idx Hn Hi Hlt Hb Hj Hc Hnone; cbn [append_loop]; [by wp_step|].
  apply Forall_cons in Hj as [He Hj]. cbn [length] in Hb. pose proof (Hc 0%nat e eq_refl) as Eidx.
  wp_step. apply wlp_wp, wp_TermAt; [apply Hn|]. set (et := TermAt (n_raftLog n) idx). wp_step.
  assert (forall n1 ok, node_inv n1 -> log_at (n_raftLog n1) i = None -> wlp (
    if negb ok then ret false else
    ok <- (if (et =? 0)%N then
                 err <- node_Append e ;;
                 ret (bool_decide (err = None))
               else ret true) ;;
        if negb ok then ret false
        else append_loop (idx + 1)%u64 es)%go (fun _ n' => log_at (n_raftLog n') i = None) n1) as Hrest.
  { intros n1 ok1 Hn1 Hnone1. wp_step; [by wp_step|]. wp_step.
    apply (wlp_mono _ (fun _ n2 => node_inv n2 /\ log_at (n_raftLog n2) i = None)).
    - wp_step; [|by wp_step]. wp_step. apply wlp_wp, wp_Append; [done..|]. intros err rl' Ea Hq.
      wp_step. split; [apply Hq|]. pose proof (Append_spec (n_raftLog n1) e (ni_log _ Hn1) He) as Hs.
      rewrite Ea in Hs. cbn [set_raftLog n_raftLog]. destruct err as [err|].
      + unfold log_at. by rewrite (same_log_bkt _ _ Hs).
      + destruct Hs as (_ & _ & Hl). rewrite Hl by done. rewrite decide_False by lia. done.
    - intros ok n2 [Hn2 Hnone2]. wp_step; [by wp_step|]. rewrite u64_add_small by lia.
      apply IH; [done|done|lia|lia|done| |done]. intros k e' Hk. rewrite (Hc (S k) e' Hk). lia. }
  destruct (negb (et =? 0)%N && negb (et =? le_Term e)%N).
  - assert (u64_ok idx) as Hidx by (unfold u64_ok; lia). wp_step.
    eapply wpe_wlp, wpe_TruncateFrom; [done..|]. intros err rl' Etr Hq. wp_step. apply Hrest; [apply Hq|].
    pose proof (TruncateFrom_spec (n_raftLog n) idx (ni_log _ Hn) Hidx) as Hs. rewrite Etr in Hs.
    cbn [set_raftLog n_raftLog]. destruct err as [err|].
    + unfold log_at. by rewrite (same_log_bkt _ _ Hs).
    + destruct Hs as (_ & _ & Hp & _). destruct (Hp i Hi) as [->|[-> _]]; done.
  - wp_step. by apply Hrest.
Qed.

(** An entry with a term other than 0 is there, above the boundary. *)
Lemma TermAt_present rl i : log_wf rl -> (rl_snapshotIndex rl < i)%N -> TermAt rl i <> 0%N ->
  is_Some (log_at rl i).
Proof.
  intros Hwf Hi. unfold TermAt. rewrite Get_spec by done.
  rewrite (proj2 (N.eqb_neq i 0)), (proj2 (N.eqb_neq i _)) by lia. by destruct (log_at rl i).
Qed.

(** When the entry at [idx] conflicts, the loop truncates the log there and goes on
    with the entries after the conflicting one. *)
Lemma append_loop_conflict n idx e es : node_inv n ->
  TermAt (n_raftLog n) idx <> 0%N -> TermAt (n_raftLog n) idx <> le_Term e ->
  append_loop idx (e :: es) n =
  match TruncateFrom (n_raftLog n) idx with
  | Panic p => Panic p
  | Done (None, rl') => append_loop (idx + 1)%u64 es (set_raftLog rl' n)
  | Done (Some _, rl') => Done (false, set_raftLog rl' n)
  end.
Proof.
  intros Hn Hz Ht. cbn [append_loop].
  assert (node_TermAt idx n = Done (TermAt (n_raftLog n) idx, n)) as Etm.
  { unfold node_TermAt, log_read. by rewrite log_TermAt_done by apply Hn. }
  rewrite (bind_done _ _ _ _ _ Etm), (proj2 (N.eqb_neq _ _) Hz), (proj2 (N.eqb_neq _ _) Ht). cbn [negb andb].
  unfold bind, node_TruncateFrom, log_op, ret. destruct (TruncateFrom _ _) as [[[err|] rl']|p]; [|done|done].
  by rewrite bool_decide_eq_false_2.
Qed.

(** The hole the truncation leaves at [idx]. *)
Lemma conflict_hole n idx e es : node_inv n -> (rl_snapshotIndex (n_raftLog n) < idx)%N ->
  (idx + N.of_nat (length (e :: es)) < two64)%N -> consecutive idx (e :: es) ->
  Forall (fun e => j_ok e) (e :: es) ->
  TermAt (n_raftLog n) idx <> 0%N -> TermAt (n_raftLog n) idx <> le_Term e ->
  wlp (append_loop idx (e :: es)) (fun ok n' => ok = true -> log_at (n_raftLog n') idx = None) n.
Proof.
  intros Hn Ha Hb Hc Hj Hz Ht. cbn [length] in Hb. unfold wlp. rewrite append_loop_conflict by done.
  assert (u64_ok idx) as Hidx by (unfold u64_ok; lia).
  pose proof (TruncateFrom_spec (n_raftLog n) idx (ni_log _ Hn) Hidx) as Hs.
  destruct (TruncateFrom _ _) as [[[err|] rl']|p]; [done| |done]. destruct Hs as (Hwf' & Hk & _ & Hfst).
  apply Forall_cons in Hj as [_ Hj]. rewrite u64_add_small by lia.
  pose proof (quiet_kept n rl' Hn Hwf' Hk) as Hq.
  assert (wlp (append_loop (idx + 1) es) (fun _ n' => log_at (n_raftLog n') idx = None)
    (set_raftLog rl' n)) as Hl.
  { apply append_loop_below; [apply Hq|done|lia|lia|done| |].
    - intros k e' Hke. rewrite (Hc (S k) e' Hke). lia.
    - apply Hfst. split_and!; [done|lia|by apply TermAt_present; [apply Hn|..]|done]. }
  unfold wlp in Hl. destruct (append_loop _ _ _) as [[ok n']|]; done.
Qed.

(** The whole handler, once the request has passed the checks. *)
Lemma conflict_replies n req e es : node_inv n -> j_ok req ->
  let idx := (ae_PrevLogIndex req + 1)%N in
  ae_Entries req = e :: es -> consecutive idx (e :: es) ->
  (rl_snapshotIndex (n_raftLog n) < idx)%N -> (idx + N.of_nat (length (e :: es)) < two64)%N ->
  TermAt (n_raftLog n) idx <> 0%N -> TermAt (n_raftLog n) idx <> le_Term e ->
  wlp (append_accept req (ae_Term req)) (fun resp n' => aer_Success resp = true ->
    log_at (n_raftLog n') idx = None) n.
Proof.
  intros Hn Hreq idx Ees Hc Hi Hb Hz Hne. pose proof Hb as Hb'. cbn [length] in Hb'.
  assert (Forall (fun e => j_ok e) (e :: es)) as Hj by (rewrite <-Ees; apply Hreq).
  unfold append_accept. wp_step. wp_step. wp_step. rewrite Ees, u64_add_small by (fold idx; lia). fold idx.
  assert (wlp (append_loop idx (e :: es)) (fun _ n' => quiet n n') n) as Hq.
  { eapply wpe_wlp, wpe_append_loop; [done|unfold u64_ok; lia|done]. }
  pose proof (conflict_hole n idx e es Hn Hi Hb Hc Hj Hz Hne) as Hh.
  unfold wlp in Hq, Hh |- *. destruct (append_loop idx (e :: es) n) as [[ok n1]|p]; [|done].
  destruct ok; cbn [negb]; [|done]. specialize (Hh eq_refl).
  assert (wp (advance_commit req ;; last <- node_LastIndex ;;
    ret (mkAEResp (ae_Term req) true (n_id n) last 0 0))%go
    (fun _ n' => log_at (n_raftLog n') idx = None) n1) as Hw.
  { wp_step. eapply wp_mono; [apply wp_advance; [apply Hq|done|rewrite Ees; cbn [length]; lia]|].
    intros [] n2 (Hq2 & Hl2 & _). wp_step. apply wp_LastIndex; [apply Hq2|]. wp_step. by rewrite Hl2. }
  unfold wp in Hw. destruct (bind _ _ n1) as [[resp n']|]; done.
Qed.

Lemma conflict_runs n req e es : node_inv n -> j_ok req ->
  let idx := (ae_PrevLogIndex req + 1)%N in
  ae_Entries req = e :: es -> (idx + N.of_nat (length (e :: es)) < two64)%N ->
  TermAt (n_raftLog n) idx <> 0%N -> TermAt (n_raftLog n) idx <> le_Term e ->
  match TruncateFrom (n_raftLog n) idx with
  | Panic p => append_accept req (ae_Term req) n = Panic p
  | Done (Some _, _) => exists n', append_accept req (ae_Term req) n
      = Done (mkAEResp (ae_Term req) false (n_id n) 0 0 0, n')
  | Done (None, rl') => es = [] -> exists n', append_accept req (ae_Term req) n
      = Done (mkAEResp (ae_Term req) true (n_id n) (LastIndex rl') 0 0, n') /\ n_raftLog n' = rl'
  end.
Proof.
  intros Hn Hreq idx Ees Hb Hz Hne. cbn [length] in Hb.
  assert (append_accept req (ae_Term req) n =
    match TruncateFrom (n_raftLog n) idx with
    | Panic p => Panic p
    | Done (Some _, rl') => Done (mkAEResp (ae_Term req) false (n_id n) 0 0 0, set_raftLog rl' n)
    | Done (None, rl') => (ok <- append_loop (idx + 1)%u64 es ;;
        if negb ok then ret (mkAEResp (ae_Term req) false (n_id n) 0 0 0)
        else advance_commit req ;; last <- node_LastIndex ;;
          ret (mkAEResp (ae_Term req) true (n_id n) last 0 0))%go (set_raftLog rl' n)
    end) as ->.
  { unfold append_accept. erewrite bind_done by reflexivity. rewrite Ees, u64_add_small by (fold idx; lia).
    fold idx. unfold bind at 1. rewrite append_loop_conflict by done.
    by destruct (TruncateFrom (n_raftLog n) idx) as [[[err|] rl']|p]. }
  assert (u64_ok idx) as Hidx by (unfold u64_ok; lia).
  pose proof (TruncateFrom_spec (n_raftLog n) idx (ni_log _ Hn) Hidx) as Hs.
  destruct (TruncateFrom (n_raftLog n) idx) as [[[err|] rl']|p]; [by eexists| |done].
  intros ->. cbn [append_loop]. erewrite bind_done by reflexivity. cbn [negb].
  destruct Hs as (Hwf & Hk & _). pose proof (quiet_kept n rl' Hn Hwf Hk) as Hq.
  pose proof (wp_advance (set_raftLog rl' n) req (q_inv _ _ Hq) Hreq) as Hw.
  specialize (Hw ltac:(rewrite Ees; cbn [length]; lia)).
  apply wp_run in Hw as ([] & n2 & Ea & Hq2 & Hl2 & _). exists n2.
  rewrite (bind_done _ _ _ _ _ Ea). split; [|done]. unfold bind, node_LastIndex, log_read.
  rewrite Hl2. cbn [set_raftLog n_raftLog]. by rewrite log_LastIndex_done.
Qed.

(** ** Proposals *)

(** What [Propose_begin] does on a leader: the entry is appended and a channel
    registered for its index, or the log reported an error and nothing is. *)
Definition proposed n (e : LogEntry) (r : error + (LogIndex * nat)) n' : Prop :=
  quiet n n' /\ n_commitIndex n' = n_commitIndex n /\ meta_kept (n_raftLog n) (n_raftLog n') /\
  match r with
  | inr (i, ch) => i = le_Index e /\ n_chans n !! ch = None /\ n_chans n' = <[ch := []]> (n_chans n) /\
      n_pending n' = <[le_Index e := ch]> (n_pending n) /\
      (forall i, u64_ok i -> log_at (n_raftLog n') i =
        if decide (i = le_Index e) then Some (j_san e) else log_at (n_raftLog n) i)
  | inl err => n_chans n' = n_chans n /\ n_pending n' = n_pending n /\
      (forall i, log_at (n_raftLog n') i = log_at (n_raftLog n) i) /\
      exists err', err = Wrapf "appending to log" err' /\
        Append (n_raftLog n) e = Done (Some err', n_raftLog n')
  end.

Lemma wp_Propose_leader n cmd : node_inv n -> n_state n = Leader ->
  (LastIndex (n_raftLog n) + 1 < two64)%N ->
  wp (Propose_begin cmd)
    (proposed n (mkLogEntry (LastIndex (n_raftLog n) + 1) (n_currentTerm n) cmd)) n.
Proof.
  intros Hn Hst Hlt. set (e := mkLogEntry _ _ _).
  assert (j_ok e) as Hj by (split; [exact Hlt|apply Hn]). unfold proposed.
  apply wp_and; [by apply wp_Propose_begin|]. unfold Propose_begin. wp_step. wp_step.
  rewrite bool_decide_eq_true_2 by done. cbn [negb]. wp_step. apply wp_LastIndex; [apply Hn|]. wp_step.
  rewrite u64_add_small by done. fold e. apply wp_Append; [done..|]. intros err rl' Ea Hq.
  pose proof (Append_spec (n_raftLog n) e (ni_log _ Hn) Hj) as Hs. rewrite Ea in Hs.
  destruct err as [err|].
  - wp_step. split; [done|]. split; [by apply same_log_kept|]. split; [done|]. split; [done|].
    split; [by apply same_log_reads; [|apply Hn]|by exists err].
  - destruct Hs as (_ & Hk & Hl). do 4 wp_step. wp_step. split; [done|]. split; [done|].
    split; [done|]. split; [apply fresh_chan_None|]. done.
Qed.

(** What a leader sends: the snapshot to a peer that needs entries before it,
    and otherwise the entries from the peer's next index on. *)
Lemma wp_prepare n ls peer : node_inv n -> n_state n = Leader -> n_leader n = Some ls ->
  (LastIndex (n_raftLog n) + 1 < two64)%N ->
  let rl := n_raftLog n in
  let next := map_get (nextIndex ls) (peer_ID peer) in
  wp (replicateToPeer_prepare peer) (fun c n' => n' = n /\
    if (next <=? rl_snapshotIndex rl)%N then
      c = Some (CallSnapshot (rl_snapshotIndex rl) (mkISReq (n_currentTerm n) (n_id n)
        (rl_snapshotIndex rl) (rl_snapshotTerm rl) (n_snapshotData n)))
    else exists es, c = Some (CallAppend (mkAEReq (n_currentTerm n) (n_id n) (next - 1)%u64
        (TermAt rl (next - 1)%u64) es (n_commitIndex n))) /\
      if (next <=? LastIndex rl)%N then is_run rl next (LastIndex rl) es else es = []) n.
Proof.
  intros Hn Hst El Hb rl next. unfold replicateToPeer_prepare, the_leader.
  wp_step. wp_step. rewrite bool_decide_eq_true_2 by done. cbn [negb]. do 3 wp_step. rewrite El.
  do 5 wp_step. fold next rl. unfold SnapshotIndex, SnapshotTerm.
  destruct (next <=? rl_snapshotIndex rl)%N; [by wp_step|].
  wp_step. apply wp_TermAt; [apply Hn|]. wp_step. apply wp_LastIndex; [apply Hn|]. wp_step. fold rl.
  destruct (N.leb_spec next (LastIndex rl)) as [Hle|_].
  2:{ do 2 wp_step. split; [done|]. by exists []. }
  apply wp_GetRange; [apply Hn|]. fold rl.
  destruct (GetRange_spec rl next (LastIndex rl)) as (es & -> & Hr); [apply Hn|done|lia|].
  wp_step. split; [done|]. by exists es.
Qed.

(** ** The leader's bookkeeping *)

(** The progress maps after a successful reply. *)
Definition progress (ls : leaderState) (p : NodeID) (m : LogIndex) : leaderState :=
  let match' := if (map_get (matchIndex ls) p <? m)%N then <[p := m]> (matchIndex ls) else matchIndex ls in
  mkLeaderState (<[p := (map_get match' p + 1)%u64]> (nextIndex ls)) match'.

Lemma progress_spec ls p m : let ls' := progress ls p m in
  map_get (matchIndex ls') p = N.max (map_get (matchIndex ls) p) m /\
  map_get (nextIndex ls') p = (map_get (matchIndex ls') p + 1)%u64 /\
  (forall q, q <> p -> matchIndex ls' !! q = matchIndex ls !! q /\ nextIndex ls' !! q = nextIndex ls !! q).
Proof.
  unfold progress, map_get. simpl. rewrite lookup_insert_eq. split; [|split; [done|]].
  - destruct (N.ltb_spec (default 0%N (matchIndex ls !! p)) m); rewrite ?lookup_insert_eq; simpl; lia.
  - intros q Hq. split; [|by rewrite lookup_insert_ne]. by case_match; rewrite ?lookup_insert_ne.
Qed.

Lemma wp_append_success n ls peer resp : node_inv n -> n_state n = Leader -> n_leader n = Some ls ->
  (aer_Term resp <= n_currentTerm n)%N -> aer_Success resp = true ->
  let ls' := progress ls (peer_ID peer) (aer_MatchIndex resp) in
  wp (replicateToPeer_append_reply peer (inr resp)) (fun _ n' =>
    n_leader n' = Some ls' /\ n_raftLog n' = n_raftLog n /\ pv n' = pv n /\
    let r := commitCandidate ls' (n_commitIndex n) (LastIndex (n_raftLog n)) (n_currentTerm n)
      (TermAt (n_raftLog n)) in
    n_commitIndex n' = (if (0 <? r)%N then r else n_commitIndex n) /\
    n_tasks n' = (n_tasks n ++ if (0 <? r)%N then [TApply] else [])%list) n.
Proof.
  intros Hn Hst El Ht Hs ls'. unfold replicateToPeer_append_reply, the_leader, spawn.
  wp_step. wp_step. rewrite bool_decide_eq_true_2 by done. cbn [negb]. wp_step. wp_step.
  rewrite (proj2 (N.ltb_ge _ _) Ht). do 3 wp_step. rewrite El. wp_step. rewrite Hs. do 3 wp_step.
  apply wp_LastIndex; [apply Hn|]. do 2 wp_step. change (mkLeaderState _ _) with ls'. cbn [set_leader n_commitIndex n_raftLog n_currentTerm].
  destruct (0 <? commitCandidate _ _ _ _ _)%N; repeat wp_step; simpl; rewrite ?app_nil_r; done.
Qed.

(** A refusal at the leader's term moves the next index to the hint, or one back
    when there is none, and nothing else. *)
Lemma wp_append_failure n ls peer resp : n_state n = Leader -> n_leader n = Some ls ->
  (aer_Term resp <= n_currentTerm n)%N -> aer_Success resp = false ->
  let next := map_get (nextIndex ls) (peer_ID peer) in
  wp (replicateToPeer_append_reply peer (inr resp)) (fun _ n' => exists ls', n_leader n' = Some ls' /\
    matchIndex ls' = matchIndex ls /\ n_commitIndex n' = n_commitIndex n /\
    map_get (nextIndex ls') (peer_ID peer) =
      if (0 <? aer_ConflictIndex resp)%N then aer_ConflictIndex resp
      else if (1 <? next)%N then (next - 1)%u64 else next) n.
Proof.
  intros Hst El Ht Hs next. unfold replicateToPeer_append_reply, the_leader.
  wp_step. wp_step. rewrite bool_decide_eq_true_2 by done. cbn [negb]. wp_step. wp_step.
  rewrite (proj2 (N.ltb_ge _ _) Ht). do 3 wp_step. rewrite El. wp_step. rewrite Hs. fold next.
  unfold map_get in *.
  destruct (0 <? aer_ConflictIndex resp)%N; [|destruct (1 <? next)%N]; wp_step; simpl;
    eexists; (split; [done|]); simpl; rewrite ?lookup_insert_eq; done.
Qed.

(** ** Panics *)

(** [resetElectionTimer] panics exactly when the range of the timeout, computed
    in 64 bits, is empty. *)
Lemma resetElectionTimer_panics n :
  resetElectionTimer n = Panic PanicIntn <-> ~ timers_ok (n_cfg n).
Proof.
  unfold resetElectionTimer, rand_Intn, timers_ok, bind, gets, throw, modify, ret.
  destruct (Z.leb_spec (i64_wrap (ElectionTimeoutMaxMs (cfg_Raft (n_cfg n))
    - ElectionTimeoutMinMs (cfg_Raft (n_cfg n)))) 0); split; (done || lia).
Qed.
End props.
