(* ===== verification/RaftNodeCorrect.v ===== *)
(** * The correctness of the Raft handlers

    The properties of the handlers of raft.go: votes, log replication on the
    follower and on the leader, and the termination of the back-off.  The lemmas
    they rest on are in RaftNodeSpec and RaftNodeProps. *)

From S2P Require Import Prelude GoJson Types Config Bolt RaftLog LeaderState Storage RaftNode.
From S2P Require Import RaftNodeSpec Sample RaftNodeProps.
Import Utf8 Json MapBolt.

Local Open Scope string_scope.

(** ** Votes and the consistency check *)

(** C7: voting.  A node whose log is well formed grants a vote exactly when the
    request's term is at least its own, it has not voted for another candidate in
    that term, and the candidate's log is at least as up to date as its own (last
    term first, then last index).  The last thing a granted vote does to the log is
    [SaveMeta] of the term and the candidate, before the reply: the vote is on disk
    when that call returns nil; when it returns an error, which the node only logs,
    the old record is still there and the vote is granted all the same.  The reply
    carries the higher of the two terms; a refusal only forgets a vote of an older
    term; the entries of the log are never touched. *)
Theorem HandleRequestVote_correct {B : Bolt} {L : BoltLaws B} {E} {X : Engine E}
    (n : RaftNode B E) (req : RequestVoteRequest) :
  node_inv n -> j_ok req ->
  exists resp n', HandleRequestVote req n = Done (resp, n') /\
    rvr_VoterID resp = n_id n /\ rvr_Term resp = N.max (n_currentTerm n) (rv_Term req) /\
    n_currentTerm n' = N.max (n_currentTerm n) (rv_Term req) /\
    (rvr_VoteGranted resp = true <-> may_vote n req) /\
    (if rvr_VoteGranted resp
     then n_votedFor n' = rv_CandidateID req /\
       last_saved (rv_Term req) (rv_CandidateID req) (n_raftLog n')
     else n_votedFor n' = if (n_currentTerm n <? rv_Term req)%N then "" else n_votedFor n) /\
    (forall i, log_at (n_raftLog n') i = log_at (n_raftLog n) i).
Proof.
  intros Hn Hreq. pose proof (wp_RequestVote n req Hn Hreq) as H.
  apply wp_run in H as (resp & n' & Hr & H1 & H2 & H3 & H4 & H5 & H6).
  exists resp, n'. split; [done|]. do 5 (split; [done|]). intros i. by apply kept_log_at.
Qed.

Lemma HandleRequestVote_correct_witness :
  may_vote sample_started (mkRVReq 1 "b" 0 0) /\
  exists resp n', HandleRequestVote (mkRVReq 1 "b" 0 0) sample_started = Done (resp, n') /\
    rvr_VoteGranted resp = true /\ last_saved 1 "b" (n_raftLog n').
Proof.
  assert (may_vote sample_started (mkRVReq 1 "b" 0 0)) as Hv.
  { split; [by vm_compute|]. split; [left; by vm_compute|]. right. split; by vm_compute. }
  split; [exact Hv|].
  destruct (HandleRequestVote_correct sample_started (mkRVReq 1 "b" 0 0) sample_started_inv)
    as (resp & n' & Hr & _ & _ & _ & Hg & Hd & _).
  - split; [by vm_compute|split; by vm_compute].
  - exists resp, n'. apply Hg in Hv. rewrite Hv in Hd. exact (conj Hr (conj Hv (proj2 Hd))).
Defined.

(** C13: the consistency check.  On a node whose log is well formed, with a boundary
    below 2^64 - 1, a request that is stale, that starts beyond the
    log, or whose previous entry has another term is refused without touching
    the entries of the log or the commit index.  The refusal carries a usable hint: the end of
    the log when it is too short, and otherwise the conflicting term with the
    first index of its run above the snapshot. *)
Theorem AppendEntries_refused {B : Bolt} {L : BoltLaws B} {E} {X : Engine E} (n : RaftNode B E) (req : AppendEntriesRequest) :
  let rl := n_raftLog n in let prev := ae_PrevLogIndex req in
  node_inv n -> j_ok req -> (rl_snapshotIndex rl + 1 < two64)%N ->
  ~ ((n_currentTerm n <= ae_Term req)%N /\ prev_matches n req) ->
  exists resp n', HandleAppendEntries req n = Done (resp, n') /\ aer_Success resp = false /\
    aer_Term resp = N.max (n_currentTerm n) (ae_Term req) /\
    (forall i, log_at (n_raftLog n') i = log_at rl i) /\ n_commitIndex n' = n_commitIndex n /\
    (if (ae_Term req <? n_currentTerm n)%N then n' = n
     else if (LastIndex rl <? prev)%N then
       aer_ConflictIndex resp = (LastIndex rl + 1)%u64 /\ aer_ConflictTerm resp = 0%N
     else aer_ConflictTerm resp = TermAt rl prev /\
       first_of_term rl (TermAt rl prev) prev (aer_ConflictIndex resp)).
Proof.
  intros rl prev Hn Hreq Hs Hno. destruct (N.ltb_spec (ae_Term req) (n_currentTerm n)) as [Hlt|Hge].
  { unfold HandleAppendEntries, bind, gets. rewrite (proj2 (N.ltb_lt _ _) Hlt).
    eexists _, _. split; [done|]. simpl. split_and!; try done; lia. }
  pose proof (wp_AppendEntries_refuse n req Hn Hreq Hs Hge (fun Hp => Hno (conj Hge Hp))) as H.
  cbv zeta in H. fold rl prev in H.
  apply wp_run in H as (resp & n' & Hr & H1 & H2 & H3 & H4 & H5). exists resp, n'.
  split; [done|]. split; [done|]. split; [lia|]. split; [|done].
  intros i. by apply kept_log_at.
Qed.

(** The sample follower, whose log ends at 2, is asked to continue after 5. *)
Lemma AppendEntries_refused_witness :
  exists resp n', HandleAppendEntries (mkAEReq 1 "b" 5 1 [] 0) sample_follower = Done (resp, n') /\
    aer_Success resp = false /\ aer_ConflictIndex resp = 3%N.
Proof.
  destruct (AppendEntries_refused sample_follower (mkAEReq 1 "b" 5 1 [] 0) sample_follower_inv)
    as (resp & n' & Hr & Hs & _ & _ & _ & Hc).
  - repeat (split || constructor); by vm_compute.
  - by vm_compute.
  - intros [_ [Hp|[Hp _]]]; [done|]. by vm_compute in Hp.
  - exists resp, n'. split; [exact Hr|]. split; [exact Hs|].
    assert ((ae_Term (mkAEReq 1 "b" 5 1 [] 0) <? n_currentTerm sample_follower)%N = false) as E1 by by vm_compute.
    assert ((LastIndex (n_raftLog sample_follower) <? 5)%N = true) as E2 by by vm_compute.
    rewrite E1 in Hc. cbn [ae_PrevLogIndex] in Hc. rewrite E2 in Hc. destruct Hc as [-> _]. by vm_compute.
Defined.

(** ** Log replication on a follower *)





(** ** Log replication on the leader *)

(** C6: the leader's commit index.  On a leader whose log is well formed, a success
    reply of no higher term raises the peer's match index
    to the one reported, never lowers it, and sets its next index after it; the
    commit index then moves to the highest index above it whose entry is of the
    leader's own term and which a majority of the cluster holds, with
    [applyCommitted] started, and stays where it is when there is none. *)
Theorem append_reply_commits {B : Bolt} {L : BoltLaws B} {E} {X : Engine E} (n : RaftNode B E) ls peer resp :
  node_inv n -> n_state n = Leader -> n_leader n = Some ls ->
  (aer_Term resp <= n_currentTerm n)%N -> aer_Success resp = true ->
  exists n' ls', replicateToPeer_append_reply peer (inr resp) n = Done (tt, n') /\
    n_leader n' = Some ls' /\ n_raftLog n' = n_raftLog n /\ pv n' = pv n /\
    map_get (matchIndex ls') (peer_ID peer)
      = N.max (map_get (matchIndex ls) (peer_ID peer)) (aer_MatchIndex resp) /\
    map_get (nextIndex ls') (peer_ID peer) = (map_get (matchIndex ls') (peer_ID peer) + 1)%u64 /\
    (forall q, q <> peer_ID peer -> matchIndex ls' !! q = matchIndex ls !! q /\
      nextIndex ls' !! q = nextIndex ls !! q) /\
    let ok i := (n_commitIndex n < i <= LastIndex (n_raftLog n))%N /\
      TermAt (n_raftLog n) i = n_currentTerm n /\
      is_majority (1 + count_match (matchIndex ls') i) (size (matchIndex ls') + 1) in
    ((n_commitIndex n' = n_commitIndex n /\ n_tasks n' = n_tasks n /\ forall i, ~ ok i) \/
     (ok (n_commitIndex n') /\ (forall i, ok i -> (i <= n_commitIndex n')%N) /\
      n_tasks n' = (n_tasks n ++ [TApply])%list)).
Proof.
  intros Hn Hst El Ht Hs. pose proof (wp_append_success n ls peer resp Hn Hst El Ht Hs) as H.
  cbv zeta in H. set (ls' := progress _ _ _) in *.
  apply wp_run in H as ([] & n' & Hr & H1 & H2 & H3 & H4 & H5). exists n', ls'.
  do 4 (split; [done|]). pose proof (progress_spec ls (peer_ID peer) (aer_MatchIndex resp)) as Hp.
  cbv zeta in Hp. fold ls' in Hp. destruct Hp as (Hp1 & Hp2 & Hp3). do 3 (split; [done|]). intros ok.
  unfold commitCandidate in H4, H5.
  destruct (commit_loop_spec (N.to_nat (LastIndex (n_raftLog n) - n_commitIndex n)) ls' (n_commitIndex n)
    (LastIndex (n_raftLog n)) (n_currentTerm n) (TermAt (n_raftLog n))) as [[E0 Hno]|[Hc Hmax]];
    [by apply LastIndex_ok|done|..].
  - rewrite E0 in H4, H5. rewrite app_nil_r in H5. left. split; [done|]. split; [done|].
    intros i (? & ? & ?). apply (Hno i). split; [done|]. split; [done|]. by apply commit_majority_is_majority.
  - set (r := commit_loop _ _ _ _ _ _) in *. assert (0 < r)%N as E0 by (destruct Hc as [? _]; lia).
    rewrite (proj2 (N.ltb_lt _ _) E0) in H4, H5. right. rewrite H4. split; [|split; [|done]].
    + destruct Hc as (? & ? & ?). split; [done|]. split; [done|]. by apply commit_majority_is_majority.
    + intros i (? & ? & ?). apply Hmax. split; [done|]. split; [done|]. by apply commit_majority_is_majority.
Qed.

(** The sample leader hears from "b" that it holds the first entry. *)
Lemma append_reply_commits_witness :
  exists n' ls', replicateToPeer_append_reply (mkPeer "b" "b:7001") (inr (mkAEResp 1 true "b" 1 0 0))
      sample_leader = Done (tt, n') /\ n_leader n' = Some ls' /\
    map_get (matchIndex ls') "b" = 1%N /\ map_get (nextIndex ls') "b" = 2%N.
Proof.
  destruct (append_reply_commits sample_leader (newLeaderState [mkPeer "b" "b:7001"; mkPeer "c" "c:7001"] 0)
    (mkPeer "b" "b:7001") (mkAEResp 1 true "b" 1 0 0) sample_leader_inv sample_leader_is)
    as (n' & ls' & Hr & Hl & _ & _ & Hm & Hx & _).
  - by vm_compute.
  - by vm_compute.
  - done.
  - exists n', ls'. split; [exact Hr|]. split; [exact Hl|].
    cbn [peer_ID] in Hm, Hx. rewrite Hm in Hx. rewrite Hm, Hx. split; by vm_compute.
Defined.

(** C14: back-off terminates.  Two nodes with well-formed logs, the last index of one
    and the boundary of the other below 2^64 - 1: when a follower whose term is not
    higher refuses what the leader prepared for it because its log does not match,
    the leader's next index for that follower
    strictly decreases and stays positive: after finitely many refusals the
    request is accepted or the snapshot is sent. *)
Theorem refusal_makes_progress {B : Bolt} {L : BoltLaws B} {E} {X : Engine E} (n m : RaftNode B E) ls peer req :
  node_inv n -> node_inv m -> n_state n = Leader -> n_leader n = Some ls ->
  (LastIndex (n_raftLog n) + 1 < two64)%N -> (rl_snapshotIndex (n_raftLog m) + 1 < two64)%N ->
  (n_currentTerm m <= n_currentTerm n)%N ->
  replicateToPeer_prepare peer n = Done (Some (CallAppend req), n) -> ~ prev_matches m req ->
  exists resp m' n' ls', HandleAppendEntries req m = Done (resp, m') /\ aer_Success resp = false /\
    replicateToPeer_append_reply peer (inr resp) n = Done (tt, n') /\ n_leader n' = Some ls' /\
    (0 < map_get (nextIndex ls') (peer_ID peer) < map_get (nextIndex ls) (peer_ID peer))%N.
Proof.
  intros Hn Hm Hst El Hb Hsi Ht Hprep Hno.
  destruct (wp_elim _ _ _ _ _ (wp_replicateToPeer_prepare n peer Hn) Hprep) as [_ Hcall].
  destruct (Hcall _ eq_refl) as [_ [Hterm Hok]].
  destruct (wp_elim _ _ _ _ _ (wp_prepare n ls peer Hn Hst El Hb) Hprep) as [_ H].
  set (next := map_get (nextIndex ls) (peer_ID peer)) in *.
  destruct (N.leb_spec next (rl_snapshotIndex (n_raftLog n))) as [|Hlt]; [done|].
  assert (ae_PrevLogIndex req < next)%N as Hprev.
  { destruct H as (es & [= ->] & _). apply u64_sub_lt. lia. }
  pose proof (wp_AppendEntries_refuse m req Hm Hok Hsi ltac:(lia) Hno) as Hw. cbv zeta in Hw.
  apply wp_run in Hw as (resp & m' & Hr & Hs & Hrt & _ & _ & Hhint). exists resp, m'.
  assert (0 < aer_ConflictIndex resp <= ae_PrevLogIndex req)%N as Hci.
  { assert (ae_PrevLogIndex req <> 0%N) by (intros ?; apply Hno; by left).
    destruct (N.ltb_spec (LastIndex (n_raftLog m)) (ae_PrevLogIndex req)) as [Hs'|Hs'].
    - destruct Hhint as [-> _]. destruct Hok as (_ & Hp & _). rewrite u64_add_small; [lia|].
      unfold u64_ok in *. lia.
    - destruct Hhint as [_ (? & _ & ? & _)]. lia. }
  pose proof (wp_append_failure n ls peer resp Hst El ltac:(lia) Hs) as Hw. cbv zeta in Hw.
  apply wp_run in Hw as ([] & n' & Hr' & ls' & El' & _ & _ & Hnext). exists n', ls'.
  do 4 (split; [done|]). rewrite Hnext, (proj2 (N.ltb_lt 0 _)) by lia. lia.
Qed.

(** A fresh node has none of the entries the leader expects of it. *)
Lemma refusal_makes_progress_witness :
  exists resp m' n' ls', HandleAppendEntries sample_send sample_started = Done (resp, m') /\ aer_Success resp = false /\
    replicateToPeer_append_reply (mkPeer "b" "b:7001") (inr resp) sample_leader2 = Done (tt, n') /\
    n_leader n' = Some ls' /\ (0 < map_get (nextIndex ls') "b" < 3)%N.
Proof.
  destruct (refusal_makes_progress sample_leader2 sample_started sample_progress2 (mkPeer "b" "b:7001")
    sample_send sample_leader2_inv sample_started_inv (proj1 sample_leader2_is) (proj2 sample_leader2_is))
    as (resp & m' & n' & ls' & H1 & H2 & H3 & H4 & H5).
  - by vm_compute.
  - by vm_compute.
  - by vm_compute.
  - exact sample_leader2_prepare.
  - intros [Hp|[Hp _]]; [discriminate Hp|by vm_compute in Hp].
  - exists resp, m', n', ls'. split; [exact H1|]. split; [exact H2|]. split; [exact H3|].
    split; [exact H4|]. assert (map_get (nextIndex sample_progress2) "b" = 3%N) as E by by vm_compute.
    cbn [peer_ID] in H5. rewrite E in H5. exact H5.
Defined.
