(* ===== verification/Replication.v ===== *)
(** * One round of replication

    The leader's and the follower's halves of an AppendEntries exchange put
    together: [replicateToPeer_prepare] on the leader, [HandleAppendEntries] on
    the follower, [replicateToPeer_append_reply] on the leader again. *)

From S2P Require Import Prelude GoJson Types Config Bolt RaftLog LeaderState Storage RaftNode.
From S2P Require Import RaftNodeSpec Sample RaftNodeProps.
Import Utf8 Json MapBolt.

Local Open Scope string_scope.

Section round.
Context {B : Bolt} {L : BoltLaws B} {E : Type} {X : Engine E}.
Implicit Types n m : RaftNode B E.

(** The log holds entries with a term at every index of a range. *)
Definition filled (rl : RaftLog B) (from to : N) : Prop :=
  forall i, (from <= i <= to)%N -> exists e, log_at rl i = Some e /\ le_Term e <> 0%N.

(** The log has nothing from an index on. *)
Definition ends_before (rl : RaftLog B) (i : N) : Prop :=
  forall j, u64_ok j -> (i <= j)%N -> log_at rl j = None.

(** The entries of a filled range are all sent. *)
Lemma filled_run rl from to es : filled rl from to -> (from <= to + 1)%N -> is_run rl from to es ->
  N.of_nat (length es) = (to + 1 - from)%N /\
  forall k, (k < length es)%nat -> es !! k = log_at rl (from + N.of_nat k).
Proof.
  intros Hf Hle [Hes [Hl|[Hl Hnone]]]; [done|].
  destruct (Hf (from + N.of_nat (length es))%N) as (e & He & _); [lia|]. congruence.
Qed.

Lemma TermAt_none rl i : log_wf rl -> (rl_snapshotIndex rl < i)%N -> log_at rl i = None ->
  TermAt rl i = 0%N.
Proof.
  intros Hwf Hi Ha. unfold TermAt. rewrite Get_spec, Ha by done.
  rewrite (proj2 (N.eqb_neq i 0)) by lia. by rewrite (proj2 (N.eqb_neq i _)) by lia.
Qed.

(** They can be merged into a log that ends before them. *)
Lemma filled_mergeable rl rl' from to es : log_wf rl -> log_wf rl' -> (to + 2 < two64)%N ->
  filled rl from to -> (from <= to + 1)%N -> is_run rl from to es ->
  (rl_snapshotIndex rl' < from)%N -> ends_before rl' from -> mergeable rl' from es.
Proof.
  intros Hwf Hwf' Hb Hf Hle Hrun Hs Hend. destruct (filled_run _ _ _ _ Hf Hle Hrun) as [Hlen Hes].
  split; [done|lia|]. intros k e Hk. apply lookup_lt_Some in Hk as Hlt. rewrite Hes in Hk by done.
  assert (u64_ok (from + N.of_nat k)) as Hi by (unfold u64_ok; lia).
  destruct (Hf (from + N.of_nat k)%N) as (e' & He' & Ht); [lia|].
  assert (e' = e) as -> by congruence.
  split; [by apply (log_at_index rl)|]. split.
  { apply (Get_ok rl (from + N.of_nat k)); [done|]. by rewrite Get_spec, He' by done. }
  split; [done|].
  left. apply TermAt_none; [done|lia|]. apply Hend; [done|lia].
Qed.

(** The last index of a log that is filled up to [to] and ends there. *)
Lemma LastIndex_filled rl to e : log_wf rl -> u64_ok to -> log_at rl to = Some e ->
  ends_before rl (to + 1) -> LastIndex rl = to.
Proof.
  intros Hwf Hto He Hend. destruct (LastIndex_spec rl Hwf) as [([x Hx] & Hu & Hmax)|[_ Hno]].
  - assert (to <= LastIndex rl)%N by (apply Hmax; [done|by eexists]).
    destruct (decide (LastIndex rl = to)) as [|Hne]; [done|].
    rewrite Hend in Hx; [done|done|lia].
  - by rewrite Hno in He.
Qed.

Lemma merged_run rl es from i : (rl_snapshotIndex rl < from)%N -> log_wf rl -> ends_before rl from ->
  u64_ok i -> (from <= i)%N ->
  merged rl from es i = j_san <$> es !! N.to_nat (i - from).
Proof.
  intros Hs Hwf Hend Hi Hge. unfold merged. rewrite (proj2 (N.ltb_ge i from)) by done.
  rewrite (Hend i), TermAt_none by (try apply Hend; done || lia).
  by destruct (es !! N.to_nat (i - from)).
Qed.

(** The follower's half: a log that ends before the entries of the leader's
    filled range holds exactly these after the request, unless it reports an error
    for one of them. *)
Lemma wp_copy n m req from : node_inv n -> node_inv m -> j_ok req ->
  let last := LastIndex (n_raftLog n) in
  (n_currentTerm m <= ae_Term req)%N -> prev_matches m req ->
  (ae_PrevLogIndex req + 1 = from)%N -> (from <= last)%N -> (last + 2 < two64)%N ->
  filled (n_raftLog n) from last -> is_run (n_raftLog n) from last (ae_Entries req) ->
  (rl_snapshotIndex (n_raftLog m) < from)%N -> ends_before (n_raftLog m) from ->
  wp (HandleAppendEntries req) (fun resp m' =>
    (forall i, (i < from)%N -> log_at (n_raftLog m') i = log_at (n_raftLog m) i) /\
    if aer_Success resp then
      resp = mkAEResp (ae_Term req) true (n_id m) last 0 0 /\
      forall i, (from <= i <= last)%N -> log_at (n_raftLog m') i = j_san <$> log_at (n_raftLog n) i
    else resp = mkAEResp (ae_Term req) false (n_id m) 0 0 0 /\
      exists e, e ∈ ae_Entries req /\ append_failed e (n_raftLog m')) m.
Proof.
  intros Hn Hm Hreq last Ht Hp Hfrom Hle Hb Hf Hrun Hs Hend.
  assert (mergeable (n_raftLog m) (ae_PrevLogIndex req + 1) (ae_Entries req)) as Hmg.
  { rewrite Hfrom. apply (filled_mergeable (n_raftLog n) _ _ last); [apply Hn|apply Hm|done|done|lia|done..]. }
  destruct (filled_run _ _ _ _ Hf ltac:(lia) Hrun) as [Hlen Hes].
  eapply wp_mono; [by apply wp_AppendEntries_accept|].
  intros resp m' (_ & Hm' & (k & Hk & Hl & Hfail) & Hresp). rewrite Hfrom in Hl.
  split.
  { intros i Hi. rewrite Hl by (unfold u64_ok; lia). unfold merged. by rewrite (proj2 (N.ltb_lt i from)) by done. }
  destruct (aer_Success resp).
  2:{ destruct Hresp as [-> _]. split; [done|]. destruct Hfail as (e & He & Hfail). exists e.
      split; [by eapply list_elem_of_lookup_2|done]. }
  destruct Hresp as [-> _]. rewrite Hfail, firstn_all in Hl.
  assert (forall i, u64_ok i -> (from <= i)%N ->
    log_at (n_raftLog m') i = j_san <$> ae_Entries req !! N.to_nat (i - from)) as Hnew.
  { intros i Hi Hge. rewrite Hl by done. apply merged_run; [done|apply Hm|done..]. }
  assert (forall i, (from <= i <= last)%N ->
    log_at (n_raftLog m') i = j_san <$> log_at (n_raftLog n) i) as Hcopy.
  { intros i Hi. rewrite Hnew by (unfold u64_ok; lia). rewrite Hes by lia. do 2 f_equal. lia. }
  split; [|done].
  - f_equal. destruct (Hf last) as (e & He & _); [lia|].
    apply (LastIndex_filled _ _ (j_san e)); [apply Hm'|unfold u64_ok; lia| |].
    + rewrite Hcopy by lia. by rewrite He.
    + intros j Hj Hgt. rewrite Hnew by (done || lia). rewrite lookup_ge_None_2 by lia. done.
Qed.
End round.

(** ** Properties *)


