(* ===== verification/Lifecycle.v ===== *)
(** * Timers, elections and proposals of a node

    What a whole election does, how long a node waits for one, when a node can
    panic, and what a client's proposal leaves behind and gets back. *)

From S2P Require Import Prelude GoJson Types Config Bolt RaftLog LeaderState Storage RaftNode.
From S2P Require Import RaftNodeSpec Sample RaftNodeProps.
Import Utf8 Json MapBolt.

Local Open Scope string_scope.

(** ** Timers *)

(** C30: election timeouts.  With a non-negative minimum below the maximum, and a
    maximum that fits a 64-bit duration, [resetElectionTimer] leaves the election
    timer armed with a duration of at least the minimum and below the maximum, and
    changes nothing else but the source of randomness; when the width of the range,
    computed in 64 bits, is not positive, it panics. *)
Theorem election_timeout_bounds {B : Bolt} {E} {X : Engine E} (n : RaftNode B E) :
  let lo := ElectionTimeoutMinMs (cfg_Raft (n_cfg n)) in
  let hi := ElectionTimeoutMaxMs (cfg_Raft (n_cfg n)) in
  (i64_wrap (hi - lo) <= 0 -> resetElectionTimer n = Panic PanicIntn)%Z /\
  ((0 <= lo < hi)%Z -> (hi * Millisecond < two63)%Z ->
   exists t r, resetElectionTimer n = Done (tt, set_electionTimer (Some t) (set_rand r n)) /\
     tm_armed t = true /\ (lo * Millisecond <= tm_duration t < hi * Millisecond)%Z).
Proof.
  intros lo hi. split.
  { intros H. unfold resetElectionTimer, rand_Intn, bind, gets. fold lo hi.
    by rewrite (proj2 (Z.leb_le _ _) H). }
  intros Hlo Hhi. unfold Millisecond, two63 in *.
  assert (forall z, (0 <= z <= hi * 1000000)%Z -> i64_wrap z = z) as Hw.
  { intros z Hz. apply i64_wrap_small. unfold i64_ok, two63. lia. }
  unfold resetElectionTimer, rand_Intn, bind, gets, modify, ret. fold lo hi.
  rewrite (Hw (hi - lo)%Z) by lia. rewrite (proj2 (Z.leb_gt (hi - lo) 0)) by lia.
  set (r := (hd 0%Z (n_rand n) mod (hi - lo))%Z).
  assert (0 <= r < hi - lo)%Z as Hr by (apply Z.mod_pos_bound; lia).
  unfold Millisecond. rewrite (Hw (lo + r)%Z), (Hw ((lo + r) * 1000000)%Z) by lia.
  eexists _, (tl (n_rand n)). split; [reflexivity|]. simpl.
  destruct (n_electionTimer n) as [t|]; simpl; (split; [done|]; lia).
Qed.

Lemma election_timeout_bounds_witness :
  exists t r, resetElectionTimer sample_new = Done (tt, set_electionTimer (Some t) (set_rand r sample_new)) /\
    (150 * Millisecond <= tm_duration t < 300 * Millisecond)%Z.
Proof.
  destruct (election_timeout_bounds sample_new) as [_ H].
  destruct (H ltac:(simpl; lia) ltac:(by vm_compute)) as (t & r & Hr & _ & Ht). exists t, r. by split.
Defined.

(** C15: when a handler panics.  On a node whose log is well formed and whose
    timeouts can be drawn, [HandleRequestVote] returns on every request with 64-bit
    integers.  [HandleAppendEntries] returns unless a truncation of a well-formed
    log panics, and [HandleInstallSnapshot] unless a compaction does; that panic is
    one of the loop that deletes under bbolt's cursor, and never that of a missing
    bucket, an empty range of timeouts or a nil pointer.  After each return the node
    is again one that can serve the next request. *)
Theorem handler_panics {B : Bolt} {L : BoltLaws B} {E} {X : Engine E} (n : RaftNode B E) :
  node_inv n ->
  (forall req, j_ok req -> exists resp n', HandleRequestVote req n = Done (resp, n') /\ node_inv n') /\
  (forall req, j_ok req ->
    match HandleAppendEntries req n with
    | Done (_, n') => node_inv n'
    | Panic p => cursor_panic p /\ truncate_panic (B := B) p
    end) /\
  (forall req, j_ok req ->
    match HandleInstallSnapshot req n with
    | Done (_, n') => node_inv n'
    | Panic p => cursor_panic p /\ compact_panic (B := B) p
    end).
Proof.
  intros Hn. split; [|split]; intros req Hreq.
  - pose proof (wp_HandleRequestVote n req Hn Hreq) as H.
    apply wp_run in H as (resp & n' & Hr & _ & Hn' & _). by exists resp, n'.
  - pose proof (wpe_HandleAppendEntries n req Hn Hreq) as H. unfold wpe in H.
    destruct (HandleAppendEntries req n) as [[resp n']|p].
    + destruct H as [H _]. by apply quiet_or_down_inv in H as [? _].
    + split; [|done]. destruct H as (rl & i & Hwf & Hi & Ep).
      pose proof (TruncateFrom_spec rl i Hwf Hi) as Hs. by rewrite Ep in Hs.
  - pose proof (wpe_HandleInstallSnapshot n req Hn Hreq) as H. unfold wpe in H.
    destruct (HandleInstallSnapshot req n) as [[resp n']|p].
    + destruct H as [H _]. by apply quiet_or_down_inv in H as [? _].
    + split; [|done]. destruct H as (rl & i & t & Hwf & Hi & Ht & Ep).
      pose proof (Compact_spec rl i t Hwf Hi Ht) as Hs. by rewrite Ep in Hs.
Qed.

Lemma handler_panics_witness :
  exists resp n', HandleRequestVote (mkRVReq 18446744073709551615 "" 18446744073709551615 7) sample_started
    = Done (resp, n') /\ node_inv n'.
Proof.
  destruct (handler_panics sample_started sample_started_inv) as [H _]. apply H.
  split; [by vm_compute|split; by vm_compute].
Defined.

(** ** Elections *)

Section elections.
Context {B : Bolt} {L : BoltLaws B} {E : Type} {X : Engine E}.
Implicit Types n : RaftNode B E.

Definition granted (reply : error + RequestVoteResponse) : bool :=
  match reply with inr resp => rvr_VoteGranted resp | inl _ => false end.

(** The votes the peers give. *)
Definition grants (reply : Peer -> error + RequestVoteResponse) (peers : list Peer) : nat :=
  length (filter (fun p => granted (reply p) = true) peers).

Definition not_newer (reply : error + RequestVoteResponse) (t : Term) : Prop :=
  forall resp, reply = inr resp -> (rvr_Term resp <= t)%N.

(** Without a newer term among the replies, collecting them only counts. *)
Lemma collect_votes_spec peers reply n : forall el,
  Forall (fun p => not_newer (reply p) (n_currentTerm n)) peers ->
  exists el', collect_votes el peers reply n = Done (el', n) /\
    el_won el' = el_won el || ((0 <? grants reply peers)%nat &&
      (el_quorum el <=? el_votes el + grants reply peers)%nat).
Proof.
  induction peers as [|p peers IH]; intros el Hall; cbn [collect_votes].
  { exists el. split; [done|]. by rewrite orb_false_r. }
  apply Forall_cons in Hall as [Hp Hall]. unfold grants in *. rewrite filter_cons.
  unfold bind, startElection_reply. destruct (reply p) as [err|resp]; cbn [granted].
  { rewrite decide_False by done.
    destruct (IH (mkElection (el_req el) (el_votes el) (el_quorum el) (el_won el)
      (remove_one p (el_waiting el))) Hall) as (el' & Hr & Hw). by exists el'. }
  unfold gets. cbn [bind]. unfold bind. rewrite (proj2 (N.ltb_ge _ _) (Hp resp eq_refl)).
  destruct (rvr_VoteGranted resp) eqn:Eg; cbn [negb].
  2:{ rewrite decide_False by done.
      destruct (IH (mkElection (el_req el) (el_votes el) (el_quorum el) (el_won el)
        (remove_one p (el_waiting el))) Hall) as (el' & Hr & Hw). by exists el'. }
  rewrite decide_True by done. cbn [length].
  destruct (IH (mkElection (el_req el) (S (el_votes el)) (el_quorum el)
    (if (el_quorum el <=? S (el_votes el))%nat then true else el_won el)
    (remove_one p (el_waiting el))) Hall) as (el' & Hr & Hw). exists el'. split; [exact Hr|].
  rewrite Hw. cbn [el_won el_votes el_quorum].
  set (g := length (filter _ peers)). destruct (el_won el); [by case_match|].
  repeat match goal with |- context [(?a <=? ?b)%nat] => destruct (Nat.leb_spec a b)
    | |- context [(?a <? ?b)%nat] => destruct (Nat.ltb_spec a b) end; simpl; (done || lia).
Qed.

Lemma wp_begin_log n : node_inv n -> (n_currentTerm n + 1 < two64)%N ->
  wp startElection_begin (fun _ n' => entries_kept (n_raftLog n) (n_raftLog n') /\
    exists err, SaveMeta (n_raftLog n) (n_currentTerm n + 1) (n_id n) = Done (err, n_raftLog n')) n.
Proof.
  intros Hn Hlt. unfold startElection_begin.
  do 10 wp_step. cbn [set_state set_currentTerm set_votedFor n_id n_currentTerm].
  rewrite u64_add_small by done. wp_step.
  apply wp_SaveMeta; [apply Hn|done|]. intros err rl' Es Hwf ? ? ? ?.
  wp_step. apply wp_resetElectionTimer; [apply Hn|]. intros tm r _.
  wp_step. apply wp_LastIndex; [done|]. wp_step. apply wp_LastTerm; [done|]. do 3 wp_step.
  split; [done|]. by exists err.
Qed.

(** The entry a new leader appends. *)
Definition noop (n : RaftNode B E) : LogEntry :=
  mkLogEntry (LastIndex (n_raftLog n) + 1) (n_currentTerm n) (mkCommand OpNoop "" [] []).

(** The log of a new leader: the no-op is its last entry, or its append failed. *)
Definition noop_appended (rl : RaftLog B) (e : LogEntry) (rl' : RaftLog B) : Prop :=
  (forall i, u64_ok i -> log_at rl' i = if decide (i = le_Index e) then Some e else log_at rl i) \/
  ((forall i, log_at rl' i = log_at rl i) /\ append_failed e rl').

Lemma wp_becomeLeader_log n : node_inv n -> n_state n = Candidate ->
  (LastIndex (n_raftLog n) + 1 < two64)%N ->
  wp becomeLeader (fun _ n' => n_leaderID n' = n_id n /\
    n_leader n' = Some (newLeaderState (n_peers n) (LastIndex (n_raftLog n))) /\
    n_commitIndex n' = n_commitIndex n /\ noop_appended (n_raftLog n) (noop n) (n_raftLog n')) n.
Proof.
  intros Hn Hst Hb. unfold becomeLeader. wp_step. wp_step.
  rewrite bool_decide_eq_true_2 by done. cbn [negb].
  do 5 wp_step. apply wp_LastIndex; [apply Hn|]. do 4 wp_step. destruct (ni_timer _ Hn) as [t Et].
  cbn [set_leader set_leaderID set_state n_electionTimer]. rewrite Et.
  wp_step. wp_step. wp_step. apply wp_resetHeartbeatTimer. intros t'.
  wp_step. apply wp_LastIndex; [apply Hn|]. wp_step. wp_step. wp_step. apply wp_log_op.
  cbn [set_leader set_leaderID set_state set_electionTimer set_heartbeatTimer n_raftLog n_currentTerm].
  rewrite u64_add_small by done. fold (noop n).
  assert (j_ok (noop n)) as Hj by (split; [exact Hb|apply Hn]).
  pose proof (Append_spec (n_raftLog n) (noop n) (ni_log _ Hn) Hj) as Hs.
  destruct (Append (n_raftLog n) (noop n)) as [[[err|] rl']|p] eqn:Ea; [| |done]; wp_step;
    do 3 (split; [done|]); [right|left].
  - split; [by apply same_log_reads; [|apply Hn]|by exists (n_raftLog n), err].
  - apply Hs.
Qed.
End elections.

(** C10: elections.  On a node with a well-formed log, when no reply carries a newer
    term and neither the term nor the last index is about to overflow, an election
    raises the term by one, votes for the node itself and saves both, and makes the
    node leader exactly when at least one peer grants its vote and the votes reach
    [len(peers)/2 + 1].  The record is on disk when [SaveMeta] returned nil; when it
    returned an error, which the node only logs, the old one is.  A new leader names
    itself, expects nothing of its peers yet, and has appended a no-op of the new
    term, unless the log reported an error, which is ignored; a candidate that loses
    keeps its log. *)
Theorem election_outcome {B : Bolt} {L : BoltLaws B} {E} {X : Engine E}
    (n : RaftNode B E) (reply : Peer -> error + RequestVoteResponse) :
  let rl := n_raftLog n in let g := grants reply (n_peers n) in let t := (n_currentTerm n + 1)%N in
  node_inv n -> (t < two64)%N -> (LastIndex rl + 1 < two64)%N ->
  (forall p, p ∈ n_peers n -> not_newer (reply p) t) ->
  exists n', startElection reply n = Done (tt, n') /\ node_inv n' /\
    n_currentTerm n' = t /\ n_votedFor n' = n_id n /\
    (exists err rl1, SaveMeta rl t (n_id n) = Done (err, rl1) /\
      LoadMeta (n_raftLog n') = match err with None => inr (t, san (n_id n)) | Some _ => LoadMeta rl end) /\
    if (0 <? g)%nat && (length (n_peers n) / 2 + 1 <=? 1 + g)%nat
    then n_state n' = Leader /\ n_leaderID n' = n_id n /\
      n_leader n' = Some (newLeaderState (n_peers n) (LastIndex rl)) /\
      noop_appended rl (mkLogEntry (LastIndex rl + 1) t (mkCommand OpNoop "" [] [])) (n_raftLog n')
    else n_state n' = Candidate /\ (forall i, log_at (n_raftLog n') i = log_at rl i).
Proof.
  intros rl g t Hn Hlt Hb Hrep.
  pose proof (wp_and _ _ _ _ (wp_startElection_begin n Hn Hlt) (wp_begin_log n Hn Hlt)) as H.
  apply wp_run in H as (el & n1 & Hr1 & (Hc1 & Hn1 & Hpv & _ & _ & _ & _ & Hv & Hq & Hw & Hwait) & Hk1 & err & Es).
  injection Hpv as Ht1 Hv1 Hs1. fold t rl in Ht1, Es.
  destruct (kept_reads _ _ (ni_log _ Hn) (ni_log _ Hn1) Hk1) as (El & _ & Ea). fold rl in El, Ea.
  assert (LoadMeta (n_raftLog n1) = match err with None => inr (t, san (n_id n)) | Some _ => LoadMeta rl end)
    as Hload.
  { pose proof (SaveMeta_spec rl t (n_id n) (ni_log _ Hn) Hlt) as Hs. rewrite Es in Hs.
    destruct err; [by apply same_log_reads; [|apply Hn]|apply Hs]. }
  destruct (collect_votes_spec (n_peers n) reply n1 el) as (el' & Hr2 & Hwon).
  { apply Forall_forall. intros p Hp. rewrite Ht1. by apply Hrep. }
  fold g in Hwon. rewrite Hw, Hv, Hq in Hwon. cbn [orb] in Hwon.
  assert (startElection reply n = startElection_end el' n1) as ->.
  { unfold startElection, bind. by rewrite Hr1, Hwait, Hr2. }
  unfold startElection_end. rewrite Hwon. unfold election_quorum.
  destruct ((0 <? g)%nat && (length (n_peers n) / 2 + 1 <=? 1 + g)%nat).
  - pose proof (wp_and _ _ _ _ (wp_becomeLeader n1 Hn1)
      (wp_becomeLeader_log n1 Hn1 Hs1 ltac:(by rewrite El))) as H.
    apply wp_run in H as ([] & n' & Hr & (_ & Hn' & Hl' & Hpv') & H1 & H2 & _ & H3).
    rewrite bool_decide_eq_true_2 in Hpv' by done. injection Hpv' as T1 T2 T3.
    exists n'. split; [done|]. split; [done|]. split; [congruence|]. split; [congruence|].
    split; [exists err, (n_raftLog n1); by rewrite Hl'|].
    split; [done|]. rewrite H1, H2, (sc_id _ _ Hc1), (sc_peers _ _ Hc1), El.
    split; [done|]. split; [done|]. unfold noop in H3. rewrite El, Ht1 in H3.
    destruct H3 as [H3|[H3 Hf]]; [left|right].
    + intros i Hi. by rewrite H3, Ea.
    + split; [|done]. intros i. by rewrite H3, Ea.
  - exists n1. split; [done|]. split; [done|]. split; [done|]. split; [done|].
    split; [by exists err, (n_raftLog n1)|done].
Qed.

(** Both peers of the sample node grant their vote. *)
Lemma election_outcome_witness :
  exists n', startElection (fun _ => sample_vote) sample_started = Done (tt, n') /\
    n_state n' = Leader /\ n_currentTerm n' = 1%N.
Proof.
  assert (n_peers sample_started = [mkPeer "b" "b:7001"; mkPeer "c" "c:7001"]) as Ep by by vm_compute.
  assert (n_currentTerm sample_started = 0%N) as Et by by vm_compute.
  destruct (election_outcome sample_started (fun _ => sample_vote) sample_started_inv)
    as (n' & Hr & _ & Ht & _ & _ & H).
  - by vm_compute.
  - by vm_compute.
  - intros p _ resp [= <-]. by vm_compute.
  - exists n'. split; [exact Hr|]. rewrite Ep in H. split; [exact (proj1 H)|].
    rewrite Ht, Et. reflexivity.
Defined.

(** C36: a single node never leads.  A node without peers counts its own vote, but
    only the goroutine of a peer looks whether the quorum is reached, so every
    election of a one-node cluster ends with a candidate, whether or not its term
    could be saved. *)
Theorem single_node_never_leads {B : Bolt} {L : BoltLaws B} {E} {X : Engine E} (n : RaftNode B E) reply :
  node_inv n -> (n_currentTerm n + 1 < two64)%N -> n_peers n = [] ->
  (election_quorum (n_peers n) <= 1)%nat /\
  exists n', startElection reply n = Done (tt, n') /\ n_state n' = Candidate.
Proof.
  intros Hn Hlt Hp. split; [by rewrite Hp|].
  pose proof (wp_startElection_begin n Hn Hlt) as H.
  apply wp_run in H as (el & n1 & Hr & _ & _ & Hpv & _ & _ & _ & _ & _ & _ & Hw & Hwait).
  injection Hpv as _ _ Hs. exists n1. split; [|done]. unfold startElection, bind.
  rewrite Hr, Hwait, Hp. simpl. unfold startElection_end. by rewrite Hw.
Qed.

Lemma single_node_never_leads_witness :
  exists n', startElection (fun _ => sample_vote) sample_solo = Done (tt, n') /\ n_state n' = Candidate.
Proof.
  destruct (single_node_never_leads sample_solo (fun _ => sample_vote) sample_solo_inv) as [_ H].
  - by vm_compute.
  - by vm_compute.
  - exact H.
Defined.

(** ** Proposals *)

(** C11: proposals.  A node that does not lead refuses with the leader it knows and
    does nothing.  A leader, whose log is well formed and not about to overflow,
    appends exactly one entry, after its last one and of its own term, and waits for
    that index on a new channel that no other index has; when its log reports an
    error the client gets that error, and no entry, no channel and no waiter is
    left.  When the entry is applied, its answer goes to that channel and to no
    other and only that client is taken off the list of waiters; the client then
    reads exactly that answer.  A client whose context ends gets the context's error
    and is forgotten, with all channels left as they are. *)
Theorem Propose_correct {B : Bolt} {L : BoltLaws B} {E} {X : Engine E} (n : RaftNode B E) (cmd : Command) :
  let e := mkLogEntry (LastIndex (n_raftLog n) + 1) (n_currentTerm n) cmd in
  node_inv n -> (LastIndex (n_raftLog n) + 1 < two64)%N ->
  (n_state n <> Leader -> Propose_begin cmd n = Done (inl (NotLeaderError (n_leaderID n)), n)) /\
  (n_state n = Leader ->
    (exists err n', Append (n_raftLog n) e = Done (Some err, n_raftLog n') /\
      Propose_begin cmd n = Done (inl (Wrapf "appending to log" err), n') /\ node_inv n' /\
      n_pending n' = n_pending n /\ n_chans n' = n_chans n /\
      (forall i, log_at (n_raftLog n') i = log_at (n_raftLog n) i)) \/
    (exists ch n', Propose_begin cmd n = Done (inr (le_Index e, ch), n') /\ node_inv n' /\
      n_pending n' = <[le_Index e := ch]> (n_pending n) /\ (forall i, n_pending n !! i <> Some ch) /\
      n_chans n !! ch = None /\ n_chans n' = <[ch := []]> (n_chans n) /\
      (forall i, u64_ok i -> log_at (n_raftLog n') i =
        if decide (i = le_Index e) then Some (j_san e) else log_at (n_raftLog n) i))) /\
  (forall (n1 : RaftNode B E) i ch err, node_inv n1 -> n_pending n1 !! i = Some ch ->
    exists n2 n3, notify_pending i err n1 = Done (tt, n2) /\ wakeup_enabled n2 ch WDone = true /\
      Propose_end i ch WDone n2 = Done (err, n3) /\ n_pending n3 = delete i (n_pending n1) /\
      n_pending n2 = n_pending n3 /\
      forall ch', ch' <> ch -> n_chans n2 !! ch' = n_chans n1 !! ch' /\ n_chans n3 !! ch' = n_chans n1 !! ch') /\
  (forall (n1 : RaftNode B E) i ch err, exists n2, Propose_end i ch (WCtx err) n1 = Done (Some err, n2) /\
    n_pending n2 = delete i (n_pending n1) /\ n_chans n2 = n_chans n1).
Proof.
  intros e Hn Hb. split; [|split; [|split]].
  - intros Hst. unfold Propose_begin, bind, get. by rewrite bool_decide_eq_false_2.
  - intros Hst. pose proof (wp_Propose_leader n cmd Hn Hst Hb) as H. fold e in H.
    apply wp_run in H as (r & n' & Hr & Hq & _ & _ & H). destruct r as [err|[i ch]]; [left|right].
    + destruct H as (Hc & Hp & Hl & err' & -> & Ea). exists err', n'. by split_and!; [..|apply Hq| | |].
    + destruct H as (-> & Hfresh & Hc & Hp & Hl). exists ch, n'. split_and!; try done; [apply Hq|].
      intros i Hi. destruct (ni_pending _ Hn) as [Hch _]. by rewrite (Hch _ _ Hi) in Hfresh.
  - intros n1 i ch err Hn1 Hpn. destruct (ni_pending _ Hn1) as [Hc _]. specialize (Hc _ _ Hpn).
    unfold notify_pending, chan_send, bind, gets, modify. rewrite Hpn, Hc. simpl.
    eexists _, _. split; [reflexivity|]. unfold wakeup_enabled, Propose_end, bind, gets, modify, ret.
    simpl. rewrite lookup_insert_eq. simpl. split; [done|]. split; [reflexivity|]. split; [done|].
    split; [done|]. intros ch' Hne. simpl. by rewrite !lookup_insert_ne.
  - intros n1 i ch err. eexists. split; [reflexivity|done].
Qed.

Lemma Propose_correct_witness :
  exists ch n', Propose_begin (put "x" "1") sample_leader = Done (inr (2%N, ch), n') /\
    log_at (n_raftLog n') 2 = Some (mkLogEntry 2 1 (put "x" "1")).
Proof.
  assert (LastIndex (n_raftLog sample_leader) = 1%N) as El by by vm_compute.
  assert (n_currentTerm sample_leader = 1%N) as Et by by vm_compute.
  destruct (Propose_correct sample_leader (put "x" "1") sample_leader_inv) as (_ & H & _).
  - by rewrite El.
  - assert (match Propose_begin (put "x" "1") sample_leader with
      | Done (inr _, _) => true | _ => false end = true) as Ed by by vm_compute.
    destruct (H sample_leader_is) as [(err & n' & _ & Hr & _)|(ch & n' & Hr & _ & _ & _ & _ & _ & Hl)].
    { rewrite Hr in Ed. discriminate Ed. }
    exists ch, n'. cbn [le_Index] in Hr, Hl. rewrite El in Hr, Hl. split; [exact Hr|].
    rewrite (Hl 2%N) by done. rewrite Et. by vm_compute.
Defined.
