(* ===== verification/Snapshots.v ===== *)
(** * Snapshots

    Installing a snapshot on a follower, sending one from a leader, compacting
    the log after one was taken, and what a restart keeps of it. *)

From S2P Require Import Prelude GoJson Types Config Bolt RaftLog LeaderState Storage RaftNode.
From S2P Require Import RaftNodeSpec Frames Sample RaftNodeProps.
Import Utf8 Json MapBolt.

Local Open Scope string_scope.

Section snapshots.
Context {B : Bolt} {L : BoltLaws B} {E : Type} {X : Engine E}.
Implicit Types n : RaftNode B E.

(** What is left alone before the snapshot is restored. *)
Definition applied_part n :=
  (n_commitIndex n, n_lastApplied n, n_storage n, n_snapshotData n, n_pending n, n_chans n).

Lemma keeps_becomeFollower t : keeps applied_part (becomeFollower t).
Proof. unfold becomeFollower, node_SaveMeta, resetElectionTimer, rand_Intn. keeps. Qed.

Lemma keeps_resetElectionTimer : keeps applied_part resetElectionTimer.
Proof. unfold resetElectionTimer, rand_Intn. keeps. Qed.

(** The part of the handler before the snapshot is restored. *)
Record announced n (req : InstallSnapshotRequest) n' : Prop := {
  an_inv : node_inv n';
  an_term : n_currentTerm n' = is_Term req;
  an_log : entries_kept (n_raftLog n) (n_raftLog n');
  an_applied : applied_part n' = applied_part n
}.

(** The rest of it. *)
Definition install_rest (req : InstallSnapshotRequest) (t : Term) (id : NodeID)
    : M (RaftNode B E) InstallSnapshotResponse :=
  (st <- gets n_storage ;;
    let '(err, st) := eng_RestoreSnapshot st (is_Data req) in
    modify (set_storage st) ;;
    if bool_decide (err <> None) then ret (mkISResp t id false)
    else
      err <- node_Compact (is_LastIncludedIndex req) (is_LastIncludedTerm req) ;;
      if bool_decide (err <> None) then ret (mkISResp t id false)
      else
        modify (set_commitIndex (is_LastIncludedIndex req)) ;;
        modify (set_lastApplied (is_LastIncludedIndex req)) ;;
        modify (set_snapshotData (is_Data req)) ;;
        ret (mkISResp t id true))%go.

Lemma InstallSnapshot_enter n req :
  node_inv n -> j_ok req -> (n_currentTerm n <= is_Term req)%N ->
  exists n2, announced n req n2 /\
    HandleInstallSnapshot req n = install_rest req (n_currentTerm n) (n_id n) n2.
Proof.
  intros Hn Hreq Hle.
  assert (wp (when (n_currentTerm n <? is_Term req)%N (becomeFollower (is_Term req)))
    (fun _ n1 => (caught_up n (is_Term req) n1) /\ applied_part n1 = applied_part n) n) as H1.
  { apply wp_wlp; [by apply wp_catch_up; [..|apply Hreq|done|]|].
    apply keeps_when, keeps_becomeFollower. }
  apply wp_run in H1 as ([] & n1 & E1 & [Hd Et Ev Hk Hc] & Ha1).
  destruct (quiet_or_down_inv _ _ _ Hd) as [Hn1 _].
  assert (wp resetElectionTimer (fun _ n2 => (quiet n1 n2 /\ n_raftLog n2 = n_raftLog n1) /\
    applied_part n2 = applied_part n1) n1) as H2.
  { apply wp_wlp; [|apply keeps_resetElectionTimer]. apply wp_resetElectionTimer; [apply Hn1|].
    intros tm r _. split; [by apply quiet_timer|done]. }
  apply wp_run in H2 as ([] & n2 & E2 & [Hq2 Hl2] & Ha2).
  exists (set_leaderID (is_LeaderID req) n2). split.
  - pose proof (quiet_leaderID n2 (is_LeaderID req) (q_inv _ _ Hq2)) as Hq3.
    pose proof (q_pv _ _ Hq2) as [= P _ _]. split; simpl.
    + apply Hq3.
    + rewrite P, Et. lia.
    + by rewrite Hl2.
    + unfold applied_part in *. simpl. congruence.
  - unfold HandleInstallSnapshot. do 2 erewrite bind_done by reflexivity.
    rewrite (proj2 (N.ltb_ge _ _) Hle). rewrite (bind_done _ _ _ _ _ E1), (bind_done _ _ _ _ _ E2).
    by erewrite bind_done by reflexivity.
Qed.

(** What the rest does, by what the engine and the compaction return. *)
Lemma install_rest_runs req t id n :
  install_rest req t id n =
  match eng_RestoreSnapshot (n_storage n) (is_Data req) with
  | (Some _, st) => Done (mkISResp t id false, set_storage st n)
  | (None, st) =>
      match Compact (n_raftLog n) (is_LastIncludedIndex req) (is_LastIncludedTerm req) with
      | Panic p => Panic p
      | Done (Some _, rl) => Done (mkISResp t id false, set_raftLog rl (set_storage st n))
      | Done (None, rl) => Done (mkISResp t id true, set_snapshotData (is_Data req)
          (set_lastApplied (is_LastIncludedIndex req) (set_commitIndex (is_LastIncludedIndex req)
            (set_raftLog rl (set_storage st n)))))
      end
  end.
Proof.
  unfold install_rest, node_Compact, log_op, bind, gets, modify, ret.
  destruct (eng_RestoreSnapshot _ _) as [[err|] st]; [by rewrite bool_decide_eq_true_2|].
  rewrite bool_decide_eq_false_2 by tauto. cbn [set_storage n_raftLog].
  destruct (Compact _ _ _) as [[[err|] rl]|p]; [by rewrite bool_decide_eq_true_2| |done].
  by rewrite bool_decide_eq_false_2 by tauto.
Qed.

(** A log with the entries and the boundary of another. *)
Definition same_entries (rl rl' : RaftLog B) : Prop :=
  log_wf rl' /\ (forall i, log_at rl' i = log_at rl i) /\ rl_snapshotIndex rl' = rl_snapshotIndex rl.

(** A current request, in full. *)
Lemma InstallSnapshot_runs n req : node_inv n -> j_ok req -> (n_currentTerm n <= is_Term req)%N ->
  exists n2, announced n req n2 /\ same_entries (n_raftLog n) (n_raftLog n2) /\
  HandleInstallSnapshot req n =
    match eng_RestoreSnapshot (n_storage n) (is_Data req) with
    | (Some _, st) => Done (mkISResp (n_currentTerm n) (n_id n) false, set_storage st n2)
    | (None, st) =>
        match Compact (n_raftLog n2) (is_LastIncludedIndex req) (is_LastIncludedTerm req) with
        | Panic p => Panic p
        | Done (Some _, rl) => Done (mkISResp (n_currentTerm n) (n_id n) false, set_raftLog rl (set_storage st n2))
        | Done (None, rl) => Done (mkISResp (n_currentTerm n) (n_id n) true, set_snapshotData (is_Data req)
            (set_lastApplied (is_LastIncludedIndex req) (set_commitIndex (is_LastIncludedIndex req)
              (set_raftLog rl (set_storage st n2)))))
        end
    end.
Proof.
  intros Hn Hreq Hle. destruct (InstallSnapshot_enter n req Hn Hreq Hle) as (n2 & H2 & ->).
  exists n2. split; [done|]. destruct H2 as [Hn2 _ Hk Ha]. split.
  - split; [apply Hn2|]. split; [intros i; by apply kept_log_at|apply Hk].
  - rewrite install_rest_runs. injection Ha as _ _ -> _ _ _. done.
Qed.
End snapshots.

(** ** Properties *)

(** C19: installing a snapshot, on a node whose log and engine are well formed.  A
    stale request changes nothing.  A current one whose data the engine refuses is
    answered negatively, with the contents of the engine, the entries and the
    indices left alone.  When the engine restores the data, the log, still with its
    entries, is compacted.  If the compaction returns nil, the reply is positive,
    the state machine is the decoded map, the commit and applied indices are the
    snapshot's, entries were only removed, none of them above the snapshot's index
    and the first one if it is covered, and the boundary is on disk, while the one
    the log uses in memory stays.  If it returns an error the reply is negative and
    the indices stay, but the state machine is the new one; a panic of it is one of
    the handler.  A reply carries the term the node had before. *)
Theorem InstallSnapshot_correct {B : Bolt} {L : BoltLaws B} {E} {X : Engine E} {EL : EngineLaws E}
    (n : RaftNode B E) (req : InstallSnapshotRequest) :
  let idx := is_LastIncludedIndex req in let reply ok := mkISResp (n_currentTerm n) (n_id n) ok in
  node_inv n -> j_ok req -> eng_wf (n_storage n) ->
  if (is_Term req <? n_currentTerm n)%N then HandleInstallSnapshot req n = Done (reply false, n)
  else match eng_RestoreSnapshot (n_storage n) (is_Data req) with
  | (Some _, st) => exists n', HandleInstallSnapshot req n = Done (reply false, n') /\
      n_storage n' = st /\ eng_view st = eng_view (n_storage n) /\
      same_entries (n_raftLog n) (n_raftLog n') /\
      n_commitIndex n' = n_commitIndex n /\ n_lastApplied n' = n_lastApplied n
  | (None, st) => Unmarshal (is_Data req) = Some (eng_view st) /\
      exists rl, same_entries (n_raftLog n) rl /\
      match Compact rl idx (is_LastIncludedTerm req) with
      | Panic p => HandleInstallSnapshot req n = Panic p
      | Done (Some _, _) => exists n', HandleInstallSnapshot req n = Done (reply false, n') /\
          n_storage n' = st /\ n_commitIndex n' = n_commitIndex n /\ n_lastApplied n' = n_lastApplied n
      | Done (None, _) => exists n', HandleInstallSnapshot req n = Done (reply true, n') /\
          n_storage n' = st /\ n_currentTerm n' = is_Term req /\ n_commitIndex n' = idx /\
          n_lastApplied n' = idx /\ n_snapshotData n' = is_Data req /\
          pruned (fun i => i <= idx)%N (n_raftLog n) (n_raftLog n') /\
          (forall i, first_from (n_raftLog n) 0 i -> (i <= idx)%N -> log_at (n_raftLog n') i = None) /\
          snap_on_disk (n_raftLog n') = Some (mkSnapMeta idx (is_LastIncludedTerm req)) /\
          rl_snapshotIndex (n_raftLog n') = rl_snapshotIndex (n_raftLog n)
      end
  end.
Proof.
  intros idx reply Hn Hreq Hwf. destruct (is_Term req <? n_currentTerm n)%N eqn:Elt.
  { unfold HandleInstallSnapshot, bind, gets. by rewrite Elt. }
  apply N.ltb_ge in Elt. destruct (InstallSnapshot_runs n req Hn Hreq Elt) as (n2 & H2 & Hs & ->).
  fold idx (reply false) (reply true). pose proof (Restore_law (n_storage n) (is_Data req) Hwf) as Hr.
  destruct H2 as [Hn2 Et _ Ha]. injection Ha as Hc Hla _ _ _ _.
  destruct (eng_RestoreSnapshot _ _) as [[err|] st].
  { eexists. split; [reflexivity|]. simpl. split; [done|]. split; [apply Hr|done]. }
  split; [apply Hr|]. exists (n_raftLog n2). split; [done|]. destruct Hreq as (_ & Hi & Ht).
  pose proof (Compact_spec (n_raftLog n2) idx _ (ni_log _ Hn2) Hi Ht) as Hcs.
  destruct (Compact _ _ _) as [[[err|] rl']|p]; [by eexists| |done].
  destruct Hcs as (_ & Hp & Hf & Hd & _ & Hsi & _). destruct Hs as (_ & Hl & Hs).
  eexists. split; [reflexivity|]. simpl. split_and!; try done; [..|congruence].
  - intros i Hi'. rewrite <-Hl. by apply Hp.
  - intros i Hfi. apply Hf. destruct Hfi as (? & ? & ? & Hmin). split_and!; [done|done|by rewrite Hl|].
    intros j. rewrite Hl. apply Hmin.
Qed.

(** A lagging follower receives a one-key snapshot that covers its first entry. *)
Definition sample_install : InstallSnapshotRequest :=
  mkISReq 1 "b" 1 1 (Marshal (<["x" := str "1"]> ∅ : gmap string bytes)).

(** Whether the handler accepts it. *)
Definition installs (req : InstallSnapshotRequest) (m : sample_node) : bool :=
  match HandleInstallSnapshot req m with Done (resp, _) => isr_Success resp | Panic _ => false end.

Lemma installs_run req (m : sample_node) resp m' :
  HandleInstallSnapshot req m = Done (resp, m') -> installs req m = true -> isr_Success resp = true.
Proof. unfold installs. by intros ->. Qed.

Lemma installs_panic req (m : sample_node) p :
  HandleInstallSnapshot req m = Panic p -> installs req m = true -> False.
Proof. unfold installs. by intros ->. Qed.

Lemma InstallSnapshot_correct_witness :
  exists n', HandleInstallSnapshot sample_install sample_follower = Done (mkISResp 1 "a" true, n') /\
    n_lastApplied n' = 1%N /\ log_at (n_raftLog n') 1 = None.
Proof.
  pose proof (InstallSnapshot_correct (EL := MemoryEngine_laws) sample_follower sample_install
    sample_follower_inv ltac:(repeat split; by vm_compute) sample_follower_wf) as H.
  assert ((is_Term sample_install <? n_currentTerm sample_follower)%N = false) as E by by vm_compute.
  assert (installs sample_install sample_follower = true) as Ei by by vm_compute.
  assert (n_currentTerm sample_follower = 1%N /\ n_id sample_follower = "a") as [Et Eid] by (split; by vm_compute).
  assert (first_from (n_raftLog sample_follower) 0 1) as Hf.
  { split; [done|]. split; [done|]. split; [by eexists; vm_compute|]. intros j Hj _ [e He].
    destruct (decide (j = 0)%N) as [->|]; [by vm_compute in He|lia]. }
  rewrite E in H. cbv zeta in H. rewrite Et, Eid in H.
  destruct (eng_RestoreSnapshot _ _) as [[err|] st]; 
    [destruct H as (n' & Hr & _); discriminate (installs_run _ _ _ _ Hr Ei)|].
  destruct H as (_ & rl & _ & H). destruct (Compact rl _ _) as [[[err|] rl']|p].
  - destruct H as (n' & Hr & _). discriminate (installs_run _ _ _ _ Hr Ei).
  - destruct H as (n' & Hr & _ & _ & _ & Ha & _ & _ & Hl & _). exists n'. split; [exact Hr|]. split; [exact Ha|].
    apply Hl; [exact Hf|reflexivity].
  - destruct (installs_panic _ _ _ H Ei).
Defined.

(** C20: sending a snapshot, between two nodes with well-formed logs and engines.
    When a peer's next index is covered by the leader's snapshot, the snapshot is
    the JSON of a map with UTF-8 keys, and the follower, whose term is not higher,
    can restore it and compact its log, the request the leader prepares gives the
    follower exactly that map as its state machine, at the leader's snapshot index,
    and the leader goes on after that index.  If the compaction reports an error the
    reply is negative and the leader's progress stays; a panic of it is one of the
    follower's handler. *)
Theorem snapshot_transfer {B : Bolt} {L : BoltLaws B}
    {E1} {X1 : Engine E1} {E2} {X2 : Engine E2} {EL : EngineLaws E2}
    (n : RaftNode B E1) (m : RaftNode B E2) ls peer (kv : gmap string bytes) st :
  let rl := n_raftLog n in
  node_inv n -> node_inv m -> eng_wf (n_storage m) -> n_state n = Leader -> n_leader n = Some ls ->
  (LastIndex rl + 1 < two64)%N -> (map_get (nextIndex ls) (peer_ID peer) <= rl_snapshotIndex rl)%N ->
  n_snapshotData n = Marshal kv -> (forall k, is_Some (kv !! k) -> utf8_string k) ->
  (n_currentTerm m <= n_currentTerm n)%N ->
  eng_RestoreSnapshot (n_storage m) (Marshal kv) = (None, st) ->
  exists req, replicateToPeer_prepare peer n = Done (Some (CallSnapshot (rl_snapshotIndex rl) req), n) /\
  exists rlm, same_entries (n_raftLog m) rlm /\
  match Compact rlm (rl_snapshotIndex rl) (rl_snapshotTerm rl) with
  | Panic p => HandleInstallSnapshot req m = Panic p
  | Done (Some _, _) => exists resp m', HandleInstallSnapshot req m = Done (resp, m') /\
      isr_Success resp = false /\
      replicateToPeer_snapshot_reply peer (rl_snapshotIndex rl) (inr resp) n = Done (tt, n)
  | Done (None, _) => exists resp m' n' ls', HandleInstallSnapshot req m = Done (resp, m') /\
      isr_Success resp = true /\ eng_view (n_storage m') = kv /\ n_lastApplied m' = rl_snapshotIndex rl /\
      replicateToPeer_snapshot_reply peer (rl_snapshotIndex rl) (inr resp) n = Done (tt, n') /\
      n_leader n' = Some ls' /\ map_get (matchIndex ls') (peer_ID peer) = rl_snapshotIndex rl /\
      map_get (nextIndex ls') (peer_ID peer) = (rl_snapshotIndex rl + 1)%u64
  end.
Proof.
  intros rl Hn Hm Hwf Hst El Hb Hnext Hdata Hutf Ht Hok.
  pose proof (wp_and _ _ _ _ (wp_replicateToPeer_prepare n peer Hn) (wp_prepare n ls peer Hn Hst El Hb)) as H.
  apply wp_run in H as (call & n0 & Hprep & [-> Hcall] & _ & Hc). cbv zeta in Hc. fold rl in Hc.
  rewrite (proj2 (N.leb_le _ _) Hnext) in Hc. subst call. rewrite Hdata in Hprep, Hcall.
  set (req := mkISReq _ _ _ _ _) in *. destruct (Hcall _ eq_refl) as [_ [_ Hjok]].
  exists req. split; [done|].
  destruct (InstallSnapshot_runs m req Hm Hjok Ht) as (m2 & _ & Hs & Hr). exists (n_raftLog m2).
  split; [done|]. cbn [is_Data req] in Hr. rewrite Hok in Hr. cbn [is_LastIncludedIndex is_LastIncludedTerm req] in Hr.
  pose proof (Restore_law (n_storage m) (Marshal kv) Hwf) as Hv. rewrite Hok in Hv. destruct Hv as [_ Hv].
  rewrite Unmarshal_map, san_map_utf8 in Hv by done. injection Hv as Hv.
  destruct (Compact _ _ _) as [[[err|] rl']|p]; [| |done].
  - eexists _, _. split; [exact Hr|]. split; [done|].
    unfold replicateToPeer_snapshot_reply, bind, gets, ret. cbn [isr_Term isr_Success].
    by rewrite (proj2 (N.ltb_ge _ _) Ht).
  - eexists _, _, _, _. split; [exact Hr|]. split; [done|]. split; [by symmetry|]. split; [done|].
    unfold replicateToPeer_snapshot_reply, the_leader, bind, gets, modify, ret. cbn [isr_Term isr_Success].
    rewrite (proj2 (N.ltb_ge _ _) Ht), El. split; [reflexivity|]. split; [reflexivity|].
    unfold map_get. cbn [matchIndex nextIndex]. by rewrite !lookup_insert_eq.
Qed.

(** A leader with a snapshot to send: the sample follower compacts its log and
    restarts, wins an election, learns that "b" has nothing, and takes a snapshot
    again. *)
Definition sample_compacted : sample_node := after (takeSnapshot_commit 2 1 (inr [])) sample_follower.

Definition sample_reopened : error + sample_node :=
  NewRaftNode (B := reliable_bolt) (fun _ => None) (fun _ => inr (rl_db (n_raftLog sample_compacted)))
    sample_cfg NewMemoryEngine [].

Definition sample_restarted : sample_node :=
  match sample_reopened with inr n => after Start n | inl _ => sample_new end.

Definition sample_kv : gmap string bytes := <["x" := str "1"]> ∅.

Definition sample_sender : sample_node :=
  after (takeSnapshot_commit 3 2 (inr (Marshal sample_kv)))
    (after (replicateToPeer_append_reply (mkPeer "b" "b:7001") (inr (mkAEResp 2 false "b" 0 1 0)))
      (after (startElection (fun _ => sample_vote)) sample_restarted)).

Lemma after_snapshot (n : sample_node) i t data : node_inv n -> u64_ok i -> u64_ok t ->
  node_inv (after (takeSnapshot_commit i t data) n).
Proof.
  intros Hn Hi Ht. apply (after_wlp _ node_inv); [|done]. eapply wlp_mono.
  { by eapply wpe_wlp, wpe_takeSnapshot_commit. }
  intros ? ? Hq. apply Hq.
Qed.

Lemma sample_restarted_inv : node_inv sample_restarted.
Proof.
  assert (node_inv sample_compacted) as Hn.
  { apply after_snapshot; [exact sample_follower_inv|by vm_compute..]. }
  unfold sample_restarted.
  destruct (NewRaftNode_ok sample_compacted sample_cfg NewMemoryEngine [] Hn) as [n0 Hn0].
  unfold sample_reopened. rewrite Hn0. apply (after_wp _ node_inv). eapply wp_mono.
  { apply (NewRaftNode_spec sample_compacted n0 sample_cfg NewMemoryEngine [] Hn); [by vm_compute|exact Hn0]. }
  by intros ? ? [? _].
Qed.

Lemma sample_sender_inv : node_inv sample_sender.
Proof.
  apply after_snapshot; [|by vm_compute..].
  apply (after_quiet_or_down _ _ 2).
  apply (wp_replicateToPeer_append_reply _ _ (inr (mkAEResp 2 false "b" 0 1 0))).
  - apply elected_inv; [exact sample_restarted_inv|by vm_compute].
  - intros resp [= <-]; repeat split; by vm_compute.
Qed.

Definition sample_snapshot : InstallSnapshotRequest := mkISReq 2 "a" 2 1 (Marshal sample_kv).

Lemma sample_sender_prepare :
  replicateToPeer_prepare (mkPeer "b" "b:7001") sample_sender
    = Done (Some (CallSnapshot 2 sample_snapshot), sample_sender).
Proof. apply prepared_run; [exact sample_sender_inv|by vm_compute]. Qed.

Lemma sent_unique (n : sample_node) peer i req req' :
  replicateToPeer_prepare peer n = Done (Some (CallSnapshot i req), n) ->
  replicateToPeer_prepare peer n = Done (Some (CallSnapshot i req'), n) -> req = req'.
Proof. intros ->. by intros [= ->]. Qed.

Lemma snapshot_transfer_witness :
  exists req resp m' n' ls',
    replicateToPeer_prepare (mkPeer "b" "b:7001") sample_sender
      = Done (Some (CallSnapshot 2 req), sample_sender) /\
    HandleInstallSnapshot req sample_started = Done (resp, m') /\ isr_Success resp = true /\
    eng_view (EngineLaws := MemoryEngine_laws) (n_storage m') = sample_kv /\
    replicateToPeer_snapshot_reply (mkPeer "b" "b:7001") 2 (inr resp) sample_sender = Done (tt, n') /\
    n_leader n' = Some ls' /\ map_get (matchIndex ls') "b" = 2%N.
Proof.
  assert (rl_snapshotIndex (n_raftLog sample_sender) = 2%N) as Esi by by vm_compute.
  assert (rl_snapshotTerm (n_raftLog sample_sender) = 1%N) as Est by by vm_compute.
  destruct (snapshot_transfer (EL := MemoryEngine_laws) sample_sender sample_started
    (mkLeaderState {["b" := 1%N; "c" := 3%N]} {["b" := 0%N; "c" := 0%N]}) (mkPeer "b" "b:7001") sample_kv
    (mkMemoryEngine (Some sample_kv)) sample_sender_inv sample_started_inv sample_started_wf)
    as (req & H1 & rlm & _ & H).
  - by vm_compute.
  - by vm_compute.
  - by vm_compute.
  - by vm_compute.
  - by vm_compute.
  - intros k [v Hv]. unfold sample_kv in Hv. apply lookup_insert_Some in Hv as [[<- _]|[_ Hv]]; [by vm_compute|].
    by rewrite lookup_empty in Hv.
  - by vm_compute.
  - by vm_compute.
  - rewrite Esi in H1, H. rewrite Est in H.
    pose proof (sent_unique _ _ _ _ _ H1 sample_sender_prepare) as ->.
    assert (installs sample_snapshot sample_started = true) as Ei by by vm_compute.
    destruct (Compact rlm 2 1) as [[[err|] rl']|p].
    + destruct H as (resp & m' & Hr & Hs & _). pose proof (installs_run _ _ _ _ Hr Ei). congruence.
    + destruct H as (resp & m' & n' & ls' & H2 & H3 & H4 & _ & H5 & H6 & H7 & _).
      exists sample_snapshot, resp, m', n', ls'.
      exact (conj H1 (conj H2 (conj H3 (conj H4 (conj H5 (conj H6 H7)))))).
    + destruct (installs_panic _ _ _ H Ei).
Defined.

(** ** Departures from the protocol *)

(** C37: compaction forgets the end of the log.  A snapshot of a well-formed log up
    to its last index is taken.  If the compaction returns nil and has removed every
    entry, the running node's last index falls back to the boundary it had in
    memory, so its next entry reuses an old index, while the same database opened
    afresh reports the snapshot's index and term.  If the compaction returns an
    error, the node keeps its entries and its last index; a panic of it is one of
    the goroutine. *)
Theorem takeSnapshot_forgets_index {B : Bolt} {L : BoltLaws B} {E} {X : Engine E}
    (n : RaftNode B E) t data path rl :
  let i := LastIndex (n_raftLog n) in
  node_inv n -> u64_ok t ->
  match Compact (n_raftLog n) i t with
  | Panic p => takeSnapshot_commit i t (inr data) n = Panic p
  | Done (Some _, rl1) => takeSnapshot_commit i t (inr data) n = Done (tt, set_raftLog rl1 n) /\
      LastIndex rl1 = i /\ forall j, log_at rl1 j = log_at (n_raftLog n) j
  | Done (None, rl1) => exists n', takeSnapshot_commit i t (inr data) n = Done (tt, n') /\
      n_raftLog n' = rl1 /\ n_snapshotData n' = data /\
      ((forall j, u64_ok j -> log_at rl1 j = None) ->
       LastIndex rl1 = rl_snapshotIndex (n_raftLog n) /\
       (newRaftLog (fun _ => None) (fun _ => inr (rl_db rl1)) path = inr rl ->
        LastIndex rl = i /\ TermAt rl i = if (i =? 0)%N then 0%N else t))
  end.
Proof.
  intros i Hn Ht. assert (u64_ok i) as Hi by by apply LastIndex_ok.
  pose proof (Compact_spec (n_raftLog n) i t (ni_log _ Hn) Hi Ht) as Hs.
  unfold takeSnapshot_commit, node_Compact, log_op, bind, modify, ret.
  destruct (Compact _ _ _) as [[[err|] rl1]|p]; [| |done].
  { rewrite bool_decide_eq_true_2 by done. split; [done|].
    destruct (same_log_reads _ _ Hs (ni_log _ Hn)) as (? & ? & _). done. }
  destruct Hs as (Hwf & _ & _ & Hd & _ & Hsi & _). rewrite bool_decide_eq_false_2 by tauto.
  eexists. split; [reflexivity|]. split; [done|]. split; [done|]. intros Hnone. split.
  - destruct (LastIndex_spec rl1 Hwf) as [([e He] & Hu & _)|[-> _]]; [|done]. by rewrite Hnone in He.
  - intros Hopen. destruct (newRaftLog_spec path rl1 rl Hwf Hopen) as (Hwf' & Hb & _ & Hsnap).
    rewrite Hd in Hsnap. injection Hsnap as S1 S2.
    assert (LastIndex rl = i) as El.
    { destruct (LastIndex_spec rl Hwf') as [([e He] & Hu & _)|[-> _]]; [|done].
      unfold log_at in He. rewrite Hb in He. fold (log_at rl1 (LastIndex rl)) in He.
      by rewrite Hnone in He. }
    split; [done|]. unfold TermAt. rewrite S1, N.eqb_refl. by rewrite S2.
Qed.

(** The sample follower compacts its two entries: its log now seems empty. *)
Lemma takeSnapshot_forgets_index_witness :
  exists n', takeSnapshot_commit 2 1 (inr []) sample_follower = Done (tt, n') /\
    LastIndex (n_raftLog n') = 0%N.
Proof.
  assert (LastIndex (n_raftLog sample_follower) = 2%N) as El by by vm_compute.
  assert (rl_snapshotIndex (n_raftLog sample_follower) = 0%N) as Esi by by vm_compute.
  assert (match Compact (n_raftLog sample_follower) 2 1 with
    | Done (None, rl1) => bool_decide (log_bkt rl1 = ∅) | _ => false end = true) as Ec by by vm_compute.
  pose proof (takeSnapshot_forgets_index sample_follower 1 [] (str "raft.db") (n_raftLog sample_follower)
    sample_follower_inv ltac:(by vm_compute)) as H. cbv zeta in H. rewrite El in H.
  destruct (Compact (n_raftLog sample_follower) 2 1) as [[[err|] rl1]|p]; [discriminate Ec| |discriminate Ec].
  apply bool_decide_eq_true in Ec. destruct H as (n' & Hr & <- & _ & H). exists n'. split; [exact Hr|].
  destruct H as [-> _]; [|exact Esi]. intros j _. unfold log_at. by rewrite Ec, lookup_empty.
Defined.



(** C39: a null snapshot breaks the in-memory engine.  On a node with a well-formed
    log and engine, a request of the node's term whose data is the JSON null leaves
    the engine with a nil map.  The handler then compacts the log, still with its
    entries: unless that panics, the reply says success exactly when the compaction
    returned nil, and in either case the next write that is applied panics. *)
Theorem null_snapshot_panics {B : Bolt} {L : BoltLaws B} (n : RaftNode B MemoryEngine) id i t :
  node_inv n -> eng_wf (n_storage n) -> u64_ok i -> u64_ok t ->
  let handled := HandleInstallSnapshot (mkISReq (n_currentTerm n) id i t (str "null")) n in
  exists rl, same_entries (n_raftLog n) rl /\
  match Compact rl i t with
  | Panic p => handled = Panic p
  | Done (err, _) => exists n',
      handled = Done (mkISResp (n_currentTerm n) (n_id n) (bool_decide (err = None)), n') /\
      forall k v, applyCommand (mkCommand OpPut k v []) n' = Panic PanicNilMap
  end.
Proof.
  intros Hn Hwf Hi Ht handled. set (req := mkISReq (n_currentTerm n) id i t (str "null")) in *.
  assert (j_ok req) as Hreq by (split; [apply Hn|done]).
  assert (decode_map (str "null") = Some None) as Ed by by vm_compute.
  destruct (InstallSnapshot_runs n req Hn Hreq (N.le_refl _)) as (n2 & _ & Hs & Hr). fold handled in Hr.
  exists (n_raftLog n2). split; [done|].
  assert (eng_RestoreSnapshot (n_storage n) (is_Data req) = (None, mkMemoryEngine None)) as Er.
  { cbn [eng_RestoreSnapshot MemoryEngine_engine is_Data req]. unfold mem_RestoreSnapshot. by rewrite Ed. }
  rewrite Er in Hr. cbn [is_LastIncludedIndex is_LastIncludedTerm req] in Hr.
  destruct (Compact _ _ _) as [[[err|] rl']|p]; [| |done]; eexists; (split; [exact Hr|]); done.
Qed.

Lemma null_snapshot_panics_witness :
  exists resp n', HandleInstallSnapshot (mkISReq (n_currentTerm sample_follower) "b" 2 1 (str "null"))
      sample_follower = Done (resp, n') /\ isr_Success resp = true /\
    applyCommand (put "x" "1") n' = Panic PanicNilMap.
Proof.
  destruct (null_snapshot_panics sample_follower "b" 2 1 sample_follower_inv sample_follower_wf
    ltac:(by vm_compute) ltac:(by vm_compute)) as (rl & _ & H).
  assert (installs (mkISReq (n_currentTerm sample_follower) "b" 2 1 (str "null")) sample_follower = true)
    as Ei by by vm_compute.
  destruct (Compact rl 2 1) as [[err rl']|p]; [|destruct (installs_panic _ _ _ H Ei)].
  destruct H as (n' & Hr & Hp). pose proof (installs_run _ _ _ _ Hr Ei) as Es.
  exists (mkISResp (n_currentTerm sample_follower) (n_id sample_follower) (bool_decide (err = None))), n'.
  split; [exact Hr|]. split; [exact Es|apply Hp].
Defined.

(** C40: a late snapshot reply panics.  On a node with a well-formed log, the handling of an InstallSnapshot reply
    dereferences a nil pointer exactly when the node has stepped down since it
    sent the snapshot and the reply says success without a newer term; the
    AppendEntries reply, which checks that the node still leads, never does. *)
Theorem snapshot_reply_panics {B : Bolt} {L : BoltLaws B} {E} {X : Engine E}
    (n : RaftNode B E) peer idx :
  node_inv n ->
  (forall resp, j_ok resp -> replicateToPeer_snapshot_reply peer idx (inr resp) n = Panic PanicNilDeref <->
    n_leader n = None /\ isr_Success resp = true /\ (isr_Term resp <= n_currentTerm n)%N) /\
  (forall resp, j_ok resp -> exists n', replicateToPeer_append_reply peer (inr resp) n = Done (tt, n')).
Proof.
  intros Hn. split; intros resp Hok.
  - unfold replicateToPeer_snapshot_reply, bind, gets.
    destruct (N.ltb_spec (n_currentTerm n) (isr_Term resp)) as [Hlt|Hge].
    + pose proof (wp_becomeFollower n (isr_Term resp) Hn Hok) as Hs.
      apply wp_run in Hs as ([] & n' & -> & _). split; [done|]. intros (_ & _ & ?). lia.
    + destruct (isr_Success resp).
      * unfold the_leader, bind, gets, throw, ret, modify.
        destruct (n_leader n); split; (done || by intros []).
      * split; [done|]. by intros (_ & ? & _).
  - pose proof (wp_replicateToPeer_append_reply n peer (inr resp) Hn) as H.
    destruct (proj1 (wp_run _ _ _) (H ltac:(intros ? [= <-]; done))) as ([] & n' & Hr & _). eauto.
Qed.

Lemma snapshot_reply_panics_witness :
  replicateToPeer_snapshot_reply (mkPeer "b" "b:7001") 2 (inr (mkISResp 1 "b" true)) sample_follower
    = Panic PanicNilDeref.
Proof.
  destruct (snapshot_reply_panics sample_follower (mkPeer "b" "b:7001") 2 sample_follower_inv) as [H _].
  apply H; [by vm_compute|]. split; [by vm_compute|]. split; by vm_compute.
Defined.
