(* ===== verification/StateMachine.v ===== *)
(** * The replicated state machine

    [kv_apply] is what a command means on a key/value map.  [applyCommand]
    implements it on every storage engine, and [applyCommitted] runs the
    committed part of the log through it, in order, answering the clients that
    wait. *)

From S2P Require Import Prelude GoJson Types Config Bolt RaftLog LeaderState Storage RaftNode.
From S2P Require Import RaftNodeSpec Sample.
Import Json.

Local Open Scope string_scope.

(** ** What commands mean *)

Abbreviation KV := (gmap string bytes) (only parsing).

(** A missing key reads as the empty value, as a nil slice does. *)
Definition kv_get (m : KV) (k : string) : bytes := default [] (m !! k).

Definition kv_apply (m : KV) (c : Command) : option error * KV :=
  if bool_decide (cmd_Op c = OpNoop) then (None, m)
  else if bool_decide (cmd_Op c = OpPut) then (None, <[cmd_Key c := cmd_Value c]> m)
  else if bool_decide (cmd_Op c = OpDelete) then (None, delete (cmd_Key c) m)
  else if bool_decide (cmd_Op c = OpCAS) then
    if bool_decide (kv_get m (cmd_Key c) = cmd_PrevValue c)
    then (None, <[cmd_Key c := cmd_Value c]> m)
    else (Some (Errorf "CAS failed: value mismatch"), m)
  else (Some (Errorf ("unknown op: " ++ cmd_Op c)), m).

(** A run of commands: the answers and the final map. *)
Fixpoint kv_run (m : KV) (cs : list Command) : list (option error) * KV :=
  match cs with
  | [] => ([], m)
  | c :: cs => let '(err, m1) := kv_apply m c in let '(errs, m2) := kv_run m1 cs in (err :: errs, m2)
  end.

(** ** Commands on an engine *)

Section engine_run.
Context {E : Type} {X : Engine E} {EL : EngineLaws E}.
Implicit Types s : E.

(** The write that a command makes, which may fail: none for a no-op, for a
    compare-and-swap that does not match and for an unknown operation. *)
Definition eng_write s (c : Command) : outcome (option error * E) :=
  if bool_decide (cmd_Op c = OpPut) then eng_Put s (cmd_Key c) (cmd_Value c)
  else if bool_decide (cmd_Op c = OpDelete) then Done (eng_Delete s (cmd_Key c))
  else if bool_decide (cmd_Op c = OpCAS)
       && bool_decide (kv_get (eng_view s) (cmd_Key c) = cmd_PrevValue c)
  then eng_Put s (cmd_Key c) (cmd_Value c)
  else Done (None, s).

(** The answer to a command and the engine after it: the error of a failed write
    is the answer. *)
Definition eng_apply s (c : Command) : option error * E :=
  match eng_write s c with
  | Done (None, s') => ((kv_apply (eng_view s) c).1, s')
  | Done (Some err, s') => (Some err, s')
  | Panic _ => (None, s)
  end.

Fixpoint eng_run s (cs : list Command) : list (option error) * E :=
  match cs with
  | [] => ([], s)
  | c :: cs => let '(err, s1) := eng_apply s c in let '(errs, s2) := eng_run s1 cs in (err :: errs, s2)
  end.

(** No write of the run fails. *)
Fixpoint writes_ok s (cs : list Command) : bool :=
  match cs with
  | [] => true
  | c :: cs => match eng_write s c with Done (None, s') => writes_ok s' cs | _ => false end
  end.

(** A write that succeeds has the effect the command means, one that fails has
    none. *)
Lemma eng_write_spec s c : eng_wf s ->
  match eng_write s c with
  | Done (None, s') => eng_wf s' /\ eng_view s' = (kv_apply (eng_view s) c).2
  | Done (Some _, s') => eng_wf s' /\ eng_view s' = eng_view s
  | Panic _ => False
  end.
Proof.
  intros Hwf. unfold eng_write, kv_apply.
  pose proof (Put_law s (cmd_Key c) (cmd_Value c) Hwf) as Hp.
  pose proof (Delete_law s (cmd_Key c) Hwf) as Hd.
  unfold OpNoop, OpPut, OpDelete, OpCAS in *. repeat case_bool_decide; simpl; try done; congruence.
Qed.

Lemma eng_apply_wf s c : eng_wf s -> eng_wf (eng_apply s c).2.
Proof.
  intros Hwf. unfold eng_apply. pose proof (eng_write_spec s c Hwf) as H.
  by destruct (eng_write s c) as [[[]]|]; destruct_and?.
Qed.

Lemma eng_run_wf cs : forall s, eng_wf s -> eng_wf (eng_run s cs).2.
Proof.
  induction cs as [|c cs IH]; intros s Hwf; simpl; [done|].
  pose proof (eng_apply_wf s c Hwf) as H. destruct (eng_apply s c) as [err s1].
  specialize (IH s1 H). by destruct (eng_run s1 cs).
Qed.

(** A run without a failed write is a run on the map. *)
Lemma eng_run_ok cs : forall s, eng_wf s -> writes_ok s cs = true ->
  ((eng_run s cs).1, eng_view (eng_run s cs).2) = kv_run (eng_view s) cs.
Proof.
  induction cs as [|c cs IH]; intros s Hwf; simpl; [done|]. unfold eng_apply.
  pose proof (eng_write_spec s c Hwf) as H. destruct (eng_write s c) as [[[e|] s1]|]; [done| |done].
  intros Hok. destruct H as [Hwf1 Hv]. specialize (IH s1 Hwf1 Hok).
  destruct (eng_run s1 cs) as [errs s2]. destruct (kv_apply (eng_view s) c) as [err m1].
  simpl in *. rewrite Hv in IH. by rewrite <-IH.
Qed.

Lemma eng_run_app cs1 cs2 s : eng_run s (cs1 ++ cs2) =
  let '(errs1, s1) := eng_run s cs1 in let '(errs2, s2) := eng_run s1 cs2 in (errs1 ++ errs2, s2)%list.
Proof.
  revert s. induction cs1 as [|c cs1 IH]; intros s; simpl; [by destruct (eng_run s cs2)|].
  destruct (eng_apply s c) as [err s1]. rewrite IH. destruct (eng_run s1 cs1) as [errs1 s2].
  by destruct (eng_run s2 cs2).
Qed.

Lemma eng_run_length cs : forall s, length (eng_run s cs).1 = length cs.
Proof.
  induction cs as [|c cs IH]; intros s; simpl; [done|]. destruct (eng_apply s c) as [err s1].
  specialize (IH s1). destruct (eng_run s1 cs). simpl in *. by f_equal.
Qed.
End engine_run.

Section state_machine.
Context {B : Bolt} {L : BoltLaws B} {E : Type} {X : Engine E} {EL : EngineLaws E}.
Implicit Types n : RaftNode B E.

Lemma storage_op_run f n err st : f (n_storage n) = Done (err, st) ->
  storage_op f n = Done (err, set_storage st n).
Proof. unfold storage_op. by intros ->. Qed.

(** [applyCommand] is [eng_apply] on the node's engine. *)
Lemma applyCommand_run n c : eng_wf (n_storage n) ->
  applyCommand c n =
    let '(err, st) := eng_apply (n_storage n) c in Done (err, set_storage st n).
Proof.
  intros Hwf. assert (set_storage (n_storage n) n = n) as Hid by by destruct n.
  unfold applyCommand, eng_apply, eng_write, kv_apply.
  pose proof (Put_law (n_storage n) (cmd_Key c) (cmd_Value c) Hwf) as Hp.
  assert (forall f, f (n_storage n) = eng_Put (n_storage n) (cmd_Key c) (cmd_Value c) ->
    storage_op f n = (let '(err, st) := match eng_Put (n_storage n) (cmd_Key c) (cmd_Value c) with
      | Done (None, s') => (None, s') | Done (Some e, s') => (Some e, s')
      | Panic _ => (None, n_storage n) end in Done (err, set_storage st n))) as Hput.
  { intros f Hf. destruct (eng_Put _ _ _) as [[[e|] st]|]; [..|done]; by apply storage_op_run. }
  destruct (decide (cmd_Op c = OpNoop)) as [Ho|Ho].
  { rewrite !Ho. by rewrite <-Hid at 1. }
  rewrite (bool_decide_eq_false_2 (_ = OpNoop)) by done.
  case_bool_decide; [by apply Hput|]. case_bool_decide.
  { destruct (eng_Delete (n_storage n) (cmd_Key c)) as [[e|] st] eqn:Ed;
      apply storage_op_run; by rewrite Ed. }
  case_bool_decide; simpl; [|by rewrite Hid].
  unfold bind, gets. rewrite (Get_law _ _ Hwf). unfold kv_get.
  destruct (eng_view (n_storage n) !! cmd_Key c) as [v|]; simpl; case_bool_decide; simpl;
    try (by apply Hput); by rewrite Hid.
Qed.

Lemma wp_applyCommand n c : eng_wf (n_storage n) ->
  wp (applyCommand c) (fun err n' => eng_apply (n_storage n) c = (err, n_storage n') /\
    n' = set_storage (n_storage n') n) n.
Proof. intros Hwf. unfold wp. rewrite applyCommand_run by done. by destruct (eng_apply _ c). Qed.

(** ** Running the committed entries *)

(** The commands of the entries from [i] on are [cs]. *)
Definition cmds_at (rl : RaftLog B) (i : N) (cs : list Command) : Prop :=
  forall j c, cs !! j = Some c ->
    exists e, log_at rl (i + N.of_nat j)%N = Some e /\ le_Command e = c.

(** What [applyCommitted] leaves alone. *)
Record apply_frame n n' : Prop := {
  af_quiet : quiet n n';
  af_log : n_raftLog n' = n_raftLog n;
  af_commit : n_commitIndex n' = n_commitIndex n
}.

(** The channels after the answer [err] went to the client waiting for [i]. *)
Definition answer (i : LogIndex) (err : option error) n : gmap nat (list (option error)) :=
  match n_pending n !! i with
  | Some ch => <[ch := [err]]> (n_chans n)
  | None => n_chans n
  end.

Lemma wp_notify n i err : node_inv n ->
  wp (notify_pending i err) (fun _ n' =>
    n' = set_pending (delete i (n_pending n)) (set_chans (answer i err n) n)) n.
Proof.
  intros Hn. unfold notify_pending, chan_send, answer. wp_step. wp_step.
  destruct (n_pending n !! i) as [ch|] eqn:Hi.
  - do 3 wp_step. destruct (ni_pending _ Hn) as [H1 _]. rewrite (H1 _ _ Hi). simpl. by wp_step; wp_step.
  - wp_step. rewrite delete_id by done. by destruct n.
Qed.

(** One iteration of the loop. *)
Record applied_one n (e : LogEntry) (err : option error) n' : Prop := {
  ao_frame : apply_frame n n';
  ao_last : n_lastApplied n' = (n_lastApplied n + 1)%N;
  ao_view : eng_apply (n_storage n) (le_Command e) = (err, n_storage n');
  ao_pending : n_pending n' = delete (n_lastApplied n + 1)%N (n_pending n);
  ao_chans : n_chans n' = answer (n_lastApplied n + 1)%N err n
}.

Lemma wp_apply_one n e f (Q : unit -> RaftNode B E -> Prop) :
  node_inv n -> eng_wf (n_storage n) -> (n_lastApplied n < n_commitIndex n)%N ->
  log_at (n_raftLog n) (n_lastApplied n + 1)%N = Some e ->
  (forall n', applied_one n e (eng_apply (n_storage n) (le_Command e)).1 n' -> wp (apply_loop f) Q n') ->
  wp (apply_loop (S f)) Q n.
Proof.
  intros Hn Hwf Hlt He HQ. cbn [apply_loop]. wp_step. wp_step. rewrite (proj2 (N.ltb_lt _ _) Hlt).
  pose proof (ni_commit _ Hn) as Hc. unfold u64_ok in Hc. rewrite u64_add_small by lia.
  wp_step. wp_step.
  set (i := (n_lastApplied n + 1)%N) in *. set (n1 := set_lastApplied i n).
  assert (node_inv n1) as Hn1 by (destruct Hn; by split).
  wp_step. apply wp_Get; [apply Hn1|]. rewrite (Get_spec _ _ (ni_log _ Hn1)). simpl. rewrite He. wp_step.
  eapply wp_mono.
  { apply wp_wlp; [by apply (wp_applyCommand n1)|by apply wlp_applyCommand_quiet]. }
  intros err n2 [[Hap Hst] Hq2]. change (n_storage n1) with (n_storage n) in Hap.
  wp_step. eapply wp_mono; [apply wp_notify, Hq2|].
  intros [] n3 ->. set (n3 := set_pending _ _). wp_step. wp_step. wp_step.
  assert (quiet n2 n3) as Hq3.
  { apply quiet_waiters; [|apply Hq2]. destruct (ni_pending _ (q_inv _ _ Hq2)) as [H1 H2].
    unfold answer. destruct (n_pending n2 !! i) as [ch|] eqn:Hi;
      [apply pending_ok_send|apply pending_ok_delete]; done. }
  assert (n_raftLog n2 = n_raftLog n1 /\ n_commitIndex n2 = n_commitIndex n1 /\
    n_lastApplied n2 = i /\ n_pending n2 = n_pending n1 /\ n_chans n2 = n_chans n1) as
    (E1 & E2 & E3 & E4 & E5) by (by rewrite Hst).
  assert (forall ts, applied_one n e err (set_tasks ts n3)) as Hone.
  { intros ts. split; simpl; try done; [split; simpl; try done|by rewrite E4|].
    - eapply quiet_trans; [apply (quiet_applied n i Hn)|]. fold n1. eapply quiet_trans; [exact Hq2|].
      eapply quiet_trans; [exact Hq3|]. apply quiet_tasks, Hq3.
    - unfold answer. by rewrite E4, E5. }
  wp_step; [unfold spawn; wp_step|]; rewrite Hap in HQ; apply HQ.
  - apply Hone.
  - assert (n3 = set_tasks (n_tasks n3) n3) as -> by done. apply Hone.
Qed.

(** The loop over the commands [cs]: the map is the result of running them, the
    clients waiting for one of them have its answer, the others wait on. *)
Record applied_run n (cs : list Command) (errs : list (option error)) n' : Prop := {
  ar_frame : apply_frame n n';
  ar_last : n_lastApplied n' = (n_lastApplied n + N.of_nat (length cs))%N;
  ar_run : eng_run (n_storage n) cs = (errs, n_storage n');
  ar_pending i : n_pending n' !! i =
    if decide (n_lastApplied n < i <= n_lastApplied n + N.of_nat (length cs))%N then None
    else n_pending n !! i;
  ar_answer j err ch : errs !! j = Some err ->
    n_pending n !! (n_lastApplied n + 1 + N.of_nat j)%N = Some ch -> n_chans n' !! ch = Some [err];
  ar_other ch : (forall i, (n_lastApplied n < i <= n_lastApplied n + N.of_nat (length cs))%N ->
    n_pending n !! i <> Some ch) -> n_chans n' !! ch = n_chans n !! ch
}.

Lemma applied_run_nil n : node_inv n -> eng_wf (n_storage n) -> applied_run n [] [] n.
Proof.
  intros Hn Hwf. split; simpl; try done.
  - lia.
  - intros i. by rewrite decide_False by lia.
Qed.

Lemma applied_run_cons n e err n1 cs errs n' : node_inv n ->
  applied_one n e err n1 -> applied_run n1 cs errs n' ->
  applied_run n (le_Command e :: cs) (err :: errs) n'.
Proof.
  intros Hn [[Hq1 Hl1 Hc1] Ela Hap Ep Ech] [[Hq2 Hl2 Hc2] Ela' Hrun Hpend Hans Hoth].
  rewrite Ela in *. set (a := n_lastApplied n) in *. rewrite Ep in Hpend, Hans, Hoth.
  destruct (ni_pending _ Hn) as [_ Hinj].
  split; cbn [length]; try done.
  - split; [by eapply quiet_trans|congruence|congruence].
  - lia.
  - simpl. by rewrite Hap, Hrun.
  - intros i. rewrite Hpend, lookup_delete. repeat case_decide; try done; lia.
  - intros [|j] err' ch; simpl.
    + intros [= <-] Hch. change (N.of_nat 0) with 0%N in Hch. rewrite N.add_0_r in Hch. fold a in Hch.
      rewrite Hoth, Ech; unfold answer; [fold a; by rewrite Hch, lookup_insert_eq|].
      intros i Hi [Hne Hi']%lookup_delete_Some. apply Hne. by eapply Hinj.
    + intros Hj Hch. apply (Hans j _ _ Hj). rewrite lookup_delete_ne by lia.
      by replace (a + 1 + 1 + N.of_nat j)%N with (a + 1 + N.of_nat (S j))%N by lia.
  - intros ch Hno. rewrite Hoth, Ech; unfold answer.
    + fold a. destruct (n_pending n !! (a + 1)%N) as [ch'|] eqn:Hch; [|done].
      rewrite lookup_insert_ne; [done|]. intros <-. apply (Hno (a + 1)%N); [lia|done].
    + intros i Hi [_ Hi']%lookup_delete_Some. apply (Hno i); [lia|done].
Qed.

Lemma wp_apply_run cs : forall n f, node_inv n -> eng_wf (n_storage n) ->
  (n_lastApplied n + N.of_nat (length cs) = n_commitIndex n)%N ->
  cmds_at (n_raftLog n) (n_lastApplied n + 1) cs -> (length cs <= f)%nat ->
  wp (apply_loop f) (fun _ n' => exists errs, applied_run n cs errs n') n.
Proof.
  induction cs as [|c cs IH]; intros n f Hn Hwf Hlen Hcs Hf.
  - assert (wp (apply_loop f) (fun _ n' => n' = n) n) as Hl.
    { destruct f; cbn [apply_loop]; [by wp_step|]. wp_step. wp_step.
      rewrite (proj2 (N.ltb_ge _ _)) by (simpl in Hlen; lia). by wp_step. }
    eapply wp_mono; [exact Hl|]. intros [] n' ->. exists []. by apply applied_run_nil.
  - destruct f as [|f]; [simpl in Hf; lia|]. cbn [length] in *.
    destruct (Hcs 0%nat c eq_refl) as (e & He & <-). rewrite N.add_0_r in He.
    apply (wp_apply_one _ e); [done|done|lia|done|]. intros n1 Hone.
    destruct Hone as [[Hq1 Hl1 Hc1] Ela Hap Ep Ech] eqn:Eone. clear Eone.
    eapply wp_mono; [apply IH|].
    + apply Hq1.
    + pose proof (eng_apply_wf _ (le_Command e) Hwf) as Hwf1. by rewrite Hap in Hwf1.
    + lia.
    + rewrite Hl1, Ela. intros j c' Hj. destruct (Hcs (S j) c' Hj) as (e' & He' & ?).
      exists e'. split; [|done]. rewrite <-He'. f_equal. lia.
    + lia.
    + intros [] n' [errs Hrun]. eexists. by eapply applied_run_cons.
Qed.

Lemma wp_applyCommitted n cs : node_inv n -> eng_wf (n_storage n) ->
  (n_lastApplied n + N.of_nat (length cs) = n_commitIndex n)%N ->
  cmds_at (n_raftLog n) (n_lastApplied n + 1) cs ->
  wp applyCommitted (fun _ n' => exists errs, applied_run n cs errs n') n.
Proof.
  intros Hn Hwf Hlen Hcs. unfold applyCommitted. wp_step. wp_step.
  apply wp_apply_run; [done..|lia].
Qed.
End state_machine.

(** ** Properties *)

Import MapBolt.

(** C16: applying a command.  On an engine in a well-formed state (one that holds
    a key/value map: a memory engine whose map is not nil, a Bolt engine whose
    bucket exists), [applyCommand] never panics and changes nothing but the
    storage.  When the write the command makes succeeds, or the command makes
    none, the map and the answer are what the command means (so compare-and-swap
    writes exactly when the stored value equals the expected one, a missing key
    reading as empty, and an unknown operation is refused); when that write
    fails, the answer is its error and the map is as before.  The engine stays
    well-formed. *)
Theorem applyCommand_correct {B : Bolt} {E} {X : Engine E} {EL : EngineLaws E}
    (n : RaftNode B E) (c : Command) :
  eng_wf (n_storage n) ->
  exists err st, applyCommand c n = Done (err, set_storage st n) /\ eng_wf st /\
    match eng_write (n_storage n) c with
    | Done (None, st') => st = st' /\ (err, eng_view st) = kv_apply (eng_view (n_storage n)) c
    | Done (Some e, st') => st = st' /\ err = Some e /\ eng_view st = eng_view (n_storage n)
    | Panic _ => False
    end.
Proof.
  intros Hwf. exists (eng_apply (n_storage n) c).1, (eng_apply (n_storage n) c).2.
  split; [rewrite applyCommand_run by done; by destruct (eng_apply _ c)|].
  split; [by apply eng_apply_wf|]. unfold eng_apply.
  pose proof (eng_write_spec _ c Hwf) as H. destruct (eng_write _ c) as [[[e|] st]|]; simpl; [|..|done].
  - destruct H. by split_and!.
  - destruct H as [_ ->]. split; [done|]. by destruct (kv_apply _ c).
Qed.

(** A compare-and-swap on a missing key with an empty expected value writes. *)
Lemma applyCommand_correct_witness :
  exists n', applyCommand (mkCommand OpCAS "k" (str "v") []) sample_started = Done (None, n') /\
    eng_view (n_storage n') !! "k" = Some (str "v").
Proof.
  destruct (applyCommand_correct (EL := MemoryEngine_laws) sample_started (mkCommand OpCAS "k" (str "v") [])
    sample_started_wf) as (err & st & Hr & _ & Hv).
  change (eng_write (n_storage sample_started) (mkCommand OpCAS "k" (str "v") []))
    with (eng_Put (n_storage sample_started) "k" (str "v")) in Hv.
  change (n_storage sample_started) with NewMemoryEngine in Hv. simpl in Hv.
  destruct Hv as [Hst Hv]. rewrite Hst in *. injection Hv as ->.
  eexists. split; [exact Hr|]. simpl. by vm_compute.
Defined.

(** C4: applying the log.  When every committed entry is in the log and the engine
    is well-formed, [applyCommitted] terminates without panic or deadlock and has
    run on the engine exactly the commands between the last applied and the
    commit index, in order, each exactly once.  Every client that waits for one
    of these indices finds the answer of its own command in its channel and is
    taken off the waiting list, and no other channel and no other entry of that
    list changes.  If none of the writes fails, the answers and the map are
    those of the commands run on the key/value map. *)
Theorem applyCommitted_correct {B : Bolt} {L : BoltLaws B} {E} {X : Engine E} {EL : EngineLaws E}
    (n : RaftNode B E) (cs : list Command) :
  node_inv n -> eng_wf (n_storage n) ->
  (n_lastApplied n + N.of_nat (length cs) = n_commitIndex n)%N ->
  cmds_at (n_raftLog n) (n_lastApplied n + 1) cs ->
  exists n' errs, applyCommitted n = Done (tt, n') /\ n_lastApplied n' = n_commitIndex n /\
    eng_run (n_storage n) cs = (errs, n_storage n') /\
    (forall j err ch, errs !! j = Some err ->
      n_pending n !! (n_lastApplied n + 1 + N.of_nat j)%N = Some ch ->
      n_chans n' !! ch = Some [err]) /\
    (forall ch, (forall i, (n_lastApplied n < i <= n_commitIndex n)%N -> n_pending n !! i <> Some ch) ->
      n_chans n' !! ch = n_chans n !! ch) /\
    (forall i, n_pending n' !! i =
      if decide (n_lastApplied n < i <= n_commitIndex n)%N then None else n_pending n !! i) /\
    (writes_ok (n_storage n) cs = true ->
      (errs, eng_view (n_storage n')) = kv_run (eng_view (n_storage n)) cs).
Proof.
  intros Hn Hwf Hlen Hcs. pose proof (wp_applyCommitted n cs Hn Hwf Hlen Hcs) as H.
  apply wp_run in H as ([] & n' & Hr & errs & Hrun). exists n', errs. rewrite <-Hlen.
  split; [done|]. split; [by apply (ar_last _ _ _ _ Hrun)|]. split; [apply (ar_run _ _ _ _ Hrun)|].
  split; [apply (ar_answer _ _ _ _ Hrun)|]. split; [apply (ar_other _ _ _ _ Hrun)|].
  split; [apply (ar_pending _ _ _ _ Hrun)|]. intros Hok.
  pose proof (eng_run_ok cs _ Hwf Hok) as Hk. by rewrite (ar_run _ _ _ _ Hrun) in Hk.
Qed.

(** The follower that was sent two entries, both committed, applies them. *)
Lemma applyCommitted_correct_witness :
  exists n', applyCommitted sample_follower = Done (tt, n') /\ n_lastApplied n' = 2%N /\
    eng_view (n_storage n') = <["y" := str "2"]> (<["x" := str "1"]> ∅).
Proof.
  destruct (applyCommitted_correct (EL := MemoryEngine_laws) sample_follower [put "x" "1"; put "y" "2"]
    sample_follower_inv sample_follower_wf) as (n' & errs & Hr & Hl & _ & _ & _ & _ & Hv).
  - by vm_compute.
  - intros [|[|j]] c [= <-].
    + exists (mkLogEntry 1 1 (put "x" "1")). by vm_compute.
    + exists (mkLogEntry 2 1 (put "y" "2")). by vm_compute.
  - exists n'. split; [exact Hr|]. split; [rewrite Hl; by vm_compute|].
    specialize (Hv eq_refl). apply (f_equal snd) in Hv. cbn [snd] in Hv. rewrite Hv. by vm_compute.
Defined.

(** C12: replicas agree.  Two nodes, on any two engines in well-formed states,
    that hold the same map, have applied the same prefix, have the same commit
    index and the same committed entries hold the same map after
    [applyCommitted], when no write of either engine in that run fails. *)
Theorem replicas_agree {B : Bolt} {L : BoltLaws B}
    {E1} {X1 : Engine E1} {EL1 : EngineLaws E1}
    {E2} {X2 : Engine E2} {EL2 : EngineLaws E2}
    (n1 : RaftNode B E1) (n2 : RaftNode B E2) (cs : list Command) :
  node_inv n1 -> node_inv n2 -> eng_wf (n_storage n1) -> eng_wf (n_storage n2) ->
  eng_view (n_storage n1) = eng_view (n_storage n2) ->
  n_lastApplied n1 = n_lastApplied n2 -> n_commitIndex n1 = n_commitIndex n2 ->
  (n_lastApplied n1 + N.of_nat (length cs) = n_commitIndex n1)%N ->
  cmds_at (n_raftLog n1) (n_lastApplied n1 + 1) cs ->
  (forall i, (n_lastApplied n1 < i <= n_commitIndex n1)%N ->
    log_at (n_raftLog n2) i = log_at (n_raftLog n1) i) ->
  writes_ok (n_storage n1) cs = true -> writes_ok (n_storage n2) cs = true ->
  exists n1' n2', applyCommitted n1 = Done (tt, n1') /\ applyCommitted n2 = Done (tt, n2') /\
    n_lastApplied n1' = n_lastApplied n2' /\
    eng_view (n_storage n1') = eng_view (n_storage n2').
Proof.
  intros Hn1 Hn2 Hw1 Hw2 Hv Ha Hc Hlen Hcs Hsame Hok1 Hok2.
  assert (cmds_at (n_raftLog n2) (n_lastApplied n2 + 1) cs) as Hcs2.
  { intros j c Hj. rewrite <-Ha, Hsame; [by apply Hcs|]. apply lookup_lt_Some in Hj. lia. }
  pose proof (wp_applyCommitted n1 cs Hn1 Hw1 Hlen Hcs) as H1.
  pose proof (wp_applyCommitted n2 cs Hn2 Hw2 ltac:(congruence) Hcs2) as H2.
  apply wp_run in H1 as ([] & n1' & Hr1 & errs1 & Hrun1).
  apply wp_run in H2 as ([] & n2' & Hr2 & errs2 & Hrun2).
  exists n1', n2'. split; [done|]. split; [done|].
  split; [rewrite (ar_last _ _ _ _ Hrun1), (ar_last _ _ _ _ Hrun2); congruence|].
  pose proof (eng_run_ok cs _ Hw1 Hok1) as K1. pose proof (eng_run_ok cs _ Hw2 Hok2) as K2.
  rewrite (ar_run _ _ _ _ Hrun1), Hv in K1. rewrite (ar_run _ _ _ _ Hrun2), <-K1 in K2. by injection K2.
Qed.

(** A node on another engine. *)
Definition rehost {B : Bolt} {E1 E2} (st : E2) (n : RaftNode B E1) : RaftNode B E2 :=
  mkNode (n_id n) (n_peers n) (n_raftLog n) (n_currentTerm n) (n_votedFor n) (n_state n)
    (n_commitIndex n) (n_lastApplied n) (n_leaderID n) (n_leader n) st (n_electionTimer n)
    (n_heartbeatTimer n) (n_cfg n) (n_stopped n) (n_pending n) (n_snapshotData n) (n_chans n)
    (n_tasks n) (n_rand n).

Lemma rehost_inv {B : Bolt} {L : BoltLaws B} {E1 E2} (st : E2) (n : RaftNode B E1) :
  node_inv n -> node_inv (rehost st n).
Proof. intros []. by split. Qed.

Definition sample_bolt : BoltEngine reliable_bolt :=
  mkBoltEngine (B := reliable_bolt) (mkdb {[kvBucket := ∅]} 0).

Definition sample_bolt_follower : RaftNode reliable_bolt (BoltEngine reliable_bolt) :=
  rehost sample_bolt sample_follower.

(** A leader of term 2 on the memory engine and a follower of term 1 on the Bolt
    engine, with the same two committed entries. *)
Lemma replicas_agree_witness :
  exists n1' n2', applyCommitted sample_leader2 = Done (tt, n1') /\
    applyCommitted sample_bolt_follower = Done (tt, n2') /\
    eng_view (n_storage n1') = eng_view (n_storage n2').
Proof.
  destruct (replicas_agree (EL1 := MemoryEngine_laws) (EL2 := BoltEngine_laws)
    sample_leader2 sample_bolt_follower [put "x" "1"; put "y" "2"]
    sample_leader2_inv (rehost_inv _ _ sample_follower_inv)) as (n1' & n2' & H1 & H2 & _ & H3).
  - exists ∅. by vm_compute.
  - by vm_compute.
  - by vm_compute.
  - by vm_compute.
  - by vm_compute.
  - by vm_compute.
  - intros [|[|j]] c [= <-].
    + exists (mkLogEntry 1 1 (put "x" "1")). by vm_compute.
    + exists (mkLogEntry 2 1 (put "y" "2")). by vm_compute.
  - intros i Hi. assert (n_lastApplied sample_leader2 = 0%N) as E0 by (by vm_compute).
    assert (n_commitIndex sample_leader2 = 2%N) as E2 by (by vm_compute). rewrite E0, E2 in Hi.
    assert (i = 1%N \/ i = 2%N) as [-> | ->] by lia; by vm_compute.
  - by vm_compute.
  - by vm_compute.
  - exists n1', n2'. exact (conj H1 (conj H2 H3)).
Defined.
