(* ===== verification/Membership.v ===== *)
(** * The cluster package (src/internal/cluster): members, transport, tracker

    [Member] (member.go) is the health record of a peer.  The transport
    (discovery.go) and the heartbeat tracker (heartbeat.go) hold pointers to the
    same members, so members live in a heap and the two hold locations: what
    [rpc] records is what [LivePeers] and [check] see.  The HTTP client is a
    parameter: the result of [http.NewRequestWithContext] and the reply of
    [client.Do].  The clock is an argument, in nanoseconds. *)

From S2P Require Import Prelude GoJson Types.
Import Json.

Local Open Scope string_scope.

(** ** Members (member.go) *)

Inductive PeerState := PeerAlive | PeerUnreachable | PeerDead.

#[export] Instance PeerState_eq_dec : EqDecision PeerState.
Proof. solve_decision. Defined.

Record Member := mkMember {
  m_Peer : Peer;
  m_state : PeerState;
  m_lastSeen : Z;
  m_missedRPCs : Z
}.

Definition NewMember (peer : Peer) (now : Z) : Member := mkMember peer PeerAlive now 0.

Definition RecordSuccess (now : Z) (m : Member) : Member := mkMember (m_Peer m) PeerAlive now 0.

Definition RecordFailure (m : Member) : Member :=
  let missed := i64_wrap (m_missedRPCs m + 1) in
  let state := if (5 <=? missed)%Z then PeerDead
               else if (2 <=? missed)%Z then PeerUnreachable
               else m_state m in
  mkMember (m_Peer m) state (m_lastSeen m) missed.

Definition IsAlive (m : Member) : bool := bool_decide (m_state m = PeerAlive).
Definition State (m : Member) : PeerState := m_state m.
Definition LastSeen (m : Member) : Z := m_lastSeen m.

(** ** The transport (discovery.go) *)

(** The heap of members, and the locations a transport knows. *)
Abbreviation Heap := (gmap nat Member) (only parsing).
Abbreviation HTTPTransport := (gmap NodeID nat) (only parsing).

Definition NewHTTPTransport (peers : list Peer) (now : Z) (h : Heap) : HTTPTransport * Heap :=
  foldl (fun '(members, h) p =>
    let l := fresh (dom h) in
    (<[peer_ID p := l]> members, <[l := NewMember p now]> h)) (∅, h) peers.

(** In some order: Go iterates over a map. *)
Definition Members (t : HTTPTransport) : list nat := (map_to_list t).*2.

(** Run [f] on the member at [id], when the transport knows it. *)
Definition record (f : Member -> Member) (t : HTTPTransport) (id : NodeID) (h : Heap) : Heap :=
  match t !! id with
  | Some l => alter f l h
  | None => h
  end.

Definition recordSuccess (now : Z) : HTTPTransport -> NodeID -> Heap -> Heap := record (RecordSuccess now).
Definition recordFailure : HTTPTransport -> NodeID -> Heap -> Heap := record RecordFailure.

Definition StatusOK : N := 200.

(** A number in decimal, as [%d] prints it. *)
Definition show_N (n : N) : string := String.string_of_list_byte (dec n).

Section rpc.
Context (newRequest : string -> option error) (Do : string -> bytes -> error + (N * bytes)).

Definition rpc {Q R} `{JsonCodec Q, JsonCodec R} (now : Z) (t : HTTPTransport) (peer : Peer)
    (path : string) (body : Q) (h : Heap) : (error + R) * Heap :=
  let url := "http://" ++ peer_Addr peer ++ path in
  let data := Marshal body in
  match newRequest url with
  | Some err => (inl err, h)
  | None =>
      match Do url data with
      | inl err =>
          (inl (Wrapf ("rpc " ++ path ++ " to " ++ peer_ID peer) err), recordFailure t (peer_ID peer) h)
      | inr (status, reply) =>
          if negb (status =? StatusOK)%N then
            (inl (Errorf ("rpc " ++ path ++ " to " ++ peer_ID peer ++ ": status " ++ show_N status)),
             recordFailure t (peer_ID peer) h)
          else
            match (Decode reply : option R) with
            | None => (inl (Wrapf ("decoding response from " ++ peer_ID peer) ErrJSON), h)
            | Some out => (inr out, recordSuccess now t (peer_ID peer) h)
            end
      end
  end.

Definition rpc_AppendEntries now t peer (req : AppendEntriesRequest) h
    : (error + AppendEntriesResponse) * Heap := rpc now t peer "/raft/append-entries" req h.
Definition rpc_RequestVote now t peer (req : RequestVoteRequest) h
    : (error + RequestVoteResponse) * Heap := rpc now t peer "/raft/request-vote" req h.
Definition rpc_InstallSnapshot now t peer (req : InstallSnapshotRequest) h
    : (error + InstallSnapshotResponse) * Heap := rpc now t peer "/raft/install-snapshot" req h.

End rpc.

(** ** The heartbeat tracker (heartbeat.go) *)

Definition Second : Z := 1000000000.
Definition checkInterval : Z := 5 * Second.
Definition deadThreshold : Z := 30 * Second.

Record HeartbeatTracker := mkTracker { ht_members : list nat; ht_stopped : bool }.

Definition NewHeartbeatTracker (members : list nat) : HeartbeatTracker := mkTracker members false.

(** [Stop] closes a channel. *)
Definition tracker_Stop : M HeartbeatTracker unit := fun ht =>
  if ht_stopped ht then Panic PanicClosedChan else Done (tt, mkTracker (ht_members ht) true).

Definition LivePeers (ht : HeartbeatTracker) (h : Heap) : list NodeID :=
  omap (fun l => h !! l ≫= fun m => if IsAlive m then Some (peer_ID (m_Peer m)) else None) (ht_members ht).

(** The peers [check] warns about. *)
Definition tracker_check (ht : HeartbeatTracker) (now : Z) (h : Heap) : list NodeID :=
  omap (fun l => h !! l ≫= fun m =>
    if (deadThreshold <? now - LastSeen m)%Z && negb (bool_decide (State m = PeerDead))
    then Some (peer_ID (m_Peer m)) else None) (ht_members ht).

(** One turn of the loop of [run]: [None] when it returns. *)
Definition tracker_run (ht : HeartbeatTracker) (now : Z) (h : Heap) : option (list NodeID) :=
  if ht_stopped ht then None else Some (tracker_check ht now h).

(** ** What the health record says *)

(** The outcome of one RPC: a success at some time, or a failure. *)
Inductive Outcome := Success (now : Z) | Failure.

Definition observe (m : Member) (o : Outcome) : Member :=
  match o with
  | Success now => RecordSuccess now m
  | Failure => RecordFailure m
  end.

(** The failures since the last success, and the time of that success. *)
Fixpoint failures_since (seen : Z) (k : nat) (os : list Outcome) : nat * Z :=
  match os with
  | [] => (k, seen)
  | Success now :: os => failures_since now 0 os
  | Failure :: os => failures_since seen (S k) os
  end.

Definition health (missed : nat) : PeerState :=
  if (5 <=? missed)%nat then PeerDead
  else if (2 <=? missed)%nat then PeerUnreachable
  else PeerAlive.

Lemma health_alive k : health k = PeerAlive <-> (k < 2)%nat.
Proof.
  unfold health. destruct (Nat.leb_spec 5 k); [split; [done|lia]|].
  destruct (Nat.leb_spec 2 k); split; done || lia.
Qed.

(** A member that has missed [k] RPCs since it was last seen. *)
Definition member_at (p : Peer) (k : nat) (seen : Z) : Member :=
  mkMember p (health k) seen (Z.of_nat k).

Lemma RecordFailure_at p k seen : (Z.of_nat k + 1 < two63)%Z ->
  RecordFailure (member_at p k seen) = member_at p (S k) seen.
Proof.
  intros Hk. unfold RecordFailure, member_at. cbn [m_missedRPCs m_state m_Peer m_lastSeen].
  rewrite i64_wrap_small by (unfold i64_ok, two63 in *; lia).
  replace (Z.of_nat k + 1)%Z with (Z.of_nat (S k)) by lia. f_equal. unfold health.
  destruct (Z.leb_spec 5 (Z.of_nat (S k))), (Nat.leb_spec 5 (S k)); try lia; [done|].
  destruct (Z.leb_spec 2 (Z.of_nat (S k))), (Nat.leb_spec 2 (S k)); try lia; [done|].
  destruct (Nat.leb_spec 5 k), (Nat.leb_spec 2 k); try lia; done.
Qed.

Lemma observe_all p os k seen : (Z.of_nat (k + length os) < two63)%Z ->
  foldl observe (member_at p k seen) os =
    member_at p (failures_since seen k os).1 (failures_since seen k os).2.
Proof.
  revert k seen. induction os as [|[now|] os IH]; intros k seen Hlen; [done|..];
    cbn [foldl failures_since length] in *.
  - rewrite <-IH by lia. done.
  - rewrite <-IH by lia. f_equal. simpl. rewrite RecordFailure_at by lia. done.
Qed.

(** ** The transport and the tracker share the members *)

(** Every known id has its own member in the heap. *)
Definition transport_wf (t : HTTPTransport) (h : Heap) : Prop :=
  forall id l, t !! id = Some l -> exists m, h !! l = Some m /\ peer_ID (m_Peer m) = id.

(** The member of [id], through its pointer. *)
Definition member_of (t : HTTPTransport) (h : Heap) (id : NodeID) : option Member :=
  t !! id ≫= fun l => h !! l.

Lemma transport_inj t h id1 id2 l :
  transport_wf t h -> t !! id1 = Some l -> t !! id2 = Some l -> id1 = id2.
Proof.
  intros Hwf H1 H2. destruct (Hwf _ _ H1) as (m1 & Hm1 & <-), (Hwf _ _ H2) as (m2 & Hm2 & <-).
  congruence.
Qed.

Lemma record_member f t h id id' :
  transport_wf t h -> (forall m, m_Peer (f m) = m_Peer m) ->
  transport_wf t (record f t id h) /\
  member_of t (record f t id h) id' =
    if decide (id' = id) then f <$> member_of t h id' else member_of t h id'.
Proof.
  intros Hwf Hf. unfold record, member_of. destruct (t !! id) as [l|] eqn:El.
  - split.
    + intros i li Hi. destruct (Hwf _ _ Hi) as (m & Hm & Hid).
      rewrite lookup_alter. case_decide; subst; rewrite Hm; simpl; eauto.
      exists (f m). by rewrite Hf.
    + destruct (decide (id' = id)) as [->|Hne]; [by rewrite El; simpl; rewrite lookup_alter_eq|].
      destruct (t !! id') as [l'|] eqn:El'; simpl; [|done]. rewrite lookup_alter_ne; [done|].
      intros <-. apply Hne. by eapply transport_inj.
  - split; [done|]. case_decide; [subst; by rewrite El|done].
Qed.

Lemma NewHTTPTransport_fold peers now (t : HTTPTransport) (h : Heap) t' h' :
  transport_wf t h ->
  foldl (fun '(members, h) p =>
    let l := fresh (dom h) in
    (<[peer_ID p := l]> members, <[l := NewMember p now]> h)) (t, h) peers = (t', h') ->
  transport_wf t' h' /\
  forall id, if decide (id ∈ peer_ID <$> peers)
             then exists p, p ∈ peers /\ peer_ID p = id /\ member_of t' h' id = Some (NewMember p now)
             else member_of t' h' id = member_of t h id.
Proof.
  revert t h. induction peers as [|p peers IH]; intros t h Hwf; cbn [foldl].
  { intros [= <- <-]. split; [done|]. intros id. by rewrite decide_False by apply not_elem_of_nil. }
  set (l := fresh (dom h)). assert (h !! l = None) as Hl by apply not_elem_of_dom, is_fresh.
  clearbody l. intros Hf. apply IH in Hf as [Hwf' Hm'].
  - split; [done|]. intros id. specialize (Hm' id). rewrite fmap_cons.
    destruct (decide (id ∈ peer_ID <$> peers)) as [Hin|Hnin].
    + rewrite decide_True by by constructor. destruct Hm' as (q & ? & ? & ?).
      exists q. split; [by constructor|done].
    + rewrite Hm'. unfold member_of. rewrite lookup_insert.
      destruct (decide (peer_ID p = id)) as [<-|Hne].
      * rewrite decide_True by constructor. exists p. split; [constructor|]. split; [done|].
        simpl. by rewrite lookup_insert_eq.
      * rewrite decide_False by (by intros [?|?]%elem_of_cons).
        destruct (t !! id) as [l'|] eqn:El'; simpl; [|done]. rewrite lookup_insert_ne; [done|].
        intros <-. destruct (Hwf _ _ El') as (? & ? & _). congruence.
  - intros i li [[<- <-]|[? Hi]]%lookup_insert_Some; [exists (NewMember p now)|].
    + by rewrite lookup_insert_eq.
    + destruct (Hwf _ _ Hi) as (m & Hm & ?). exists m. rewrite lookup_insert_ne; [done|congruence].
Qed.

Lemma NewHTTPTransport_spec peers now t h : NewHTTPTransport peers now ∅ = (t, h) ->
  transport_wf t h /\
  forall id, match member_of t h id with
             | Some m => exists p, p ∈ peers /\ peer_ID p = id /\ m = member_at p 0 now
             | None => id ∉ peer_ID <$> peers
             end.
Proof.
  intros Hf. apply NewHTTPTransport_fold in Hf as [Hwf Hm]; [|by intros ? ?].
  split; [done|]. intros id. specialize (Hm id).
  destruct (decide (id ∈ peer_ID <$> peers)); [|by rewrite Hm].
  destruct Hm as (p & ? & ? & ->). eauto.
Qed.

(** A sequence of RPC outcomes, each with the peer it concerns. *)
Definition record_all (t : HTTPTransport) (h : Heap) (evs : list (NodeID * Outcome)) : Heap :=
  foldl (fun h ev => record (fun m => observe m ev.2) t ev.1 h) h evs.

(** The outcomes that concern [id]. *)
Definition outcomes_of (id : NodeID) (evs : list (NodeID * Outcome)) : list Outcome :=
  (filter (fun ev => ev.1 = id) evs).*2.

Lemma observe_peer m o : m_Peer (observe m o) = m_Peer m.
Proof. by destruct o. Qed.

Lemma record_all_member t h evs id : transport_wf t h ->
  transport_wf t (record_all t h evs) /\
  member_of t (record_all t h evs) id
    = (fun m => foldl observe m (outcomes_of id evs)) <$> member_of t h id.
Proof.
  revert h. induction evs as [|[i o] evs IH]; intros h Hwf; cbn [record_all foldl].
  { split; [done|]. by destruct (member_of t h id). }
  destruct (record_member (fun m => observe m o) t h i id Hwf (fun m => observe_peer m o)) as [Hwf' Hm].
  destruct (IH _ Hwf') as [? Hall]. split; [done|].
  unfold record_all in Hall. cbn [fst snd]. rewrite Hall, Hm. unfold outcomes_of. rewrite filter_cons.
  cbn [fst]. destruct (decide (id = i)) as [->|Hne].
  - rewrite decide_True by done. by destruct (member_of t h i).
  - by rewrite decide_False by congruence.
Qed.

Lemma outcomes_of_length id evs : (length (outcomes_of id evs) <= length evs)%nat.
Proof. unfold outcomes_of. rewrite length_fmap. apply length_filter. Qed.

Lemma elem_of_LivePeers t h id : transport_wf t h ->
  id ∈ LivePeers (NewHeartbeatTracker (Members t)) h <->
  exists m, member_of t h id = Some m /\ m_state m = PeerAlive.
Proof.
  intros Hwf. unfold LivePeers, Members, member_of. simpl. rewrite list_elem_of_omap. split.
  - intros (l & Hl & Ha). apply list_elem_of_fmap in Hl as ([i l'] & -> & Hi%elem_of_map_to_list).
    cbn [snd] in *. destruct (Hwf _ _ Hi) as (m & Hm & <-). rewrite Hm in Ha. simpl in Ha.
    unfold IsAlive in Ha. case_bool_decide; [|done]. injection Ha as <-. exists m. by rewrite Hi.
  - destruct (t !! id) as [l|] eqn:El; simpl; [|by intros (? & ? & _)].
    intros (m & Hm & Ha). exists l. split.
    + apply list_elem_of_fmap. exists (id, l). by rewrite elem_of_map_to_list.
    + rewrite Hm. simpl. unfold IsAlive. rewrite bool_decide_eq_true_2 by done.
      destruct (Hwf _ _ El) as (m' & ? & <-). congruence.
Qed.

(** ** Properties *)

(** C26: failure detection.  Whatever RPCs succeeded and failed since the transport
    was created, the tracker, which shares the members with the transport,
    reports a peer as live exactly when fewer than two RPCs to it have failed
    since the last one that succeeded. *)
Theorem LivePeers_correct peers now evs id :
  (Z.of_nat (length evs) < two63)%Z ->
  let '(t, h) := NewHTTPTransport peers now ∅ in
  id ∈ LivePeers (NewHeartbeatTracker (Members t)) (record_all t h evs) <->
  id ∈ peer_ID <$> peers /\ ((failures_since now 0 (outcomes_of id evs)).1 < 2)%nat.
Proof.
  intros Hlen. destruct (NewHTTPTransport peers now ∅) as [t h] eqn:Et.
  destruct (NewHTTPTransport_spec _ _ _ _ Et) as [Hwf Hm]. specialize (Hm id).
  destruct (record_all_member t h evs id Hwf) as [Hwf' Hall].
  rewrite elem_of_LivePeers, Hall by done. pose proof (outcomes_of_length id evs).
  destruct (member_of t h id) as [m|]; cbn [fmap option_fmap option_map].
  - destruct Hm as (p & Hp & <- & ->). rewrite observe_all by lia. unfold member_at.
    set (k := (failures_since now 0 (outcomes_of (peer_ID p) evs)).1).
    assert (peer_ID p ∈ peer_ID <$> peers) by by apply list_elem_of_fmap_2.
    rewrite <-health_alive. fold k. split; [|naive_solver].
    intros (m & Em & Hs). split; [done|]. injection Em as <-. exact Hs.
  - split; [by intros (? & ? & _)|]. by intros [? _].
Qed.

Lemma LivePeers_correct_witness :
  let peers := [mkPeer "b" "b:1"; mkPeer "c" "c:1"] in
  let '(t, h) := NewHTTPTransport peers 7 ∅ in
  "b" ∈ LivePeers (NewHeartbeatTracker (Members t))
    (record_all t h [("b", Failure); ("c", Failure); ("b", Failure); ("b", Success 9); ("b", Failure)]).
Proof.
  intros peers.
  pose proof (LivePeers_correct peers 7
    [("b", Failure); ("c", Failure); ("b", Failure); ("b", Success 9); ("b", Failure)] "b") as H.
  destruct (NewHTTPTransport peers 7 ∅) as [t h]. apply H; [done|]. split; [|vm_compute; lia].
  constructor.
Defined.

(** C27: one RPC.  The caller gets a response exactly when the request could be
    built and the server answered 200 with a body that decodes; that records a
    success.  A failed exchange or another status records a failure, a bad body
    records nothing, and no other peer's record changes. *)
Theorem rpc_correct {Q R} `{JsonCodec Q, JsonCodec R} newRequest Do now t (peer : Peer) path (body : Q) h :
  transport_wf t h ->
  let url := "http://" ++ peer_Addr peer ++ path in
  let '(res, h') := rpc newRequest Do now t peer path body h in
  transport_wf t h' /\
  (forall out : R, res = inr out <->
    newRequest url = None /\ exists reply, Do url (Marshal body) = inr (StatusOK, reply) /\
      Decode reply = Some out) /\
  forall id, member_of t h' id =
    if decide (id = peer_ID peer) then
      match newRequest url, Do url (Marshal body), res with
      | Some _, _, _ => member_of t h id
      | None, _, inr _ => RecordSuccess now <$> member_of t h id
      | None, inr (200%N, _), inl _ => member_of t h id
      | None, _, inl _ => RecordFailure <$> member_of t h id
      end
    else member_of t h id.
Proof.
  intros Hwf url. unfold rpc. fold url.
  assert (forall o id, transport_wf t (record (fun m => observe m o) t (peer_ID peer) h) /\
    member_of t (record (fun m => observe m o) t (peer_ID peer) h) id =
    if decide (id = peer_ID peer) then (fun m => observe m o) <$> member_of t h id
    else member_of t h id) as Hrec.
  { intros o id. apply record_member; [done|]. intros m. apply observe_peer. }
  destruct (newRequest url) as [err|].
  { split; [done|]. split; [|intros id; by case_decide]. intros out. split; [done|by intros [? _]]. }
  destruct (Do url (Marshal body)) as [err|[status reply]].
  { split; [apply (Hrec Failure "")|]. split; [|intros id; apply (Hrec Failure)].
    intros out. split; [done|]. by intros (_ & ? & ? & _). }
  destruct (N.eqb_spec status StatusOK) as [->|Hne]; cbn [negb].
  - destruct (Decode reply) as [out|] eqn:Ed.
    + split; [apply (Hrec (Success now) "")|]. split; [|intros id; apply (Hrec (Success now))].
      intros out'. split; [intros [= <-]; eauto|]. intros (_ & ? & [= <-] & E). congruence.
    + split; [done|]. split; [|intros id; by case_decide].
      intros out. split; [done|]. intros (_ & ? & [= <-] & E). congruence.
  - split; [apply (Hrec Failure "")|]. split.
    + intros out. split; [done|]. intros (_ & ? & [= -> _] & _). done.
    + intros id. etransitivity; [apply (Hrec Failure id)|]. case_decide; [|done].
      assert (status <> 200%N) as Hs by done. clear -Hs. by repeat case_match.
Qed.

Lemma rpc_correct_witness :
  let '(t, h) := NewHTTPTransport [mkPeer "b" "b:1"] 7 ∅ in
  let Do := fun _ _ => inr (StatusOK, Encode (mkRVResp 4 true "b")) in
  (rpc (fun _ => None) Do 9 t (mkPeer "b" "b:1") "/raft/request-vote" (mkRVReq 4 "a" 0 0) h).1
    = inr (mkRVResp 4 true "b").
Proof.
  destruct (NewHTTPTransport [mkPeer "b" "b:1"] 7 ∅) as [t h] eqn:Et.
  destruct (NewHTTPTransport_spec _ _ _ _ Et) as [Hwf _]. intros Do.
  pose proof (rpc_correct (R := RequestVoteResponse) (fun _ => None) Do 9 t (mkPeer "b" "b:1")
    "/raft/request-vote" (mkRVReq 4 "a" 0 0) h Hwf) as H.
  destruct (rpc _ _ _ _ _ _ _ _) as [res h']. destruct H as (_ & H & _). apply H.
  split; [done|]. eexists. split; [done|]. by vm_compute.
Defined.
