(* ===== verification/Transaction.v ===== *)
(** * Transactions (src/internal/transaction)

    A [Txn] (txn.go) is a list of commands; the [Manager] (manager.go) proposes
    them one by one.  [Proposer] is the interface through which the manager and
    the HTTP handlers reach the Raft node: [propose] blocks until the command
    is applied or fails, and may change the state it runs on. *)

From S2P Require Import Prelude GoJson Types.
Import Json.

Local Open Scope string_scope.
Local Open Scope go_scope.

Class Proposer (S : Type) := propose : Command -> M S (option error).

(** ** Building a transaction (txn.go) *)

Record Op := mkOp { op_Command : Command }.
Record Txn := mkTxn { txn_ops : list Op }.

Definition NewTxn : Txn := mkTxn [].
Definition txn_Put (key : string) (value : bytes) (t : Txn) : Txn :=
  mkTxn (txn_ops t ++ [mkOp (mkCommand OpPut key value [])]).
Definition txn_Delete (key : string) (t : Txn) : Txn :=
  mkTxn (txn_ops t ++ [mkOp (mkCommand OpDelete key [] [])]).
Definition txn_CAS (key : string) (prevValue newValue : bytes) (t : Txn) : Txn :=
  mkTxn (txn_ops t ++ [mkOp (mkCommand OpCAS key newValue prevValue)]).
Definition Ops (t : Txn) : list Op := txn_ops t.
Definition Len (t : Txn) : nat := length (txn_ops t).

(** ** Committing it (manager.go) *)

Section commit.
Context {St : Type} {P : Proposer St}.
(* strconv.Quote, which %q applies *)
Context (quote : string -> string).

(** The text [txn op[i] (OP "key")]. *)
Definition op_label (i : nat) (c : Command) : string :=
  "txn op[" ++ String.string_of_list_byte (dec (N.of_nat i)) ++ "] (" ++ cmd_Op c ++ " "
  ++ quote (cmd_Key c) ++ ")".

(** [for i, op := range ops { if err := Propose(op); err != nil { return ... } }] *)
Fixpoint propose_all (wrap : nat -> Command -> error -> error) (i : nat) (cmds : list Command)
    : M St (option error) :=
  match cmds with
  | [] => ret None
  | c :: cmds =>
      err <- propose c ;;
      match err with
      | Some err => ret (Some (wrap i c err))
      | None => propose_all wrap (S i) cmds
      end
  end.

Definition Commit (t : Txn) : M St (option error) :=
  if (Len t =? 0)%nat then ret None
  else propose_all (fun i c err => Wrapf (op_label i c) err) 0 (op_Command <$> Ops t).

(** ** What is proposed *)

(** Proposing [cmds] in order succeeds every time and leads from [s] to [s']. *)
Inductive all_accepted : list Command -> St -> St -> Prop :=
| accepted_nil s : all_accepted [] s s
| accepted_cons c cmds s s1 s2 : propose c s = Done (None, s1) -> all_accepted cmds s1 s2 ->
    all_accepted (c :: cmds) s s2.

Lemma propose_all_spec wrap i cmds s res s' :
  propose_all wrap i cmds s = Done (res, s') <->
  match res with
  | None => all_accepted cmds s s'
  | Some err => exists done c rest err0 s1, cmds = (done ++ c :: rest)%list /\
      all_accepted done s s1 /\ propose c s1 = Done (Some err0, s') /\
      err = wrap (i + length done)%nat c err0
  end.
Proof.
  revert i s. induction cmds as [|c cmds IH]; intros i s; cbn [propose_all].
  - split.
    + intros [= <- <-]. constructor.
    + destruct res; [intros ([|] & ? & ? & ? & ? & ? & _); done|]. by inversion 1.
  - unfold bind. destruct (propose c s) as [[[err|] s1]|p] eqn:Ep.
    + split.
      * intros [= <- <-]. exists [], c, cmds, err, s. rewrite Nat.add_0_r.
        split_and!; [done|constructor|done|done].
      * destruct res as [err'|]; [|inversion 1; congruence].
        intros ([|c' done] & ? & ? & err0 & s1' & Hc & Ha & Hp & ->); simplify_eq/=.
        -- inversion Ha; subst. rewrite Ep in Hp. injection Hp as -> ->. by rewrite Nat.add_0_r.
        -- inversion Ha; subst. congruence.
    + rewrite IH. destruct res as [err'|].
      * split.
        -- intros (done & c' & rest & err0 & s2 & -> & Ha & Hp & ->).
           exists (c :: done), c', rest, err0, s2. split_and!; [done|by econstructor|done|].
           f_equal. simpl. lia.
        -- intros ([|c' done] & c2 & rest & err0 & s2 & Hc & Ha & Hp & ->); simplify_eq/=;
             inversion Ha; subst; [congruence|].
           exists done, c2, rest, err0, s2.
           match goal with H : propose c' s = _ |- _ => rewrite Ep in H; injection H as <- end.
           split_and!; [done..|]. f_equal. lia.
      * split; [by econstructor|]. inversion 1; subst. congruence.
    + split; [done|]. destruct res as [err'|]; [|inversion 1; congruence].
      intros ([|c' done] & ? & ? & err0 & s1' & Hc & Ha & Hp & ->); simplify_eq/=; inversion Ha; congruence.
Qed.

End commit.

(** ** Properties *)

(** C29: transactions are sequences.  [Commit] returns success exactly when every
    operation was proposed, in the order it was enqueued, and accepted; it
    returns an error exactly when some operation was rejected, and then the
    operations before it have taken effect, none after it was proposed, and the
    error names that operation. *)
Theorem Commit_correct {St} {P : Proposer St} quote (t : Txn) s res s' :
  Commit quote t s = Done (res, s') <->
  match res with
  | None => all_accepted (op_Command <$> Ops t) s s'
  | Some err => exists done c rest err0 s1, op_Command <$> Ops t = (done ++ c :: rest)%list /\
      all_accepted done s s1 /\ propose c s1 = Done (Some err0, s') /\
      err = Wrapf (op_label quote (length done) c) err0
  end.
Proof.
  rewrite <-(propose_all_spec (fun i c err => Wrapf (op_label quote i c) err) 0).
  unfold Commit, Len. destruct (Nat.eqb_spec (length (txn_ops t)) 0); [|done].
  unfold Ops. by destruct (txn_ops t).
Qed.
