(* ===== verification/Api.v ===== *)
(** * The HTTP server (src/pkg/api/v1/kvstore.go)

    Every handler is a function from the request to a computation on the Raft
    node that produces the response.  The server's [store] is the engine the
    node applies to, so the handlers read it in the node.  How a proposal is
    carried out is the [Proposer] interface.  The routing is the one of
    [http.ServeMux]: on the segments of the escaped path, with a redirect when
    that path is not clean.  Header fields, and the link in the body of a
    redirect, are left out. *)

From S2P Require Import Prelude GoJson Types Config Bolt RaftLog LeaderState Storage RaftNode.
From S2P Require Import Membership Transaction.
Import Utf8 Json.

Local Open Scope string_scope.
Local Open Scope go_scope.

(** ** Requests and responses *)

(** [rq_escaped] is [r.URL.EscapedPath()]. *)
Record Request := mkRequest {
  rq_method : string;
  rq_escaped : string;
  rq_prefix : string;      (* the value of the query parameter "prefix", or "" *)
  rq_body : bytes
}.

(** [url.PathUnescape]. *)
Fixpoint unescape_bytes (b : bytes) : option bytes :=
  match b with
  | [] => Some []
  | c :: rest =>
      if Byte.eqb c x25 then
        match rest with
        | h :: l :: rest =>
            match hex_val h, hex_val l with
            | Some h, Some l => cons (byte_of (16 * h + l)) <$> unescape_bytes rest
            | _, _ => None
            end
        | _ => None
        end
      else cons c <$> unescape_bytes rest
  end.
Definition PathUnescape (s : string) : option string :=
  String.string_of_list_byte <$> unescape_bytes (str s).

(** [pathUnescape] of the multiplexer: what is not an escape stays as it is. *)
Definition pathUnescape (s : string) : string := default s (PathUnescape s).

(** [r.URL.Path]. *)
Definition rq_path (r : Request) : string := pathUnescape (rq_escaped r).

Record Response := mkResponse { rs_status : N; rs_body : bytes }.

Definition StatusMovedPermanently : N := 301.
Definition StatusTemporaryRedirect : N := 307.
Definition StatusBadRequest : N := 400.
Definition StatusNotFound : N := 404.
Definition StatusMethodNotAllowed : N := 405.
Definition StatusInternalServerError : N := 500.

Definition writeJSON (status : N) (v : json) : Response := mkResponse status (print v ++ [x0a])%list.

Definition writeError (status : N) (msg : string) : Response :=
  writeJSON status (JObj [jfield "error" (jstr msg)]).

(** [http.Error]: plain text and a newline. *)
Definition http_Error (msg : string) (code : N) : Response := mkResponse code (str msg ++ [x0a])%list.

Definition ok_body : json := JObj [jfield "ok" (JBool true)].

(** [errors.As] looks through the wrapping that [handleTxn] adds. *)
Definition handleProposeError (err : error) : Response :=
  match as_not_leader err with
  | Some leader =>
      writeJSON StatusTemporaryRedirect
        (JObj [jfield "error" (jstr "not leader"); jfield "leader_id" (jstr leader)])
  | None => writeError StatusInternalServerError (error_Error err)
  end.

(** [strings.TrimPrefix]. *)
Definition TrimPrefix (s prefix : string) : string :=
  match strip_prefix (str prefix) (str s) with
  | Some rest => String.string_of_list_byte rest
  | None => s
  end.

(** ** Paths, as [http.ServeMux] takes them apart *)

Fixpoint split_slash (s : string) : list string :=
  match s with
  | EmptyString => [""]
  | String c s =>
      if Ascii.eqb c (Ascii.ascii_of_byte x2f) then "" :: split_slash s
      else match split_slash s with
           | seg :: segs => String c seg :: segs
           | [] => [String c ""]
           end
  end.

(** The segments after the slash a path starts with; a slash at the end leaves
    an empty last one. *)
Definition segments (path : string) : list string :=
  match path with
  | String c s => if Ascii.eqb c (Ascii.ascii_of_byte x2f) then split_slash s else []
  | EmptyString => []
  end.

(** [cleanPath(p) == p]: the path starts with a slash, has no segment that is
    "." or "..", and none that is empty but the last. *)
Fixpoint clean_segments (segs : list string) : bool :=
  match segs with
  | [] => false
  | [seg] => negb (bool_decide (seg = ".")) && negb (bool_decide (seg = ".."))
  | seg :: segs =>
      negb (bool_decide (seg = "")) && negb (bool_decide (seg = ".")) && negb (bool_decide (seg = ".."))
      && clean_segments segs
  end.
Definition is_clean (path : string) : bool := clean_segments (segments path).

(** The segments the patterns are matched against; [None] is the redirect to the
    clean path, which a CONNECT does not get. *)
Definition mux_path (method escaped : string) : option (list string) :=
  if bool_decide (method = "CONNECT") || is_clean escaped
  then Some (pathUnescape <$> segments escaped) else None.

(** A pattern that ends in a slash. *)
Definition under (dir p : list string) : bool :=
  bool_decide (take (length dir) p = dir) && (length dir <? length p)%nat.

(** The redirect, to a clean path or from [/v1/keys] to [/v1/keys/]. *)
Definition moved : Response := mkResponse StatusMovedPermanently [].

(** ** The bodies the handlers decode *)

Definition put_body : json -> option string :=
  fun j => decode_struct (fun k v value =>
    if field_is "value" k then decode_string v value else Some value) j "".

Record CASBody := mkCASBody { cb_PrevValue : string; cb_NewValue : string }.

Definition cas_body (j : json) : option CASBody :=
  decode_struct (fun k v b =>
    if field_is "prev_value" k then
      (fun x => mkCASBody x (cb_NewValue b)) <$> decode_string v (cb_PrevValue b)
    else if field_is "new_value" k then
      (fun x => mkCASBody (cb_PrevValue b) x) <$> decode_string v (cb_NewValue b)
    else Some b) j (mkCASBody "" "").

Record TxnOp := mkTxnOp { to_Op : string; to_Key : string; to_Value : string; to_PrevValue : string }.

Definition txn_op (j : json) : option TxnOp :=
  decode_struct (fun k v o =>
    let '(mkTxnOp op key value prev) := o in
    if field_is "op" k then (fun x => mkTxnOp x key value prev) <$> decode_string v op
    else if field_is "key" k then (fun x => mkTxnOp op x value prev) <$> decode_string v key
    else if field_is "value" k then (fun x => mkTxnOp op key x prev) <$> decode_string v value
    else if field_is "prev_value" k then (fun x => mkTxnOp op key value x) <$> decode_string v prev
    else Some o) j (mkTxnOp "" "" "" "").

Definition txn_body (j : json) : option (list TxnOp) :=
  decode_struct (fun k v ops =>
    if field_is "ops" k then decode_slice txn_op v else Some ops) j [].

(** [json.NewDecoder(r.Body).Decode(&body)]. *)
Definition decode_body {A} (decode : json -> option A) (body : bytes) : option A :=
  decode_stream body ≫= fun '(j, _) => decode j.

(** [strings.ToUpper]: on ASCII strings byte by byte; [unicode_upper] is its
    table-driven case for the others. *)
Definition upper_byte (b : byte) : byte :=
  if in_range 97 122 b then byte_of (Byte.to_N b - 32) else b.
Definition ToUpper (unicode_upper : string -> string) (s : string) : string :=
  if forallb (in_range 0 127) (str s) then String.string_of_list_byte (upper_byte <$> str s)
  else unicode_upper s.

Section server.
Context {B : Bolt} {E : Type} {X : Engine E} {P : Proposer (RaftNode B E)}.
Context (unicode_upper : string -> string).

Abbreviation Handler := (M (RaftNode B E) Response) (only parsing).

(** ** Client handlers *)

Definition respond (err : option error) : Response :=
  match err with
  | Some err => handleProposeError err
  | None => writeJSON StatusOK ok_body
  end.

Definition getKey (key : string) : Handler :=
  val <- gets (fun n => eng_Get (n_storage n) key) ;;
  match val with
  | inl err =>
      if errors_Is err ErrKeyNotFound then ret (writeError StatusNotFound "key not found")
      else ret (writeError StatusInternalServerError (error_Error err))
  | inr val =>
      ret (writeJSON StatusOK (JObj [jfield "key" (jstr key); jfield "value" (JStr val)]))
  end.

Definition putKey (r : Request) (key : string) : Handler :=
  match decode_body put_body (rq_body r) with
  | None => ret (writeError StatusBadRequest "invalid JSON body")
  | Some value =>
      err <- propose (mkCommand OpPut key (str value) []) ;;
      ret (respond err)
  end.

Definition deleteKey (key : string) : Handler :=
  err <- propose (mkCommand OpDelete key [] []) ;;
  ret (respond err).

Definition handleKey (r : Request) : Handler :=
  let key := TrimPrefix (rq_path r) "/v1/keys/" in
  if bool_decide (key = "") then ret (writeError StatusBadRequest "key is required")
  else if bool_decide (rq_method r = "GET") then getKey key
  else if bool_decide (rq_method r = "PUT") then putKey r key
  else if bool_decide (rq_method r = "DELETE") then deleteKey key
  else ret (http_Error "method not allowed" StatusMethodNotAllowed).

Definition handleCAS (r : Request) : Handler :=
  if negb (bool_decide (rq_method r = "POST")) then
    ret (http_Error "method not allowed" StatusMethodNotAllowed)
  else
    let key := TrimPrefix (rq_path r) "/v1/cas/" in
    if bool_decide (key = "") then ret (writeError StatusBadRequest "key is required")
    else
      match decode_body cas_body (rq_body r) with
      | None => ret (writeError StatusBadRequest "invalid JSON body")
      | Some body =>
          err <- propose (mkCommand OpCAS key (str (cb_NewValue body)) (str (cb_PrevValue body))) ;;
          ret (respond err)
      end.

(** The values as JSON strings, the keys sorted. *)
Definition handleScan (r : Request) : Handler :=
  res <- gets (fun n => eng_Scan (n_storage n) (rq_prefix r)) ;;
  match res with
  | inl err => ret (writeError StatusInternalServerError (error_Error err))
  | inr result =>
      ret (writeJSON StatusOK (JObj [jfield "keys"
        (JObj ((fun kv => (str kv.1, JStr kv.2)) <$> sorted_members result))]))
  end.

Definition txn_command (o : TxnOp) : Command :=
  mkCommand (ToUpper unicode_upper (to_Op o)) (to_Key o) (str (to_Value o)) (str (to_PrevValue o)).

Definition txn_error (i : nat) (c : Command) (err : error) : error :=
  Wrapf ("op[" ++ show_N (N.of_nat i) ++ "]") err.

Definition handleTxn (r : Request) : Handler :=
  if negb (bool_decide (rq_method r = "POST")) then
    ret (http_Error "method not allowed" StatusMethodNotAllowed)
  else
    match decode_body txn_body (rq_body r) with
    | None => ret (writeError StatusBadRequest "invalid JSON body")
    | Some ops =>
        err <- propose_all txn_error 0 (txn_command <$> ops) ;;
        ret (respond err)
    end.

(** The accessors take the lock one by one; here they read one state. *)
Definition handleStatus : Handler :=
  n <- get ;;
  ret (writeJSON StatusOK (JObj [
    jfield "commit_index" (jnum (node_CommitIndex n));
    jfield "is_leader" (JBool (IsLeader n));
    jfield "last_applied" (jnum (node_LastApplied n));
    jfield "leader_id" (jstr (LeaderID n));
    jfield "node_id" (jstr (ID n));
    jfield "snapshot_index" (jnum (node_SnapshotIndex n))])).

(** ** Raft RPC handlers *)

(** The texts of JSON errors are not modelled. *)
Definition bad_request : Response := writeError StatusBadRequest (error_Error ErrJSON).

Definition api_handleAppendEntries (body : bytes) : Handler :=
  match (Decode body : option AppendEntriesRequest) with
  | None => ret bad_request
  | Some req => resp <- HandleAppendEntries req ;; ret (writeJSON StatusOK (to_json resp))
  end.

Definition api_handleRequestVote (body : bytes) : Handler :=
  match (Decode body : option RequestVoteRequest) with
  | None => ret bad_request
  | Some req => resp <- HandleRequestVote req ;; ret (writeJSON StatusOK (to_json resp))
  end.

Definition api_handleInstallSnapshot (body : bytes) : Handler :=
  match (Decode body : option InstallSnapshotRequest) with
  | None => ret bad_request
  | Some req => resp <- HandleInstallSnapshot req ;; ret (writeJSON StatusOK (to_json resp))
  end.

(** ** Routing: the patterns of [routes] *)

Definition serve (r : Request) : Handler :=
  match mux_path (rq_method r) (rq_escaped r) with
  | None => ret moved
  | Some p =>
      if under ["v1"; "keys"] p then handleKey r
      else if under ["v1"; "cas"] p then handleCAS r
      else if bool_decide (p = ["v1"; "scan"]) then handleScan r
      else if bool_decide (p = ["v1"; "txn"]) then handleTxn r
      else if bool_decide (p = ["v1"; "status"]) then handleStatus
      else if bool_decide (p = ["raft"; "append-entries"]) then api_handleAppendEntries (rq_body r)
      else if bool_decide (p = ["raft"; "request-vote"]) then api_handleRequestVote (rq_body r)
      else if bool_decide (p = ["raft"; "install-snapshot"]) then api_handleInstallSnapshot (rq_body r)
      else if bool_decide (p = ["v1"; "keys"]) || bool_decide (p = ["v1"; "cas"]) then ret moved
      else ret (http_Error "404 page not found" StatusNotFound)
  end.

End server.

(** [s.propose]: a proposal at the node, with [others] the work of the other
    goroutines while it waits and [w] what wakes it: the answer, the timeout of
    five seconds, or the end of the node. *)
Definition server_propose {B : Bolt} {E} {X : Engine E} (others : M (RaftNode B E) unit) (w : Wakeup)
    : Proposer (RaftNode B E) :=
  fun cmd => Propose cmd others w.

(** ** The server *)

Definition Second : Z := 1000000000.

(** The fields of [http.Server] the program sets; 0 is no limit. *)
Record http_Server := mkHttpServer {
  hs_Addr : string;
  hs_ReadTimeout : Z;
  hs_WriteTimeout : Z;
  hs_IdleTimeout : Z
}.

(** The server's handler is [serve] on its node. *)
Definition NewServer (addr : string) : http_Server :=
  mkHttpServer addr (5 * Second) (10 * Second) (60 * Second).

(** What [ListenAndServe] waits for: [http.Server.ListenAndServe] returns, which
    it does with an error, or the context is cancelled. *)
Inductive ServerEvent :=
| Served (err : error)
| CtxDone.

(** [errCh] after the first event: the goroutine drops [http.ErrServerClosed]. *)
Definition served_err (err : error) : option error :=
  if errors_Is err ErrServerClosed then None else Some err.

(** [ListenAndServe] on the events in their order: [None] while it waits;
    [shutdown] is the result of [http.Server.Shutdown]. *)
Fixpoint ListenAndServe (shutdown : option error) (events : list ServerEvent)
    : option (option error) :=
  match events with
  | [] => None
  | CtxDone :: _ => Some shutdown
  | Served err :: events =>
      match served_err err with
      | Some err => Some (Some err)
      | None => ListenAndServe shutdown events
      end
  end.
