(* ===== verification/Wire.v ===== *)
(** * The wire between nodes, and the client's view of a node

    The transport of one node joined to the HTTP server of another: what the
    caller of an RPC gets is what the handler of the other node returned.  And
    what the server answers to the clients of the key/value interface. *)

From S2P Require Import Prelude GoJson Types Config Bolt RaftLog LeaderState Storage RaftNode.
From S2P Require Import RaftNodeSpec Sample Membership Transaction Api.
Import Utf8 Json MapBolt.

Local Open Scope string_scope.

(** ** Messages survive JSON *)

Definition utf8_entry (e : LogEntry) : Prop :=
  utf8_string (cmd_Op (le_Command e)) /\ utf8_string (cmd_Key (le_Command e)).

Lemma san_entry e : utf8_entry e -> j_san e = e.
Proof. destruct e as [i t [op k v pv]]. intros [H1 H2]. simpl in *. by rewrite !san_utf8. Qed.

Lemma san_entries es : Forall utf8_entry es -> j_san <$> es = es.
Proof. induction 1 as [|e es He _ IH]; [done|]. rewrite fmap_cons, IH. by rewrite san_entry. Qed.

(** Written as JSON and read back, alone or from a stream that goes on. *)
Definition survives `{JsonCodec A} (a : A) : Prop :=
  Unmarshal (Marshal a) = Some a /\ forall rest, ends rest -> Decode (Marshal a ++ rest) = Some a.

Lemma survives_san `{JsonLaws A} (a : A) : j_ok a -> j_san a = a -> survives a.
Proof.
  intros Hok Hs. split; [by rewrite Unmarshal_Marshal, Hs|].
  intros rest Hr. by rewrite Decode_Marshal, Hs.
Qed.

(** C23: messages round trip.  Every RPC message with 64-bit integers and UTF-8
    identifiers, operations and keys, whatever its values and snapshot bytes, is
    the same after it is written as JSON and read back, also from a stream that
    goes on. *)
Theorem messages_roundtrip :
  (forall r : AppendEntriesRequest, j_ok r -> utf8_string (ae_LeaderID r) ->
    Forall utf8_entry (ae_Entries r) -> survives r) /\
  (forall r : AppendEntriesResponse, j_ok r -> utf8_string (aer_FollowerID r) -> survives r) /\
  (forall r : RequestVoteRequest, j_ok r -> utf8_string (rv_CandidateID r) -> survives r) /\
  (forall r : RequestVoteResponse, j_ok r -> utf8_string (rvr_VoterID r) -> survives r) /\
  (forall r : InstallSnapshotRequest, j_ok r -> utf8_string (is_LeaderID r) -> survives r) /\
  (forall r : InstallSnapshotResponse, j_ok r -> utf8_string (isr_FollowerID r) -> survives r).
Proof.
  split_and!; intros r Hok Hu; try intros Hes; apply survives_san; try exact Hok; destruct r; simpl in *;
    rewrite (san_utf8 _ Hu); [by rewrite san_entries|done..].
Qed.

(** A snapshot whose bytes are not UTF-8. *)
Lemma messages_roundtrip_witness :
  survives (mkISReq 3 "a" 7 2 [xff; x00; x22]) /\
  survives (mkAEReq 3 "a" 0 0 [mkLogEntry 1 3 (mkCommand OpPut "k" [xff] [])] 1).
Proof.
  destruct messages_roundtrip as (Hae & _ & _ & _ & His & _). split.
  - apply His; [repeat split|]; by vm_compute.
  - assert (u64_ok 0 /\ u64_ok 1 /\ u64_ok 3) as (? & ? & ?) by (split_and!; by vm_compute).
    apply Hae.
    + do 4 (split; [assumption|]). constructor; [by split|constructor].
    + by vm_compute.
    + constructor; [|constructor]. by split; vm_compute.
Defined.

(** ** An RPC between two nodes *)

Lemma strip_prefix_app p s : strip_prefix p (p ++ s)%list = Some s.
Proof.
  induction p as [|b p IH]; simpl; [done|]. by rewrite (Byte.byte_dec_lb eq_refl).
Qed.

Lemma str_append s1 s2 : str (s1 ++ s2) = (str s1 ++ str s2)%list.
Proof. induction s1 as [|c s1 IH]; [done|]. exact (f_equal (cons _) IH). Qed.

Lemma string_append_assoc (a b c : string) : a ++ b ++ c = (a ++ b) ++ c.
Proof. induction a as [|x a IH]; [done|]. exact (f_equal (String.String x) IH). Qed.

Lemma prefix_append p s : String.prefix p (p ++ s) = true.
Proof. induction p as [|c p IH]; simpl; [by destruct s|]. by destruct (Ascii.ascii_dec c c). Qed.

Lemma TrimPrefix_append p s : TrimPrefix (p ++ s) p = s.
Proof. unfold TrimPrefix. by rewrite str_append, strip_prefix_app, bytes_of_str. Qed.

Section wire.
Context {B : Bolt} {E : Type} {X : Engine E} {P : Proposer (RaftNode B E)}.
Context (unicode_upper : string -> string).
Implicit Types m : RaftNode B E.

(** The request a transport makes of a node. *)
Definition post (path : string) (body : bytes) : Request := mkRequest "POST" path "" body.

(** The HTTP client, when the server of node [m] listens at [addr]: a handler
    that panics closes the connection, and the client reads an end of file. *)
Definition EOF : error := Errorf "EOF".
Definition http_to (addr : string) m (url : string) (body : bytes) : error + (N * bytes) :=
  match serve unicode_upper (post (TrimPrefix url ("http://" ++ addr)) body) m with
  | Done (r, _) => inr (rs_status r, rs_body r)
  | Panic _ => inl EOF
  end.

(** What the peer's server and the caller's transport make of the outcome
    [handled] of the peer's handler. *)
Definition answered {R} `{JsonLaws R} (now : Z) (t : HTTPTransport) (peer : Peer) (path : string) (h : Heap)
    (handled : outcome (R * RaftNode B E)) (served : outcome (Response * RaftNode B E))
    (called : (error + R) * Heap) : Prop :=
  match handled with
  | Done (resp, m') =>
      served = Done (writeJSON StatusOK (to_json resp), m') /\
      called = (inr (j_san resp), recordSuccess now t (peer_ID peer) h)
  | Panic p =>
      served = Panic p /\
      called = (inl (Wrapf ("rpc " ++ path ++ " to " ++ peer_ID peer) EOF), recordFailure t (peer_ID peer) h)
  end.

Lemma rpc_answered {Q R} `{JsonCodec Q} `{JsonLaws R} now t peer path (req : Q) (handle : M (RaftNode B E) R) m h :
  serve unicode_upper (post path (Marshal req)) m
    = bind handle (fun resp => ret (writeJSON StatusOK (to_json resp))) m ->
  (forall resp m', handle m = Done (resp, m') -> j_ok resp) ->
  answered now t peer path h (handle m) (serve unicode_upper (post path (Marshal req)) m)
    (rpc (R := R) (fun _ => None) (http_to (peer_Addr peer) m) now t peer path req h).
Proof.
  intros Hs Hok. unfold answered, rpc, http_to.
  replace ("http://" ++ peer_Addr peer ++ path) with (("http://" ++ peer_Addr peer) ++ path)
    by (symmetry; apply string_append_assoc).
  rewrite TrimPrefix_append, Hs. unfold bind, ret. destruct (handle m) as [[resp m']|p]; [|done].
  split; [done|]. cbn [rs_status rs_body writeJSON]. simpl.
  pose proof (Decode_Marshal resp [x0a] (Hok _ _ eq_refl) eq_refl) as Hd. unfold Marshal in Hd. by rewrite Hd.
Qed.
End wire.

(** C22: an RPC is a call of the other node's handler.  With the server of node [m],
    whose state satisfies the node invariant, at the peer's address, and a
    request whose integers have 64 bits: when [m]'s handler returns a response
    to the request (its strings in JSON form), the server answers 200 and is left
    in the handler's state, and the RPC returns exactly that response, in JSON
    form, to its caller and counts the peer as reached; when the handler panics,
    the RPC returns an error and counts a failure.  A body that is not such a
    request is answered with 400 and changes nothing.  This holds of each of the
    three RPCs. *)
Theorem rpc_calls_handler {B : Bolt} {L : BoltLaws B} {E} {X : Engine E} {P : Proposer (RaftNode B E)}
    upper (m : RaftNode B E) now t peer h :
  node_inv m ->
  let Do := http_to upper (peer_Addr peer) m in
  let served path body := serve upper (post path body) m in
  let refused := Done (writeError StatusBadRequest (error_Error ErrJSON), m) in
  (forall req, j_ok req ->
    answered now t peer "/raft/request-vote" h (HandleRequestVote (j_san req) m)
      (served "/raft/request-vote" (Marshal req)) (rpc_RequestVote (fun _ => None) Do now t peer req h)) /\
  (forall req, j_ok req ->
    answered now t peer "/raft/append-entries" h (HandleAppendEntries (j_san req) m)
      (served "/raft/append-entries" (Marshal req)) (rpc_AppendEntries (fun _ => None) Do now t peer req h)) /\
  (forall req, j_ok req ->
    answered now t peer "/raft/install-snapshot" h (HandleInstallSnapshot (j_san req) m)
      (served "/raft/install-snapshot" (Marshal req)) (rpc_InstallSnapshot (fun _ => None) Do now t peer req h)) /\
  (forall body, (Decode body : option RequestVoteRequest) = None ->
    served "/raft/request-vote" body = refused) /\
  (forall body, (Decode body : option AppendEntriesRequest) = None ->
    served "/raft/append-entries" body = refused) /\
  (forall body, (Decode body : option InstallSnapshotRequest) = None ->
    served "/raft/install-snapshot" body = refused).
Proof.
  intros Hm Do served refused.
  assert (forall body, served "/raft/request-vote" body = api_handleRequestVote body m) as Hv by done.
  assert (forall body, served "/raft/append-entries" body = api_handleAppendEntries body m) as Ha by done.
  assert (forall body, served "/raft/install-snapshot" body = api_handleInstallSnapshot body m) as Hi by done.
  split_and!.
  - intros req Hok. pose proof (Decode_body req Hok) as Hd. apply Decode_ok in Hd as Hok'. apply rpc_answered.
    + unfold served in Hv. rewrite Hv. unfold api_handleRequestVote. by rewrite Hd.
    + intros resp m' Hr. pose proof (wp_elim _ _ _ _ _ (wp_HandleRequestVote m _ Hm Hok') Hr) as (Ht & Hm' & _).
      simpl. rewrite Ht. apply Hm'.
  - intros req Hok. pose proof (Decode_body req Hok) as Hd. apply Decode_ok in Hd as Hok'. apply rpc_answered.
    + unfold served in Ha. rewrite Ha. unfold api_handleAppendEntries. by rewrite Hd.
    + intros resp m' Hr. by apply (wpe_elim _ _ _ _ _ _ (wpe_HandleAppendEntries m _ Hm Hok') Hr).
  - intros req Hok. pose proof (Decode_body req Hok) as Hd. apply Decode_ok in Hd as Hok'. apply rpc_answered.
    + unfold served in Hi. rewrite Hi. unfold api_handleInstallSnapshot. by rewrite Hd.
    + intros resp m' Hr. pose proof (wpe_elim _ _ _ _ _ _ (wpe_HandleInstallSnapshot m _ Hm Hok') Hr) as [_ Ht].
      simpl. rewrite Ht. apply Hm.
  - intros body Hd. rewrite Hv. unfold api_handleRequestVote. by rewrite Hd.
  - intros body Hd. rewrite Ha. unfold api_handleAppendEntries. by rewrite Hd.
  - intros body Hd. rewrite Hi. unfold api_handleInstallSnapshot. by rewrite Hd.
Qed.

(** A proposer that refuses every command, for the examples. *)
Definition refuse : Proposer sample_node := fun _ => ret (Some (NotLeaderError "b")).

Definition granted (o : outcome (RequestVoteResponse * sample_node)) : bool :=
  match o with Done (resp, _) => rvr_VoteGranted resp | Panic _ => false end.

(** The candidate "b" asks the sample node for its vote, and gets it. *)
Lemma rpc_calls_handler_witness :
  exists resp, rvr_VoteGranted resp = true /\
    rpc_RequestVote (fun _ => None) (http_to (P := refuse) (fun s => s) "a:7001" sample_started) 0 ∅
      (mkPeer "a" "a:7001") (mkRVReq 1 "b" 0 0) ∅ = (inr resp, ∅).
Proof.
  destruct (rpc_calls_handler (P := refuse) (fun s => s) sample_started 0 ∅ (mkPeer "a" "a:7001") ∅
    sample_started_inv) as [H _].
  specialize (H (mkRVReq 1 "b" 0 0)). unfold answered in H.
  assert (granted (HandleRequestVote (j_san (mkRVReq 1 "b" 0 0)) sample_started) = true) as Hg by by vm_compute.
  destruct (HandleRequestVote (j_san (mkRVReq 1 "b" 0 0)) sample_started) as [[resp m']|]; [|done].
  destruct H as [_ H]; [repeat split; by vm_compute|]. exists (j_san resp). split; [exact Hg|exact H].
Defined.

(** ** The key/value interface *)

(** The body of a PUT. *)
Definition put_json (v : string) : bytes := print (JObj [jfield "value" (jstr v)]).

Lemma put_json_decodes v : utf8_string v -> decode_body put_body (put_json v) = Some v.
Proof.
  intros Hv. unfold decode_body, put_json. rewrite <-(app_nil_r (print _)).
  rewrite decode_stream_print by (try done; apply json_ok_obj; by repeat constructor).
  cbn [mbind option_bind]. unfold put_body. struct_eval. by rewrite san_utf8.
Qed.

Section keys.
Context {B : Bolt} {E : Type} {X : Engine E} {P : Proposer (RaftNode B E)}.
Context (upper : string -> string).
Implicit Types m : RaftNode B E.

(** The request for the key [k], written [ek] in the path. *)
Definition key_request (method ek : string) (body : bytes) : Request :=
  mkRequest method ("/v1/keys/" ++ ek) "" body.

Lemma key_path method ek k body : PathUnescape ek = Some k ->
  rq_path (key_request method ek body) = "/v1/keys/" ++ k.
Proof.
  unfold rq_path, pathUnescape, PathUnescape. cbn [rq_escaped key_request]. rewrite str_append.
  destruct (unescape_bytes (str ek)) as [b|] eqn:Hb; [|done]. intros [= <-].
  cbn -[String.string_of_list_byte]. rewrite Hb. simpl. done.
Qed.

Lemma split_slash_cons s : exists seg segs, split_slash s = seg :: segs.
Proof.
  induction s as [|c s (seg & segs & IH)]; simpl; [by eauto|]. rewrite IH.
  destruct (Ascii.eqb _ _); eauto.
Qed.

(** A request for a key goes to [handleKey]. *)
Lemma serve_handleKey m method ek body :
  is_clean ("/v1/keys/" ++ ek) = true ->
  serve upper (key_request method ek body) m = handleKey (key_request method ek body) m.
Proof.
  intros Hc. unfold serve, mux_path. cbn [rq_escaped rq_method key_request]. rewrite Hc, orb_true_r.
  destruct (split_slash_cons ek) as (seg & segs & Hs).
  change (segments ("/v1/keys/" ++ ek)) with ("v1" :: "keys" :: split_slash ek). rewrite Hs.
  done.
Qed.

(** The handler a request for a key ends up in. *)
Lemma serve_key m method ek k body :
  is_clean ("/v1/keys/" ++ ek) = true -> PathUnescape ek = Some k -> k <> "" ->
  serve upper (key_request method ek body) m =
    (if bool_decide (method = "GET") then getKey k
     else if bool_decide (method = "PUT") then putKey (key_request method ek body) k
     else if bool_decide (method = "DELETE") then deleteKey k
     else ret (http_Error "method not allowed" StatusMethodNotAllowed)) m.
Proof.
  intros Hc Hu Hk. rewrite serve_handleKey by done. unfold handleKey. rewrite (key_path _ _ _ _ Hu).
  rewrite TrimPrefix_append. by rewrite bool_decide_eq_false_2.
Qed.

Lemma serve_GET {EL : EngineLaws E} m ek k body : eng_wf (n_storage m) ->
  is_clean ("/v1/keys/" ++ ek) = true -> PathUnescape ek = Some k -> k <> "" ->
  serve upper (key_request "GET" ek body) m =
    Done (match eng_view (n_storage m) !! k with
    | Some x => writeJSON StatusOK (JObj [jfield "key" (jstr k); jfield "value" (JStr x)])
    | None => writeError StatusNotFound "key not found" end, m).
Proof.
  intros Hwf Hc Hu Hk. rewrite (serve_key _ _ _ k), bool_decide_eq_true_2 by done. unfold getKey, bind, gets, ret.
  rewrite (Get_law _ _ Hwf). by destruct (eng_view (n_storage m) !! k).
Qed.

Lemma serve_PUT m ek k v err m' :
  is_clean ("/v1/keys/" ++ ek) = true -> PathUnescape ek = Some k -> k <> "" -> utf8_string v ->
  propose (mkCommand OpPut k (str v) []) m = Done (err, m') ->
  serve upper (key_request "PUT" ek (put_json v)) m = Done (respond err, m').
Proof.
  intros Hc Hu Hk Hv Hp. rewrite (serve_key _ _ _ k) by done.
  rewrite bool_decide_eq_false_2, bool_decide_eq_true_2 by done.
  unfold putKey. cbn [rq_body key_request]. rewrite put_json_decodes by done. unfold bind. by rewrite Hp.
Qed.

Lemma serve_unclean m r : rq_method r <> "CONNECT" -> is_clean (rq_escaped r) = false ->
  serve upper r m = Done (moved, m).
Proof. intros Hm Hc. unfold serve, mux_path. by rewrite Hc, bool_decide_eq_false_2. Qed.
End keys.

(** C24: the key/value interface.  On the path of a non-empty key, in any escaped
    form that the multiplexer takes as clean, and over an engine in a well-formed
    state, GET answers with the value the engine holds, or 404, and changes
    nothing; PUT with a UTF-8 value and DELETE propose exactly one command for
    that key and answer 200 when it was accepted, 307 with the leader's name when
    this node does not lead, and 500 with the error's text otherwise; every other
    method gets 405 and changes nothing.  With any method, a path without a key
    is answered with 400, the path without its last slash with 301, and so is,
    for any method but CONNECT, every path that is not clean; none of these
    changes anything. *)
Theorem key_api_correct {B : Bolt} {E} {X : Engine E} {EL : EngineLaws E}
    {P : Proposer (RaftNode B E)} upper (m : RaftNode B E) (ek k v : string) (body : bytes) :
  eng_wf (n_storage m) -> is_clean ("/v1/keys/" ++ ek) = true -> PathUnescape ek = Some k -> k <> "" ->
  utf8_string v ->
  let at_key method body := serve upper (key_request method ek body) m in
  let answer err := match err with
    | None => writeJSON StatusOK (JObj [jfield "ok" (JBool true)])
    | Some e => match as_not_leader e with
        | Some leader => writeJSON StatusTemporaryRedirect
            (JObj [jfield "error" (jstr "not leader"); jfield "leader_id" (jstr leader)])
        | None => writeError StatusInternalServerError (error_Error e)
        end
    end in
  at_key "GET" body = Done (match eng_view (n_storage m) !! k with
    | Some x => writeJSON StatusOK (JObj [jfield "key" (jstr k); jfield "value" (JStr x)])
    | None => writeError StatusNotFound "key not found" end, m) /\
  (forall err m', propose (mkCommand OpPut k (str v) []) m = Done (err, m') ->
    at_key "PUT" (put_json v) = Done (answer err, m')) /\
  (forall err m', propose (mkCommand OpDelete k [] []) m = Done (err, m') ->
    at_key "DELETE" body = Done (answer err, m')) /\
  (forall method, method <> "GET" -> method <> "PUT" -> method <> "DELETE" ->
    at_key method body = Done (http_Error "method not allowed" StatusMethodNotAllowed, m)) /\
  (forall method, serve upper (mkRequest method "/v1/keys/" "" body) m
    = Done (writeError StatusBadRequest "key is required", m)) /\
  (forall method, serve upper (mkRequest method "/v1/keys" "" body) m
    = Done (mkResponse StatusMovedPermanently [], m)) /\
  (forall method path, method <> "CONNECT" -> is_clean path = false ->
    serve upper (mkRequest method path "" body) m = Done (mkResponse StatusMovedPermanently [], m)).
Proof.
  intros Hwf Hc Hu Hk Hv at_key answer. unfold at_key. split; [|split; [|split; [|split; [|split; [|split]]]]].
  - by apply serve_GET.
  - intros err m' Hp. rewrite (serve_PUT _ _ _ _ _ _ _ Hc Hu Hk Hv Hp). by destruct err.
  - intros err m' Hp. rewrite (serve_key _ _ _ _ k) by done.
    rewrite !(bool_decide_eq_false_2 (_ = _)) by done.
    rewrite bool_decide_eq_true_2 by done. unfold deleteKey, bind. rewrite Hp. by destruct err.
  - intros method H1 H2 H3. rewrite (serve_key _ _ _ _ k) by done. by rewrite !bool_decide_eq_false_2.
  - intros method. exact (serve_handleKey upper m method "" body eq_refl).
  - intros method. unfold serve, mux_path. cbn [rq_escaped rq_method].
    assert (is_clean "/v1/keys" = true) as -> by done. by rewrite orb_true_r.
  - intros method path Hm Hp. by apply serve_unclean.
Qed.

(** A follower redirects a PUT to the leader; the key is "x y", with a space. *)
Lemma key_api_correct_witness :
  serve (P := refuse) (fun s => s) (mkRequest "PUT" "/v1/keys/x%20y" "" (put_json "1")) sample_started
  = Done (writeJSON StatusTemporaryRedirect
      (JObj [jfield "error" (jstr "not leader"); jfield "leader_id" (jstr "b")]), sample_started).
Proof.
  destruct (key_api_correct (P := refuse) (EL := MemoryEngine_laws) (fun s => s) sample_started
    "x%20y" "x y" "1" [] sample_started_wf) as (_ & H & _).
  - done.
  - done.
  - done.
  - by vm_compute.
  - exact (H (Some (NotLeaderError "b")) sample_started eq_refl).
Defined.
