(* ===== verification/ClientWrite.v ===== *)
(** * A client's write, from the HTTP request to the state machine

    [PUT] on a leader, composed of the definitions of the server, the Raft node,
    the log and the engine: the command is appended, a follower's success reply
    commits it, [applyCommitted] runs it, and the waiting handler answers 200, if
    the engine's write succeeded; a [GET] afterwards returns the value. *)

From S2P Require Import Prelude GoJson Types Config Bolt RaftLog LeaderState Storage RaftNode.
From S2P Require Import RaftNodeSpec Frames Sample RaftNodeProps Replication StateMachine Membership.
From S2P Require Import Transaction Api Wire.
Import Utf8 Json MapBolt.

Local Open Scope string_scope.
Local Open Scope go_scope.

Section client.
Context {B : Bolt} {L : BoltLaws B} {E : Type} {X : Engine E} {EL : EngineLaws E}.
Implicit Types n : RaftNode B E.

(** A leader that can take one more entry: the entries it has not applied are the
    commands [cs]. *)
Record ready n (ls : leaderState) (cs : list Command) : Prop := {
  rd_inv : node_inv n;
  rd_state : n_state n = Leader;
  rd_leader : n_leader n = Some ls;
  rd_wf : eng_wf (n_storage n);
  rd_room : (LastIndex (n_raftLog n) + 1 < two64)%N;
  rd_commit : (n_commitIndex n <= LastIndex (n_raftLog n))%N;
  rd_snap : (rl_snapshotIndex (n_raftLog n) <= LastIndex (n_raftLog n))%N;
  rd_todo : (n_lastApplied n + N.of_nat (length cs) = LastIndex (n_raftLog n))%N;
  rd_cmds : cmds_at (n_raftLog n) (n_lastApplied n + 1) cs
}.

(** With [peer] at index [i], a majority holds it. *)
Definition wins (ls : leaderState) (peer : Peer) (i : LogIndex) : Prop :=
  let ls' := progress ls (peer_ID peer) i in
  is_majority (1 + count_match (matchIndex ls') i) (size (matchIndex ls') + 1).

(** The node after the first half of [Propose]: [cmd] is the last entry. *)
Record took n (ls : leaderState) (cs : list Command) (cmd : Command) (ch : nat) n1 : Prop := {
  pr_inv : node_inv n1;
  pr_state : n_state n1 = Leader;
  pr_leader : n_leader n1 = Some ls;
  pr_term : n_currentTerm n1 = n_currentTerm n;
  pr_commit : n_commitIndex n1 = n_commitIndex n;
  pr_last : LastIndex (n_raftLog n1) = (LastIndex (n_raftLog n) + 1)%N;
  pr_termAt : TermAt (n_raftLog n1) (LastIndex (n_raftLog n) + 1) = n_currentTerm n;
  pr_storage : n_storage n1 = n_storage n;
  pr_applied : n_lastApplied n1 = n_lastApplied n;
  pr_pending : n_pending n1 !! (LastIndex (n_raftLog n) + 1)%N = Some ch;
  pr_cmds : cmds_at (n_raftLog n1) (n_lastApplied n1 + 1) (cs ++ [cmd])
}.

(** The entry of the command. *)
Definition entry_of n (cmd : Command) : LogEntry :=
  mkLogEntry (LastIndex (n_raftLog n) + 1) (n_currentTerm n) cmd.

Lemma took_entry n ls cs cmd ch n1 : ready n ls cs -> utf8_entry (entry_of n cmd) ->
  proposed n (entry_of n cmd) (inr ((LastIndex (n_raftLog n) + 1)%N, ch)) n1 ->
  n_storage n1 = n_storage n -> n_lastApplied n1 = n_lastApplied n -> n_leader n1 = n_leader n ->
  took n ls cs cmd ch n1.
Proof.
  intros [Hn Hst El _ Hroom _ Hsnap Htodo Hcs] Hu (Hq & Hc & Hk & _ & _ & _ & Hp & Hlog) Est Ela El1.
  cbn [le_Index entry_of] in *. rewrite (san_entry _ Hu) in Hlog.
  set (i := (LastIndex (n_raftLog n) + 1)%N) in *. pose proof (ni_log _ (q_inv _ _ Hq)) as Hwf1.
  assert (log_at (n_raftLog n1) i = Some (entry_of n cmd)) as Hi by (by rewrite Hlog, decide_True).
  pose proof (q_pv _ _ Hq) as Hpv. unfold pv in Hpv. injection Hpv as Et _ Es.
  split; try done; try congruence; [apply Hq|..].
  - apply (LastIndex_filled _ i (entry_of n cmd)); try done. intros j Hj Hge.
    rewrite Hlog, decide_False by (done || lia). destruct (log_at (n_raftLog n) j) eqn:Ej; [|done].
    destruct (LastIndex_spec _ (ni_log _ Hn)) as [(_ & _ & Hmax)|[_ Hno]]; [|by rewrite Hno in Ej].
    specialize (Hmax j Hj ltac:(by eexists)). unfold i in *. lia.
  - rewrite (TermAt_entry _ _ (entry_of n cmd) Hwf1); [done| |done].
    rewrite (kept_snapshotIndex _ _ Hk). unfold i. lia.
  - by rewrite Hp, lookup_insert_eq.
  - rewrite Ela. intros j c Hj. apply lookup_app_Some in Hj as [Hj|[Hge Hj]].
    + apply lookup_lt_Some in Hj as Hlt. destruct (Hcs j c Hj) as (e & He & <-). exists e. split; [|done].
      rewrite Hlog, decide_False by (unfold u64_ok, i in *; lia). done.
    + apply list_lookup_singleton_Some in Hj as [Hj0 <-]. exists (entry_of n cmd). split; [|done].
      rewrite <-Hi. f_equal. unfold i. lia.
Qed.

(** The log refused the entry: no entry, no change of the node's other state. *)
Definition refused n (cmd : Command) (err : error) n' : Prop :=
  Append (n_raftLog n) (entry_of n cmd) = Done (Some err, n_raftLog n') /\ quiet n n' /\
  (forall i, log_at (n_raftLog n') i = log_at (n_raftLog n) i) /\
  n_storage n' = n_storage n /\ n_commitIndex n' = n_commitIndex n /\ n_lastApplied n' = n_lastApplied n /\
  n_pending n' = n_pending n /\ n_chans n' = n_chans n.

Lemma wp_propose_ready n ls cs cmd : ready n ls cs -> utf8_entry (entry_of n cmd) ->
  wp (Propose_begin cmd) (fun r n1 =>
    match r with
    | inr (i, ch) => i = (LastIndex (n_raftLog n) + 1)%N /\ took n ls cs cmd ch n1
    | inl err => exists err', err = Wrapf "appending to log" err' /\ refused n cmd err' n1
    end) n.
Proof.
  intros Hr Hu. pose proof Hr as [Hn Hst _ _ Hroom _ _ _ _].
  pose proof (wp_wlp _ _ _ _ (wp_Propose_leader n cmd Hn Hst Hroom) (keeps_Propose_begin cmd n)) as H.
  eapply wp_mono; [exact H|]. clear H. intros r n1 [Hp Hf]. injection Hf as Est Ela El1.
  fold (entry_of n cmd) in Hp. destruct r as [err|[i ch]].
  - destruct Hp as (Hq & Hc & _ & Hch & Hpe & Hl & err' & -> & Ha). exists err'. by split_and!.
  - assert (i = (LastIndex (n_raftLog n) + 1)%N) as -> by apply Hp. split; [done|]. by apply took_entry.
Qed.

(** A success reply that completes a majority commits it. *)
Lemma wp_commit_ready n ls cs cmd ch n1 peer resp : ready n ls cs -> took n ls cs cmd ch n1 ->
  j_ok resp -> (aer_Term resp <= n_currentTerm n)%N -> aer_Success resp = true ->
  aer_MatchIndex resp = (LastIndex (n_raftLog n) + 1)%N ->
  wins ls peer (LastIndex (n_raftLog n) + 1) ->
  wp (replicateToPeer_append_reply peer (inr resp)) (fun _ n2 => node_inv n2 /\
    n_commitIndex n2 = (LastIndex (n_raftLog n) + 1)%N /\ n_raftLog n2 = n_raftLog n1 /\
    n_storage n2 = n_storage n1 /\ n_lastApplied n2 = n_lastApplied n1 /\
    n_pending n2 = n_pending n1) n1.
Proof.
  intros Hr [Hn1 Hst El Et Ec Hlast HtA _ _ _ _] Hok Ht Hs Hm Hw. rewrite <-Et in Ht, HtA.
  pose proof (wp_append_success n1 ls peer resp Hn1 Hst El Ht Hs) as H. cbv zeta in H. rewrite Hm in H.
  pose proof (wp_replicateToPeer_append_reply n1 peer (inr resp) Hn1) as Hq.
  pose proof (wp_wlp _ _ _ _ (wp_and _ _ _ _ H (Hq ltac:(by intros ? [= <-])))
    (keeps_append_reply peer (inr resp) n1)) as H'.
  eapply wp_mono; [exact H'|]. clear H H' Hq.
  intros [] n2 [[(_ & Hlog & _ & Hc & _) Hq] Hf]. injection Hf as Est Ela Ep _.
  split; [by apply quiet_or_down_inv in Hq as [? _]|]. split; [|done].
  rewrite Hlast in Hc. set (i := (LastIndex (n_raftLog n) + 1)%N) in *. unfold wins in Hw.
  set (ls' := progress _ _ _) in *. unfold commitCandidate in Hc.
  assert (committable ls' (n_commitIndex n1) i (n_currentTerm n1) (TermAt (n_raftLog n1)) i) as Hi.
  { split; [|split; [done|by apply commit_majority_is_majority]].
    rewrite Ec. pose proof (rd_commit _ _ _ Hr). unfold i. lia. }
  destruct (commit_loop_spec (N.to_nat (i - n_commitIndex n1)) ls' (n_commitIndex n1) i (n_currentTerm n1)
    (TermAt (n_raftLog n1))) as [[_ Hno]|[Hco Hmax]]; [apply Hr|done|by apply Hno in Hi|].
  specialize (Hmax i Hi). destruct Hco as [[? ?] _]. rewrite (proj2 (N.ltb_lt _ _)) in Hc by lia. lia.
Qed.

(** [Propose], while a follower acknowledges and the entry is applied: the log
    refuses the entry, or the answer is the command's and the engine is the one
    after all the commands. *)
Lemma Propose_ready n ls cs cmd peer resp : ready n ls cs -> utf8_entry (entry_of n cmd) ->
  j_ok resp -> (aer_Term resp <= n_currentTerm n)%N -> aer_Success resp = true ->
  aer_MatchIndex resp = (LastIndex (n_raftLog n) + 1)%N ->
  wins ls peer (LastIndex (n_raftLog n) + 1) ->
  let s := (eng_run (n_storage n) cs).2 in
  wp (Propose cmd (replicateToPeer_append_reply peer (inr resp) ;; applyCommitted) WDone) (fun err n' =>
    (exists err', err = Some (Wrapf "appending to log" err') /\ refused n cmd err' n') \/
    (eng_apply s cmd = (err, n_storage n') /\
     n_commitIndex n' = (LastIndex (n_raftLog n) + 1)%N /\
     n_lastApplied n' = (LastIndex (n_raftLog n) + 1)%N)) n.
Proof.
  intros Hr Hu Hok Ht Hs Hm Hw s. unfold Propose. wp_step.
  eapply wp_mono; [by apply (wp_propose_ready n ls cs)|].
  intros [err|[i ch]] n1; [intros (err' & -> & Href); wp_step; left; by eauto|intros [-> Hp]]. wp_step.
  unfold broadcastAppendEntries. wp_step. wp_step. rewrite (pr_state _ _ _ _ _ _ Hp).
  rewrite bool_decide_eq_true_2 by done. cbn [negb]. do 3 wp_step.
  match goal with |- wp _ _ ?x => set (n2 := x) end.
  assert (took n ls cs cmd ch n2) as Hp2.
  { destruct Hp. split; try done. apply quiet_tasks. done. }
  wp_step. wp_step. eapply wp_mono; [by apply (wp_commit_ready n ls cs cmd ch n2)|].
  intros [] n3 (Hn3 & Hc3 & Hl3 & Hst3 & Hla3 & Hpd3).
  destruct Hp2 as [_ _ _ _ _ _ _ Est Ela Hpend Hcmds]. pose proof (rd_todo _ _ _ Hr) as Htodo.
  eapply wp_mono.
  { apply (wp_applyCommitted n3 (cs ++ [cmd])); [done|rewrite Hst3, Est; apply Hr| |by rewrite Hl3, Hla3].
    rewrite Hc3, Hla3, Ela, length_app. cbn [length]. lia. }
  intros [] n4 [errs Hrun]. pose proof (ar_run _ _ _ _ Hrun) as Hkv.
  rewrite Hst3, Est, eng_run_app in Hkv. pose proof (eng_run_length cs (n_storage n)) as Hlen.
  destruct (eng_run (n_storage n) cs) as [errs0 s0]. cbn [snd fst] in s, Hlen. subst s. simpl in Hkv.
  destruct (eng_apply s0 cmd) as [err st] eqn:Ha. injection Hkv as Herrs ->.
  assert (n_chans n4 !! ch = Some [err]) as Hch.
  { apply (ar_answer _ _ _ _ Hrun (length cs)).
    - rewrite <-Herrs, lookup_app_r by lia. by rewrite Hlen, Nat.sub_diag.
    - rewrite Hpd3, Hla3, Ela, <-Hpend. f_equal. lia. }
  unfold Propose_end. wp_step. wp_step. rewrite Hch. cbn. repeat wp_step. right.
  split; [done|]. split; [by rewrite <-Hc3, <-(af_commit _ _ (ar_frame _ _ _ _ Hrun))|].
  cbn [n_lastApplied set_chans]. rewrite (ar_last _ _ _ _ Hrun), Hla3, Ela, length_app. cbn [length]. lia.
Qed.
End client.

(** C3: a write is applied before it is acknowledged.  A client puts a UTF-8 value
    under a UTF-8 key, on a path the multiplexer takes as clean, at a leader that
    satisfies the node invariant, whose log is filled from the last applied index
    to its end and whose engine is well-formed; a follower's success reply
    completes a majority for the new entry while the handler waits, and
    [applyCommitted] runs.  Either the log refused the entry: then the client gets
    that error, and the log, the engine, the commit and the applied index are as
    before.  Or the entry is committed and applied, and the engine is the one
    after the commands before it followed by this write.  If the engine's write
    succeeded, the client gets 200, the map has the value at the key, and a GET of
    the key at that node returns it; if it failed, the client gets the engine's
    error and the map is as the commands before left it.  That map is the one of
    these commands run on the key/value map when no write of theirs failed. *)
Theorem client_write {B : Bolt} {L : BoltLaws B} {E} {X : Engine E} {EL : EngineLaws E} upper
    (n : RaftNode B E) ls cs peer resp (ek k v : string) :
  let cmd := mkCommand OpPut k (str v) [] in
  let i := (LastIndex (n_raftLog n) + 1)%N in
  let others := replicateToPeer_append_reply peer (inr resp) ;; applyCommitted in
  let request method body := serve (P := server_propose others WDone) upper (key_request method ek body) in
  let before := (eng_run (n_storage n) cs).2 in
  ready n ls cs -> is_clean ("/v1/keys/" ++ ek) = true -> PathUnescape ek = Some k -> k <> "" ->
  utf8_string k -> utf8_string v ->
  j_ok resp -> (aer_Term resp <= n_currentTerm n)%N -> aer_Success resp = true ->
  aer_MatchIndex resp = i -> wins ls peer i ->
  (exists err n', request "PUT" (put_json v) n = Done (respond (Some (Wrapf "appending to log" err)), n') /\
    refused n cmd err n') \/
  (exists n', n_commitIndex n' = i /\ n_lastApplied n' = i /\
    (writes_ok (n_storage n) cs = true -> eng_view before = (kv_run (eng_view (n_storage n)) cs).2) /\
    match eng_Put before k (str v) with
    | Done (None, st) => n_storage n' = st /\
        request "PUT" (put_json v) n = Done (writeJSON StatusOK ok_body, n') /\
        eng_view st = <[k := str v]> (eng_view before) /\
        request "GET" [] n' = Done (writeJSON StatusOK (JObj [jfield "key" (jstr k); jfield "value" (jstr v)]), n')
    | Done (Some err, st) => n_storage n' = st /\
        request "PUT" (put_json v) n = Done (respond (Some err), n') /\ eng_view st = eng_view before
    | Panic _ => False
    end).
Proof.
  intros cmd i others request before Hr Hcl Hun Hk Huk Huv Hok Ht Hs Hm Hw.
  pose proof (Propose_ready n ls cs cmd peer resp Hr ltac:(by split) Hok Ht Hs Hm Hw) as H.
  cbv zeta in H. fold others before in H. apply wp_run in H as (err & n' & Hp & H).
  assert (request "PUT" (put_json v) n = Done (respond err, n')) as Hput.
  { by apply (serve_PUT (P := server_propose others WDone) upper _ _ k). }
  destruct H as [(err' & -> & Href)|(Ha & Hc & Hla)]; [left; by exists err', n'|right].
  pose proof (rd_wf _ _ _ Hr) as Hwf0. pose proof (eng_run_wf cs _ Hwf0) as Hwf. fold before in Hwf.
  exists n'. split; [done|]. split; [done|]. split.
  { intros Hwok. by rewrite <-(eng_run_ok cs _ Hwf0 Hwok). }
  pose proof (Put_law before k (str v) Hwf) as Hl. unfold eng_apply in Ha.
  change (eng_write before cmd) with (eng_Put before k (str v)) in Ha.
  destruct (eng_Put before k (str v)) as [[[e|] st]|]; [..|done];
    injection Ha as <- ->; destruct Hl as [Hwf' Hv]; [split; [done|by split]|].
  split; [done|]. split; [exact Hput|]. split; [done|]. unfold request.
  rewrite (serve_GET (P := server_propose others WDone) upper (EL := EL) _ _ k) by done.
  by rewrite Hv, lookup_insert_eq.
Qed.

Definition sample_ls : leaderState := newLeaderState [mkPeer "b" "b:7001"; mkPeer "c" "c:7001"] 0.

(** The sample leader has only its no-op in the log. *)
Lemma sample_ready : ready (EL := MemoryEngine_laws) sample_leader sample_ls
  [mkCommand OpNoop "" [] []].
Proof.
  split.
  - exact sample_leader_inv.
  - exact sample_leader_is.
  - by vm_compute.
  - eexists. by vm_compute.
  - by vm_compute.
  - by vm_compute.
  - by vm_compute.
  - by vm_compute.
  - intros [|j] c [= <-]. exists (mkLogEntry 1 1 (mkCommand OpNoop "" [] [])). by vm_compute.
Qed.

(** The log takes the entry. *)
Definition takes (n : sample_node) (cmd : Command) : bool :=
  match Append (n_raftLog n) (entry_of n cmd) with Done (None, _) => true | _ => false end.

Lemma takes_not_refused (n : sample_node) cmd err n' : takes n cmd = true -> ~ refused n cmd err n'.
Proof. unfold takes. by intros H [E _]; rewrite E in H. Qed.

(** "b" acknowledges the put. *)
Lemma client_write_witness : exists n' : sample_node,
  serve (P := server_propose (replicateToPeer_append_reply (mkPeer "b" "b:7001")
      (inr (mkAEResp 1 true "b" 2 0 0)) ;; applyCommitted) WDone) (fun s => s)
    (key_request "PUT" "x" (put_json "1")) sample_leader
    = Done (writeJSON StatusOK ok_body, n') /\
  n_commitIndex n' = 2%N /\ n_lastApplied n' = 2%N /\
  eng_view (n_storage n') = <["x" := str "1"]> ∅.
Proof.
  assert ((LastIndex (n_raftLog sample_leader) + 1)%N = 2%N) as Ei by by vm_compute.
  destruct (client_write (fun s => s) sample_leader sample_ls [mkCommand OpNoop "" [] []]
    (mkPeer "b" "b:7001") (mkAEResp 1 true "b" 2 0 0) "x" "x" "1" sample_ready)
    as [(err & n' & _ & Href)|(n' & Hc & Hla & _ & H)].
  - done.
  - done.
  - done.
  - by vm_compute.
  - by vm_compute.
  - split_and!; by vm_compute.
  - by vm_compute.
  - done.
  - by rewrite Ei.
  - rewrite Ei. by vm_compute; lia.
  - exfalso. revert Href. apply takes_not_refused. by vm_compute.
  - exists n'. rewrite Ei in Hc, Hla.
    change (eng_run (n_storage sample_leader) [mkCommand OpNoop "" [] []]).2 with NewMemoryEngine in H.
    simpl in H. destruct H as (Hst & Hp & Hv & _).
    split; [exact Hp|]. split; [exact Hc|]. split; [exact Hla|]. simpl. rewrite Hst. by vm_compute.
Defined.
