(* ===== verification/Metrics.v ===== *)
(** * Metrics (src/internal/metrics)

    The Prometheus client is a dependency: the class [Registry] is the part of it
    [New] calls (promauto on the default registry) and [RegistryLaws] its
    documented behaviour.  [MapRegistry] is a model of the laws.  The reporter's
    HTTP handler is a function from paths to responses. *)

From S2P Require Import Prelude GoJson Types Config Bolt RaftLog LeaderState Storage RaftNode.
From S2P Require Import Membership Transaction Api.
Import Utf8 Json.
From Stdlib Require Import QArith.

Local Open Scope string_scope.
Local Open Scope go_scope.

(** ** The interface of the Prometheus client *)

(** [GaugeOpts], [CounterOpts] and [HistogramOpts] have these fields in common;
    only a histogram has buckets. *)
Record Opts := mkOpts {
  Namespace : string;
  Name : string;
  Help : string;
  ConstLabels : gmap string string
}.

Inductive MetricType :=
| TGauge
| TGaugeVec (labels : list string)
| TCounter
| TCounterVec (labels : list string)
| THistogramVec (buckets : list Q) (labels : list string).

(** [prometheus.BuildFQName] with no subsystem. *)
Definition fqName (o : Opts) : string := Namespace o ++ "_" ++ Name o.

Class Registry := {
  registry : Type;
  metric : Type;
  DefBuckets : list Q;
  (* promauto.NewGauge, NewGaugeVec, ...: create and register, or panic *)
  promauto_New : MetricType -> Opts -> M registry metric
}.

(** Names of metrics and labels; those that start with "__" are reserved. *)
Definition name_byte (b : byte) : bool :=
  in_range 97 122 b || in_range 65 90 b || in_range 48 57 b || Byte.eqb b x5f.
Definition name_ok (s : string) : bool :=
  match str s with
  | [] => false
  | b :: _ => forallb name_byte (str s) && negb (in_range 48 57 b) && negb (String.prefix "__" s)
  end.

Definition variable_labels (t : MetricType) : list string :=
  match t with
  | TGauge | TCounter => []
  | TGaugeVec l | TCounterVec l | THistogramVec _ l => l
  end.

(** A descriptor the client accepts: valid names, label values in UTF-8 and no
    label twice. *)
Definition desc_ok (t : MetricType) (o : Opts) : bool :=
  name_ok (fqName o) && forallb name_ok (variable_labels t)
  && forallb (fun kv => name_ok kv.1 && bool_decide (san kv.2 = kv.2)) (map_to_list (ConstLabels o))
  && bool_decide (NoDup (variable_labels t ++ (map_to_list (ConstLabels o)).*1)).

(** What a registry remembers of a metric: its name and its labels' values, and
    the type and the help text that every metric of that name must share. *)
Definition desc : Type := string * gmap string string.

Class RegistryLaws (R : Registry) := {
  registered : registry -> gmap desc (MetricType * string);
  (* registration succeeds when the descriptor is valid, is not there yet, and
     agrees with the metrics of the same name *)
  register_new t o r :
    desc_ok t o = true -> registered r !! (fqName o, ConstLabels o) = None ->
    (forall labels d, registered r !! (fqName o, labels) = Some d ->
      d = (t, Help o) /\ dom labels = dom (ConstLabels o)) ->
    exists m r', promauto_New t o r = Done (m, r') /\
      registered r' = <[(fqName o, ConstLabels o) := (t, Help o)]> (registered r);
  (* and fails, which promauto turns into a panic, when the descriptor is there *)
  register_again t o r :
    is_Some (registered r !! (fqName o, ConstLabels o)) -> promauto_New t o r = Panic PanicRegister
}.

(** ** The collector (collector.go) *)

Section collector.
Context {R : Registry}.

Record Collector := mkCollector {
  RaftTerm : option metric;
  RaftState : option metric;
  ElectionTotal : option metric;
  LeaderChanges : option metric;
  CommitIndex : option metric;
  LastApplied : option metric;
  LogSize : option metric;
  SnapshotSize : option metric;
  OpsTotal : option metric;
  OpDuration : option metric;
  OpsErrors : option metric;
  ReplicationLatency : option metric;
  AppendEntriesTotal : option metric
}.

(** [.001, .005, .01, .025, .05, .1, .25, .5, 1]. *)
Definition latency_buckets : list Q :=
  [1#1000; 5#1000; 1#100; 25#1000; 5#100; 1#10; 25#100; 5#10; 1#1]%Q.

(** The fields the literal does not mention are nil. *)
Definition New (nodeID : string) : M registry Collector :=
  let labels : gmap string string := {["node_id" := nodeID]} in
  raftTerm <- promauto_New TGauge
    (mkOpts "raftrixdb" "raft_term" "Current Raft term of this node." labels) ;;
  raftState <- promauto_New (TGaugeVec ["state"])
    (mkOpts "raftrixdb" "raft_state"
      "Current state of the Raft node (1 = active for that state)." labels) ;;
  electionTotal <- promauto_New TCounter
    (mkOpts "raftrixdb" "elections_total" "Total number of elections started by this node." labels) ;;
  leaderChanges <- promauto_New TCounter
    (mkOpts "raftrixdb" "leader_changes_total"
      "Total number of times this node has become leader." labels) ;;
  commitIndex <- promauto_New TGauge
    (mkOpts "raftrixdb" "commit_index" "Highest log index known to be committed." labels) ;;
  lastApplied <- promauto_New TGauge
    (mkOpts "raftrixdb" "last_applied" "Highest log index applied to the state machine." labels) ;;
  opsTotal <- promauto_New (TCounterVec ["op"])
    (mkOpts "raftrixdb" "operations_total" "Total number of client operations, by type." labels) ;;
  opDuration <- promauto_New (THistogramVec DefBuckets ["op"])
    (mkOpts "raftrixdb" "operation_duration_seconds"
      "Latency of client operations from proposal to commit." labels) ;;
  opsErrors <- promauto_New (TCounterVec ["op"])
    (mkOpts "raftrixdb" "operation_errors_total"
      "Total number of failed client operations, by type." labels) ;;
  replicationLatency <- promauto_New (THistogramVec latency_buckets ["peer"])
    (mkOpts "raftrixdb" "replication_latency_seconds"
      "Round-trip latency for AppendEntries RPCs to each peer." labels) ;;
  appendEntriesTotal <- promauto_New (TCounterVec ["peer"; "result"])
    (mkOpts "raftrixdb" "append_entries_total"
      "Total AppendEntries RPCs sent, by peer and result." labels) ;;
  ret (mkCollector (Some raftTerm) (Some raftState) (Some electionTotal) (Some leaderChanges)
    (Some commitIndex) (Some lastApplied) None None (Some opsTotal) (Some opDuration) (Some opsErrors)
    (Some replicationLatency) (Some appendEntriesTotal)).
End collector.

(** ** The reporter (reporter.go) *)

Record Reporter := mkReporter { rep_srv : http_Server }.

Definition NewReporter (addr : string) : Reporter :=
  mkReporter (mkHttpServer addr (5 * Second) (10 * Second) 0).

(** The mux of [NewReporter]; [metrics] is the answer of [promhttp.Handler]. *)
Definition reporter_serve (metrics : Request -> Response) (r : Request) : Response :=
  match mux_path (rq_method r) (rq_escaped r) with
  | None => moved
  | Some p =>
      if bool_decide (p = ["metrics"]) then metrics r
      else if bool_decide (p = ["healthz"]) then mkResponse StatusOK (str "ok")
      else http_Error "404 page not found" StatusNotFound
  end.

(** The goroutine of [Start], when [http.Server.ListenAndServe] has returned: the
    error it logs. *)
Definition reporter_Start (served : http_Server -> error) (r : Reporter) : option error :=
  let err := served (rep_srv r) in
  if errors_Is err ErrServerClosed then None else Some err.

Definition reporter_Stop (shutdown : http_Server -> option error) (r : Reporter) : option error :=
  shutdown (rep_srv r).

(** ** What [New] registers *)

Section new.
Context {R : Registry}.

(** Name, type and help text of the metrics, in the order of the literal. *)
Definition table : list (string * (MetricType * string)) := [
  ("raft_term", (TGauge, "Current Raft term of this node."));
  ("raft_state", (TGaugeVec ["state"], "Current state of the Raft node (1 = active for that state)."));
  ("elections_total", (TCounter, "Total number of elections started by this node."));
  ("leader_changes_total", (TCounter, "Total number of times this node has become leader."));
  ("commit_index", (TGauge, "Highest log index known to be committed."));
  ("last_applied", (TGauge, "Highest log index applied to the state machine."));
  ("operations_total", (TCounterVec ["op"], "Total number of client operations, by type."));
  ("operation_duration_seconds",
    (THistogramVec DefBuckets ["op"], "Latency of client operations from proposal to commit."));
  ("operation_errors_total", (TCounterVec ["op"], "Total number of failed client operations, by type."));
  ("replication_latency_seconds",
    (THistogramVec latency_buckets ["peer"], "Round-trip latency for AppendEntries RPCs to each peer."));
  ("append_entries_total",
    (TCounterVec ["peer"; "result"], "Total AppendEntries RPCs sent, by peer and result."))].

Definition node_labels (id : string) : gmap string string := {["node_id" := id]}.
Definition key (name id : string) : desc := ("raftrixdb_" ++ name, node_labels id).

(** The registry contents [m] with the metrics [l] of node [id] added. *)
Definition with_metrics (id : string) (l : list (string * (MetricType * string)))
    (m : gmap desc (MetricType * string)) : gmap desc (MetricType * string) :=
  foldl (fun m e => <[key e.1 id := e.2]> m) m l.

(** Of the names of the table, [m] holds only metrics of other nodes. *)
Definition others_only (id : string) (m : gmap desc (MetricType * string)) : Prop :=
  forall name labels d, m !! ("raftrixdb_" ++ name, labels) = Some d ->
    exists id', id' <> id /\ labels = node_labels id' /\ (name, d) ∈ table.

Lemma table_nodup : NoDup table.*1.
Proof. by apply (bool_decide_unpack _); vm_compute. Qed.

Lemma table_functional name d d' : (name, d) ∈ table -> (name, d') ∈ table -> d = d'.
Proof.
  intros H H'. apply (elem_of_list_to_map_1 (M := gmap string)) in H, H'; [|apply table_nodup..]. congruence.
Qed.

(** The names and labels of the table are well formed. *)
Definition row_ok (e : string * (MetricType * string)) : bool :=
  name_ok ("raftrixdb_" ++ e.1) && forallb name_ok (variable_labels e.2.1)
  && bool_decide (NoDup (variable_labels e.2.1 ++ ["node_id"])).

Lemma table_ok e : e ∈ table -> row_ok e = true.
Proof.
  intros He. assert (forallb row_ok table = true) as H by by vm_compute.
  rewrite forallb_forall in H. by apply H, list_elem_of_In.
Qed.

Lemma row_desc_ok id name t help : utf8_string id -> (name, (t, help)) ∈ table ->
  desc_ok t (mkOpts "raftrixdb" name help (node_labels id)) = true.
Proof.
  intros Hid Hrow. apply table_ok in Hrow. unfold row_ok in Hrow. cbn [fst snd] in Hrow.
  apply andb_true_iff in Hrow as [[H1 H2]%andb_true_iff H3].
  unfold desc_ok, node_labels. cbn [ConstLabels]. rewrite map_to_list_singleton.
  change (fqName _) with ("raftrixdb_" ++ name). rewrite H1, H2. cbn [forallb fst snd fmap list_fmap].
  rewrite (san_utf8 _ Hid), (bool_decide_eq_true_2 (id = id)) by done.
  by rewrite H3.
Qed.

Lemma with_metrics_lookup id l m name labels d :
  with_metrics id l m !! ("raftrixdb_" ++ name, labels) = Some d ->
  ((name, d) ∈ l /\ labels = node_labels id) \/ m !! ("raftrixdb_" ++ name, labels) = Some d.
Proof.
  unfold with_metrics. induction l as [|[name' d'] l IH] using rev_ind; [by right|].
  rewrite foldl_app. cbn [foldl fst snd]. rewrite lookup_insert_Some. intros [[Hk ->]|[_ H]].
  - unfold key in Hk. left. assert (name' = name) as -> by (by injection Hk).
    split; [apply elem_of_app; right; constructor|by injection Hk].
  - destruct (IH H) as [[? ->]|?]; [left|by right]. split; [apply elem_of_app; by left|done].
Qed.

Lemma with_metrics_in id l m name : name ∈ l.*1 -> is_Some (with_metrics id l m !! key name id).
Proof.
  unfold with_metrics. induction l as [|[name' d'] l IH] using rev_ind; [by intros ?%elem_of_nil|].
  rewrite foldl_app, fmap_app, elem_of_app. cbn [foldl fst snd]. rewrite lookup_insert_is_Some'.
  intros [H|H]; [right; by apply IH|left]. by apply list_elem_of_singleton in H as ->.
Qed.

(** One registration of [New]. *)
Lemma register_step {L : RegistryLaws R} id before name t help rest r m :
  table = (before ++ (name, (t, help)) :: rest)%list -> utf8_string id -> others_only id m ->
  registered r = with_metrics id before m ->
  exists x r', promauto_New t (mkOpts "raftrixdb" name help (node_labels id)) r = Done (x, r') /\
    registered r' = with_metrics id (before ++ [(name, (t, help))]) m.
Proof.
  intros Ht Hid Hm Hr.
  assert ((name, (t, help)) ∈ table) as Hin by (rewrite Ht; apply elem_of_app; right; constructor).
  assert (forall d, (name, d) ∉ before) as Hnew.
  { intros d Hd. pose proof table_nodup as Hnd. rewrite Ht, fmap_app in Hnd.
    apply NoDup_app in Hnd as (_ & Hnd & _). eapply Hnd; [by apply (list_elem_of_fmap_2 fst) in Hd|].
    apply elem_of_cons. by left. }
  destruct (register_new t (mkOpts "raftrixdb" name help (node_labels id)) r) as (x & r' & Hx & Hr').
  - by apply row_desc_ok.
  - cbn [ConstLabels]. change (fqName _) with ("raftrixdb_" ++ name). rewrite Hr.
    destruct (with_metrics _ _ _ !! _) as [d|] eqn:Ed; [|done].
    apply with_metrics_lookup in Ed as [[Hd _]|Ed]; [by apply Hnew in Hd|].
    destruct (Hm _ _ _ Ed) as (id' & Hne & Heq & _). exfalso. apply Hne.
    apply (f_equal (lookup "node_id")) in Heq. unfold node_labels in Heq. rewrite !lookup_singleton_eq in Heq.
    congruence.
  - change (fqName _) with ("raftrixdb_" ++ name). cbn [ConstLabels Help]. rewrite Hr. intros labels d Hd.
    apply with_metrics_lookup in Hd as [[Hd _]|Hd]; [by apply Hnew in Hd|].
    destruct (Hm _ _ _ Hd) as (id' & _ & -> & Hd'). split; [by eapply table_functional|].
    unfold node_labels. by rewrite !dom_singleton_L.
  - exists x, r'. split; [done|]. rewrite Hr'. unfold with_metrics in *. by rewrite foldl_app, Hr.
Qed.
End new.

(** A registry as a map. *)
Definition MapRegistry : Registry := {|
  registry := gmap desc (MetricType * string);
  metric := desc;
  DefBuckets := [];
  promauto_New t o r :=
    match r !! (fqName o, ConstLabels o) with
    | Some _ => Panic PanicRegister
    | None => Done ((fqName o, ConstLabels o), <[(fqName o, ConstLabels o) := (t, Help o)]> r)
    end
|}.

#[export] Instance MapRegistry_laws : RegistryLaws MapRegistry.
Proof.
  refine {| registered := fun r : @registry MapRegistry => r |}.
  - intros t o r _ H _. cbn [promauto_New MapRegistry]. rewrite H. by do 2 eexists.
  - intros t o r [d H]. cbn [promauto_New MapRegistry]. by rewrite H.
Defined.

(** C32: the collector.  For a node id that is valid UTF-8 (a label value), and
    where the registry holds metrics of the table only for other nodes, [New]
    does not panic and registers exactly the eleven metrics of the table for its
    node; all its fields are set except [LogSize] and [SnapshotSize], which stay
    nil; and calling it again for the same node panics. *)
Theorem New_correct {R : Registry} {L : RegistryLaws R} id (r : registry) :
  utf8_string id -> others_only id (registered r) ->
  exists c r', New id r = Done (c, r') /\ registered r' = with_metrics id table (registered r) /\
    Forall is_Some [RaftTerm c; RaftState c; ElectionTotal c; LeaderChanges c; CommitIndex c;
      LastApplied c; OpsTotal c; OpDuration c; OpsErrors c; ReplicationLatency c; AppendEntriesTotal c] /\
    LogSize c = None /\ SnapshotSize c = None /\
    New id r' = Panic PanicRegister.
Proof.
  intros Hid Hr.
  assert (registered r = with_metrics id [] (registered r)) as H0 by done.
  unfold New at 1. cbn zeta. unfold bind.
  do 11 (edestruct register_step as (? & ? & -> & ?);
    [|exact Hid|exact Hr|eassumption|]; [reflexivity|]; cbn [app] in *).
  do 2 eexists. split; [reflexivity|]. split; [eassumption|].
  split; [by repeat constructor|]. split; [done|]. split; [done|].
  unfold New, bind. cbn zeta. rewrite register_again; [done|].
  match goal with H : registered ?x = _ |- is_Some (registered ?x !! _) => rewrite H end.
  apply (with_metrics_in id table _ "raft_term"). by constructor.
Qed.

(** Two collectors in one registry, for two nodes; a third, for the second of them
    again, panics. *)
Lemma New_correct_witness : exists (c1 c2 : Collector (R := MapRegistry)) (r1 r2 : @registry MapRegistry),
  New (R := MapRegistry) "a" (∅ : gmap desc (MetricType * string)) = Done (c1, r1) /\
  New (R := MapRegistry) "b" r1 = Done (c2, r2) /\
  New (R := MapRegistry) "b" r2 = Panic PanicRegister /\
  r1 = with_metrics "a" (table (R := MapRegistry)) ∅ /\
  r2 = with_metrics "b" (table (R := MapRegistry)) r1.
Proof.
  destruct (New_correct (R := MapRegistry) "a" (∅ : gmap desc (MetricType * string))) as (c1 & r1 & N1 & H1 & _).
  - by vm_compute.
  - intros name labels d Hd. exfalso. exact (lookup_empty_Some _ _ Hd).
  - destruct (New_correct (R := MapRegistry) "b" r1) as (c2 & r2 & N2 & H2 & _ & _ & _ & N3).
    + by vm_compute.
    + clear N1. intros name labels d. rewrite H1. intros [[Hd ->]|Hd]%with_metrics_lookup; [by exists "a"|].
      exfalso. exact (lookup_empty_Some _ _ Hd).
    + exists c1, c2, r1, r2. exact (conj N1 (conj N2 (conj N3 (conj H1 H2)))).
Defined.
