(* ===== verification/Main.v ===== *)
(** * The program (src/cmd/keystore/main.go)

    [run] wires the components: configuration, storage engine, transport and
    tracker, Raft node, HTTP server.  It leaves a trace of what it acquires and
    releases, so that the order of its deferred calls can be stated.  The file
    system, the YAML parser, the signals and the network are parameters; what
    the node's goroutines and the server's handlers do while the server listens
    is a list of the critical sections of [RaftNode] and [Api]. *)

From S2P Require Import Prelude GoJson Types Config Bolt RaftLog LeaderState Storage RaftNode.
From S2P Require Import RaftNodeSpec Sample Frames Membership Transaction Api.
Import Utf8 Json MapBolt.

Local Open Scope string_scope.
Local Open Scope go_scope.

(** ** The work of a running node *)

Inductive Work :=
| WElectionTick
| WElectionBegin
| WVoteReply (el : Election) (peer : Peer) (reply : error + RequestVoteResponse)
| WElectionEnd (el : Election)
| WHeartbeatTick
| WBroadcast
| WReplicate (peer : Peer)
| WAppendReply (peer : Peer) (reply : error + AppendEntriesResponse)
| WSnapshotReply (peer : Peer) (snapshotIdx : LogIndex) (reply : error + InstallSnapshotResponse)
| WApply
| WSnapshot (index : LogIndex) (term : Term) (data : error + bytes)
| WPropose (cmd : Command)
| WProposeEnd (index : LogIndex) (ch : nat) (w : Wakeup)
| WVote (body : bytes)
| WAppend (body : bytes)
| WInstall (body : bytes).

Section work.
Context {B : Bolt} {E : Type} {X : Engine E}.
Abbreviation Node A := (M (RaftNode B E) A) (only parsing).

Definition void {A} (m : Node A) : Node unit := _ <- m ;; ret tt.

Definition work_run (w : Work) : Node unit :=
  match w with
  | WElectionTick => void run_election_tick
  | WElectionBegin => void startElection_begin
  | WVoteReply el peer reply => void (startElection_reply el peer reply)
  | WElectionEnd el => startElection_end el
  | WHeartbeatTick => void run_heartbeat_tick
  | WBroadcast => broadcastAppendEntries
  | WReplicate peer => void (replicateToPeer_prepare peer)
  | WAppendReply peer reply => replicateToPeer_append_reply peer reply
  | WSnapshotReply peer idx reply => replicateToPeer_snapshot_reply peer idx reply
  | WApply => applyCommitted
  | WSnapshot index term data => takeSnapshot_commit index term data
  | WPropose cmd => void (Propose_begin cmd)
  | WProposeEnd index ch w => void (Propose_end index ch w)
  | WVote body => void (api_handleRequestVote body)
  | WAppend body => void (api_handleAppendEntries body)
  | WInstall body => void (api_handleInstallSnapshot body)
  end.

Fixpoint works_run (ws : list Work) : Node unit :=
  match ws with
  | [] => ret tt
  | w :: ws => work_run w ;; works_run ws
  end.

(** ** Only [Stop] closes the stop channel *)

Abbreviation keeps_open := (keeps (@n_stopped B E)) (only parsing).

Lemma open_resetElectionTimer : keeps_open resetElectionTimer.
Proof. unfold resetElectionTimer, rand_Intn. keeps. Qed.
Lemma keeps_resetHeartbeatTimer : keeps_open resetHeartbeatTimer.
Proof. unfold resetHeartbeatTimer. keeps. Qed.
#[local] Hint Resolve open_resetElectionTimer keeps_resetHeartbeatTimer : keeps.

Lemma open_becomeFollower t : keeps_open (becomeFollower t).
Proof. unfold becomeFollower, node_SaveMeta. keeps. Qed.
Lemma keeps_becomeLeader : keeps_open becomeLeader.
Proof. unfold becomeLeader, node_LastIndex, node_Append. keeps. Qed.
Lemma keeps_spawn t : keeps_open (spawn t).
Proof. unfold spawn. keeps. Qed.
#[local] Hint Resolve open_becomeFollower keeps_becomeLeader keeps_spawn : keeps.

Lemma keeps_append_loop idx es : keeps_open (append_loop idx es).
Proof.
  revert idx. induction es as [|e es IH]; intros idx; cbn [append_loop];
    unfold node_TermAt, node_TruncateFrom, node_Append; keeps.
Qed.
#[local] Hint Resolve keeps_append_loop : keeps.

Lemma keeps_append_accept req t : keeps_open (append_accept req t).
Proof. unfold append_accept, advance_commit, node_LastIndex. keeps. Qed.
#[local] Hint Resolve keeps_append_accept : keeps.

Lemma keeps_HandleAppendEntries req : keeps_open (HandleAppendEntries req).
Proof. unfold HandleAppendEntries, node_LastIndex, node_TermAt. keeps. Qed.
Lemma keeps_HandleRequestVote req : keeps_open (HandleRequestVote req).
Proof. unfold HandleRequestVote, node_LastIndex, node_LastTerm, node_SaveMeta. keeps. Qed.
Lemma keeps_HandleInstallSnapshot req : keeps_open (HandleInstallSnapshot req).
Proof. unfold HandleInstallSnapshot, node_Compact. keeps. Qed.
#[local] Hint Resolve keeps_HandleAppendEntries keeps_HandleRequestVote keeps_HandleInstallSnapshot : keeps.

Lemma keeps_applyCommand cmd : keeps_open (applyCommand cmd).
Proof. unfold applyCommand. keeps. Qed.
Lemma keeps_notify_pending i err : keeps_open (notify_pending i err).
Proof. unfold notify_pending, chan_send. keeps. Qed.
#[local] Hint Resolve keeps_applyCommand keeps_notify_pending : keeps.

Lemma keeps_apply_loop fuel : keeps_open (apply_loop fuel).
Proof. induction fuel as [|f IH]; cbn [apply_loop]; keeps. Qed.
#[local] Hint Resolve keeps_apply_loop : keeps.

Lemma keeps_void {A} (m : Node A) : keeps_open m -> keeps_open (void m).
Proof. intros H. unfold void. keeps. Qed.

Lemma keeps_work w : keeps_open (work_run w).
Proof.
  destruct w; cbn [work_run]; try apply keeps_void;
    unfold run_election_tick, startElection_begin, startElection_reply, startElection_end,
      run_heartbeat_tick, broadcastAppendEntries, replicateToPeer_prepare, replicateToPeer_append_reply,
      replicateToPeer_snapshot_reply, applyCommitted, takeSnapshot_commit, Propose_begin, Propose_end,
      api_handleRequestVote, api_handleAppendEntries, api_handleInstallSnapshot, the_leader,
      node_SaveMeta, node_LastIndex, node_LastTerm, node_Append, node_Compact; keeps.
Qed.

Lemma keeps_works ws : keeps_open (works_run ws).
Proof. induction ws as [|w ws IH]; cbn [works_run]; [keeps|]. apply keeps_bind; [apply keeps_work|done]. Qed.
End work.

(** ** The program *)

Inductive Resource :=
| KVStore (path : bytes)          (* the database of the bbolt engine *)
| Tracker (members : list nat)    (* the goroutine of the health tracker *)
| RaftDB (path : bytes)           (* the database of the Raft log *)
| RaftGoroutine (id : NodeID)     (* the event loop of the node *)
| Signals.                        (* the registration of the signal handler *)

#[export] Instance Resource_eq_dec : EqDecision Resource.
Proof. solve_decision. Defined.

Inductive Effect := Acquire (r : Resource) | Listen (addr : string) | Release (r : Resource).

(** How far [run] is: it has returned, or the server still listens. *)
Inductive Exit := Returned (err : option error) | Serving.

Abbreviation Prog A := (M (list Effect) A) (only parsing).

Definition emit (e : Effect) : Prog unit := modify (fun tr => tr ++ [e])%list.

(** [defer m] around the rest of a function. *)
Definition defer (m : Prog unit) (k : Prog Exit) : Prog Exit :=
  r <- k ;;
  match r with
  | Returned _ => m ;; ret r
  | Serving => ret r
  end.

(** A method call on an object of its own. *)
Definition on {S A} (m : M S A) (s : S) : Prog (A * S) := fun tr =>
  match m s with
  | Done x => Done (x, tr)
  | Panic p => Panic p
  end.

(** What [run] finds: the file system, the clock and the random numbers; what
    happens while it listens; the result of shutting the server down. *)
Record World (B : Bolt) := mkWorld {
  w_cfgPath : string;
  w_ReadFile : string -> error + bytes;
  w_yaml : bytes -> error + Config;
  w_MkdirAll : bytes -> option error;
  w_bolt_Open : bytes -> error + bolt_DB;
  w_now : Z;
  w_rand : list Z;
  w_work : list Work;
  w_events : list ServerEvent;
  w_shutdown : option error
}.
Arguments w_cfgPath {B}. Arguments w_ReadFile {B}. Arguments w_yaml {B}. Arguments w_MkdirAll {B}.
Arguments w_bolt_Open {B}. Arguments w_now {B}. Arguments w_rand {B}. Arguments w_work {B}.
Arguments w_events {B}. Arguments w_shutdown {B}.

Section main.
Context {B : Bolt}.
(* strconv.Quote, which %q applies *)
Context (quote : string -> string).
Implicit Types w : World B.

(** The server, from [api.NewServer] to the end. *)
Definition run_server w (cfg : Config) : Prog Exit :=
  let srv := NewServer (srv_Addr (cfg_Server cfg)) in
  emit (Acquire Signals) ;;
  defer (emit (Release Signals))
    (emit (Listen (hs_Addr srv)) ;;
     match ListenAndServe (w_shutdown w) (w_events w) with
     | None => ret Serving
     | Some None => ret (Returned None)
     | Some (Some err) => ret (Returned (Some (Wrapf "http server" err)))
     end).

(** The Raft node.  [NewRaftNode] holds the log's database from the moment
    [newRaftLog] returns it; [Stop] closes it after the event loop has ended.
    The node's work while the server listens leaves no effect. *)
Definition raft_path (cfg : Config) : bytes := str (sc_DataDir (cfg_Storage cfg) ++ "/raft.db").
Definition raft_log w (cfg : Config) : error + RaftLog B :=
  newRaftLog (w_MkdirAll w) (w_bolt_Open w) (raft_path cfg).

Definition run_node {E} `{Engine E} w (cfg : Config) (store : E) : Prog Exit :=
  match raft_log w cfg with
  | inr _ => emit (Acquire (RaftDB (raft_path cfg)))
  | inl _ => ret tt
  end ;;
  match NewRaftNode (B := B) (w_MkdirAll w) (w_bolt_Open w) cfg store (w_rand w) with
  | inl err => ret (Returned (Some (Wrapf "creating raft node" err)))
  | inr raftNode =>
      started <- on Start raftNode ;;
      emit (Acquire (RaftGoroutine (ID raftNode))) ;;
      worked <- on (works_run (w_work w)) started.2 ;;
      defer (on Stop worked.2 ;; emit (Release (RaftGoroutine (ID raftNode))) ;;
             emit (Release (RaftDB (raft_path cfg))))
        (run_server w cfg)
  end.

(** The transport and the tracker. *)
Definition run_cluster {E} `{Engine E} w (cfg : Config) (store : E) : Prog Exit :=
  let peers := (fun p => mkPeer (nc_ID p) (nc_Addr p)) <$> cfg_Peers cfg in
  let transport := (NewHTTPTransport peers (w_now w) ∅).1 in
  let tracker := NewHeartbeatTracker (Members transport) in
  emit (Acquire (Tracker (ht_members tracker))) ;;
  defer (on tracker_Stop tracker ;; emit (Release (Tracker (ht_members tracker))))
    (run_node w cfg store).

Definition run w : Prog Exit :=
  match Load quote (w_ReadFile w) (w_yaml w) (w_cfgPath w) with
  | inl err => ret (Returned (Some (Wrapf "loading config" err)))
  | inr cfg =>
      let type := sc_Type (cfg_Storage cfg) in
      if bool_decide (type = "memory") then run_cluster w cfg NewMemoryEngine
      else if bool_decide (type = "persistent") then
        let kvPath := str (sc_DataDir (cfg_Storage cfg) ++ "/kv.db") in
        match NewBoltEngine (w_MkdirAll w) (w_bolt_Open w) kvPath with
        | inl err => ret (Returned (Some (Wrapf "opening kv storage" err)))
        | inr boltStore =>
            emit (Acquire (KVStore kvPath)) ;;
            defer (ret (be_Close boltStore) ;; emit (Release (KVStore kvPath)))
              (run_cluster w cfg boltStore)
        end
      else ret (Returned (Some (Errorf
        ("unknown storage type: " ++ quote type ++ " (want memory or persistent)"))))
  end.

(** The exit code of [main]. *)
Definition main w : outcome (option nat) :=
  match run w [] with
  | Done (Returned (Some _), _) => Done (Some 1)
  | Done (Returned None, _) => Done (Some 0)
  | Done (Serving, _) => Done None
  | Panic p => Panic p
  end.

(** ** What is released, and in which order *)

(** The resources still held after a trace, most recent first; only what is held
    can be released. *)
Fixpoint remove1 (r : Resource) (rs : list Resource) : option (list Resource) :=
  match rs with
  | [] => None
  | r' :: rs => if bool_decide (r' = r) then Some rs else cons r' <$> remove1 r rs
  end.

Fixpoint held (rs : list Resource) (tr : list Effect) : option (list Resource) :=
  match tr with
  | [] => Some rs
  | Acquire r :: tr => held (r :: rs) tr
  | Listen _ :: tr => held rs tr
  | Release r :: tr => remove1 r rs ≫= fun rs => held rs tr
  end.

Definition acquired (tr : list Effect) : list Resource :=
  omap (fun e => match e with Acquire r => Some r | _ => None end) tr.
Definition released (tr : list Effect) : list Resource :=
  omap (fun e => match e with Release r => Some r | _ => None end) tr.

(** [m] ends as [ex] and adds [tr'] to the trace. *)
Definition ends_as (m : Prog Exit) (ex : Exit) (tr' : list Effect) : Prop :=
  forall tr, m tr = Done (ex, tr ++ tr')%list.

Lemma ends_as_ret err : ends_as (ret (Returned err)) (Returned err) [].
Proof. intros tr. by rewrite app_nil_r. Qed.

(** What a deferred call adds. *)
Definition deferred (ex : Exit) (tr : list Effect) : list Effect :=
  match ex with Returned _ => tr | Serving => [] end.

Lemma ends_as_defer (release : Prog unit) k ex tr1 tr2 :
  (forall tr, release tr = Done (tt, tr ++ tr2)%list) -> ends_as k ex tr1 ->
  ends_as (defer release k) ex (tr1 ++ deferred ex tr2).
Proof.
  intros Hrel Hk tr. unfold defer, bind, ret. rewrite Hk. destruct ex as [err|]; simpl.
  - rewrite Hrel. by rewrite app_assoc.
  - by rewrite app_nil_r.
Qed.

Lemma ends_as_emit e k ex tr1 : ends_as k ex tr1 -> ends_as (emit e ;; k) ex (e :: tr1).
Proof. intros Hk tr. unfold emit, modify, bind. by rewrite Hk, <-app_assoc. Qed.

(** How the server ends, once everything is set up. *)
Definition served w : Exit :=
  match ListenAndServe (w_shutdown w) (w_events w) with
  | None => Serving
  | Some None => Returned None
  | Some (Some err) => Returned (Some (Wrapf "http server" err))
  end.

Lemma run_server_ends w cfg : ends_as (run_server w cfg) (served w)
  ([Acquire Signals; Listen (srv_Addr (cfg_Server cfg))] ++ deferred (served w) [Release Signals]).
Proof.
  unfold run_server. apply ends_as_emit.
  apply (ends_as_defer _ _ _ [Listen (srv_Addr (cfg_Server cfg))]); [done|]. apply ends_as_emit.
  intros tr. unfold served. by destruct (ListenAndServe _ _) as [[err|]|]; rewrite app_nil_r.
Qed.

(** The work of the node that [run] starts does not panic. *)
Definition node_works {E} `{Engine E} w (cfg : Config) (store : E) : bool :=
  match NewRaftNode (B := B) (w_MkdirAll w) (w_bolt_Open w) cfg store (w_rand w) with
  | inl _ => true
  | inr n =>
      match Start n with
      | Done (_, n) => match works_run (w_work w) n with Done _ => true | Panic _ => false end
      | Panic _ => true
      end
  end.

Lemma Start_done {E} (n : RaftNode B E) : timers_ok (n_cfg n) ->
  exists n', Start n = Done (tt, n') /\ n_cfg n' = n_cfg n /\ n_stopped n' = n_stopped n /\
    n_electionTimer n' <> None.
Proof.
  intros Ht. unfold Start.
  assert (wp resetElectionTimer (fun _ n' => n_cfg n' = n_cfg n /\ n_stopped n' = n_stopped n /\
    n_electionTimer n' <> None) n) as H by by apply wp_resetElectionTimer.
  apply wp_run in H as ([] & n' & H & ?). by exists n'.
Qed.

(** How the part after the transport ends. *)
Definition node_exit {E} w (cfg : Config) (store : E) : Exit :=
  match NewRaftNode (B := B) (w_MkdirAll w) (w_bolt_Open w) cfg store (w_rand w) with
  | inl err => Returned (Some (Wrapf "creating raft node" err))
  | inr _ => served w
  end.

Definition node_trace {E} w (cfg : Config) (store : E) : list Effect :=
  match raft_log w cfg with
  | inl _ => []
  | inr _ => Acquire (RaftDB (raft_path cfg)) ::
      match NewRaftNode (B := B) (w_MkdirAll w) (w_bolt_Open w) cfg store (w_rand w) with
      | inl _ => []
      | inr _ => Acquire (RaftGoroutine (nc_ID (cfg_Node cfg))) ::
          ([Acquire Signals; Listen (srv_Addr (cfg_Server cfg))] ++ deferred (served w) [Release Signals])
          ++ deferred (served w) [Release (RaftGoroutine (nc_ID (cfg_Node cfg))); Release (RaftDB (raft_path cfg))]
      end
  end%list.

Lemma run_node_ends {E} `{Engine E} w cfg (store : E) :
  timers_ok cfg -> node_works w cfg store = true ->
  ends_as (run_node w cfg store) (node_exit w cfg store) (node_trace w cfg store).
Proof.
  unfold run_node, node_exit, node_trace, node_works, raft_log, raft_path. intros Ht.
  destruct (NewRaftNode _ _ _ _ _) as [err|n] eqn:Hn.
  { intros _. destruct (newRaftLog _ _ _); [apply ends_as_ret|]. apply ends_as_emit, ends_as_ret. }
  assert (n_cfg n = cfg /\ n_stopped n = false /\ ID n = nc_ID (cfg_Node cfg)) as (Hcfg & Hst & Hid).
  { unfold NewRaftNode in Hn. destruct (newRaftLog _ _ _) as [|rl]; [done|].
    destruct (LoadMeta rl) as [|[t v]]; [done|]. by injection Hn as <-. }
  destruct (Start_done n) as (n1 & Hs & _ & Hst1 & _); [by rewrite Hcfg|]. rewrite Hs.
  destruct (works_run (w_work w) n1) as [[[] n2]|] eqn:Hw2; [|done]. intros _.
  assert (n_stopped n2 = false) as Hst2.
  { rewrite <-Hst, <-Hst1. apply (wlp_elim _ _ _ _ _ (keeps_works (w_work w) n1) Hw2). }
  assert (is_Some (match newRaftLog (w_MkdirAll w) (w_bolt_Open w)
    (str (sc_DataDir (cfg_Storage cfg) ++ "/raft.db")) with inl _ => None | inr x => Some x end)) as Hl.
  { unfold NewRaftNode in Hn. by destruct (newRaftLog _ _ _). }
  destruct (newRaftLog _ _ _) as [|rl]; [by destruct Hl|]. rewrite Hid.
  apply ends_as_emit. intros tr. unfold on at 1, bind at 1. rewrite Hs. revert tr. apply ends_as_emit.
  intros tr. unfold bind at 1, on at 1. cbn [snd]. rewrite Hw2. revert tr.
  apply ends_as_defer; [|apply run_server_ends].
  intros tr. unfold on, Stop, gets, emit, modify, ret, bind. cbn. rewrite Hst2. cbn. by rewrite <-app_assoc.
Qed.

(** The members the tracker watches. *)
Definition watched w (cfg : Config) : list nat :=
  Members (NewHTTPTransport ((fun p => mkPeer (nc_ID p) (nc_Addr p)) <$> cfg_Peers cfg) (w_now w) ∅).1.

Definition cluster_trace {E} w (cfg : Config) (store : E) : list Effect :=
  Acquire (Tracker (watched w cfg)) ::
    node_trace w cfg store ++ deferred (node_exit w cfg store) [Release (Tracker (watched w cfg))].

Lemma run_cluster_ends {E} `{Engine E} w cfg (store : E) :
  timers_ok cfg -> node_works w cfg store = true ->
  ends_as (run_cluster w cfg store) (node_exit w cfg store) (cluster_trace w cfg store).
Proof.
  intros Ht Hw. unfold run_cluster. cbn zeta. apply ends_as_emit.
  apply ends_as_defer; [done|]. by apply run_node_ends.
Qed.

(** The database of the bbolt engine. *)
Definition kv_path (cfg : Config) : bytes := str (sc_DataDir (cfg_Storage cfg) ++ "/kv.db").
Definition kv_engine w (cfg : Config) : error + BoltEngine B :=
  NewBoltEngine (w_MkdirAll w) (w_bolt_Open w) (kv_path cfg).

(** How [run] ends with a configuration: the first failure, or what the server
    says. *)
Definition run_exit w (cfg : Config) : Exit :=
  let type := sc_Type (cfg_Storage cfg) in
  if bool_decide (type = "memory") then node_exit w cfg NewMemoryEngine
  else if bool_decide (type = "persistent") then
    match kv_engine w cfg with
    | inl err => Returned (Some (Wrapf "opening kv storage" err))
    | inr store => node_exit w cfg store
    end
  else Returned (Some (Errorf
    ("unknown storage type: " ++ quote type ++ " (want memory or persistent)"))).

(** What it holds while the server listens. *)
Definition run_holds w (cfg : Config) : list Resource :=
  ([Signals; RaftGoroutine (nc_ID (cfg_Node cfg)); RaftDB (raft_path cfg); Tracker (watched w cfg)]
   ++ if bool_decide (sc_Type (cfg_Storage cfg) = "memory") then [] else [KVStore (kv_path cfg)])%list.

(** What it has lost when it returns: the database of the log, when the log
    opened and its metadata cannot be read. *)
Definition lost w (cfg : Config) : list Resource :=
  let opened := bool_decide (sc_Type (cfg_Storage cfg) = "memory")
    || bool_decide (sc_Type (cfg_Storage cfg) = "persistent") && (if kv_engine w cfg then false else true) in
  if opened then
    match raft_log w cfg with
    | inr rl => match LoadMeta rl with inl _ => [RaftDB (raft_path cfg)] | inr _ => [] end
    | inl _ => []
    end
  else [].

(** The work of the node, on the engine of the configuration, does not panic. *)
Definition works_fine w (cfg : Config) : bool :=
  if bool_decide (sc_Type (cfg_Storage cfg) = "memory") then node_works w cfg NewMemoryEngine
  else match kv_engine w cfg with inr store => node_works w cfg store | inl _ => true end.

Definition run_trace w (cfg : Config) : list Effect :=
  if bool_decide (sc_Type (cfg_Storage cfg) = "memory") then cluster_trace w cfg NewMemoryEngine
  else if bool_decide (sc_Type (cfg_Storage cfg) = "persistent") then
    match kv_engine w cfg with
    | inl _ => []
    | inr store => Acquire (KVStore (kv_path cfg)) ::
        cluster_trace w cfg store ++ deferred (node_exit w cfg store) [Release (KVStore (kv_path cfg))]
    end
  else [].

Lemma run_ends w cfg :
  Load quote (w_ReadFile w) (w_yaml w) (w_cfgPath w) = inr cfg ->
  timers_ok cfg -> works_fine w cfg = true ->
  ends_as (run w) (run_exit w cfg) (run_trace w cfg).
Proof.
  intros Hl Ht. unfold run, run_exit, run_trace, works_fine. rewrite Hl.
  case_bool_decide; [intros Hw; by apply run_cluster_ends|]. intros Hw.
  case_bool_decide; [|apply ends_as_ret]. unfold kv_engine, kv_path in *.
  destruct (NewBoltEngine _ _ _) as [err|store]; [apply ends_as_ret|]. apply ends_as_emit.
  apply ends_as_defer; [done|]. by apply run_cluster_ends.
Qed.

(** Whatever was acquired is released, last first, except what is lost; and while
    the server listens nothing has been released. *)
Ltac trace := simpl;
  repeat (rewrite bool_decide_eq_true_2 by done || rewrite bool_decide_eq_false_2 by done; simpl); try done.

Definition trace_ok (ex : Exit) (tr : list Effect) (lost holds : list Resource) : Prop :=
  match ex with
  | Returned _ => held [] tr = Some lost /\ acquired tr = (reverse (released tr) ++ lost)%list
  | Serving => held [] tr = Some holds
  end.

Lemma run_trace_ok w cfg : trace_ok (run_exit w cfg) (run_trace w cfg) (lost w cfg) (run_holds w cfg).
Proof.
  unfold run_exit, run_trace, lost, run_holds, cluster_trace, node_trace, node_exit, raft_log, NewRaftNode.
  fold (raft_path cfg). case_bool_decide as Hm; simpl.
  - destruct (newRaftLog _ _ _) as [err|rl]; [split; trace|].
    destruct (LoadMeta rl) as [err|[t v]]; [split; trace|].
    destruct (served w) as [err|]; [split; trace|trace].
  - case_bool_decide; simpl; [|split; trace]. destruct (kv_engine w cfg) as [err|store]; [split; trace|].
    destruct (newRaftLog _ _ _) as [err|rl]; [split; trace|].
    destruct (LoadMeta rl) as [err|[t v]]; [split; trace|].
    destruct (served w) as [err|]; [split; trace|trace].
Qed.

(** The store and the node can be opened. *)
Definition set_up w (cfg : Config) : Prop :=
  (sc_Type (cfg_Storage cfg) = "memory" /\
    exists n, NewRaftNode (B := B) (w_MkdirAll w) (w_bolt_Open w) cfg NewMemoryEngine (w_rand w) = inr n) \/
  (sc_Type (cfg_Storage cfg) = "persistent" /\
    exists store n, kv_engine w cfg = inr store /\
      NewRaftNode (B := B) (w_MkdirAll w) (w_bolt_Open w) cfg store (w_rand w) = inr n).

Lemma node_exit_ok {E} w cfg (store : E) ex : (ex = Returned None \/ ex = Serving) ->
  node_exit w cfg store = ex <->
  (exists n, NewRaftNode (B := B) (w_MkdirAll w) (w_bolt_Open w) cfg store (w_rand w) = inr n) /\
  served w = ex.
Proof.
  intros Hex. unfold node_exit. destruct (NewRaftNode _ _ _ _ _) as [err|n]; [|naive_solver].
  split; [|by intros [[? ?] _]]. by destruct Hex as [-> | ->].
Qed.

Lemma run_exit_ok w cfg ex : (ex = Returned None \/ ex = Serving) ->
  run_exit w cfg = ex <-> set_up w cfg /\ served w = ex.
Proof.
  intros Hex. unfold run_exit, set_up. case_bool_decide as H1.
  { rewrite node_exit_ok by done. rewrite H1. naive_solver. }
  case_bool_decide as H2; [|split; [by destruct Hex as [-> | ->]|naive_solver]].
  destruct (kv_engine w cfg) as [err|store] eqn:Ek.
  { split; [by destruct Hex as [-> | ->]|naive_solver]. }
  rewrite node_exit_ok by done. naive_solver.
Qed.
End main.

(** The signal came while the server was listening, or after it was closed. *)
Definition interrupted (events : list ServerEvent) : Prop :=
  exists closed rest, events = ((Served <$> closed) ++ CtxDone :: rest)%list /\
    Forall (fun err => errors_Is err ErrServerClosed = true) closed.

Lemma ListenAndServe_clean shutdown events :
  ListenAndServe shutdown events = Some None <-> shutdown = None /\ interrupted events.
Proof.
  unfold interrupted. induction events as [|[err|] events IH]; simpl.
  - split; [done|]. intros (_ & [|] & rest & ? & _); done.
  - unfold served_err. destruct (errors_Is err ErrServerClosed) eqn:Ee.
    + rewrite IH. split; intros (Hs & closed & rest & H & Hc); (split; [done|]).
      * exists (err :: closed), rest. rewrite H. split; [done|]. by constructor.
      * destruct closed as [|err' closed]; [done|]. injection H as <- ->.
        exists closed, rest. split; [done|]. by apply Forall_cons in Hc as [_ ?].
    + split; [done|]. intros (_ & [|err' closed] & rest & H & Hc); [done|]. injection H as <- _.
      apply Forall_cons in Hc as [Hc _]. congruence.
  - split.
    + intros [= ->]. split; [done|]. by exists [], events.
    + by intros [-> _].
Qed.

(** C28: the program.  When the configuration does not load, [run] fails with that
    error and has acquired nothing.  With a loaded configuration whose maximal
    election timeout exceeds the minimal one also in 64-bit arithmetic (a positive
    bound for the random timeout), and when the work of the node it starts does
    not panic, [run] does not panic either.
    Whenever it returns, with an error or without, everything it acquired is
    released, last first, with one exception: when the Raft log opened but its
    stored metadata cannot be read, the log's database stays open.  While the
    server listens it holds the signal handler, the node, the log's database, the
    tracker and, for persistent storage, the store.  And it returns without an
    error exactly when the store and the node opened, a signal came and the server
    shut down cleanly. *)
Theorem run_correct {B : Bolt} quote (w : World B) :
  (forall err, Load quote (w_ReadFile w) (w_yaml w) (w_cfgPath w) = inl err ->
    run quote w [] = Done (Returned (Some (Wrapf "loading config" err)), [])) /\
  (forall cfg, Load quote (w_ReadFile w) (w_yaml w) (w_cfgPath w) = inr cfg ->
    timers_ok cfg -> works_fine w cfg = true ->
    exists ex tr, run quote w [] = Done (ex, tr) /\
      (forall err, ex = Returned err ->
        held [] tr = Some (lost w cfg) /\ acquired tr = (reverse (released tr) ++ lost w cfg)%list) /\
      (ex = Serving -> held [] tr = Some (run_holds w cfg)) /\
      (ex = Returned None <-> set_up w cfg /\ w_shutdown w = None /\ interrupted (w_events w)) /\
      (ex = Serving <-> set_up w cfg /\ ListenAndServe (w_shutdown w) (w_events w) = None)).
Proof.
  split.
  - intros err Hl. unfold run. by rewrite Hl.
  - intros cfg Hl Ht Hw. exists (run_exit quote w cfg), (run_trace w cfg).
    split; [exact (run_ends quote w cfg Hl Ht Hw [])|].
    pose proof (run_trace_ok quote w cfg) as Hok. unfold trace_ok in Hok.
    split; [intros err He; by rewrite He in Hok|]. split; [intros He; by rewrite He in Hok|].
    rewrite !run_exit_ok by tauto. unfold served. rewrite <-ListenAndServe_clean.
    by destruct (ListenAndServe _ _) as [[]|]; naive_solver.
Qed.

(** A world with one configuration file, an empty disk and a signal. *)
Definition sample_world : World reliable_bolt :=
  mkWorld reliable_bolt "./config/default.yaml" (fun _ => inr []) (fun _ => inr sample_cfg)
    (fun _ => None) (fun _ => inr (mkdb ∅ 0)) 0 [] [WBroadcast; WHeartbeatTick] [CtxDone] None.

(** The same with metadata on the disk that is not JSON. *)
Definition corrupt_world : World reliable_bolt :=
  mkWorld reliable_bolt "./config/default.yaml" (fun _ => inr []) (fun _ => inr sample_cfg)
    (fun _ => None) (fun _ => inr (mkdb {[logBucket := ∅; metaBucket := {[metaKey := str "x"]}]} 0))
    0 [] [] [CtxDone] None.

Lemma sample_opens : exists n, open_node sample_cfg = inr n.
Proof.
  assert (opens sample_cfg = true) as H by by vm_compute. unfold opens in H.
  destruct (open_node sample_cfg) as [|n]; [done|by exists n].
Qed.

(** The sample world, interrupted; and the world with corrupt metadata, where the
    log's database stays open. *)
Lemma run_correct_witness :
  (exists tr, run (fun s => s) sample_world [] = Done (Returned None, tr) /\ held [] tr = Some []) /\
  (exists ex tr, run (fun s => s) corrupt_world [] = Done (ex, tr) /\ ex <> Serving /\
    forall err, ex = Returned err -> held [] tr = Some [RaftDB (str "./data/raft.db")]).
Proof.
  split.
  - destruct (run_correct (fun s => s) sample_world) as [_ H].
    destruct (H sample_cfg) as (ex & tr & Hr & Hh & _ & Hok & _).
    + by vm_compute.
    + by vm_compute.
    + by vm_compute.
    + assert (ex = Returned None) as ->.
      { apply Hok. split.
        - left. split; [by vm_compute|]. exact sample_opens.
        - split; [done|]. exists [], []. split; [done|constructor]. }
      exists tr. split; [exact Hr|]. destruct (Hh None eq_refl) as [Hh0 _]. rewrite Hh0. by vm_compute.
  - destruct (run_correct (fun s => s) corrupt_world) as [_ H].
    destruct (H sample_cfg) as (ex & tr & Hr & Hh & _ & _ & Hs).
    + by vm_compute.
    + by vm_compute.
    + by vm_compute.
    + exists ex, tr. split; [exact Hr|]. split; [intros [_ ?]%Hs; discriminate|].
      intros err He. destruct (Hh err He) as [Hh0 _]. rewrite Hh0. by vm_compute.
Defined.
