(* ===== verification/System.v ===== *)
(** * The cluster: nodes, processes and the network

    A cluster is a set of processes, one per configured node, and the messages
    that were ever sent.  A process is a Raft node with the state of its event
    loop ([run] in raft.go) and of its other goroutines.  A step is one critical
    section of one process, run by the definitions of [RaftNode], [Api] and
    [Membership], and it happens only where the code gets there: a timer that
    has fired, a goroutine that was started and has not run yet, a call that
    waits for its reply.  Requests and replies travel as the JSON bodies that
    [Api] and [Membership] produce and decode.

    Nothing is ever taken out of the network, so a request can be delivered late,
    several times, or never; a reply goes to the call it answers, which can also
    fail at any moment.  A process can crash between two critical sections and
    come back with the contents of its database, the rest of its state lost; a
    critical section that panics is not a step.  Storage engines do not matter
    here: a process can come back with any. *)

From S2P Require Import Prelude GoJson Types Config Bolt RaftLog LeaderState Storage RaftNode.
From S2P Require Import Membership Transaction Api.

Local Open Scope string_scope.

(** A call of [replicateToPeer] and its reply have a number. *)
Inductive Msg :=
| ReqVote (to : NodeID) (req : RequestVoteRequest)
| RepVote (from : NodeID) (req : RequestVoteRequest) (r : Response)
| ReqAppend (call : nat) (to : NodeID) (req : AppendEntriesRequest)
| RepAppend (call : nat) (r : Response)
| ReqSnapshot (call : nat) (to : NodeID) (req : InstallSnapshotRequest)
| RepSnapshot (call : nat) (r : Response).

(** The event loop: waiting in its [select], about to call [startElection] or
    [broadcastAppendEntries], or in [startElection] waiting for the votes. *)
Inductive Run :=
| Idle
| Electing
| Collecting (el : Election)
| Broadcasting.

(** A client in [Propose]: about to call [broadcastAppendEntries], or in its
    [select]. *)
Inductive Proposal :=
| Proposed (index : LogIndex) (ch : nat)
| Waiting (index : LogIndex) (ch : nat).

(** The other goroutines that are under way: the calls of [replicateToPeer] that
    wait for a reply, the snapshots that are taken and not yet in the log, the
    clients.  Those that have not run yet are the node's tasks. *)
Record Goroutines := mkGoroutines {
  g_calls : list (nat * Peer * Call);
  g_snaps : list (LogIndex * Term * (error + bytes));
  g_clients : list Proposal
}.

Definition no_goroutines : Goroutines := mkGoroutines [] [] [].

(** What the transport makes of a reply of the server, through [rpc] with a
    transport that tracks no member. *)
Definition got {Q R} `{JsonCodec Q, JsonCodec R} (peer : Peer) (path : string) (req : Q)
    (r : Response) : error + R :=
  (rpc (fun _ => None) (fun _ _ => inr (rs_status r, rs_body r)) 0 ∅ peer path req ∅).1.

Section system.
Context {B : Bolt} {E : Type} {X : Engine E}.
(* the members of the cluster and their configurations *)
Context (ids : list NodeID) (cfg_of : NodeID -> Config).

Record Proc := mkProc { p_node : RaftNode B E; p_run : Run; p_go : Goroutines }.
Record Cluster := mkCluster { c_procs : gmap NodeID Proc; c_net : list Msg; c_steps : nat }.

(** Process [i] goes on as [p], having sent [msgs]. *)
Definition upd (c : Cluster) (i : NodeID) (p : Proc) (msgs : list Msg) : Cluster :=
  mkCluster (<[i := p]> (c_procs c)) (msgs ++ c_net c) (S (c_steps c)).

(** The message of a [replicateToPeer] and the goroutine that waits; the call is
    numbered [k]. *)
Definition call_msg (k : nat) (to : NodeID) (call : option Call) : list Msg :=
  match call with
  | None => []
  | Some (CallSnapshot _ req) => [ReqSnapshot k to req]
  | Some (CallAppend req) => [ReqAppend k to req]
  end.
Definition call_go (k : nat) (peer : Peer) (call : option Call) (g : Goroutines) : Goroutines :=
  match call with
  | None => g
  | Some call => mkGoroutines ((k, peer, call) :: g_calls g) (g_snaps g) (g_clients g)
  end.

(** A call that failed. *)
Definition call_failed (peer : Peer) (call : Call) (err : error) : M (RaftNode B E) unit :=
  match call with
  | CallAppend _ => replicateToPeer_append_reply peer (inl err)
  | CallSnapshot idx _ => replicateToPeer_snapshot_reply peer idx (inl err)
  end.

(** A client that got an index and a channel goes on. *)
Definition propose_go (r : error + (LogIndex * nat)) (g : Goroutines) : Goroutines :=
  match r with
  | inl _ => g
  | inr (index, ch) => mkGoroutines (g_calls g) (g_snaps g) (Proposed index ch :: g_clients g)
  end.

Inductive step (c : Cluster) : Cluster -> Prop :=
(* the event loop *)
| step_tick i n g b n' :
    c_procs c !! i = Some (mkProc n Idle g) -> timer_ready (n_electionTimer n) = true ->
    run_election_tick n = Done (b, n') ->
    step c (upd c i (mkProc n' (if b then Electing else Idle) g) [])
| step_begin i n g el n' :
    c_procs c !! i = Some (mkProc n Electing g) ->
    startElection_begin n = Done (el, n') ->
    step c (upd c i (mkProc n' (Collecting el) g)
      ((fun p => ReqVote (peer_ID p) (el_req el)) <$> el_waiting el))
| step_count i n g el peer r el' n' :
    c_procs c !! i = Some (mkProc n (Collecting el) g) -> peer ∈ el_waiting el ->
    RepVote (peer_ID peer) (el_req el) r ∈ c_net c ->
    startElection_reply el peer (got peer "/raft/request-vote" (el_req el) r) n = Done (el', n') ->
    step c (upd c i (mkProc n' (Collecting el') g) [])
| step_novote i n g el peer err el' n' :
    c_procs c !! i = Some (mkProc n (Collecting el) g) -> peer ∈ el_waiting el ->
    startElection_reply el peer (inl err) n = Done (el', n') ->
    step c (upd c i (mkProc n' (Collecting el') g) [])
| step_end i n g el n' :
    c_procs c !! i = Some (mkProc n (Collecting el) g) -> el_waiting el = [] ->
    startElection_end el n = Done (tt, n') ->
    step c (upd c i (mkProc n' Idle g) [])
| step_heartbeat i n g b n' :
    c_procs c !! i = Some (mkProc n Idle g) -> timer_ready (n_heartbeatTimer n) = true ->
    run_heartbeat_tick n = Done (b, n') ->
    step c (upd c i (mkProc n' (if b then Broadcasting else Idle) g) [])
| step_broadcast i n g n' :
    c_procs c !! i = Some (mkProc n Broadcasting g) ->
    broadcastAppendEntries n = Done (tt, n') ->
    step c (upd c i (mkProc n' Idle g) [])
(* the handlers of the server *)
| step_vote i n run g req r n' :
    c_procs c !! i = Some (mkProc n run g) -> ReqVote i req ∈ c_net c ->
    api_handleRequestVote (Marshal req) n = Done (r, n') ->
    step c (upd c i (mkProc n' run g) [RepVote i req r])
| step_append i n run g k req r n' :
    c_procs c !! i = Some (mkProc n run g) -> ReqAppend k i req ∈ c_net c ->
    api_handleAppendEntries (Marshal req) n = Done (r, n') ->
    step c (upd c i (mkProc n' run g) [RepAppend k r])
| step_install i n run g k req r n' :
    c_procs c !! i = Some (mkProc n run g) -> ReqSnapshot k i req ∈ c_net c ->
    api_handleInstallSnapshot (Marshal req) n = Done (r, n') ->
    step c (upd c i (mkProc n' run g) [RepSnapshot k r])
(* replicateToPeer *)
| step_replicate i n run g peer ts1 ts2 call n' :
    c_procs c !! i = Some (mkProc n run g) -> n_tasks n = (ts1 ++ TReplicate peer :: ts2)%list ->
    replicateToPeer_prepare peer (set_tasks (ts1 ++ ts2) n) = Done (call, n') ->
    step c (upd c i (mkProc n' run (call_go (c_steps c) peer call g))
      (call_msg (c_steps c) (peer_ID peer) call))
| step_append_reply i n run cs1 cs2 ss ps k peer req r n' :
    c_procs c !! i = Some (mkProc n run (mkGoroutines (cs1 ++ (k, peer, CallAppend req) :: cs2) ss ps)) ->
    RepAppend k r ∈ c_net c ->
    replicateToPeer_append_reply peer (got peer "/raft/append-entries" req r) n = Done (tt, n') ->
    step c (upd c i (mkProc n' run (mkGoroutines (cs1 ++ cs2) ss ps)) [])
| step_install_reply i n run cs1 cs2 ss ps k peer idx req r n' :
    c_procs c !! i = Some (mkProc n run (mkGoroutines (cs1 ++ (k, peer, CallSnapshot idx req) :: cs2) ss ps)) ->
    RepSnapshot k r ∈ c_net c ->
    replicateToPeer_snapshot_reply peer idx (got peer "/raft/install-snapshot" req r) n = Done (tt, n') ->
    step c (upd c i (mkProc n' run (mkGoroutines (cs1 ++ cs2) ss ps)) [])
| step_call_fails i n run cs1 cs2 ss ps k peer call err n' :
    c_procs c !! i = Some (mkProc n run (mkGoroutines (cs1 ++ (k, peer, call) :: cs2) ss ps)) ->
    call_failed peer call err n = Done (tt, n') ->
    step c (upd c i (mkProc n' run (mkGoroutines (cs1 ++ cs2) ss ps)) [])
(* applyCommitted and takeSnapshot *)
| step_apply i n run g ts1 ts2 n' :
    c_procs c !! i = Some (mkProc n run g) -> n_tasks n = (ts1 ++ TApply :: ts2)%list ->
    applyCommitted (set_tasks (ts1 ++ ts2) n) = Done (tt, n') ->
    step c (upd c i (mkProc n' run g) [])
| step_snapshot i n run cs ss ps ts1 ts2 index term data n' :
    c_procs c !! i = Some (mkProc n run (mkGoroutines cs ss ps)) ->
    n_tasks n = (ts1 ++ TSnapshot index term :: ts2)%list ->
    takeSnapshot_data (set_tasks (ts1 ++ ts2) n) = Done (data, n') ->
    step c (upd c i (mkProc n' run (mkGoroutines cs ((index, term, data) :: ss) ps)) [])
| step_compact i n run cs ss1 ss2 ps index term data n' :
    c_procs c !! i = Some (mkProc n run (mkGoroutines cs (ss1 ++ (index, term, data) :: ss2) ps)) ->
    u64_ok index -> u64_ok term ->
    takeSnapshot_commit index term data n = Done (tt, n') ->
    step c (upd c i (mkProc n' run (mkGoroutines cs (ss1 ++ ss2) ps)) [])
(* Propose *)
| step_propose i n run g cmd r n' :
    c_procs c !! i = Some (mkProc n run g) -> Propose_begin cmd n = Done (r, n') ->
    step c (upd c i (mkProc n' run (propose_go r g)) [])
| step_propose_send i n run cs ss ps1 ps2 index ch n' :
    c_procs c !! i = Some (mkProc n run (mkGoroutines cs ss (ps1 ++ Proposed index ch :: ps2))) ->
    broadcastAppendEntries n = Done (tt, n') ->
    step c (upd c i (mkProc n' run (mkGoroutines cs ss (ps1 ++ Waiting index ch :: ps2))) [])
| step_propose_end i n run cs ss ps1 ps2 index ch w err n' :
    c_procs c !! i = Some (mkProc n run (mkGoroutines cs ss (ps1 ++ Waiting index ch :: ps2))) ->
    wakeup_enabled n ch w = true -> Propose_end index ch w n = Done (err, n') ->
    step c (upd c i (mkProc n' run (mkGoroutines cs ss (ps1 ++ ps2))) [])
(* a crash *)
| step_restart i n run g store rand n0 n' :
    c_procs c !! i = Some (mkProc n run g) ->
    NewRaftNode (fun _ => None) (fun _ => inr (rl_db (n_raftLog n))) (cfg_of i) store rand = inr n0 ->
    Start n0 = Done (tt, n') ->
    step c (upd c i (mkProc n' Idle no_goroutines) []).

(** A process that has just been started on an empty database. *)
Definition fresh_proc `{!BoltLaws B} (i : NodeID) (p : Proc) : Prop :=
  exists db store rand n0, buckets (view_tx db) = ∅ /\
    NewRaftNode (fun _ => None) (fun _ => inr db) (cfg_of i) store rand = inr n0 /\
    Start n0 = Done (tt, p_node p) /\ p_run p = Idle /\ p_go p = no_goroutines.

Definition initial `{!BoltLaws B} (c : Cluster) : Prop :=
  c_net c = [] /\
  forall i, match c_procs c !! i with
            | Some p => i ∈ ids /\ fresh_proc i p
            | None => i ∉ ids
            end.

(** Reachable in so many steps. *)
Inductive reachable `{!BoltLaws B} : nat -> Cluster -> Prop :=
| reach_initial c : initial c -> reachable 0 c
| reach_step k c c' : reachable k c -> step c c' -> reachable (S k) c'.

(** The configurations describe one cluster: every node's peers are the other
    members, under names that can be stored. *)
Record configured : Prop := {
  cf_ids i : i ∈ ids -> i <> "" /\ utf8_string i /\ short_id i;
  cf_id i : i ∈ ids -> nc_ID (cfg_Node (cfg_of i)) = i;
  cf_timers i : i ∈ ids -> timers_ok (cfg_of i);
  cf_peers i : i ∈ ids -> i :: (nc_ID <$> cfg_Peers (cfg_of i)) ≡ₚ ids;
  cf_nodup : NoDup ids
}.

Definition leader_at (c : Cluster) (i : NodeID) (t : Term) : Prop :=
  exists p, c_procs c !! i = Some p /\ n_state (p_node p) = Leader /\ n_currentTerm (p_node p) = t.

End system.

Arguments Proc B E : clear implicits.
Arguments Cluster B E : clear implicits.
