(* ===== verification/Exec.v ===== *)
(** * Executions of the cluster

    An interpreter for the steps of [System]: a schedule is a list of actions,
    [exec] runs it on the bbolt model [MapBolt] and the in-memory engine, and
    [exec_reachable] says that what it computes is an execution.  Scenarios are
    then evaluated, not proved. *)

From S2P Require Import Prelude GoJson Types Config Bolt RaftLog LeaderState Storage RaftNode.
From S2P Require Import Membership Transaction Api System.
Import MapBolt.

Local Open Scope string_scope.

#[export] Instance Response_eq_dec : EqDecision Response.
Proof. solve_decision. Defined.
#[export] Instance ISReq_eq_dec : EqDecision InstallSnapshotRequest.
Proof. solve_decision. Defined.
#[export] Instance Msg_eq_dec : EqDecision Msg.
Proof. solve_decision. Defined.

Abbreviation node := (RaftNode reliable_bolt MemoryEngine) (only parsing).
Abbreviation cluster := (Cluster reliable_bolt MemoryEngine) (only parsing).

(** ** Schedules *)

Inductive Action :=
| Tick (i : NodeID)                     (* the election timer of [i] fires *)
| Begin (i : NodeID)                    (* [i] starts its election *)
| Vote (i cand : NodeID)                (* [i] answers the latest request of [cand] *)
| Count (i voter : NodeID)              (* [i] receives the answer of [voter] *)
| NoVote (i voter : NodeID)             (* the request of [i] to [voter] fails *)
| End (i : NodeID)                      (* [i] ends its election *)
| Heartbeat (i : NodeID)                (* the heartbeat timer of [i] fires *)
| Broadcast (i : NodeID)                (* [i] starts the goroutines of a heartbeat *)
| Replicate (i peer : NodeID)           (* such a goroutine sends entries to [peer] *)
| Accept (i leader : NodeID)            (* [i] handles the latest entries of [leader] *)
| Ack (i peer : NodeID)                 (* [i] receives the answer to its latest call to [peer] *)
| Client (i : NodeID) (cmd : Command)   (* a client proposes [cmd] at [i] *)
| ClientSend (i : NodeID)               (* the latest client at [i] starts its goroutines *)
| Apply (i : NodeID)                    (* a started [applyCommitted] of [i] runs *)
| Restart (i : NodeID).                 (* [i] crashes and restarts *)

(** The first message for which [f] answers. *)
Definition pick_msg {A} (f : Msg -> option A) (net : list Msg) : option A := hd_error (omap f net).

Lemma pick_msg_in {A} (f : Msg -> option A) net a : pick_msg f net = Some a ->
  exists m, m ∈ net /\ f m = Some a.
Proof.
  unfold pick_msg. induction net as [|m net IH]; simpl; [done|]. destruct (f m) eqn:Ef; simpl.
  - intros [= <-]. exists m. split; [constructor|done].
  - intros (m' & ? & ?)%IH. exists m'. split; [by constructor|done].
Qed.

Definition find_peer (l : list Peer) (id : NodeID) : option Peer :=
  hd_error (filter (fun p => peer_ID p = id) l).

Lemma find_peer_in l id p : find_peer l id = Some p -> p ∈ l /\ peer_ID p = id.
Proof.
  unfold find_peer. intros H. destruct (filter _ l) as [|q l'] eqn:Ef; [done|].
  injection H as ->. assert (p ∈ filter (fun p => peer_ID p = id) l) as Hin by (rewrite Ef; constructor).
  apply list_elem_of_filter in Hin as [? ?]. done.
Qed.

(** The first element for which [f] answers, with what is around it. *)
Fixpoint split_at {A C} (f : A -> option C) (l : list A) : option (list A * A * C * list A) :=
  match l with
  | [] => None
  | x :: l =>
      match f x with
      | Some y => Some ([], x, y, l)
      | None => (fun '(l1, a, y, l2) => (x :: l1, a, y, l2)) <$> split_at f l
      end
  end.

Lemma split_at_in {A C} (f : A -> option C) l l1 a y l2 : split_at f l = Some (l1, a, y, l2) ->
  l = (l1 ++ a :: l2)%list /\ f a = Some y.
Proof.
  revert l1. induction l as [|x l IH]; intros l1; simpl; [done|]. destruct (f x) as [y'|] eqn:Ef.
  - by intros [= <- <- <- <-].
  - destruct (split_at f l) as [[[[l1' a'] y'] l2']|]; simpl; [|done].
    intros [= <- <- <- <-]. destruct (IH l1' eq_refl) as [-> ?]. done.
Qed.

Section exec.
Context (cfg_of : NodeID -> Config).
Implicit Types c : cluster.

(** Run a critical section of process [i] and go on with [f]. *)
Definition at_proc {A} (c : cluster) (i : NodeID)
    (m : node -> Run -> Goroutines -> option (outcome (A * node) * (A -> Run * Goroutines * list Msg)))
    : option cluster :=
  c_procs c !! i ≫= fun p =>
  m (p_node p) (p_run p) (p_go p) ≫= fun '(o, f) =>
  match o with
  | Done (a, n') => let '(run, g, msgs) := f a in Some (upd c i (mkProc n' run g) msgs)
  | Panic _ => None
  end.

Definition is_apply (t : Task) : option unit := match t with TApply => Some tt | _ => None end.
Definition replicates (peer : NodeID) (t : Task) : option Peer :=
  match t with TReplicate p => if bool_decide (peer_ID p = peer) then Some p else None | _ => None end.

(** A call to [peer] that has an answer. *)
Definition answer_to (net : list Msg) (peer : NodeID) (call : nat * Peer * Call) : option (AppendEntriesRequest * Response) :=
  match call with
  | (k, p, CallAppend req) =>
      if bool_decide (peer_ID p = peer) then
        pick_msg (fun m => match m with
          | RepAppend k' r => if bool_decide (k' = k) then Some (req, r) else None
          | _ => None end) net
      else None
  | _ => None
  end.

Definition is_proposed (p : Proposal) : option (LogIndex * nat) :=
  match p with Proposed index ch => Some (index, ch) | Waiting _ _ => None end.

Definition exec1 (c : cluster) (act : Action) : option cluster :=
  match act with
  | Tick i => at_proc c i (fun n run g => match run with
      | Idle => if timer_ready (n_electionTimer n)
                then Some (run_election_tick n, fun b : bool => (if b then Electing else Idle, g, [])) else None
      | _ => None end)
  | Begin i => at_proc c i (fun n run g => match run with
      | Electing => Some (startElection_begin n, fun el =>
          (Collecting el, g, (fun p => ReqVote (peer_ID p) (el_req el)) <$> el_waiting el))
      | _ => None end)
  | Vote i cand =>
      pick_msg (fun m => match m with
        | ReqVote to req => if bool_decide (to = i /\ rv_CandidateID req = cand) then Some req else None
        | _ => None end) (c_net c) ≫= fun req =>
      at_proc c i (fun n run g =>
        Some (api_handleRequestVote (Marshal req) n, fun r => (run, g, [RepVote i req r])))
  | Count i voter => at_proc c i (fun n run g => match run with
      | Collecting el =>
          find_peer (el_waiting el) voter ≫= fun peer =>
          pick_msg (fun m => match m with
            | RepVote from req r => if bool_decide (from = voter /\ req = el_req el) then Some r else None
            | _ => None end) (c_net c) ≫= fun r =>
          Some (startElection_reply el peer (got peer "/raft/request-vote" (el_req el) r) n,
            fun el => (Collecting el, g, []))
      | _ => None end)
  | NoVote i voter => at_proc c i (fun n run g => match run with
      | Collecting el =>
          find_peer (el_waiting el) voter ≫= fun peer =>
          Some (startElection_reply el peer (inl (ErrContext "deadline exceeded")) n,
            fun el => (Collecting el, g, []))
      | _ => None end)
  | End i => at_proc c i (fun n run g => match run with
      | Collecting el =>
          if bool_decide (length (el_waiting el) = 0%nat)
          then Some (startElection_end el n, fun _ => (Idle, g, [])) else None
      | _ => None end)
  | Heartbeat i => at_proc c i (fun n run g => match run with
      | Idle => if timer_ready (n_heartbeatTimer n)
                then Some (run_heartbeat_tick n, fun b : bool => (if b then Broadcasting else Idle, g, [])) else None
      | _ => None end)
  | Broadcast i => at_proc c i (fun n run g => match run with
      | Broadcasting => Some (broadcastAppendEntries n, fun _ => (Idle, g, []))
      | _ => None end)
  | Replicate i peer => at_proc c i (fun n run g =>
      split_at (replicates peer) (n_tasks n) ≫= fun '(ts1, _, p, ts2) =>
      Some (replicateToPeer_prepare p (set_tasks (ts1 ++ ts2) n),
        fun call => (run, call_go (c_steps c) p call g, call_msg (c_steps c) (peer_ID p) call)))
  | Accept i leader =>
      pick_msg (fun m => match m with
        | ReqAppend k to req =>
            if bool_decide (to = i /\ ae_LeaderID req = leader) then Some (k, req) else None
        | _ => None end) (c_net c) ≫= fun '(k, req) =>
      at_proc c i (fun n run g =>
        Some (api_handleAppendEntries (Marshal req) n, fun r => (run, g, [RepAppend k r])))
  | Ack i peer => at_proc c i (fun n run g =>
      split_at (answer_to (c_net c) peer) (g_calls g) ≫= fun '(cs1, (_, p, _), (req, r), cs2) =>
      Some (replicateToPeer_append_reply p (got p "/raft/append-entries" req r) n,
        fun _ => (run, mkGoroutines (cs1 ++ cs2) (g_snaps g) (g_clients g), [])))
  | Client i cmd => at_proc c i (fun n run g =>
      Some (Propose_begin cmd n, fun r => (run, propose_go r g, [])))
  | ClientSend i => at_proc c i (fun n run g =>
      split_at is_proposed (g_clients g) ≫= fun '(ps1, _, (index, ch), ps2) =>
      Some (broadcastAppendEntries n,
        fun _ => (run, mkGoroutines (g_calls g) (g_snaps g) (ps1 ++ Waiting index ch :: ps2), [])))
  | Apply i => at_proc c i (fun n run g =>
      split_at is_apply (n_tasks n) ≫= fun '(ts1, _, _, ts2) =>
      Some (applyCommitted (set_tasks (ts1 ++ ts2) n), fun _ => (run, g, [])))
  | Restart i => at_proc c i (fun n _ _ =>
      match NewRaftNode (fun _ => None) (fun _ => inr (rl_db (n_raftLog n))) (cfg_of i)
              NewMemoryEngine [] with
      | inr n0 => Some (Start n0, fun _ => (Idle, no_goroutines, []))
      | inl _ => None
      end)
  end.

Fixpoint exec (c : cluster) (acts : list Action) : option cluster :=
  match acts with
  | [] => Some c
  | a :: acts => exec1 c a ≫= fun c' => exec c' acts
  end.

(** ** What is executed is an execution *)

Lemma at_proc_inv {A} c i
    (m : node -> Run -> Goroutines -> option (outcome (A * node) * (A -> Run * Goroutines * list Msg))) c' :
  at_proc c i m = Some c' ->
  exists n run g f a n', c_procs c !! i = Some (mkProc n run g) /\ m n run g = Some (Done (a, n'), f) /\
    c' = upd c i (mkProc n' (f a).1.1 (f a).1.2) (f a).2.
Proof.
  unfold at_proc. destruct (c_procs c !! i) as [[n run g]|]; simpl; [|done].
  destruct (m n run g) as [[[[a n']|] f]|] eqn:Em; simpl; try done.
  destruct (f a) as [[run' g'] msgs] eqn:Ef. intros [= <-].
  exists n, run, g, f, a, n'. by rewrite Ef.
Qed.

Ltac at_proc H :=
  apply at_proc_inv in H as (n & run & g & f & a & n' & Hi & Hm & ->); cbv beta in Hm.

(** The section and the continuation of an action. *)
Ltac at_done Hm := apply (inj Some), (inj2 pair) in Hm; destruct Hm as [Hm <-]; cbn [fst snd].

Lemma exec1_loop c act c' :
  match act with Tick _ | Begin _ | Count _ _ | NoVote _ _ | End _ | Heartbeat _ | Broadcast _ => True
  | _ => False end ->
  exec1 c act = Some c' -> step cfg_of c c'.
Proof.
  destruct act; cbn [exec1]; try done; intros _ H; at_proc H.
  - destruct run; try done. destruct (timer_ready _) eqn:Ht; [|done]. at_done Hm. by eapply step_tick.
  - destruct run; try done. at_done Hm. by eapply step_begin.
  - destruct run as [| |el|]; try done.
    destruct (find_peer _ _) as [peer|] eqn:Ef; cbn [mbind option_bind] in Hm; [|done].
    apply find_peer_in in Ef as [Hp Hid].
    destruct (pick_msg _ _) as [r|] eqn:Ep; cbn [mbind option_bind] in Hm; [|done]. at_done Hm.
    apply pick_msg_in in Ep as ([] & Hin & Hf); try done. case_bool_decide as Hb; [|done].
    destruct Hb as [-> ->]. injection Hf as ->. subst voter. by eapply step_count.
  - destruct run as [| |el|]; try done.
    destruct (find_peer _ _) as [peer|] eqn:Ef; cbn [mbind option_bind] in Hm; [|done].
    apply find_peer_in in Ef as [Hp Hid]. at_done Hm. by eapply step_novote.
  - destruct run as [| |el|]; try done. case_bool_decide as Hb; [|done].
    at_done Hm. destruct a. eapply step_end; [done| |done]. by destruct (el_waiting el).
  - destruct run; try done. destruct (timer_ready _) eqn:Ht; [|done]. at_done Hm. by eapply step_heartbeat.
  - destruct run; try done. at_done Hm. destruct a. by eapply step_broadcast.
Qed.

Lemma answer_to_spec net peer k p call req r : answer_to net peer (k, p, call) = Some (req, r) ->
  call = CallAppend req /\ RepAppend k r ∈ net.
Proof.
  unfold answer_to. destruct call as [|req']; [done|]. case_bool_decide; [|done].
  intros ([] & Hin & Hf)%pick_msg_in; try done. case_bool_decide; [|done]. by simplify_eq.
Qed.

Lemma exec1_step c act c' : exec1 c act = Some c' -> step cfg_of c c'.
Proof.
  destruct act; try by apply exec1_loop. all: cbn [exec1]; intros H.
  - destruct (pick_msg _ _) as [req|] eqn:Ep; [|done]. at_proc H. at_done Hm.
    apply pick_msg_in in Ep as ([] & Hin & Hf); try done. case_bool_decide as Hb; [|done].
    destruct Hb as [-> _]. injection Hf as ->. by eapply step_vote.
  - at_proc H. destruct (split_at _ _) as [[[[ts1 t] p] ts2]|] eqn:Es; cbn [mbind option_bind] in Hm; [|done].
    at_done Hm. apply split_at_in in Es as [Hts Ht]. unfold replicates in Ht. destruct t; try done.
    case_bool_decide; [|done]. injection Ht as ->. by eapply step_replicate.
  - destruct (pick_msg _ _) as [[k req]|] eqn:Ep; [|done]. at_proc H. at_done Hm.
    apply pick_msg_in in Ep as ([] & Hin & Hf); try done. case_bool_decide as Hb; [|done].
    destruct Hb as [-> _]. injection Hf as -> ->. by eapply step_append.
  - at_proc H. destruct g as [cs ss ps]. cbn [g_calls g_snaps g_clients] in *.
    destruct (split_at _ _) as [[[[cs1 [[k p] call]] [req r]] cs2]|] eqn:Es;
      cbn [mbind option_bind] in Hm; [|done].
    at_done Hm. apply split_at_in in Es as [-> Ha]. apply answer_to_spec in Ha as [-> Hin]. destruct a.
    by eapply step_append_reply.
  - at_proc H. at_done Hm. by eapply step_propose.
  - at_proc H. destruct g as [cs ss ps]. cbn [g_calls g_snaps g_clients] in *.
    destruct (split_at _ _) as [[[[ps1 p] [index ch]] ps2]|] eqn:Es; cbn [mbind option_bind] in Hm; [|done].
    at_done Hm. apply split_at_in in Es as [-> Hp]. destruct p; [|done]. injection Hp as -> ->. destruct a.
    by eapply step_propose_send.
  - at_proc H. destruct (split_at _ _) as [[[[ts1 t] u] ts2]|] eqn:Es; cbn [mbind option_bind] in Hm; [|done].
    at_done Hm. apply split_at_in in Es as [Hts Ht]. destruct t; try done. destruct a. by eapply step_apply.
  - at_proc H. destruct (NewRaftNode _ _ _ _ _) as [|n0] eqn:En; [done|].
    at_done Hm. destruct a. by eapply step_restart.
Qed.

(** ** The initial cluster *)

Definition empty_db : db := mkdb ∅ 0.

Definition boot_proc (i : NodeID) : option (Proc reliable_bolt MemoryEngine) :=
  match NewRaftNode (B := reliable_bolt) (fun _ => None) (fun _ => inr empty_db) (cfg_of i)
          NewMemoryEngine [] with
  | inl _ => None
  | inr n0 =>
      match Start n0 with
      | Done (_, n) => Some (mkProc n Idle no_goroutines)
      | Panic _ => None
      end
  end.

Fixpoint boot_procs (ids : list NodeID) : option (gmap NodeID (Proc reliable_bolt MemoryEngine)) :=
  match ids with
  | [] => Some ∅
  | i :: ids => boot_proc i ≫= fun p => boot_procs ids ≫= fun m => Some (<[i := p]> m)
  end.

Definition boot (ids : list NodeID) : option cluster :=
  boot_procs ids ≫= fun m => Some (mkCluster m [] 0).

Lemma boot_proc_fresh i p : boot_proc i = Some p -> fresh_proc cfg_of i p.
Proof.
  unfold boot_proc. destruct (NewRaftNode _ _ _ _ _) as [|n0] eqn:En; [done|].
  destruct (Start n0) as [[[] n]|] eqn:Es; [|done]. intros [= <-].
  by exists empty_db, NewMemoryEngine, [], n0.
Qed.

Lemma boot_procs_spec ids m i : boot_procs ids = Some m ->
  match m !! i with
  | Some p => i ∈ ids /\ fresh_proc cfg_of i p
  | None => i ∉ ids
  end.
Proof.
  revert m. induction ids as [|j ids IH]; intros m; simpl.
  { intros [= <-]. rewrite lookup_empty. apply not_elem_of_nil. }
  destruct (boot_proc j) as [p|] eqn:Ep; simpl; [|done].
  destruct (boot_procs ids) as [m'|]; simpl; [|done]. intros [= <-]. specialize (IH _ eq_refl).
  rewrite lookup_insert. case_decide as Hj.
  - subst. split; [constructor|]. by apply boot_proc_fresh.
  - destruct (m' !! i); [destruct IH; split; [by constructor|done]|].
    by intros [?|?]%elem_of_cons.
Qed.

Lemma boot_initial ids c : boot ids = Some c -> initial ids cfg_of c.
Proof.
  unfold boot. destruct (boot_procs ids) as [m|] eqn:Eb; simpl; [|done]. intros [= <-].
  split; [done|]. intros i. by apply boot_procs_spec.
Qed.

Lemma exec_reachable_from ids k c acts c' : reachable ids cfg_of k c ->
  exec c acts = Some c' -> reachable ids cfg_of (k + length acts) c'.
Proof.
  revert k c. induction acts as [|a acts IH]; intros k c Hr; simpl.
  { intros [= <-]. by rewrite Nat.add_0_r. }
  destruct (exec1 c a) as [c1|] eqn:Ea; simpl; [|done]. intros He.
  rewrite Nat.add_succ_r, <-Nat.add_succ_l. eapply IH; [|done].
  econstructor; [done|]. by eapply exec1_step.
Qed.

(** Run a schedule from the start of the cluster [ids]. *)
Definition run_from (ids : list NodeID) (acts : list Action) : option cluster :=
  boot ids ≫= fun c => exec c acts.

Lemma exec_reachable ids acts c : run_from ids acts = Some c ->
  reachable ids cfg_of (length acts) c.
Proof.
  unfold run_from. destruct (boot ids) as [c0|] eqn:Eb; simpl; [|done]. intros He.
  eapply (exec_reachable_from _ 0); [|done]. constructor. by apply boot_initial.
Qed.

End exec.

(** ** Example clusters *)

(** The configuration of [i] in the cluster [ids], with the default timeouts. *)
Definition example_cfg (ids : list NodeID) (i : NodeID) : Config :=
  mkConfig (mkNodeConfig i (i ++ ":7001"))
    ((fun j => mkNodeConfig j (j ++ ":7001")) <$> filter (fun j => j <> i) ids)
    (mkRaftConfig 150 300 50 10000) (mkStorageConfig "memory" "./data") (mkServerConfig ":8080").

Definition three : list NodeID := ["a"; "b"; "c"].
Definition four : list NodeID := ["a"; "b"; "c"; "d"].

(** [i] is elected with the votes of [voters] while the requests to [others]
    fail. *)
Definition elect (i : NodeID) (voters others : list NodeID) : list Action :=
  ([Tick i; Begin i] ++ ((fun v => Vote v i) <$> voters) ++ ((fun v => Count i v) <$> voters)
   ++ ((fun v => NoVote i v) <$> others) ++ [End i])%list.

(** [i] sends to [peer], which answers. *)
Definition send (i peer : NodeID) : list Action := [Replicate i peer; Accept peer i; Ack i peer].

(** A heartbeat of [i], as far as [peer] is concerned. *)
Definition sync (i peer : NodeID) : list Action := (Heartbeat i :: Broadcast i :: send i peer)%list.

(** A boolean view of [leader_at]. *)
Definition is_leader_at (c : cluster) (i : NodeID) (t : Term) : bool :=
  match c_procs c !! i with
  | Some p => bool_decide (n_state (p_node p) = Leader) && (n_currentTerm (p_node p) =? t)%N
  | None => false
  end.

Lemma is_leader_at_spec (c : cluster) i t : is_leader_at c i t = true -> leader_at c i t.
Proof.
  unfold is_leader_at, leader_at. destruct (c_procs c !! i) as [p|]; [|done].
  intros ?. bool_props. eauto.
Qed.

(** A check on the cluster a schedule leads to. *)
Definition ends_with (ids : list NodeID) (acts : list Action) (test : cluster -> bool) : bool :=
  match run_from (example_cfg ids) ids acts with
  | Some c => test c
  | None => false
  end.

Lemma ends_with_reachable ids acts test : ends_with ids acts test = true ->
  exists c, reachable ids (example_cfg ids) (length acts) c /\ test c = true.
Proof.
  unfold ends_with. destruct (run_from _ _ _) as [c|] eqn:Er; [|done]. intros Ht.
  exists c. split; [|done]. by apply exec_reachable.
Qed.

Lemma example_configured ids : NoDup ids ->
  (forall i, i ∈ ids -> i <> "" /\ utf8_string i /\ short_id i) ->
  configured ids (example_cfg ids).
Proof.
  intros Hnd Hids. split; try done. intros i Hi. cbn [cfg_Peers example_cfg].
  rewrite <-list_fmap_compose. unfold compose. cbn [nc_ID]. rewrite list_fmap_id.
  apply NoDup_Permutation; [|done|].
  - apply NoDup_cons. split; [|by apply NoDup_filter]. intros Hc. by apply list_elem_of_filter in Hc as [? _].
  - intros j. rewrite elem_of_cons, list_elem_of_filter. destruct (decide (j = i)) as [->|?]; tauto.
Qed.

Lemma three_configured : configured three (example_cfg three).
Proof.
  apply example_configured; [by apply (bool_decide_unpack _); vm_compute|].
  intros i Hi. unfold three in Hi. repeat (apply elem_of_cons in Hi as [->|Hi]); [..|by apply elem_of_nil in Hi];
    by split_and!; vm_compute.
Qed.
