(* ===== verification/Scenarios.v ===== *)
(** * Executions that lose what Raft promises

    Two executions of the cluster model, evaluated step by step: with four nodes
    two of them lead the same term, and with three nodes two state machines
    differ although both applied the same committed prefix.  The first shows that
    the odd cluster size [election_safety] asks for is needed; the second is what
    the dropped entry of [HandleAppendEntries] leads to. *)

From S2P Require Import Prelude GoJson Types Config Bolt RaftLog LeaderState Storage RaftNode.
From S2P Require Import Membership Transaction Api System Exec.
Import MapBolt.

Local Open Scope string_scope.

Lemma four_configured : configured four (example_cfg four).
Proof.
  apply example_configured; [by apply (bool_decide_unpack _); vm_compute|].
  intros i Hi. unfold four in Hi. repeat (apply elem_of_cons in Hi as [->|Hi]); [..|by apply elem_of_nil in Hi];
    by split_and!; vm_compute.
Qed.

(** "b" votes for "a" and "d" for "c", each pair apart from the other. *)
Definition split_votes : list Action :=
  (elect "a" ["b"] ["c"; "d"] ++ elect "c" ["d"] ["a"; "b"])%list.

Definition both_lead (c : cluster) : bool := is_leader_at c "a" 1 && is_leader_at c "c" 1.

Lemma split_votes_run : ends_with four split_votes both_lead = true.
Proof. by vm_compute. Qed.

(** C33: split brain.  A correctly configured cluster of four reaches a state in
    which two nodes lead the same term: [len(peers)/2 + 1] is two, and two of
    four are not a majority. *)
Theorem split_brain : exists k (c : cluster), configured four (example_cfg four) /\
  reachable four (example_cfg four) k c /\ leader_at c "a" 1 /\ leader_at c "c" 1.
Proof.
  destruct (ends_with_reachable _ _ _ split_votes_run) as (c & Hr & Ht).
  unfold both_lead in Ht. bool_props. exists (length split_votes), c.
  split; [exact four_configured|]. split; [done|]. split; by apply is_leader_at_spec.
Qed.

(** ** A lost write *)

Definition put_x : Command := mkCommand OpPut "x" [x31] [].

Definition put_y : Command := mkCommand OpPut "y" [x32] [].

(** "a" leads term 1 and logs the write of x; "b" leads term 2 without it and
    logs only its no-op; "a" restarts, leads term 3 with the vote of "c"
    and replicates to "b", which truncates its no-op and drops the write.  A
    second write makes "b" go on after the entry it could not read. *)
Definition lost_write_run : list Action :=
  (elect "a" ["b"] ["c"] ++ sync "a" "b" ++ [Client "a" put_x]
   ++ elect "b" ["c"] ["a"] ++ [Restart "a"]
   ++ elect "a" [] ["b"; "c"] ++ elect "a" ["c"] ["b"]
   ++ sync "a" "b" ++ sync "a" "b" ++ [Apply "a"] ++ sync "a" "b" ++ [Apply "b"]
   ++ [Client "a" put_y; ClientSend "a"] ++ send "a" "b" ++ [Apply "a"] ++ sync "a" "b" ++ [Apply "b"])%list.

(** Node [i] applied everything up to [k], all of it committed, and holds [v] at
    "x". *)
Definition holds_x (c : cluster) (i : NodeID) (k : N) (v : option bytes) : Prop :=
  exists p, c_procs c !! i = Some p /\ n_commitIndex (p_node p) = k /\ n_lastApplied (p_node p) = k /\
    eng_view (n_storage (p_node p)) !! "x" = v.

Definition holds_x_b (c : cluster) (i : NodeID) (k : N) (v : option bytes) : bool :=
  match c_procs c !! i with
  | Some p => (n_commitIndex (p_node p) =? k)%N && (n_lastApplied (p_node p) =? k)%N
      && bool_decide (eng_view (n_storage (p_node p)) !! "x" = v)
  | None => false
  end.

Lemma holds_x_b_spec c i k v : holds_x_b c i k v = true -> holds_x c i k v.
Proof.
  unfold holds_x_b, holds_x. destruct (c_procs c !! i) as [p|]; [|done].
  intros ?. bool_props. eauto 6.
Qed.

Definition diverged (c : cluster) : bool :=
  is_leader_at c "a" 3 && (holds_x_b c "a" 4 (Some [x31]) && holds_x_b c "b" 4 None).

Lemma lost_write_runs : ends_with three lost_write_run diverged = true.
Proof. by vm_compute. Qed.

(** C34: a committed write is lost.  A correctly configured cluster of three
    reaches a state in which the leader "a" and its follower "b" have both
    committed and applied the log up to index 4, and the write of "x" is in the
    store of "a" and not in that of "b".  Every step of the execution runs where
    the code gets there: a timer that fired, a goroutine that was started once
    and runs once, the reply to a call. *)
Theorem lost_write : exists k (c : cluster), configured three (example_cfg three) /\
  reachable three (example_cfg three) k c /\
  leader_at c "a" 3 /\ holds_x c "a" 4 (Some [x31]) /\ holds_x c "b" 4 None.
Proof.
  destruct (ends_with_reachable _ _ _ lost_write_runs) as (c & Hr & Ht).
  unfold diverged in Ht. bool_props. exists (length lost_write_run), c.
  split; [exact three_configured|]. split; [done|].
  split; [by apply is_leader_at_spec|]. split; by apply holds_x_b_spec.
Qed.
