(* ===== verification/ElectionSafety.v ===== *)
(** * Election safety

    In a cluster with an odd number of nodes no two nodes are ever leaders of
    the same term.  The invariant ties the votes that the network has seen to
    the term and the vote each node has on disk; the argument is the usual one
    (a node votes once per term, two majorities intersect), carried out on the
    handlers of raft.go, with lost, repeated and reordered messages, and
    crashes. *)

From S2P Require Import Prelude GoJson Types Config Bolt RaftLog LeaderState Storage RaftNode.
From S2P Require Import RaftNodeSpec Membership Transaction Api System Exec.
Import Utf8 Json.

Local Open Scope string_scope.

Section election.
Context {B : Bolt} {L : BoltLaws B} `{!BoltReliable B} {E : Type} {X : Engine E}.
Context (ids : list NodeID) (cfg_of : NodeID -> Config).
Implicit Types (net : list Msg) (n : RaftNode B E) (p : Proc B E) (c : Cluster B E).

Definition peers_of (i : NodeID) : list Peer :=
  (fun q => mkPeer (nc_ID q) (nc_Addr q)) <$> cfg_Peers (cfg_of i).

(** ** Votes *)

(** In term [t], [j] gave its vote to [a]: it answered a request with a grant,
    or it asked for votes itself. *)
Definition voted net (j : NodeID) (t : Term) (a : NodeID) : Prop :=
  (exists req r resp, RepVote j req r ∈ net /\ Decode (rs_body r) = Some resp /\
    rvr_VoteGranted resp = true /\ rv_Term req = t /\ rv_CandidateID req = a) \/
  (j = a /\ exists to req, ReqVote to req ∈ net /\ rv_Term req = t /\ rv_CandidateID req = a).

Definition majority_for net (i : NodeID) (t : Term) : Prop :=
  exists vs, NoDup vs /\ vs ⊆ ids /\ (forall v, v ∈ vs -> voted net v t i) /\
    is_majority (length vs) (length ids).

(** ** The invariant *)

(** Messages are in range, and no term is higher than [k]. *)
Definition msg_ok (k : N) net (m : Msg) : Prop :=
  match m with
  | ReqVote to req => j_ok req /\ rv_CandidateID req ∈ ids /\ (rv_Term req <= k)%N
  | RepVote j req r => j ∈ ids /\ ReqVote j req ∈ net /\ exists resp : RequestVoteResponse,
      r = writeJSON StatusOK (to_json resp) /\ j_ok resp /\ (rvr_Term resp <= k)%N
  | ReqAppend _ _ req => j_ok req /\ (ae_Term req <= k)%N
  | RepAppend _ r => exists resp : AppendEntriesResponse,
      r = writeJSON StatusOK (to_json resp) /\ j_ok resp /\ (aer_Term resp <= k)%N
  | ReqSnapshot _ _ req => j_ok req /\ (is_Term req <= k)%N
  | RepSnapshot _ r => exists resp : InstallSnapshotResponse,
      r = writeJSON StatusOK (to_json resp) /\ j_ok resp /\ (isr_Term resp <= k)%N
  end.

(** An election in progress: the votes counted so far come from different peers
    that have answered. *)
Record election_ok net (i : NodeID) n (el : Election) : Prop := {
  eo_cand : rv_CandidateID (el_req el) = i;
  eo_term : (rv_Term (el_req el) <= n_currentTerm n)%N;
  eo_current : n_state n = Candidate -> n_currentTerm n = rv_Term (el_req el);
  eo_quorum : el_quorum el = election_quorum (peers_of i);
  eo_waiting : el_waiting el ⊆ peers_of i;
  eo_nodup : NoDup (peer_ID <$> el_waiting el);
  eo_votes : exists vs, NoDup vs /\ vs ⊆ (peer_ID <$> peers_of i) /\
    (forall v, v ∈ vs -> (v ∉ (peer_ID <$> el_waiting el)) /\ voted net v (rv_Term (el_req el)) i) /\
    el_votes el = S (length vs) /\
    (el_won el = true -> vs <> [] /\ (el_quorum el <= el_votes el)%nat)
}.

Definition run_ok net (i : NodeID) n (run : Run) : Prop :=
  match run with
  | Collecting el => election_ok net i n el
  | _ => True
  end.

Record proc_ok (k : N) net (i : NodeID) p : Prop := {
  po_inv : node_inv (p_node p);
  po_durable : durable (p_node p);
  po_id : n_id (p_node p) = i;
  po_peers : n_peers (p_node p) = peers_of i;
  po_term : (n_currentTerm (p_node p) <= k)%N;
  po_voted t a : voted net i t a ->
    (t <= n_currentTerm (p_node p))%N /\
    (t = n_currentTerm (p_node p) -> n_votedFor (p_node p) = a);
  po_run : run_ok net i (p_node p) (p_run p);
  po_leader : n_state (p_node p) = Leader -> majority_for net i (n_currentTerm (p_node p))
}.

Record inv (k : N) c : Prop := {
  iv_dom i : is_Some (c_procs c !! i) <-> i ∈ ids;
  iv_net : Forall (msg_ok k (c_net c)) (c_net c);
  iv_proc i p : c_procs c !! i = Some p -> proc_ok k (c_net c) i p;
  iv_once j t a b : voted (c_net c) j t a -> voted (c_net c) j t b -> a = b
}.

(** ** Monotonicity *)

Lemma voted_mono net net' j t a : net ⊆ net' -> voted net j t a -> voted net' j t a.
Proof.
  intros Hs [(req & r & resp & ? & ?)|(? & to & req & ? & ?)]; [left|right].
  - exists req, r, resp. split; [by apply Hs|done].
  - split; [done|]. exists to, req. split; [by apply Hs|done].
Qed.

Lemma msg_ok_mono k k' net net' m : (k <= k')%N -> net ⊆ net' -> msg_ok k net m -> msg_ok k' net' m.
Proof.
  intros Hk Hs. destruct m; cbn [msg_ok]; try (intros [? ?]; split; [done|lia]).
  - intros (? & ? & ?). split; [done|]. split; [done|lia].
  - intros (? & ? & resp & ? & ? & ?). split; [done|]. split; [by apply Hs|].
    exists resp. split; [done|]. split; [done|lia].
  - intros (resp & ? & ? & ?). exists resp. split; [done|]. split; [done|lia].
  - intros (resp & ? & ? & ?). exists resp. split; [done|]. split; [done|lia].
Qed.

Lemma majority_mono net net' i t : net ⊆ net' -> majority_for net i t -> majority_for net' i t.
Proof.
  intros Hs (vs & ? & ? & Hv & ?). exists vs. split_and!; [done..| |done].
  intros v ?. by eapply voted_mono, Hv.
Qed.

Lemma election_mono net net' i n el : net ⊆ net' -> election_ok net i n el -> election_ok net' i n el.
Proof.
  intros Hs []. split; try done. destruct eo_votes0 as (vs & ? & ? & Hv & ? & ?).
  exists vs. split_and!; try done. intros v Hin. destruct (Hv v Hin). split; [done|].
  by eapply voted_mono.
Qed.

Lemma proc_mono k k' net net' i p : (k <= k')%N -> net ⊆ net' ->
  (forall t a, voted net' i t a -> voted net i t a) -> proc_ok k net i p -> proc_ok k' net' i p.
Proof.
  intros Hk Hs Hv []. split; [done..|lia| | |].
  - intros t a ?. by apply po_voted0, Hv.
  - destruct (p_run p); simpl in *; try done. by eapply election_mono.
  - intros ?. eapply majority_mono; [done|auto].
Qed.

(** One process moves on; only it can have cast new votes. *)
Lemma inv_upd k c i p' msgs : inv k c -> is_Some (c_procs c !! i) ->
  Forall (msg_ok (k + 1) (msgs ++ c_net c)) msgs ->
  (forall j t a, j <> i -> voted (msgs ++ c_net c) j t a -> voted (c_net c) j t a) ->
  (forall t a b, voted (msgs ++ c_net c) i t a -> voted (msgs ++ c_net c) i t b -> a = b) ->
  proc_ok (k + 1) (msgs ++ c_net c) i p' ->
  inv (k + 1) (upd c i p' msgs).
Proof.
  intros [Hdom Hnet Hproc Honce] Hi Hmsgs Hother Hown Hp'.
  assert (c_net c ⊆ (msgs ++ c_net c)%list) as Hs by (intros m ?; apply elem_of_app; by right).
  split; simpl.
  - intros j. rewrite <-Hdom. destruct (decide (i = j)) as [<-|Hne].
    + rewrite lookup_insert_eq. by split; eauto.
    + by rewrite lookup_insert_ne.
  - apply Forall_app. split; [done|]. eapply Forall_impl; [exact Hnet|].
    intros m. apply msg_ok_mono; [lia|done].
  - intros j p [[<- <-]|[? Hj]]%lookup_insert_Some; [done|].
    eapply proc_mono; [|exact Hs| |by apply Hproc]; [lia|]. intros t a. by apply Hother.
  - intros j t a b Ha Hb. destruct (decide (j = i)) as [->|Hne]; [by eapply Hown|].
    eapply Honce; by apply Hother.
Qed.

(** Messages that carry no vote. *)
Definition no_vote (m : Msg) : Prop :=
  match m with
  | ReqVote _ _ | RepVote _ _ _ => False
  | _ => True
  end.

Lemma voted_no_vote msgs net j t a : Forall no_vote msgs -> voted (msgs ++ net) j t a -> voted net j t a.
Proof.
  rewrite Forall_forall. intros Hnv.
  intros [(req & r & resp & Hin & ?)|(? & to & req & Hin & ?)]; [left|right].
  - exists req, r, resp. split; [|done].
    apply elem_of_app in Hin as [Hin|?]; [by apply Hnv in Hin|done].
  - split; [done|]. exists to, req. split; [|done].
    apply elem_of_app in Hin as [Hin|?]; [by apply Hnv in Hin|done].
Qed.

(** The term and the vote are on disk after a step, when they were before. *)
Lemma quiet_durable n n' : durable n -> quiet n n' -> durable n'.
Proof. unfold durable. intros Hd [_ [= -> -> _] Hm _]. by rewrite Hm. Qed.

Lemma down_durable n t n' : durable n -> quiet_or_down n t n' -> durable n'.
Proof.
  intros Hd [Hq|[_ [_ [= E1 E2 _] Hs Hn']]]; [by eapply quiet_durable|]. unfold durable. rewrite E1, E2.
  apply saved_durable; [done|rewrite <-E1; apply Hn'|by vm_compute..].
Qed.

(** A process that keeps its term, vote and role or steps down, and casts no
    vote. *)
Lemma proc_quiet_or_down k net i p n' run' g' t : proc_ok k net i p ->
  quiet_or_down (p_node p) t n' -> (t <= k + 1)%N -> run_ok net i n' run' ->
  proc_ok (k + 1) net i (mkProc n' run' g').
Proof.
  intros [] Hq Ht Hrun. destruct (quiet_or_down_inv _ _ _ Hq) as [Hn' Hc].
  pose proof (sc_id _ _ Hc). pose proof (sc_peers _ _ Hc). pose proof (down_durable _ _ _ po_durable0 Hq) as Hd.
  destruct Hq as [[_ [= E1 E2 E3] _ _]|[Hlt [_ [= E1 E2 E3] _ _]]].
  - split; simpl; [done|done|congruence|congruence|lia| |done|].
    + rewrite E1, E2. apply po_voted0.
    + rewrite E1, E3. done.
  - split; simpl; [done|done|congruence|congruence|lia| |done|congruence].
    intros t' a Hv. apply po_voted0 in Hv as [? _]. lia.
Qed.

(** Then an election in progress goes on. *)
Lemma run_keep net i n n' t run : run_ok net i n run -> quiet_or_down n t n' -> run_ok net i n' run.
Proof.
  destruct run as [| |el|]; simpl; try done. intros [] Hq.
  destruct Hq as [[_ [= E1 E2 E3] _ _]|[Hlt [_ [= E1 E2 E3] _ _]]]; split; try done;
    rewrite ?E1, ?E3; done || lia.
Qed.

Lemma inv_quiet_or_down k c i p n' run' g' msgs t : inv k c -> c_procs c !! i = Some p ->
  quiet_or_down (p_node p) t n' -> (t <= k + 1)%N -> Forall no_vote msgs ->
  Forall (msg_ok (k + 1) (msgs ++ c_net c)) msgs -> run_ok (c_net c) i n' run' ->
  inv (k + 1) (upd c i (mkProc n' run' g') msgs).
Proof.
  intros Hinv Hi Hq Ht Hnv Hmsgs Hrun.
  assert (c_net c ⊆ (msgs ++ c_net c)%list) as Hs by (intros m ?; apply elem_of_app; by right).
  assert (forall j t a, voted (msgs ++ c_net c) j t a -> voted (c_net c) j t a) as Hv.
  { intros j t' a. by apply voted_no_vote. }
  apply inv_upd; [done|by eexists|done|auto| |].
  - intros t' a b Ha Hb. eapply (iv_once _ _ Hinv); by apply Hv.
  - eapply proc_mono; [reflexivity|exact Hs|apply Hv|].
    eapply proc_quiet_or_down; [by apply (iv_proc _ _ Hinv)|done|done|done].
Qed.

(** ** Messages through the transport *)

(** The client decodes what the server wrote. *)
Lemma got_writeJSON {Q R} `{JsonCodec Q} `{JsonLaws R} peer path (req : Q) (resp : R) :
  j_ok resp -> got peer path req (writeJSON StatusOK (to_json resp)) = inr (j_san resp).
Proof.
  intros Hok. pose proof (Decode_Marshal resp [x0a] Hok eq_refl) as Hd. unfold Marshal in Hd.
  unfold got, rpc, writeJSON. cbn [rs_status rs_body]. rewrite Hd. done.
Qed.

Lemma san_request req : utf8_string (rv_CandidateID req) -> j_san req = req.
Proof. intros Hu. destruct req. simpl in *. by rewrite (san_utf8 _ Hu). Qed.

Lemma Done_bind_ret {S A C} (m : M S A) (f : A -> C) s r s' :
  bind m (fun a => ret (f a)) s = Done (r, s') -> exists a, m s = Done (a, s') /\ r = f a.
Proof. unfold bind, ret. destruct (m s) as [[a s1]|]; [|done]. intros [= <- <-]. eauto. Qed.

(** ** The votes of the cluster *)

Context (Hcf : configured ids cfg_of).

Lemma id_ok_ids i : i ∈ ids -> id_ok i.
Proof. intros Hi. apply (cf_ids _ _ Hcf i Hi). Qed.

Lemma peer_ids i : peer_ID <$> peers_of i = nc_ID <$> cfg_Peers (cfg_of i).
Proof. unfold peers_of. by rewrite <-list_fmap_compose. Qed.

Lemma peers_perm i : i ∈ ids -> i :: (peer_ID <$> peers_of i) ≡ₚ ids.
Proof. intros Hi. rewrite peer_ids. by apply Hcf. Qed.

Lemma peers_nodup i : i ∈ ids -> NoDup (i :: (peer_ID <$> peers_of i)).
Proof. intros Hi. rewrite peers_perm by done. apply Hcf. Qed.

Lemma peers_length i : i ∈ ids -> length ids = S (length (peers_of i)).
Proof. intros Hi. rewrite <-(peers_perm i Hi). simpl. by rewrite length_fmap. Qed.

Lemma voted_cand k c j t a : inv k c -> voted (c_net c) j t a -> a ∈ ids.
Proof.
  intros Hinv. pose proof (iv_net _ _ Hinv) as Hnet. rewrite Forall_forall in Hnet.
  intros [(req & r & resp & Hin & _ & _ & _ & <-)|(_ & to & req & Hin & _ & <-)].
  - destruct (Hnet _ Hin) as (_ & Hin' & _). by destruct (Hnet _ Hin') as (_ & ? & _).
  - by destruct (Hnet _ Hin) as (_ & ? & _).
Qed.

(** A candidate that got a vote from another node asked for it. *)
Lemma voted_self k c j t a : inv k c -> voted (c_net c) j t a -> voted (c_net c) a t a.
Proof.
  intros Hinv. pose proof (iv_net _ _ Hinv) as Hnet. rewrite Forall_forall in Hnet.
  intros [(req & r & resp & Hin & _ & _ & Ht & Ha)|(_ & to & req & Hin & Ht & Ha)]; right.
  - destruct (Hnet _ Hin) as (_ & Hin' & _). split; [done|]. eauto.
  - split; [done|]. eauto.
Qed.

(** The vote added by a reply. *)
Lemma voted_reply net i req r resp j t a : Decode (rs_body r) = Some resp ->
  voted (RepVote i req r :: net) j t a <->
  voted net j t a \/ (j = i /\ rvr_VoteGranted resp = true /\ rv_Term req = t /\ rv_CandidateID req = a).
Proof.
  intros Hd. split.
  - intros [(req' & r' & resp' & Hin & Hd' & Hg & Ht & Ha)|(? & to & req' & Hin & ?)].
    + apply elem_of_cons in Hin as [[= -> -> ->]|Hin]; [|left; left; naive_solver].
      right. rewrite Hd in Hd'. injection Hd' as <-. done.
    + apply elem_of_cons in Hin as [?|Hin]; [done|]. left. right. naive_solver.
  - intros [Hv|(-> & Hg & Ht & Ha)]; [eapply voted_mono; [|done]; intros m ?; by constructor|].
    left. exists req, r, resp. split_and!; try done. constructor.
Qed.

(** The votes added by the requests of an election. *)
Lemma voted_requests net i (peers : list Peer) req j t a : rv_CandidateID req = i ->
  voted (((fun q => ReqVote (peer_ID q) req) <$> peers) ++ net) j t a ->
  voted net j t a \/ (j = i /\ t = rv_Term req /\ a = i).
Proof.
  intros Hc. intros [(req' & r & resp & Hin & ?)|(-> & to & req' & Hin & Ht & Ha)].
  - apply elem_of_app in Hin as [Hin|Hin].
    + by apply list_elem_of_fmap in Hin as (? & ? & _).
    + left. left. naive_solver.
  - apply elem_of_app in Hin as [Hin|Hin].
    + apply list_elem_of_fmap in Hin as (q & [= -> ->] & _). right. by subst.
    + left. right. naive_solver.
Qed.

(** ** Voting *)

(** The vote a node gives agrees with every vote it has given in that term. *)
Lemma new_vote_agrees k c i p t cand n' t' a :
  inv k c -> c_procs c !! i = Some p -> voted_for (p_node p) t cand n' ->
  voted (c_net c) i t' a -> (t' <= t)%N /\ (t' = t -> a = cand).
Proof.
  intros Hinv Hi [_ _ _ _ _ _ Hfree] Hv. pose proof (voted_cand _ _ _ _ _ Hinv Hv) as Ha.
  destruct (po_voted _ _ _ _ (iv_proc _ _ Hinv i p Hi) _ _ Hv) as [Hle Heq].
  destruct Hfree as [[? _]|(<- & Hf & _)]; [lia|]. split; [done|]. intros E'.
  specialize (Heq E'). destruct (id_ok_ids a Ha) as [? _]. destruct Hf; congruence.
Qed.

Lemma proc_granted k c i p t cand n' g' net' :
  inv k c -> c_procs c !! i = Some p -> voted_for (p_node p) t cand n' -> cand ∈ ids -> (t <= k)%N ->
  c_net c ⊆ net' ->
  (forall t' a, voted net' i t' a -> voted (c_net c) i t' a \/ (t' = t /\ a = cand)) ->
  proc_ok (k + 1) net' i (mkProc n' (p_run p) g').
Proof.
  intros Hinv Hi Hvf Hcand Ht Hs Hv. destruct (iv_proc _ _ Hinv i p Hi).
  pose proof Hvf as [[] Hn' Et Ev _ Hsave Hfree].
  split; simpl; [done| |congruence|congruence|lia| | |].
  - unfold durable. rewrite Et, Ev. destruct (id_ok_ids _ Hcand) as (_ & ? & ?).
    apply saved_durable; [done|rewrite <-Et; apply Hn'|done..].
  - intros t' a Ha. rewrite Et, Ev. destruct (Hv _ _ Ha) as [Hold|[-> ->]]; [|done].
    destruct (new_vote_agrees _ _ _ _ _ _ _ _ _ Hinv Hi Hvf Hold) as [? Hag].
    split; [done|]. intros ?. symmetry. auto.
  - destruct (p_run p) as [| |el|]; simpl; try done. eapply election_mono; [exact Hs|].
    destruct po_run0. split; try done; rewrite ?Et.
    + destruct Hfree as [[? _]|(? & _)]; lia.
    + destruct Hfree as [[_ ->]|(<- & _ & ->)]; [done|auto].
  - rewrite Et. destruct Hfree as [[_ ->]|(<- & _ & ->)]; [done|].
    intros ?. eapply majority_mono; [exact Hs|auto].
Qed.

Lemma step_vote_inv k c i n run g g' req r n' : inv k c ->
  c_procs c !! i = Some (mkProc n run g) -> ReqVote i req ∈ c_net c ->
  api_handleRequestVote (Marshal req) n = Done (r, n') ->
  inv (k + 1) (upd c i (mkProc n' run g') [RepVote i req r]).
Proof.
  intros Hinv Hi Hreq. pose proof (iv_proc _ _ Hinv _ _ Hi) as Hp.
  pose proof (iv_net _ _ Hinv) as Hnet. rewrite Forall_forall in Hnet.
  destruct (Hnet _ Hreq) as (Hok & Hcand & Ht). destruct (id_ok_ids _ Hcand) as (_ & Hu & Hs).
  unfold api_handleRequestVote. rewrite (Decode_body req Hok), (san_request req Hu).
  intros (resp & Hr & ->)%Done_bind_ret.
  eapply wp_elim in Hr; [|apply wp_HandleRequestVote; [apply Hp|done..]].
  destruct Hr as (Hterm & Hn' & Hgrant).
  assert (j_ok resp) as Hjok by (simpl; rewrite Hterm; apply Hn').
  assert (Decode (rs_body (writeJSON StatusOK (to_json resp))) = Some (j_san resp)) as Hd.
  { exact (Decode_Marshal resp [x0a] Hjok eq_refl). }
  assert (c_net c ⊆ (RepVote i req (writeJSON StatusOK (to_json resp)) :: c_net c)) as Hsub.
  { intros m ?. by constructor. }
  assert (n_currentTerm n' <= k)%N as Hle.
  { destruct (rvr_VoteGranted resp).
    - by rewrite (vf_term _ _ _ _ Hgrant).
    - destruct Hgrant as [[_ [= -> _ _] _ _]|[_ [_ [= -> _ _] _ _]]]; [apply Hp|done]. }
  assert (i ∈ ids) as Hids by by apply (iv_dom _ _ Hinv); eexists.
  apply inv_upd; [done|by eexists|..]; cbn [app].
  - apply Forall_singleton. split; [done|]. split; [by apply Hsub|].
    exists resp. split; [done|]. split; [done|]. rewrite Hterm. lia.
  - intros j t a Hne. rewrite (voted_reply _ _ _ _ _ _ _ _ Hd). by intros [?|[? _]].
  - intros t a b. rewrite !(voted_reply _ _ _ _ _ _ _ _ Hd). cbn [j_san RVResp_laws rvr_VoteGranted].
    intros [Ha|(_ & Hg & <- & <-)] [Hb|(_ & Hg' & Et & <-)]; [by eapply (iv_once _ _ Hinv)| | |done].
    + rewrite Hg' in Hgrant. subst t.
      by apply (new_vote_agrees _ _ _ _ _ _ _ _ _ Hinv Hi Hgrant Ha).
    + rewrite Hg in Hgrant. symmetry.
      by apply (new_vote_agrees _ _ _ _ _ _ _ _ _ Hinv Hi Hgrant Hb).
  - destruct (rvr_VoteGranted resp) eqn:Eg.
    + eapply (proc_granted k c i (mkProc n run g)); try done.
      intros t' a. rewrite (voted_reply _ _ _ _ _ _ _ _ Hd). naive_solver.
    + eapply proc_mono; [reflexivity|exact Hsub| |].
      * intros t a. rewrite (voted_reply _ _ _ _ _ _ _ _ Hd). cbn. rewrite Eg. naive_solver.
      * eapply proc_quiet_or_down; [exact Hp|exact Hgrant|lia|].
        eapply run_keep; [apply Hp|exact Hgrant].
Qed.


(** ** Elections *)

Lemma step_begin_inv k c i n g g' el n' : inv k c -> (k + 1 < two64)%N ->
  c_procs c !! i = Some (mkProc n Electing g) -> startElection_begin n = Done (el, n') ->
  inv (k + 1) (upd c i (mkProc n' (Collecting el) g')
    ((fun q => ReqVote (peer_ID q) (el_req el)) <$> el_waiting el)).
Proof.
  intros Hinv Hk Hi Hb. pose proof (iv_proc _ _ Hinv _ _ Hi) as Hp.
  assert (i ∈ ids) as Hids by by apply (iv_dom _ _ Hinv); eexists.
  pose proof (po_id _ _ _ _ Hp) as Eid. simpl in Eid. pose proof (po_term _ _ _ _ Hp) as Hterm.
  eapply wp_elim in Hb; [|apply wp_startElection_begin; [apply Hp|simpl in Hterm; lia]].
  destruct Hb as ([Hc1 Hc2 _] & Hn' & [= E1 E2 E3] & Hsave & Hjok & Et & Ec & Evotes & Equorum & Ewon & Ewait).
  rewrite Eid in Ec. simpl in Hterm.
  assert (forall j t a, voted (((fun q => ReqVote (peer_ID q) (el_req el)) <$> el_waiting el) ++ c_net c) j t a ->
    voted (c_net c) j t a \/ (j = i /\ t = rv_Term (el_req el) /\ a = i)) as Hv.
  { intros j t a. by apply voted_requests. }
  assert (forall t a, voted (c_net c) i t a -> (t < rv_Term (el_req el))%N) as Hold.
  { intros t a Ha. apply (po_voted _ _ _ _ Hp) in Ha as [? _]. simpl in *. lia. }
  apply inv_upd; [done|by eexists|..].
  - apply Forall_fmap, Forall_true. intros q. split; [done|]. rewrite Ec. split; [done|]. lia.
  - intros j t a Hne Ha. by destruct (Hv _ _ _ Ha) as [?|[? _]].
  - intros t a b Ha Hb. destruct (Hv _ _ _ Ha) as [Ha'|(_ & -> & ->)], (Hv _ _ _ Hb) as [Hb'|(_ & Eb & ->)].
    + by eapply (iv_once _ _ Hinv).
    + apply Hold in Ha'. lia.
    + apply Hold in Hb'. lia.
    + done.
  - pose proof (po_peers _ _ _ _ Hp) as Epeers. simpl in Epeers.
    split; simpl; [done| |congruence|congruence|lia| | |congruence].
    + unfold durable. rewrite E1, E2, Eid in *. destruct (id_ok_ids _ Hids) as (_ & ? & ?).
      apply saved_durable; [done|unfold u64_ok; lia|done..].
    + intros t a Ha. destruct (Hv _ _ _ Ha) as [Ha'|(_ & -> & ->)].
      * apply Hold in Ha'. lia.
      * split; [lia|]. intros _. congruence.
    + split; [congruence|lia|intros _; lia|congruence|by rewrite Ewait, Epeers| |].
      * rewrite Ewait, Epeers. by apply (NoDup_cons_1_2 i), peers_nodup.
      * exists []. split_and!; [constructor|apply list_subseteq_nil| |done|by rewrite Ewon].
        by intros v ?%elem_of_nil.
Qed.

Lemma remove_one_sub peer l : remove_one peer l ⊆ l.
Proof.
  induction l as [|q l IH]; simpl; [done|]. case_bool_decide.
  - intros m ?. by constructor.
  - intros m [->|?]%elem_of_cons; [constructor|]. right. by apply IH.
Qed.

Lemma remove_one_nodup peer l : NoDup (peer_ID <$> l) -> peer ∈ l ->
  NoDup (peer_ID <$> remove_one peer l) /\ peer_ID peer ∉ (peer_ID <$> remove_one peer l).
Proof.
  induction l as [|q l IH]; simpl; [by intros _ ?%elem_of_nil|]. rewrite NoDup_cons. intros [Hq Hl] Hin.
  case_bool_decide as Eq; [by subst|]. apply elem_of_cons in Hin as [?|Hin]; [congruence|].
  destruct (IH Hl Hin) as [H1 H2]. rewrite fmap_cons, NoDup_cons. split_and!.
  - intros Hc. apply Hq. apply list_elem_of_fmap in Hc as (x & -> & Hx).
    apply list_elem_of_fmap_2. by apply remove_one_sub in Hx.
  - done.
  - intros [Hc|Hc]%elem_of_cons; [|done]. apply Hq. rewrite <-Hc. by apply list_elem_of_fmap_2.
Qed.

(** Counting one reply keeps the election consistent. *)
Lemma election_count net i n el peer reply el' n' t :
  election_ok net i n el -> peer ∈ el_waiting el -> counts el peer reply el' ->
  quiet_or_down n t n' ->
  (forall resp, reply = inr resp -> rvr_VoteGranted resp = true ->
    voted net (peer_ID peer) (rv_Term (el_req el)) i) ->
  election_ok net i n' el'.
Proof.
  intros Hel Hin (Er & Eq & Ew & Hcount) Hq Hvote.
  pose proof (run_keep net i n n' t (Collecting el) Hel Hq) as Hel'. simpl in Hel'. clear Hel Hq.
  destruct Hel' as [E1 E2 E3 E4 E5 E6 (vs & Hnd & Hsub & Hvs & Hlen & Hwon)].
  destruct (remove_one_nodup peer (el_waiting el) E6 Hin) as [Hnd' Hnin].
  assert (forall v, v ∉ (peer_ID <$> el_waiting el) -> v ∉ (peer_ID <$> remove_one peer (el_waiting el)))
    as Hless.
  { intros v Hv Hc. apply Hv. apply list_elem_of_fmap in Hc as (x & -> & Hx).
    apply list_elem_of_fmap_2. by apply remove_one_sub in Hx. }
  split; rewrite ?Er, ?Eq, ?Ew; try done.
  { etransitivity; [apply remove_one_sub|done]. }
  destruct Hcount as [[-> ->]|(resp & -> & Hg & Ev & Hw)].
  - exists vs. split_and!; try done. intros v Hv. destruct (Hvs v Hv). auto.
  - exists (peer_ID peer :: vs). split_and!.
    + apply NoDup_cons. split; [|done]. intros Hv. destruct (Hvs _ Hv) as [Hc _]. apply Hc.
      by apply list_elem_of_fmap_2.
    + intros v [->|Hv]%elem_of_cons; [|auto]. apply list_elem_of_fmap_2. auto.
    + intros v [->|Hv]%elem_of_cons; [split; [done|eauto]|]. destruct (Hvs v Hv). auto.
    + simpl. congruence.
    + intros Hw'. split; [done|]. destruct (Hw Hw') as [Hw1|]; [|done].
      apply Hwon in Hw1 as [_ ?]. lia.
Qed.

Lemma step_count_inv k c i n g g' el peer r el' n' : inv k c ->
  c_procs c !! i = Some (mkProc n (Collecting el) g) -> peer ∈ el_waiting el ->
  RepVote (peer_ID peer) (el_req el) r ∈ c_net c ->
  startElection_reply el peer (got peer "/raft/request-vote" (el_req el) r) n = Done (el', n') ->
  inv (k + 1) (upd c i (mkProc n' (Collecting el') g') []).
Proof.
  intros Hinv Hi Hin Hrep Hr. pose proof (iv_proc _ _ Hinv _ _ Hi) as Hp.
  pose proof (iv_net _ _ Hinv) as Hnet. rewrite Forall_forall in Hnet.
  destruct (Hnet _ Hrep) as (_ & _ & resp & -> & Hjok & Ht).
  rewrite (got_writeJSON _ _ _ resp Hjok) in Hr.
  eapply wp_elim in Hr; [|apply wp_startElection_reply; [apply Hp|by intros ? [= <-]]].
  destruct Hr as [Hcount Hq]. cbn [rvr_Term j_san RVResp_laws] in Hq.
  eapply inv_quiet_or_down; [done|exact Hi|exact Hq|lia|constructor|constructor|].
  simpl. eapply election_count; [apply Hp|done|exact Hcount|exact Hq|].
  intros resp' [= <-] Hg. left. eexists _, _, _. split; [exact Hrep|].
  split; [exact (Decode_Marshal resp [x0a] Hjok eq_refl)|]. split_and!; try done.
  apply (po_run _ _ _ _ Hp).
Qed.

Lemma step_novote_inv k c i n g g' el peer err el' n' : inv k c ->
  c_procs c !! i = Some (mkProc n (Collecting el) g) -> peer ∈ el_waiting el ->
  startElection_reply el peer (inl err) n = Done (el', n') ->
  inv (k + 1) (upd c i (mkProc n' (Collecting el') g') []).
Proof.
  intros Hinv Hi Hin Hr. pose proof (iv_proc _ _ Hinv _ _ Hi) as Hp.
  eapply wp_elim in Hr; [|apply wp_startElection_reply; [apply Hp|done]].
  destruct Hr as [Hcount Hq]. assert (quiet_or_down n 0 n') as Hq' by by left.
  eapply inv_quiet_or_down; [done|exact Hi|exact Hq'|lia|constructor|constructor|].
  simpl. by eapply election_count; [apply Hp|done|exact Hcount|exact Hq'|].
Qed.

(** A candidate whose counter reached the quorum has the votes of a majority,
    when the cluster is odd. *)
Lemma won_majority k c i n el : inv k c -> Nat.odd (length ids) = true -> i ∈ ids ->
  election_ok (c_net c) i n el -> el_won el = true ->
  majority_for (c_net c) i (rv_Term (el_req el)).
Proof.
  intros Hinv Hodd Hi [_ _ _ Hquorum _ _ (vs & Hnd & Hsub & Hvs & Hlen & Hwon)] Hw.
  destruct (Hwon Hw) as [Hne Hge]. destruct vs as [|v vs]; [done|].
  pose proof (peers_nodup i Hi) as Hpn. apply NoDup_cons in Hpn as [Hself _].
  exists (i :: v :: vs). split_and!.
  - apply NoDup_cons. split; [|done]. intros Hc. by apply Hself, Hsub.
  - intros x Hx. rewrite <-(peers_perm i Hi). apply elem_of_cons in Hx as [->|Hx]; [constructor|].
    apply elem_of_cons. right. by apply Hsub.
  - intros x [->|Hx]%elem_of_cons; [|by apply Hvs].
    eapply voted_self; [exact Hinv|]. apply (Hvs v). constructor.
  - unfold is_majority. rewrite Hquorum, Hlen in Hge. unfold election_quorum in Hge.
    rewrite (peers_length i Hi) in Hodd |- *.
    apply Nat.odd_spec in Hodd as [m Hm]. cbn [length] in *.
    assert (length (peers_of i) = m * 2)%nat as Hp2 by lia. rewrite Hp2, Nat.div_mul in Hge by done. lia.
Qed.

Lemma step_end_inv k c i n g g' el n' : inv k c -> Nat.odd (length ids) = true ->
  c_procs c !! i = Some (mkProc n (Collecting el) g) ->
  startElection_end el n = Done (tt, n') ->
  inv (k + 1) (upd c i (mkProc n' Idle g') []).
Proof.
  intros Hinv Hodd Hi Hr. pose proof (iv_proc _ _ Hinv _ _ Hi) as Hp.
  assert (i ∈ ids) as Hids by by apply (iv_dom _ _ Hinv); eexists.
  eapply wp_elim in Hr; [|apply wp_startElection_end, Hp].
  destruct Hr as ([Hc1 Hc2 _] & Hn' & Hmeta & [= E1 E2 E3]).
  pose proof Hp as [P1 Pd P2 P3 P4 P5 P6 P7]. simpl in *.
  apply inv_upd; [done|by eexists|constructor|done| |].
  - intros t a b. apply (iv_once _ _ Hinv).
  - cbn [app]. split; simpl; [done| |congruence|congruence|lia| |done|].
    + unfold durable. by rewrite E1, E2, Hmeta.
    + rewrite E1, E2. done.
    + rewrite E1, E3. destruct (el_won el) eqn:Ew; simpl; [|done].
      case_bool_decide as Hst; [|done]. intros _. rewrite (eo_current _ _ _ _ P6 Hst).
      by eapply won_majority.
Qed.

(** ** The other steps *)

(** A step that keeps the event loop where it is. *)
Lemma inv_keep k c i n run g g' n' msgs t : inv k c -> c_procs c !! i = Some (mkProc n run g) ->
  quiet_or_down n t n' -> (t <= k + 1)%N -> Forall no_vote msgs ->
  Forall (msg_ok (k + 1) (msgs ++ c_net c)) msgs ->
  inv (k + 1) (upd c i (mkProc n' run g') msgs).
Proof.
  intros Hinv Hi Hq Ht Hnv Hmsgs. eapply inv_quiet_or_down; [done..|].
  eapply run_keep; [apply (iv_proc _ _ Hinv _ _ Hi)|exact Hq].
Qed.

Lemma quiet_term k c i n run g t n' : inv k c -> c_procs c !! i = Some (mkProc n run g) ->
  quiet_or_down n t n' -> (t <= k)%N -> (n_currentTerm n' <= k)%N.
Proof.
  intros Hinv Hi Hq Ht. pose proof (po_term _ _ _ _ (iv_proc _ _ Hinv _ _ Hi)) as Hn. simpl in Hn.
  destruct Hq as [[_ [= -> _ _] _ _]|[_ [_ [= -> _ _] _ _]]]; done.
Qed.

Lemma step_replicate_inv k c i n run g g' peer ts call nr n' : inv k c ->
  c_procs c !! i = Some (mkProc n run g) ->
  replicateToPeer_prepare peer (set_tasks ts n) = Done (call, n') ->
  inv (k + 1) (upd c i (mkProc n' run g') (call_msg nr (peer_ID peer) call)).
Proof.
  intros Hinv Hi Hr. pose proof (iv_proc _ _ Hinv _ _ Hi) as Hp.
  pose proof (po_term _ _ _ _ Hp) as Ht. simpl in Ht.
  pose proof (quiet_tasks n ts (po_inv _ _ _ _ Hp)) as Hq.
  eapply wp_elim in Hr; [|apply wp_replicateToPeer_prepare, Hq]. destruct Hr as [-> Hcall].
  eapply (inv_keep _ _ _ _ _ _ _ _ _ 0%N); [done|exact Hi|left; exact Hq|lia|..];
    destruct call as [[idx req|req]|]; simpl; try apply Forall_nil_2; apply Forall_singleton; try done;
    destruct (Hcall _ eq_refl) as (_ & Et & Hj); (split; [exact Hj|rewrite Et; simpl; lia]).
Qed.

Lemma step_append_inv k c i n run g g' nr req r n' : inv k c ->
  c_procs c !! i = Some (mkProc n run g) -> ReqAppend nr i req ∈ c_net c ->
  api_handleAppendEntries (Marshal req) n = Done (r, n') ->
  inv (k + 1) (upd c i (mkProc n' run g') [RepAppend nr r]).
Proof.
  intros Hinv Hi Hreq. pose proof (iv_proc _ _ Hinv _ _ Hi) as Hp.
  pose proof (iv_net _ _ Hinv) as Hnet. rewrite Forall_forall in Hnet.
  destruct (Hnet _ Hreq) as [Hok Ht]. pose proof (Decode_body req Hok) as Hd.
  unfold api_handleAppendEntries. rewrite Hd. apply Decode_ok in Hd as Hok'.
  intros (resp & Hr & ->)%Done_bind_ret.
  eapply wpe_elim in Hr; [|by apply wpe_HandleAppendEntries; [apply Hp|]].
  destruct Hr as (Hq & Hterm & Hjok). cbn [j_san AEReq_laws ae_Term] in Hq.
  pose proof (quiet_term _ _ _ _ _ _ _ _ Hinv Hi Hq Ht).
  eapply inv_keep; [done|exact Hi|exact Hq|lia|by apply Forall_singleton|].
  apply Forall_singleton. exists resp. split; [done|]. split; [done|]. rewrite Hterm. lia.
Qed.

Lemma step_append_reply_inv k c i n run g g' peer nr (req : AppendEntriesRequest) r n' : inv k c ->
  c_procs c !! i = Some (mkProc n run g) -> RepAppend nr r ∈ c_net c ->
  replicateToPeer_append_reply peer (got peer "/raft/append-entries" req r) n = Done (tt, n') ->
  inv (k + 1) (upd c i (mkProc n' run g') []).
Proof.
  intros Hinv Hi Hrep Hr. pose proof (iv_proc _ _ Hinv _ _ Hi) as Hp.
  pose proof (iv_net _ _ Hinv) as Hnet. rewrite Forall_forall in Hnet.
  destruct (Hnet _ Hrep) as (resp & -> & Hjok & Ht).
  rewrite (got_writeJSON _ _ _ resp Hjok) in Hr.
  eapply wp_elim in Hr; [|apply wp_replicateToPeer_append_reply; [apply Hp|by intros ? [= <-]]].
  cbn [j_san AEResp_laws aer_Term] in Hr. eapply inv_keep; [done|exact Hi|exact Hr|lia|constructor..].
Qed.

Lemma step_install_inv k c i n run g g' nr req r n' : inv k c ->
  c_procs c !! i = Some (mkProc n run g) -> ReqSnapshot nr i req ∈ c_net c ->
  api_handleInstallSnapshot (Marshal req) n = Done (r, n') ->
  inv (k + 1) (upd c i (mkProc n' run g') [RepSnapshot nr r]).
Proof.
  intros Hinv Hi Hreq. pose proof (iv_proc _ _ Hinv _ _ Hi) as Hp.
  pose proof (iv_net _ _ Hinv) as Hnet. rewrite Forall_forall in Hnet.
  destruct (Hnet _ Hreq) as [Hok Ht]. pose proof (Decode_body req Hok) as Hd.
  unfold api_handleInstallSnapshot. rewrite Hd. apply Decode_ok in Hd as Hok'.
  intros (resp & Hr & ->)%Done_bind_ret.
  eapply wpe_elim in Hr; [|by apply wpe_HandleInstallSnapshot; [apply Hp|]].
  destruct Hr as (Hq & Hterm). cbn [j_san ISReq_laws is_Term] in Hq.
  pose proof (po_term _ _ _ _ Hp) as Hle. simpl in Hle.
  eapply inv_keep; [done|exact Hi|exact Hq|lia|by apply Forall_singleton|].
  apply Forall_singleton. exists resp. split; [done|]. split; [|rewrite Hterm; lia].
  simpl. rewrite Hterm. apply Hp.
Qed.

Lemma step_install_reply_inv k c i n run g g' peer nr idx (req : InstallSnapshotRequest) r n' : inv k c ->
  c_procs c !! i = Some (mkProc n run g) -> RepSnapshot nr r ∈ c_net c ->
  replicateToPeer_snapshot_reply peer idx (got peer "/raft/install-snapshot" req r) n = Done (tt, n') ->
  inv (k + 1) (upd c i (mkProc n' run g') []).
Proof.
  intros Hinv Hi Hrep Hr. pose proof (iv_proc _ _ Hinv _ _ Hi) as Hp.
  pose proof (iv_net _ _ Hinv) as Hnet. rewrite Forall_forall in Hnet.
  destruct (Hnet _ Hrep) as (resp & -> & Hjok & Ht).
  rewrite (got_writeJSON _ _ _ resp Hjok) in Hr.
  apply replicateToPeer_snapshot_reply_spec in Hr; [|apply Hp|by intros ? [= <-]].
  cbn [j_san ISResp_laws isr_Term] in Hr. eapply inv_keep; [done|exact Hi|exact Hr|lia|constructor..].
Qed.

(** A step that sends nothing and keeps term, vote and role. *)
Lemma inv_quiet k c i n run g g' n' : inv k c -> c_procs c !! i = Some (mkProc n run g) ->
  (node_inv n -> quiet n n') -> inv (k + 1) (upd c i (mkProc n' run g') []).
Proof.
  intros Hinv Hi Hq. pose proof (iv_proc _ _ Hinv _ _ Hi) as Hp.
  eapply (inv_keep _ _ _ _ _ _ _ _ _ 0%N); [done|exact Hi|left; apply Hq, Hp|lia|constructor|constructor].
Qed.

(** The same for the event loop, which is not in an election before or after. *)
Lemma inv_quiet_loop k c i n run run' g g' n' : inv k c -> c_procs c !! i = Some (mkProc n run g) ->
  (node_inv n -> quiet n n') -> match run' with Collecting _ => False | _ => True end ->
  inv (k + 1) (upd c i (mkProc n' run' g') []).
Proof.
  intros Hinv Hi Hq Hrun. pose proof (iv_proc _ _ Hinv _ _ Hi) as Hp.
  eapply (inv_quiet_or_down _ _ _ _ _ _ _ _ 0%N); [done|exact Hi|left; apply Hq, Hp|lia|constructor|constructor|].
  by destruct run'.
Qed.

Lemma call_failed_quiet n n' peer call err : node_inv n -> call_failed peer call err n = Done (tt, n') ->
  quiet n n'.
Proof. intros Hn. destruct call; intros [= <-]; by apply quiet_refl. Qed.

Lemma step_restart_inv k c i n run g g' store rand n0 n' : inv k c ->
  c_procs c !! i = Some (mkProc n run g) ->
  NewRaftNode (fun _ => None) (fun _ => inr (rl_db (n_raftLog n))) (cfg_of i) store rand = inr n0 ->
  Start n0 = Done (tt, n') ->
  inv (k + 1) (upd c i (mkProc n' Idle g') []).
Proof.
  intros Hinv Hi Hnew Hr. pose proof (iv_proc _ _ Hinv _ _ Hi) as Hp.
  assert (i ∈ ids) as Hids by by apply (iv_dom _ _ Hinv); eexists.
  apply NewRaftNode_spec in Hnew; [|apply Hp|by apply Hcf].
  eapply wp_elim in Hr; [|exact Hnew]. destruct Hr as (Hn' & E3 & Hd & Hm & Eid & _ & Epeers).
  destruct Hp as [P1 Pd P2 P3 P4 P5 P6 P7]. simpl in *.
  assert (n_currentTerm n' = n_currentTerm n /\ n_votedFor n' = n_votedFor n) as [E1 E2].
  { unfold durable in *. rewrite Hm, Pd in Hd. by injection Hd. }
  apply inv_upd; [done|by eexists|constructor|done| |].
  - intros t a b. apply (iv_once _ _ Hinv).
  - cbn [app]. split; simpl; [done|done| |done|lia| |done|congruence].
    + rewrite Eid. by apply Hcf.
    + rewrite E1, E2. done.
Qed.

(** ** Every reachable cluster satisfies the invariant *)

Lemma initial_inv c : initial ids cfg_of c -> inv 0 c.
Proof.
  intros [Hnet Hprocs]. split.
  - intros i. specialize (Hprocs i). destruct (c_procs c !! i) as [p|].
    + destruct Hprocs. split; [done|by eexists].
    + split; [by intros []|done].
  - rewrite Hnet. constructor.
  - intros i p Hi. specialize (Hprocs i). rewrite Hi in Hprocs.
    destruct Hprocs as (Hids & db & store & rand & n0 & Hdb & Hnew & Hstart & Hrun & _).
    apply NewRaftNode_fresh in Hnew; [|done|by apply Hcf].
    eapply wp_elim in Hstart; [|exact Hnew]. destruct Hstart as (Hn & [= E1 E2 E3] & Hd & Eid & _ & Ep).
    split; rewrite ?Hnet, ?Hrun; try done.
    + rewrite Eid. by apply Hcf.
    + rewrite E1. done.
    + intros t a [(? & ? & ? & []%elem_of_nil & _)|(_ & ? & ? & []%elem_of_nil & _)].
    + by rewrite E3.
  - intros j t a b. rewrite Hnet. intros [(? & ? & ? & []%elem_of_nil & _)|(_ & ? & ? & []%elem_of_nil & _)].
Qed.

Lemma step_inv k c c' : inv k c -> (k + 1 < two64)%N -> Nat.odd (length ids) = true ->
  step cfg_of c c' -> inv (k + 1) c'.
Proof.
  intros Hinv Hk Hodd. destruct 1.
  - eapply inv_quiet_loop; [done..| |by destruct b]. intros Hn.
    eapply wp_elim in H1; [|by apply wp_run_election_tick]. apply H1.
  - by eapply step_begin_inv.
  - by eapply step_count_inv.
  - by eapply step_novote_inv.
  - by eapply step_end_inv.
  - eapply inv_quiet_loop; [done..| |by destruct b]. intros Hn.
    by eapply wp_elim in H1; [|apply wp_run_heartbeat_tick].
  - eapply inv_quiet_loop; [done..| |done]. intros Hn.
    by eapply wp_elim in H0; [|apply wp_broadcastAppendEntries].
  - by eapply step_vote_inv.
  - by eapply step_append_inv.
  - by eapply step_install_inv.
  - by eapply step_replicate_inv.
  - by eapply step_append_reply_inv.
  - by eapply step_install_reply_inv.
  - eapply inv_quiet; [done..|]. intros Hn. by eapply call_failed_quiet.
  - eapply inv_quiet; [done..|]. intros Hn. pose proof (quiet_tasks n (ts1 ++ ts2) Hn) as Hq.
    eapply quiet_trans; [exact Hq|]. by eapply wlp_elim in H1; [|apply wlp_applyCommitted_quiet, Hq].
  - eapply inv_quiet; [done..|]. intros Hn. injection H1 as _ <-. by apply quiet_tasks.
  - eapply inv_quiet; [done..|]. intros Hn. by eapply wpe_elim in H2; [|apply wpe_takeSnapshot_commit].
  - eapply inv_quiet; [done..|]. intros Hn. by eapply wp_elim in H0; [|apply wp_Propose_begin].
  - eapply inv_quiet; [done..|]. intros Hn. by eapply wp_elim in H0; [|apply wp_broadcastAppendEntries].
  - eapply inv_quiet; [done..|]. intros Hn. by eapply wp_elim in H1; [|apply wp_Propose_end].
  - by eapply step_restart_inv.
Qed.

Lemma reachable_inv k c : Nat.odd (length ids) = true -> (N.of_nat k < two64)%N ->
  reachable ids cfg_of k c -> inv (N.of_nat k) c.
Proof.
  intros Hodd Hk Hr. induction Hr as [c Hc|k c c' Hr IH Hstep]; [by apply initial_inv|].
  replace (N.of_nat (S k)) with (N.of_nat k + 1)%N by lia.
  eapply step_inv; [apply IH; lia|lia|done|done].
Qed.

Lemma inv_one_leader k c i j t : inv k c -> leader_at c i t -> leader_at c j t -> i = j.
Proof.
  intros Hinv (p & Hi & Hpl & <-) (q & Hj & Hql & Et).
  destruct (po_leader _ _ _ _ (iv_proc _ _ Hinv i p Hi) Hpl) as (vs & Hn1 & Hs1 & Hv1 & Hm1).
  destruct (po_leader _ _ _ _ (iv_proc _ _ Hinv j q Hj) Hql) as (ws & Hn2 & Hs2 & Hv2 & Hm2).
  destruct (majorities_intersect ids vs ws) as (v & Hv & Hw); [done..|].
  eapply (iv_once _ _ Hinv v); [by apply Hv1|]. rewrite <-Et. by apply Hv2.
Qed.
End election.

(** ** Properties *)

Import MapBolt.

(** C1: election safety.  In a correctly configured cluster with an odd number of
    nodes whose databases commit (a transaction whose function returns nil is
    committed), no execution of fewer than 2^64 steps, with any loss, repetition
    and reordering of messages and any crashes between critical sections, and in
    which no critical section panics, has two leaders in the same term. *)
Theorem election_safety {B : Bolt} {L : BoltLaws B} {Rel : BoltReliable B}
    {E : Type} {X : Engine E} ids cfg_of k (c : Cluster B E) i j t :
  configured ids cfg_of -> Nat.odd (length ids) = true -> (N.of_nat k < two64)%N ->
  reachable ids cfg_of k c -> leader_at c i t -> leader_at c j t -> i = j.
Proof.
  intros Hcf Hodd Hk Hr. eapply inv_one_leader. by eapply reachable_inv.
Qed.

(** In the cluster of a, b and c there is an execution that makes a the leader
    of term 1, and no other node can then be. *)
Lemma election_safety_witness :
  exists c : Cluster reliable_bolt MemoryEngine,
    reachable three (example_cfg three) 6 c /\ leader_at c "a" 1 /\
    forall j, leader_at c j 1 -> "a" = j.
Proof.
  destruct (ends_with_reachable three (elect "a" ["b"] ["c"]) (fun c => is_leader_at c "a" 1))
    as (c & Hr & Ht); [by vm_compute|].
  exists c. apply is_leader_at_spec in Ht. split; [exact Hr|]. split; [exact Ht|].
  intros j Hj. exact (election_safety three (example_cfg three) 6 c "a" j 1 three_configured
    eq_refl ltac:(by vm_compute) Hr Ht Hj).
Defined.

(** C8: durable votes.  In every state such a cluster, whose databases commit,
    reaches in fewer than 2^64 steps without a panic, the term and the vote of
    every node are the ones on its disk; a node restarted at that moment on that
    disk does come back, as a follower, with both. *)
Theorem votes_durable {B : Bolt} {L : BoltLaws B} {Rel : BoltReliable B}
    {E : Type} {X : Engine E} ids cfg_of k (c : Cluster B E) i p store rand :
  configured ids cfg_of -> Nat.odd (length ids) = true -> (N.of_nat k < two64)%N ->
  reachable ids cfg_of k c -> c_procs c !! i = Some p ->
  let n := p_node p in
  LoadMeta (n_raftLog n) = inr (n_currentTerm n, n_votedFor n) /\
  exists n0 n' : RaftNode B E, NewRaftNode (fun _ => None) (fun _ => inr (rl_db (n_raftLog n))) (cfg_of i) store rand
      = inr n0 /\ Start n0 = Done (tt, n') /\
    n_currentTerm n' = n_currentTerm n /\ n_votedFor n' = n_votedFor n /\ n_state n' = Follower.
Proof.
  intros Hcf Hodd Hk Hr Hi n. pose proof (reachable_inv ids cfg_of Hcf k c Hodd Hk Hr) as Hinv.
  pose proof (iv_proc _ _ _ _ Hinv i p Hi) as Hp. pose proof (po_inv _ _ _ _ _ _ Hp) as Hn.
  pose proof (po_durable _ _ _ _ _ _ Hp) as Hd. split; [exact Hd|].
  assert (i ∈ ids) as Hids by by apply (iv_dom _ _ _ _ Hinv); eexists.
  destruct (NewRaftNode_ok n (cfg_of i) store rand Hn) as [n0 Hn0]. exists n0.
  pose proof (NewRaftNode_spec n n0 (cfg_of i) store rand Hn (cf_timers _ _ Hcf i Hids) Hn0) as Hs.
  apply wp_run in Hs as ([] & n' & Hs & _ & Hf & Hd' & Hm & _). exists n'.
  unfold durable in Hd, Hd'. fold n in Hd. rewrite Hm, Hd in Hd'. injection Hd' as <- <-. done.
Qed.

Lemma votes_durable_witness :
  exists (c : Cluster reliable_bolt MemoryEngine) p,
    c_procs c !! "b" = Some p /\ n_votedFor (p_node p) = "a" /\
    LoadMeta (n_raftLog (p_node p)) = inr (1%N, "a").
Proof.
  destruct (ends_with_reachable three (elect "a" ["b"] ["c"])
    (fun c => match c_procs c !! "b" with
              | Some p => bool_decide (n_votedFor (p_node p) = "a") && (n_currentTerm (p_node p) =? 1)%N
              | None => false end)) as (c & Hr & Ht); [by vm_compute|].
  exists c. destruct (c_procs c !! "b") as [p|] eqn:Hb; [|done]. bool_props. exists p.
  split; [done|]. split; [done|].
  destruct (votes_durable three (example_cfg three) 6 c "b" p NewMemoryEngine [] three_configured
    eq_refl ltac:(by vm_compute) Hr Hb) as [H' _].
  rewrite H'. congruence.
Defined.
